(** * Segmentation losses of [libs/Loss.py], embedded in Rocq

    The module is pure tensor arithmetic.  Tensors are modelled as nested
    lists (one nesting level per axis, row-major like a contiguous torch
    tensor) and floating-point numbers are idealised as real numbers: the
    development is about the formulas the code evaluates, not about rounding,
    [inf] or [nan].  Python exceptions are values of an error type, so that a
    function that raises returns no value.

    Conventions of the embedding:
    - a tensor is regular when all sub-tensors of an axis have one shape; torch
      only builds regular tensors, and the statements below assume it where it
      matters ([has_shape]);
    - an axis of length zero is [Dim []]; the shape behind an empty axis is not
      recorded, so statements are about tensors without empty axes wherever the
      shape is read back;
    - division is the total division of [R]; a statement whose value would be
      [nan] or [inf] in floating point carries the hypothesis that excludes it
      (positive smoothing, non-empty mean). *)

From Stdlib Require Import String.
From Stdlib Require Import Reals Lra Lia List ZArith Bool Permutation.
Import ListNotations.
Open Scope R_scope.

#[local] Set Warnings "-register-all".

(** ** Python exceptions and the error monad *)

Inductive exn : Type :=
| NotImplementedError
| TypeError
| ValueError
| RuntimeError
| IndexError
| ZeroDivisionError.

Inductive result (A : Type) : Type :=
| Ok (a : A)
| Raise (e : exn).
Arguments Ok {A} a.
Arguments Raise {A} e.

Definition bind {A B} (c : result A) (k : A -> result B) : result B :=
  match c with
  | Ok a => k a
  | Raise e => Raise e
  end.

Notation "x <- c ;; k" := (bind c (fun x => k))
  (at level 61, c at next level, right associativity).
Notation "' p <- c ;; k" := (bind c (fun x => let p := x in k))
  (at level 61, p pattern, c at next level, right associativity).

Definition raises {A} (c : result A) : Prop := exists e, c = Raise e.

Fixpoint mapM {A B} (f : A -> result B) (l : list A) : result (list B) :=
  match l with
  | [] => Ok []
  | a :: l' => b <- f a ;; bs <- mapM f l' ;; Ok (b :: bs)
  end.

Fixpoint map2 {A B C} (f : A -> B -> C) (la : list A) (lb : list B) : list C :=
  match la, lb with
  | a :: la', b :: lb' => f a b :: map2 f la' lb'
  | _, _ => []
  end.

(** ** Tensors *)

Inductive tensor (A : Type) : Type :=
| Scalar (x : A)
| Dim (l : list (tensor A)).
Arguments Scalar {A} x.
Arguments Dim {A} l.

(** [t.shape], [len(t.shape)] and [t.numel()] *)
Fixpoint size {A} (t : tensor A) : list nat :=
  match t with
  | Scalar _ => []
  | Dim l => length l :: match l with [] => [] | t0 :: _ => size t0 end
  end.

Definition rank {A} (t : tensor A) : nat := length (size t).

(** the entries in row-major order *)
Fixpoint data {A} (t : tensor A) : list A :=
  match t with
  | Scalar x => [x]
  | Dim l => flat_map data l
  end.

Definition numel {A} (t : tensor A) : nat := length (data t).

Definition prod (s : list nat) : nat := fold_right Nat.mul 1%nat s.

Fixpoint has_shape {A} (s : list nat) (t : tensor A) : bool :=
  match s, t with
  | [], Scalar _ => true
  | n :: s', Dim l => (length l =? n)%nat && forallb (has_shape s') l
  | _, _ => false
  end.

(** [torch.full(s, v)]; [torch.zeros(s)] is [full s 0] *)
Fixpoint full {A} (s : list nat) (v : A) : tensor A :=
  match s with
  | [] => Scalar v
  | n :: s' => Dim (repeat (full s' v) n)
  end.

Definition zeros (s : list nat) : tensor R := full s 0.

(** a pointwise function of one tensor *)
Fixpoint tmap {A B} (f : A -> B) (t : tensor A) : tensor B :=
  match t with
  | Scalar x => Scalar (f x)
  | Dim l => Dim (map (tmap f) l)
  end.

(** a pointwise function of two tensors of one shape of rank [n] *)
Fixpoint zip_at {A B C} (n : nat) (f : A -> B -> C)
    (a : tensor A) (b : tensor B) : tensor C :=
  match n, a, b with
  | O, Scalar x, Scalar y => Scalar (f x y)
  | S n', Dim la, Dim lb => Dim (map2 (zip_at n' f) la lb)
  | _, _, _ => Dim []
  end.

(** *** Broadcasting

    torch aligns the two shapes at their last axis; two lengths are compatible
    when they are equal or one of them is 1. *)

Fixpoint broadcast_rev (r1 r2 : list nat) : result (list nat) :=
  match r1, r2 with
  | [], r => Ok r
  | r, [] => Ok r
  | n1 :: r1', n2 :: r2' =>
      rest <- broadcast_rev r1' r2' ;;
      if (n1 =? n2)%nat then Ok (n1 :: rest)
      else if (n1 =? 1)%nat then Ok (n2 :: rest)
      else if (n2 =? 1)%nat then Ok (n1 :: rest)
      else Raise RuntimeError
  end.

Definition broadcast_shapes (s1 s2 : list nat) : result (list nat) :=
  r <- broadcast_rev (rev s1) (rev s2) ;; Ok (rev r).

(** [t.expand(s)] for a shape [s] that [t] broadcasts to *)
Fixpoint expand {A} (s : list nat) (t : tensor A) : tensor A :=
  match s with
  | [] => t
  | n :: s' =>
      if (rank t <? length s)%nat then Dim (repeat (expand s' t) n)
      else match t with
           | Scalar _ => t
           | Dim [t0] => Dim (repeat (expand s' t0) n)
           | Dim l => Dim (map (expand s') l)
           end
  end.

(** a binary pointwise operator of torch, [a + b], [a * b], [a < b], ... *)
Definition tbin {A B C} (f : A -> B -> C) (a : tensor A) (b : tensor B)
    : result (tensor C) :=
  s <- broadcast_shapes (size a) (size b) ;;
  Ok (zip_at (length s) f (expand s a) (expand s b)).

Definition tadd := tbin Rplus.
Definition tsub := tbin Rminus.
Definition tmul := tbin Rmult.
Definition tdiv := tbin Rdiv.

(** *** Views *)

Fixpoint chunks {A} (n k : nat) (d : list A) : list (list A) :=
  match n with
  | O => []
  | S n' => firstn k d :: chunks n' k (skipn k d)
  end.

Fixpoint build {A} (s : list nat) (d : list A) : result (tensor A) :=
  match s with
  | [] => match d with
          | [x] => Ok (Scalar x)
          | _ => Raise RuntimeError
          end
  | n :: s' => l <- mapM (build s') (chunks n (prod s') d) ;; Ok (Dim l)
  end.

(** [t.view(s)] on a contiguous tensor *)
Definition view {A} (s : list nat) (t : tensor A) : result (tensor A) :=
  if (prod s =? numel t)%nat then build s (data t) else Raise RuntimeError.

(** [t.view(-1, c)]: the free axis is inferred from the number of entries *)
Definition view_rows {A} (c : nat) (t : tensor A) : result (tensor A) :=
  if (c =? 0)%nat then Raise RuntimeError
  else if (numel t mod c =? 0)%nat then view [(numel t / c)%nat; c] t
  else Raise RuntimeError.

(** [t.view(-1,)] *)
Definition view_flat {A} (t : tensor A) : tensor A := Dim (map Scalar (data t)).

(** *** Reductions *)

Definition Rsum (l : list R) : R := fold_right Rplus 0 l.

(** [t.sum()] and [t.mean()] over all entries, a 0-d tensor *)
Definition sum_all (t : tensor R) : R := Rsum (data t).
Definition mean (t : tensor R) : tensor R :=
  Scalar (sum_all t / INR (numel t)).

(** the shape of the sub-tensors of the first axis *)
Definition inner_size {A} (t : tensor A) : list nat := tl (size t).

(** the reduction of the sub-tensors of one axis with a pointwise operator *)
Definition reduce_axis0 (f : R -> R -> R) (unit : tensor R) (l : list (tensor R))
    (r : nat) : tensor R :=
  fold_right (zip_at r f) unit l.

(** [t.sum(ax, keepdim)] on a tensor of rank at least 1 *)
Fixpoint sum_axis (ax : nat) (keepdim : bool) (t : tensor R) : result (tensor R) :=
  match t with
  | Scalar _ => Raise IndexError
  | Dim l =>
      match ax with
      | O =>
          let s := inner_size t in
          let r := reduce_axis0 Rplus (zeros s) l (length s) in
          Ok (if keepdim then Dim [r] else r)
      | S ax' => l' <- mapM (sum_axis ax' keepdim) l ;; Ok (Dim l')
      end
  end.

(** [t.sum(ax, keepdim)]: a 0-d tensor accepts the axis 0 and is its own sum *)
Definition tsum (ax : nat) (keepdim : bool) (t : tensor R) : result (tensor R) :=
  match t with
  | Scalar _ => if (ax =? 0)%nat then Ok t else Raise IndexError
  | Dim _ => sum_axis ax keepdim t
  end.

(** [t.max(ax, keepdim=True)[0]]: the maximum over an empty axis is an error *)
Fixpoint max_axis_keepdim (ax : nat) (t : tensor R) : result (tensor R) :=
  match t with
  | Scalar _ => Raise IndexError
  | Dim l =>
      match ax with
      | O =>
          match l with
          | [] => Raise IndexError
          | t0 :: l' =>
              Ok (Dim [fold_left (zip_at (rank t0) Rmax) l' t0])
          end
      | S ax' => l' <- mapM (max_axis_keepdim ax') l ;; Ok (Dim l')
      end
  end.

(** [t.repeat( *rpt )] *)
Fixpoint trepeat {A} (rpt : list nat) (t : tensor A) : tensor A :=
  match rpt with
  | [] => t
  | r :: rpt' =>
      if (rank t <? length rpt)%nat then Dim (repeat (trepeat rpt' t) r)
      else match t with
           | Scalar _ => t
           | Dim l => Dim (concat (repeat (map (trepeat rpt') l) r))
           end
  end.

Definition repeat_ {A} (rpt : list nat) (t : tensor A) : result (tensor A) :=
  if (length rpt <? rank t)%nat then Raise RuntimeError else Ok (trepeat rpt t).

(** *** Indexing, slicing, transposition *)

Definition undim {A} (t : tensor A) : result (list (tensor A)) :=
  match t with
  | Scalar _ => Raise IndexError
  | Dim l => Ok l
  end.

(** [t[1:]] and [t[:, 1:]] *)
Definition slice_from1 {A} (t : tensor A) : result (tensor A) :=
  l <- undim t ;; Ok (Dim (tl l)).

Definition slice_from1_axis1 {A} (t : tensor A) : result (tensor A) :=
  l <- undim t ;; l' <- mapM slice_from1 l ;; Ok (Dim l').

(** [t[:, 0]] *)
Definition select0_axis1 {A} (t : tensor A) : result (tensor A) :=
  l <- undim t ;;
  l' <- mapM (fun row => r <- undim row ;;
                match r with
                | [] => Raise IndexError
                | c0 :: _ => Ok c0
                end) l ;;
  Ok (Dim l').

Fixpoint transpose_ll {A} (rows : list (list A)) : list (list A) :=
  match rows with
  | [] => []
  | r :: rows' =>
      match rows' with
      | [] => map (fun x => [x]) r
      | _ :: _ => map2 cons r (transpose_ll rows')
      end
  end.

(** the exchange of the first two axes *)
Definition swap01 {A} (t : tensor A) : result (tensor A) :=
  l <- undim t ;; rows <- mapM undim l ;; Ok (Dim (map Dim (transpose_ll rows))).

(** [t.transpose(i, i + 1)] *)
Fixpoint transpose_adj {A} (i : nat) (t : tensor A) : result (tensor A) :=
  match i with
  | O => swap01 t
  | S i' => l <- undim t ;; l' <- mapM (transpose_adj i') l ;; Ok (Dim l')
  end.

(** [t.transpose(i0, i1)]: an exchange of two axes is a chain of exchanges of
    neighbours, up from [i0] to [i1] and back down *)
Fixpoint axis_up {A} (i n : nat) (t : tensor A) : result (tensor A) :=
  match n with
  | O => Ok t
  | S n' => t' <- transpose_adj i t ;; axis_up (S i) n' t'
  end.

Fixpoint axis_down {A} (i n : nat) (t : tensor A) : result (tensor A) :=
  match n with
  | O => Ok t
  | S n' => t' <- axis_down (S i) n' t ;; transpose_adj i t'
  end.

Definition transpose {A} (i0 i1 : nat) (t : tensor A) : result (tensor A) :=
  let lo := Nat.min i0 i1 in
  let hi := Nat.max i0 i1 in
  if (rank t <=? hi)%nat then Raise IndexError
  else t' <- axis_up lo (hi - lo) t ;; axis_down lo (hi - lo - 1) t'.

(** [torch.unbind(t, dim=1)] and [torch.stack(ts, dim=1)] *)
Definition unbind1 {A} (t : tensor A) : result (list (tensor A)) :=
  t' <- swap01 t ;; undim t'.

Definition same_sizes {A} (ts : list (tensor A)) : bool :=
  match ts with
  | [] => false
  | t0 :: ts' => forallb (fun t => if list_eq_dec Nat.eq_dec (size t) (size t0)
                                  then true else false) ts'
  end.

Definition stack1 {A} (ts : list (tensor A)) : result (tensor A) :=
  if same_sizes ts then swap01 (Dim ts) else Raise RuntimeError.

(** *** Integer conversion and scatter *)

(** Python's and torch's conversion of a float to an integer truncates
    towards zero *)
Definition trunc (x : R) : Z :=
  if Rle_dec 0 x then Int_part x else (- Int_part (- x))%Z.

(** [t.long()] *)
Definition long (t : tensor R) : tensor Z := tmap trunc t.

Fixpoint zip_prefix {A B} (f : A -> B -> B) (la : list A) (lb : list B) : list B :=
  match la, lb with
  | a :: la', b :: lb' => f a b :: zip_prefix f la' lb'
  | _, _ => lb
  end.

(** the entries of [t] whose index entry is [c] are set to [v] *)
Fixpoint set_where (n : nat) (c : Z) (v : R) (idx : tensor Z) (t : tensor R)
    : tensor R :=
  match n, idx, t with
  | O, Scalar i, Scalar x => Scalar (if (i =? c)%Z then v else x)
  | S n', Dim li, Dim lt => Dim (zip_prefix (set_where n' c v) li lt)
  | _, _, _ => t
  end.

(** the index fits: every axis but the scattered one is no longer than the
    tensor's *)
Fixpoint fits_except (d : nat) (si ss : list nat) : bool :=
  match si, ss with
  | [], [] => true
  | i :: si', s :: ss' =>
      match d with
      | O => forallb (fun '(a, b) => (a <=? b)%nat) (combine si' ss')
      | S d' => (i <=? s)%nat && fits_except d' si' ss'
      end
  | _, _ => false
  end.

(** [self.scatter_(1, index, v)]: [self[i][index[i][j][p]][p] = v] *)
Definition scatter_1 (self : tensor R) (index : tensor Z) (v : R)
    : result (tensor R) :=
  if negb (rank index =? rank self)%nat then Raise RuntimeError
  else if negb (fits_except 1 (size index) (size self)) then Raise RuntimeError
  else
    let c := nth 1 (size self) 0%nat in
    if negb (forallb (fun i => (0 <=? i)%Z && (i <? Z.of_nat c)%Z) (data index))
    then Raise RuntimeError
    else
      rows <- undim self ;;
      irows <- undim index ;;
      Ok (Dim (zip_prefix
        (fun irow row =>
           match irow, row with
           | Dim idxs, Dim classes =>
               Dim (map (fun '(k, cls) =>
                      fold_left (fun acc idx =>
                        set_where (rank cls) (Z.of_nat k) v idx acc) idxs cls)
                    (combine (seq 0 (length classes)) classes))
           | _, _ => row
           end) irows rows)).

(** ** Python and NumPy helpers *)

(** [range(a, b)] *)
Definition range (a b : nat) : list nat := seq a (b - a).

(** [np.unique(axes)]: the distinct values in increasing order *)
Fixpoint insert_unique (a : nat) (l : list nat) : list nat :=
  match l with
  | [] => [a]
  | b :: l' =>
      if (a <? b)%nat then a :: l
      else if (a =? b)%nat then l
      else b :: insert_unique a l'
  end.

Definition np_unique (axes : list nat) : list nat :=
  fold_right insert_unique [] axes.

(** [sorted(axes, reverse=True)] *)
Fixpoint insert_desc (a : nat) (l : list nat) : list nat :=
  match l with
  | [] => [a]
  | b :: l' => if (b <? a)%nat then a :: l else b :: insert_desc a l'
  end.

Definition sorted_reverse (axes : list nat) : list nat :=
  fold_right insert_desc [] axes.

(** [all([i == j for i, j in zip(s1, s2)])] *)
Definition all_equal_zip (s1 s2 : list nat) : bool :=
  forallb (fun '(i, j) => (i =? j)%nat) (combine s1 s2).

(** [l[i] = v] on a Python list *)
Fixpoint list_assign {A} (l : list A) (i : nat) (v : A) : result (list A) :=
  match l, i with
  | [], _ => Raise IndexError
  | _ :: l', O => Ok (v :: l')
  | a :: l', S i' => l'' <- list_assign l' i' v ;; Ok (a :: l'')
  end.

(** [x.size(i)] *)
Definition size_at {A} (t : tensor A) (i : nat) : result nat :=
  match nth_error (size t) i with
  | Some n => Ok n
  | None => Raise IndexError
  end.

(** ** The module [libs/Loss.py] *)

(** [softmax_helper], lines 117-123 *)
Definition softmax_helper (x : tensor R) : result (tensor R) :=
  let rpt := repeat 1%nat (rank x) in
  c <- size_at x 1 ;;
  rpt <- list_assign rpt 1 c ;;
  m <- max_axis_keepdim 1 x ;;
  x_max <- repeat_ rpt m ;;
  d <- tsub x x_max ;;
  let e_x := tmap exp d in
  s <- tsum 1 true e_x ;;
  s <- repeat_ rpt s ;;
  tdiv e_x s.

(** [for ax in axes: inp = inp.sum(int(ax), keepdim)] *)
Definition sum_loop (keepdim : bool) (axes : list nat) (inp : tensor R)
    : result (tensor R) :=
  fold_left (fun acc ax => inp <- acc ;; tsum ax keepdim inp) axes (Ok inp).

(** [sum_tensor], lines 126-135 *)
Definition sum_tensor (inp : tensor R) (axes : list nat) (keepdim : bool)
    : result (tensor R) :=
  let axes := np_unique axes in
  if keepdim then sum_loop true axes inp
  else sum_loop false (sorted_reverse axes) inp.

(** the reconciliation of the ground truth with the prediction's shape, the
    block under [torch.no_grad()] that [get_tp_fp_fn] (lines 153-168),
    [GDiceLoss], [GDiceLossV2] and [SSLoss] share word for word *)
Definition to_onehot (net_output gt : tensor R) : result (tensor R) :=
  let shp_x := size net_output in
  let shp_y := size gt in
  gt <- (if negb (length shp_x =? length shp_y)%nat then
           match shp_y with
           | [] => Raise IndexError
           | b :: rest => view (b :: 1%nat :: rest) gt
           end
         else Ok gt) ;;
  if all_equal_zip (size net_output) (size gt) then
    Ok gt
  else
    let gt := long gt in
    let y_onehot := zeros shp_x in
    scatter_1 y_onehot gt 1.

Definition square_if (square : bool) (t : tensor R) : tensor R :=
  if square then tmap (fun x => x ^ 2) t else t.

(** [torch.stack(tuple(x_i * mask[:, 0] for x_i in torch.unbind(t, dim=1)), dim=1)] *)
Definition apply_mask (mask t : tensor R) : result (tensor R) :=
  xs <- unbind1 t ;;
  ys <- mapM (fun x_i => m0 <- select0_axis1 mask ;; tmul x_i m0) xs ;;
  stack1 ys.

(** [get_tp_fp_fn], lines 138-188 *)
Definition get_tp_fp_fn (net_output gt : tensor R) (axes : option (list nat))
    (mask : option (tensor R)) (square : bool)
    : result (tensor R * tensor R * tensor R) :=
  let axes := match axes with
              | None => range 2 (rank net_output)
              | Some a => a
              end in
  y_onehot <- to_onehot net_output gt ;;
  tp <- tmul net_output y_onehot ;;
  fp <- tmul net_output (tmap (fun y => 1 - y) y_onehot) ;;
  fn <- tmul (tmap (fun x => 1 - x) net_output) y_onehot ;;
  '(tp, fp, fn) <- match mask with
                   | Some mask =>
                       tp <- apply_mask mask tp ;;
                       fp <- apply_mask mask fp ;;
                       fn <- apply_mask mask fn ;;
                       Ok (tp, fp, fn)
                   | None => Ok (tp, fp, fn)
                   end ;;
  let tp := square_if square tp in
  let fp := square_if square fp in
  let fn := square_if square fn in
  tp <- sum_tensor tp axes false ;;
  fp <- sum_tensor fp axes false ;;
  fn <- sum_tensor fn axes false ;;
  Ok (tp, fp, fn).

(** *** Region-overlap losses

    [SSLoss], [SoftDiceLoss], [IoULoss], [TverskyLoss] and [AsymLoss] have one
    constructor signature; the object is a record of its arguments. *)

Record region_loss : Type := {
  apply_nonlin : option (tensor R -> result (tensor R));
  batch_dice : bool;
  do_bg : bool;
  smooth : R;
  square : bool
}.

(** [[0] + list(range(2, len(shp_x)))] or [list(range(2, len(shp_x)))] *)
Definition loss_axes (self : region_loss) (shp_x : list nat) : list nat :=
  if batch_dice self then 0%nat :: range 2 (length shp_x)
  else range 2 (length shp_x).

(** [if self.apply_nonlin is not None: x = self.apply_nonlin(x)] *)
Definition nonlin (f : option (tensor R -> result (tensor R))) (x : tensor R)
    : result (tensor R) :=
  match f with
  | Some f => f x
  | None => Ok x
  end.

(** [if not self.do_bg: t = t[1:] if self.batch_dice else t[:, 1:]] *)
Definition drop_bg (self : region_loss) (t : tensor R) : result (tensor R) :=
  if negb (do_bg self) then
    if batch_dice self then slice_from1 t else slice_from1_axis1 t
  else Ok t.

Module SoftDiceLoss.
(** [SoftDiceLoss.forward], lines 373-396: the score [dc] of line 386 *)
Definition scores (self : region_loss) (x y : tensor R)
    (loss_mask : option (tensor R)) : result (tensor R) :=
  let shp_x := size x in
  let axes := loss_axes self shp_x in
  x <- nonlin (apply_nonlin self) x ;;
  '(tp, fp, fn) <- get_tp_fp_fn x y (Some axes) loss_mask (square self) ;;
  let num := tmap (fun v => 2 * v + smooth self) tp in
  den <- tadd (tmap (fun v => 2 * v) tp) fp ;;
  den <- tadd den fn ;;
  let den := tmap (fun v => v + smooth self) den in
  tdiv num den.

(** and the loss, lines 388-396 *)
Definition forward (self : region_loss) (x y : tensor R)
    (loss_mask : option (tensor R)) : result (tensor R) :=
  dc <- scores self x y loss_mask ;;
  dc <- drop_bg self dc ;;
  let dc := mean dc in
  Ok (tmap (fun v => 1 - v) dc).
End SoftDiceLoss.

Module IoULoss.
(** [IoULoss.forward], lines 414-436: the score [iou] of line 427 *)
Definition scores (self : region_loss) (x y : tensor R)
    (loss_mask : option (tensor R)) : result (tensor R) :=
  let shp_x := size x in
  let axes := loss_axes self shp_x in
  x <- nonlin (apply_nonlin self) x ;;
  '(tp, fp, fn) <- get_tp_fp_fn x y (Some axes) loss_mask (square self) ;;
  let num := tmap (fun v => v + smooth self) tp in
  den <- tadd tp fp ;;
  den <- tadd den fn ;;
  let den := tmap (fun v => v + smooth self) den in
  tdiv num den.

(** and the loss, lines 429-436 *)
Definition forward (self : region_loss) (x y : tensor R)
    (loss_mask : option (tensor R)) : result (tensor R) :=
  iou <- scores self x y loss_mask ;;
  iou <- drop_bg self iou ;;
  let iou := mean iou in
  Ok (tmap Ropp iou).
End IoULoss.

Module TverskyLoss.
Definition alpha : R := 0.3.
Definition beta : R := 0.7.

(** [TverskyLoss.forward], lines 455-477: the score of line 468 *)
Definition scores (self : region_loss) (x y : tensor R)
    (loss_mask : option (tensor R)) : result (tensor R) :=
  let shp_x := size x in
  let axes := loss_axes self shp_x in
  x <- nonlin (apply_nonlin self) x ;;
  '(tp, fp, fn) <- get_tp_fp_fn x y (Some axes) loss_mask (square self) ;;
  let num := tmap (fun v => v + smooth self) tp in
  den <- tadd tp (tmap (fun v => alpha * v) fp) ;;
  den <- tadd den (tmap (fun v => beta * v) fn) ;;
  let den := tmap (fun v => v + smooth self) den in
  tdiv num den.

(** and the loss, lines 470-477 *)
Definition forward (self : region_loss) (x y : tensor R)
    (loss_mask : option (tensor R)) : result (tensor R) :=
  tversky <- scores self x y loss_mask ;;
  tversky <- drop_bg self tversky ;;
  let tversky := mean tversky in
  Ok (tmap Ropp tversky).
End TverskyLoss.

Module AsymLoss.
Definition beta : R := 1.5.

(** [AsymLoss.forward], lines 512-534: the score of line 525 *)
Definition scores (self : region_loss) (x y : tensor R)
    (loss_mask : option (tensor R)) : result (tensor R) :=
  let shp_x := size x in
  let axes := loss_axes self shp_x in
  x <- nonlin (apply_nonlin self) x ;;
  '(tp, fp, fn) <- get_tp_fp_fn x y (Some axes) loss_mask (square self) ;;
  let weight := beta ^ 2 / (1 + beta ^ 2) in
  let num := tmap (fun v => v + smooth self) tp in
  den <- tadd tp (tmap (fun v => weight * v) fn) ;;
  den <- tadd den (tmap (fun v => (1 - weight) * v) fp) ;;
  let den := tmap (fun v => v + smooth self) den in
  tdiv num den.

(** and the loss, lines 527-534 *)
Definition forward (self : region_loss) (x y : tensor R)
    (loss_mask : option (tensor R)) : result (tensor R) :=
  asym <- scores self x y loss_mask ;;
  asym <- drop_bg self asym ;;
  let asym := mean asym in
  Ok (tmap Ropp asym).
End AsymLoss.

Module SSLoss.
Definition r : R := 0.1.

(** [SSLoss.forward], lines 314-356: the score [ss] of line 347; the loss
    mask is accepted and ignored *)
Definition scores (self : region_loss) (net_output gt : tensor R)
    (loss_mask : option (tensor R)) : result (tensor R) :=
  let shp_x := size net_output in
  y_onehot <- to_onehot net_output gt ;;
  let axes := loss_axes self shp_x in
  net_output <- nonlin (apply_nonlin self) net_output ;;
  let bg_onehot := tmap (fun v => 1 - v) y_onehot in
  d <- tsub y_onehot net_output ;;
  let squared_error := tmap (fun v => v ^ 2) d in
  e1 <- tmul squared_error y_onehot ;;
  n1 <- sum_tensor e1 axes false ;;
  d1 <- sum_tensor y_onehot axes false ;;
  specificity_part <- tdiv n1 (tmap (fun v => v + smooth self) d1) ;;
  e2 <- tmul squared_error bg_onehot ;;
  n2 <- sum_tensor e2 axes false ;;
  d2 <- sum_tensor bg_onehot axes false ;;
  sensitivity_part <- tdiv n2 (tmap (fun v => v + smooth self) d2) ;;
  tadd (tmap (fun v => r * v) specificity_part)
       (tmap (fun v => (1 - r) * v) sensitivity_part).

(** and the loss, lines 349-356 *)
Definition forward (self : region_loss) (net_output gt : tensor R)
    (loss_mask : option (tensor R)) : result (tensor R) :=
  ss <- scores self net_output gt loss_mask ;;
  ss <- drop_bg self ss ;;
  Ok (mean ss).
End SSLoss.

(** *** torch's cross entropy *)

(** the entries of a 1-d tensor and the rows of a 2-d tensor *)
Definition entries {A} (t : tensor A) : result (list A) :=
  l <- undim t ;;
  mapM (fun e => match e with
                 | Scalar x => Ok x
                 | Dim _ => Raise IndexError
                 end) l.

Definition rows_of {A} (t : tensor A) : result (list (list A)) :=
  l <- undim t ;; mapM entries l.

Definition of_rows {A} (rows : list (list A)) : tensor A :=
  Dim (map (fun row => Dim (map Scalar row)) rows).

(** [log_softmax] of one row of logits: [x_j - log (sum_k exp x_k)] *)
Definition log_softmax_row (row : list R) : list R :=
  map (fun v => v - ln (Rsum (map exp row))) row.

(** [torch.nn.LogSoftmax(dim=1)] on a 2-d tensor *)
Definition log_softmax_1 (inp : tensor R) : result (tensor R) :=
  rows <- rows_of inp ;; Ok (of_rows (map log_softmax_row rows)).

Inductive reduction_mode : Type :=
| reduction_none
| reduction_mean
| reduction_sum.

(** the state of a [torch.nn.CrossEntropyLoss] *)
Record CrossEntropyLoss : Type := {
  weight : option (list R);
  ignore_index : Z;
  reduction : reduction_mode
}.

(** the loss of one voxel and the weight it has in the mean; a target equal
    to [ignore_index] contributes neither, any other target outside
    [0, C) is an error *)
Definition ce_voxel (self : CrossEntropyLoss) (row : list R) (t : Z)
    : result (R * R) :=
  if (t =? ignore_index self)%Z then Ok (0, 0)
  else if ((t <? 0) || (Z.of_nat (length row) <=? t))%Z then Raise IndexError
  else
    let w := match weight self with
             | None => 1
             | Some w => nth (Z.to_nat t) w 0
             end in
    Ok (w * - nth (Z.to_nat t) (log_softmax_row row) 0, w).

(** [F.cross_entropy(input, target, weight, ignore_index, reduction)] for a
    2-d [input] of logits and a 1-d [target] of class indices *)
Definition cross_entropy (self : CrossEntropyLoss) (input : tensor R)
    (target : tensor Z) : result (tensor R) :=
  rows <- rows_of input ;;
  ts <- entries target ;;
  if negb (length rows =? length ts)%nat then Raise ValueError
  else if negb (match weight self with
                | None => true
                | Some w => forallb (fun row => (length row =? length w)%nat) rows
                end) then Raise RuntimeError
  else
    vs <- mapM (fun '(row, t) => ce_voxel self row t) (combine rows ts) ;;
    match reduction self with
    | reduction_none => Ok (Dim (map (fun v => Scalar (fst v)) vs))
    | reduction_sum => Ok (Scalar (Rsum (map fst vs)))
    | reduction_mean => Ok (Scalar (Rsum (map fst vs) / Rsum (map snd vs)))
    end.

(** the default [CrossEntropyLoss()] *)
Definition default_ce : CrossEntropyLoss :=
  {| weight := None; ignore_index := -100; reduction := reduction_mean |}.

(** the loop that four classes repeat to move the class axis last:
[[
    i0 = 1; i1 = 2
    while i1 < len(inp.shape):
        inp = inp.transpose(i0, i1); i0 += 1; i1 += 1
]]
    [i1] grows at every turn, so [len(inp.shape)] turns are enough. *)
Fixpoint class_axis_loop (turns i0 i1 : nat) (inp : tensor R)
    : result (tensor R) :=
  match turns with
  | O => Ok inp
  | S turns' =>
      if (i1 <? rank inp)%nat then
        inp <- transpose i0 i1 inp ;;
        class_axis_loop turns' (S i0) (S i1) inp
      else Ok inp
  end.

Definition class_axis_last (inp : tensor R) : result (tensor R) :=
  class_axis_loop (rank inp) 1 2 inp.

Module CrossentropyND.
(** [CrossentropyND.forward], lines 621-638 *)
Definition forward (self : CrossEntropyLoss) (inp : tensor R)
    (target : tensor R) : result (tensor R) :=
  let target := long target in
  num_classes <- size_at inp 1 ;;
  inp <- class_axis_last inp ;;
  inp <- view_rows num_classes inp ;;
  let target := view_flat target in
  cross_entropy self inp target.
End CrossentropyND.

(** [sorted] in decreasing order, for [torch.topk] *)
Fixpoint insert_down (x : R) (l : list R) : list R :=
  match l with
  | [] => [x]
  | y :: l' => if Rle_dec y x then x :: l else y :: insert_down x l'
  end.

Definition sort_down (l : list R) : list R := fold_right insert_down [] l.

(** [torch.topk(v, k, sorted=False)[0]] on a 1-d tensor: the [k] largest
    entries; their order is not specified and the decreasing one is taken *)
Definition topk (v : tensor R) (k : Z) : result (tensor R) :=
  l <- entries v ;;
  if ((k <? 0) || (Z.of_nat (length l) <? k))%Z then Raise RuntimeError
  else Ok (Dim (map Scalar (firstn (Z.to_nat k) (sort_down l)))).

Module TopKLoss.
(** [TopKLoss.__init__], lines 646-648: the parent is built with
    [reduce=False], that is without reduction *)
Record t : Type := {
  k : Z;
  ce : CrossEntropyLoss
}.

Definition init (weight : option (list R)) (ignore_index : Z) (k : Z) : t :=
  {| k := k;
     ce := {| weight := weight; ignore_index := ignore_index;
              reduction := reduction_none |} |}.

(** [TopKLoss.forward], lines 650-655; [int(num_voxels * self.k / 100)]
    truncates the exact quotient *)
Definition forward (self : t) (inp : tensor R) (target : tensor R)
    : result (tensor R) :=
  target <- select0_axis1 target ;;
  let target := tmap IZR (long target) in
  res <- CrossentropyND.forward (ce self) inp target ;;
  let num_voxels := prod (size res) in
  res <- topk (view_flat res) (Z.quot (Z.of_nat num_voxels * k self) 100) ;;
  Ok (mean res).
End TopKLoss.

Module WeightedCrossEntropyLoss.
(** [WeightedCrossEntropyLoss.forward], lines 667-685: the object keeps
    only [weight]; the loss it builds has the default index to ignore and
    the mean reduction *)
Definition forward (weight : option (list R)) (inp : tensor R)
    (target : tensor R) : result (tensor R) :=
  let target := long target in
  num_classes <- size_at inp 1 ;;
  inp <- class_axis_last inp ;;
  inp <- view_rows num_classes inp ;;
  let target := view_flat target in
  let wce_loss := {| weight := weight; ignore_index := -100;
                     reduction := reduction_mean |} in
  cross_entropy wce_loss inp target.
End WeightedCrossEntropyLoss.

Module WeightedCrossEntropyLossV2.
(** [torch.cuda.FloatTensor([0.2, 0.8])] needs a CUDA device *)
Definition cuda_FloatTensor (cuda : bool) (l : list R) : result (tensor R) :=
  if cuda then Ok (Dim (map Scalar l)) else Raise RuntimeError.

(** [WeightedCrossEntropyLossV2.forward], lines 695-735 *)
Definition forward (cuda : bool) (net_output : tensor R) (gt : tensor R)
    : result (tensor R) :=
  class_weights <- cuda_FloatTensor cuda [0.2; 0.8] ;;
  let gt := long gt in
  num_classes <- size_at net_output 1 ;;
  net_output <- class_axis_last net_output ;;
  net_output <- view_rows num_classes net_output ;;
  let gt := view_flat gt in
  cross_entropy default_ce net_output gt.
End WeightedCrossEntropyLossV2.

(** [t[i]] on a Python sequence of length [n]: a negative index counts from
    the end *)
Definition py_index {A} (l : list A) (i : Z) : result A :=
  let n := Z.of_nat (length l) in
  let j := if (i <? 0)%Z then (i + n)%Z else i in
  if ((j <? 0) || (n <=? j))%Z then Raise IndexError
  else match nth_error l (Z.to_nat j) with
       | Some x => Ok x
       | None => Raise IndexError
       end.

(** [input[range(n), target]] on a 2-d tensor, with [n = target.shape[0]] *)
Definition index_rows (input : tensor R) (target : list Z) : result (tensor R) :=
  rows <- rows_of input ;;
  vs <- mapM (fun '(i, t) =>
                match nth_error rows i with
                | Some row => py_index row t
                | None => Raise IndexError
                end)
             (combine (range 0 (length target)) target) ;;
  Ok (Dim (map Scalar vs)).

(** [nll_loss], lines 824-831 *)
Definition nll_loss (input : tensor R) (target : tensor Z) : result (tensor R) :=
  ts <- entries target ;;
  picked <- index_rows input ts ;;
  let loss := tmap Ropp picked in
  Ok (mean loss).

(** *** Distance-penalised cross entropy *)

(** [np.squeeze(a)]: the axes of length 1 are removed *)
Definition np_squeeze {A} (a : tensor A) : result (tensor A) :=
  view (filter (fun n => negb (n =? 1)%nat) (size a)) a.

(** [np.max(a)]: the largest entry; an empty array is an error *)
Definition np_max (a : tensor R) : result R :=
  match data a with
  | [] => Raise ValueError
  | x :: l => Ok (fold_left Rmax l x)
  end.

Definition bool_to_R (b : bool) : R := if b then 1 else 0.

Section DistanceTransform.
(** [scipy.ndimage.distance_transform_edt] is a library routine; the loss
    is defined for whatever it returns *)
Variable distance_transform_edt : tensor bool -> result (tensor R).

(** one turn of the loop of [compute_edts_forPenalizedLoss], lines 771-777 *)
Definition edt_of_sample (posmask : tensor bool) : result (tensor R) :=
  let negmask := tmap negb posmask in
  pos_edt <- distance_transform_edt posmask ;;
  m <- np_max pos_edt ;;
  pos_edt <- tmul (tmap (fun v => m - v) pos_edt) (tmap bool_to_R posmask) ;;
  neg_edt <- distance_transform_edt negmask ;;
  m <- np_max neg_edt ;;
  neg_edt <- tmul (tmap (fun v => m - v) neg_edt) (tmap bool_to_R negmask) ;;
  mp <- np_max pos_edt ;;
  mn <- np_max neg_edt ;;
  r <- tadd (tmap (fun v => v / mp) pos_edt) (tmap (fun v => v / mn) neg_edt) ;;
  Ok r.

(** [res[i] = v] for every [i]: each value is broadcast to the shape of a
    row of [res = np.zeros(GT.shape)] *)
Definition np_assign_row (row_shape : list nat) (v : tensor R)
    : result (tensor R) :=
  match broadcast_shapes (size v) row_shape with
  | Ok s => if list_eq_dec Nat.eq_dec s row_shape then Ok (expand s v)
            else Raise ValueError
  | Raise _ => Raise ValueError
  end.

(** [compute_edts_forPenalizedLoss], lines 763-778 *)
Definition compute_edts_forPenalizedLoss (GT : tensor bool)
    : result (tensor R) :=
  GT <- np_squeeze GT ;;
  samples <- undim GT ;;
  res <- mapM (fun posmask =>
                 v <- edt_of_sample posmask ;;
                 np_assign_row (inner_size GT) v) samples ;;
  Ok (Dim res).

(** [DisPenalizedCE.forward], lines 788-821 *)
Definition DisPenalizedCE_forward (inp target : tensor R)
    : result (tensor R) :=
  dist <- compute_edts_forPenalizedLoss
            (tmap (fun v => if Rlt_dec 0.5 v then true else false) target) ;;
  let dist := tmap (fun v => v + 1) dist in
  let dist := view_flat dist in
  let target := long target in
  num_classes <- size_at inp 1 ;;
  inp <- class_axis_last inp ;;
  inp <- view_rows num_classes inp ;;
  inp_logs <- log_softmax_1 inp ;;
  let target := view_flat target in
  ts <- entries target ;;
  picked <- index_rows inp_logs ts ;;
  let loss := tmap Ropp picked in
  weighted_loss <- tmul loss dist ;;
  Ok (mean loss).
End DistanceTransform.

(** *** Composite losses *)

(** [torch.pow(x, g)] for a float exponent: [exp (g * ln x)] on a positive
    base, 0 at base 0 *)
Definition torch_pow (x g : R) : R :=
  if Rlt_dec 0 x then Rpower x g else 0.

Module FocalTversky_loss.
Record t : Type := {
  gamma : R;
  tversky : region_loss
}.

(** [FocalTversky_loss.forward], lines 491-494 *)
Definition forward (self : t) (net_output target : tensor R)
    : result (tensor R) :=
  l <- TverskyLoss.forward (tversky self) net_output target None ;;
  let tversky_loss := tmap (fun v => 1 + v) l in
  let focal_tversky := tmap (fun v => torch_pow v (gamma self)) tversky_loss in
  Ok focal_tversky.
End FocalTversky_loss.

(** the keyword arguments [soft_dice_kwargs]; the composite losses fix
    [apply_nonlin=softmax_helper] *)
Definition soft_dice (batch_dice do_bg : bool) (smooth : R) (square : bool)
    : region_loss :=
  {| apply_nonlin := Some softmax_helper; batch_dice := batch_dice;
     do_bg := do_bg; smooth := smooth; square := square |}.

Module DC_and_CE_loss.
Record t : Type := {
  aggregate : string;
  ce : CrossEntropyLoss;
  dc : region_loss
}.

(** [DC_and_CE_loss.forward], lines 544-551 *)
Definition forward (self : t) (net_output target : tensor R)
    : result (tensor R) :=
  dc_loss <- SoftDiceLoss.forward (dc self) net_output target None ;;
  ce_loss <- CrossentropyND.forward (ce self) net_output target ;;
  result <- (if String.eqb (aggregate self) "sum" then tadd ce_loss dc_loss
             else Raise NotImplementedError) ;;
  Ok result.
End DC_and_CE_loss.

Module DC_and_topk_loss.
Record t : Type := {
  aggregate : string;
  ce : TopKLoss.t;
  dc : region_loss
}.

(** [DC_and_topk_loss.forward], lines 578-585 *)
Definition forward (self : t) (net_output target : tensor R)
    : result (tensor R) :=
  dc_loss <- SoftDiceLoss.forward (dc self) net_output target None ;;
  ce_loss <- TopKLoss.forward (ce self) net_output target ;;
  result <- (if String.eqb (aggregate self) "sum" then tadd ce_loss dc_loss
             else Raise NotImplementedError) ;;
  Ok result.
End DC_and_topk_loss.

Module ExpLog_loss.
Record t : Type := {
  wce : option (list R);
  dc : region_loss;
  gamma : R
}.

(** [ExpLog_loss.forward], lines 600-612; [torch.clamp(v, 1e-6)] bounds
    from below *)
Definition forward (self : t) (net_output target : tensor R)
    : result (tensor R) :=
  l <- SoftDiceLoss.forward (dc self) net_output target None ;;
  let dc_loss := tmap Ropp l in
  wce_loss <- WeightedCrossEntropyLoss.forward (wce self) net_output target ;;
  let explog :=
    tmap (fun v => 0.8 * torch_pow (- ln (Rmax v 1e-6)) (gamma self)) dc_loss in
  tadd explog (tmap (fun v => 0.2 * v) wce_loss).
End ExpLog_loss.

(** *** Generalised Dice *)

(** [einsum("bcxyz->bc", t)], [einsum("bcxyz, bcxyz->bc", a, b)] and
    [einsum("bc->b", t)] *)
Definition einsum_bcxyz_bc (t : tensor R) : result (tensor R) :=
  if negb (rank t =? 5)%nat then Raise RuntimeError
  else t <- sum_axis 4 false t ;; t <- sum_axis 3 false t ;; sum_axis 2 false t.

Definition einsum_bcxyz_bcxyz_bc (a b : tensor R) : result (tensor R) :=
  if negb ((rank a =? 5) && (rank b =? 5))%nat then Raise RuntimeError
  else t <- tmul a b ;; einsum_bcxyz_bc t.

Definition einsum_bc_b (t : tensor R) : result (tensor R) :=
  if negb (rank t =? 2)%nat then Raise RuntimeError else sum_axis 1 false t.

Module GDiceLoss.
Record t : Type := {
  apply_nonlin : option (tensor R -> result (tensor R));
  smooth : R
}.

(** [GDiceLoss.forward], lines 204-232 *)
Definition forward (self : t) (net_output gt : tensor R) : result (tensor R) :=
  y_onehot <- to_onehot net_output gt ;;
  net_output <- nonlin (apply_nonlin self) net_output ;;
  sy <- einsum_bcxyz_bc y_onehot ;;
  let w := tmap (fun v => 1 / (v + 1e-10) ^ 2) sy in
  i <- einsum_bcxyz_bcxyz_bc net_output y_onehot ;;
  intersection <- tmul w i ;;
  sx <- einsum_bcxyz_bc net_output ;;
  sy <- einsum_bcxyz_bc y_onehot ;;
  u <- tadd sx sy ;;
  union <- tmul w u ;;
  num <- einsum_bc_b intersection ;;
  den <- einsum_bc_b union ;;
  divided <- tdiv (tmap (fun v => -2 * (v + smooth self)) num)
                  (tmap (fun v => v + smooth self) den) ;;
  let gdc := mean divided in
  Ok (tmap (fun v => 1 - v) gdc).
End GDiceLoss.

Module PenaltyGDiceLoss.
Definition k : R := 2.5.

(** [PenaltyGDiceLoss.forward], lines 564-568; the constructor fixes
    [apply_nonlin=softmax_helper] *)
Definition forward (smooth : R) (net_output target : tensor R)
    : result (tensor R) :=
  gdc_loss <- GDiceLoss.forward
                {| GDiceLoss.apply_nonlin := Some softmax_helper;
                   GDiceLoss.smooth := smooth |} net_output target ;;
  tdiv gdc_loss (tmap (fun v => 1 + k * (1 - v)) gdc_loss).
End PenaltyGDiceLoss.

(** [flatten], lines 235-246 and again 748-760: [(N, C, ...) -> (C, N * ...)] *)
Definition flatten (t : tensor R) : result (tensor R) :=
  C <- size_at t 1 ;;
  transposed <- swap01 t ;;
  if (C =? 0)%nat then Raise RuntimeError
  else if (numel transposed mod C =? 0)%nat
       then view [C; (numel transposed / C)%nat] transposed
       else Raise RuntimeError.

Module GDiceLossV2.
(** [GDiceLossV2.forward], lines 262-294 *)
Definition forward (self : GDiceLoss.t) (net_output gt : tensor R)
    : result (tensor R) :=
  y_onehot <- to_onehot net_output gt ;;
  net_output <- nonlin (GDiceLoss.apply_nonlin self) net_output ;;
  input <- flatten net_output ;;
  target <- flatten y_onehot ;;
  target_sum <- tsum (rank target - 1) false target ;;
  t2 <- tmul target_sum target_sum ;;
  let class_weights :=
    tmap (fun v => 1 / Rmax v (GDiceLoss.smooth self)) t2 in
  it <- tmul input target ;;
  its <- tsum (rank it - 1) false it ;;
  intersect <- tmul its class_weights ;;
  let intersect := sum_all intersect in
  ipt <- tadd input target ;;
  ipts <- tsum (rank ipt - 1) false ipt ;;
  d <- tmul ipts class_weights ;;
  let denominator := sum_all d in
  Ok (Scalar (-2 * intersect / Rmax denominator (GDiceLoss.smooth self))).
End GDiceLossV2.

(** *** The variational threshold loss

    Inside [kld_loss] a name is bound to a Python float or to a tensor,
    depending on the flags; arithmetic on two floats gives a float, and a
    float meets a tensor as a 0-d tensor would. *)

Inductive pyval : Type :=
| PyFloat (x : R)
| PyTensor (t : tensor R).

Definition as_tensor (v : pyval) : tensor R :=
  match v with
  | PyFloat x => Scalar x
  | PyTensor t => t
  end.

Definition py_bin (f : R -> R -> R) (a b : pyval) : result pyval :=
  match a, b with
  | PyFloat x, PyFloat y => Ok (PyFloat (f x y))
  | _, _ => t <- tbin f (as_tensor a) (as_tensor b) ;; Ok (PyTensor t)
  end.

(** [a / b]: a float divided by the float zero raises *)
Definition py_div (a b : pyval) : result pyval :=
  match a, b with
  | PyFloat x, PyFloat y =>
      if Req_EM_T y 0 then Raise ZeroDivisionError else Ok (PyFloat (x / y))
  | _, _ => py_bin Rdiv a b
  end.

(** [a ** 2] *)
Definition py_square (a : pyval) : pyval :=
  match a with
  | PyFloat x => PyFloat (x ^ 2)
  | PyTensor t => PyTensor (tmap (fun v => v ^ 2) t)
  end.

(** [float(a)]: only a tensor of one entry converts *)
Definition py_float (a : pyval) : result R :=
  match a with
  | PyFloat x => Ok x
  | PyTensor t => match data t with
                  | [x] => Ok x
                  | _ => Raise ValueError
                  end
  end.

(** [math.log(a)]: the argument is converted to a float and must be positive *)
Definition math_log (a : pyval) : result R :=
  x <- py_float a ;;
  if Rlt_dec 0 x then Ok (ln x) else Raise ValueError.

(** [bool(a < b)]: the comparison of tensors has a truth value only when it
    has one entry *)
Definition py_lt (a b : pyval) : result bool :=
  match a, b with
  | PyFloat x, PyFloat y => Ok (if Rlt_dec x y then true else false)
  | _, _ =>
      t <- tbin (fun x y => if Rlt_dec x y then true else false)
             (as_tensor a) (as_tensor b) ;;
      match data t with
      | [c] => Ok c
      | _ => Raise RuntimeError
      end
  end.

(** Python's [min(a, b)]: [b] when [b < a], else [a] *)
Definition py_min (a b : pyval) : result pyval :=
  c <- py_lt b a ;; Ok (if c then b else a).

Definition relu (x : R) : R := Rmax 0 x.
Definition sigmoid (x : R) : R := 1 / (1 + exp (- x)).

(** [torch.sum(v, dim=-1)] and [torch.mean(t, dim=0)]; a float is no tensor,
    and a 0-d tensor is its own sum and mean *)
Definition torch_sum_last (v : pyval) : result (tensor R) :=
  match v with
  | PyFloat _ => Raise TypeError
  | PyTensor t => tsum (rank t - 1) false t
  end.

Definition torch_mean_0 (t : tensor R) : result (tensor R) :=
  match t with
  | Scalar _ => Ok t
  | Dim l => s <- sum_axis 0 false t ;;
             Ok (tmap (fun v => v / INR (length l)) s)
  end.

(** the posterior mean, lines 50-60 *)
Definition posterior_mean (raw_output mu1 : tensor R) (mu2 : pyval)
    (flag_mu1 : Z) : result pyval :=
  if (flag_mu1 =? 0)%Z then
    Ok (PyTensor (tmap relu mu1))
  else if (flag_mu1 =? 1)%Z then
    let mu1 := tmap sigmoid raw_output in
    Ok (PyTensor (mean mu1))
  else if (flag_mu1 =? 2)%Z then
    Ok mu2
  else Raise NotImplementedError.

(** [min(std_lower, std_upper)] with [std_upper = (1 - mu) / gamma] and
    [std_lower = (mu - 0.0) / gamma], lines 68-70 and 95-97 *)
Definition two_sigma_bound (gamma mu : pyval) : result pyval :=
  d <- py_bin Rminus (PyFloat 1) mu ;;
  std_upper <- py_div d gamma ;;
  d <- py_bin Rminus mu (PyFloat 0) ;;
  std_lower <- py_div d gamma ;;
  py_min std_lower std_upper.

(** the posterior deviation as [(log_sigma1, var1)], lines 62-78 *)
Definition posterior_std (gamma : pyval) (logvar1 : tensor R) (mu1 std2 : pyval)
    (flag_std1 : Z) : result (pyval * pyval) :=
  if (flag_std1 =? 0)%Z then
    let log_sigma1 := tmap (fun v => 0.5 * v) logvar1 in
    let var1 := tmap exp logvar1 in
    Ok (PyTensor log_sigma1, PyTensor var1)
  else if (flag_std1 =? 1)%Z then
    sigma1 <- two_sigma_bound gamma mu1 ;;
    let var1 := py_square sigma1 in
    l <- math_log var1 ;;
    Ok (PyFloat (0.5 * l), var1)
  else if (flag_std1 =? 2)%Z then
    let var1 := py_square std2 in
    l <- math_log var1 ;;
    Ok (PyFloat (0.5 * l), var1)
  else Raise NotImplementedError.

(** the prior mean, lines 80-88 *)
Definition prior_mean (raw_output : tensor R) (mu2 : pyval) (flag_mu2 : Z)
    : result pyval :=
  if (flag_mu2 =? 0)%Z then
    Ok mu2
  else if (flag_mu2 =? 1)%Z then
    let mu2 := tmap sigmoid raw_output in
    Ok (PyTensor (mean mu2))
  else Raise NotImplementedError.

(** the prior deviation, lines 90-99 *)
Definition prior_std (gamma mu2 std2 : pyval) (flag_std2 : Z) : result pyval :=
  if (flag_std2 =? 0)%Z then
    Ok std2
  else if (flag_std2 =? 1)%Z then
    two_sigma_bound gamma mu2
  else Raise NotImplementedError.

(** the divergence, lines 101-105 *)
Definition kl_divergence (log_sigma1 var1 mu1 mu2 sigma2 : pyval)
    : result (tensor R) :=
  let var2 := py_square sigma2 in
  l <- math_log sigma2 ;;
  let log_sigma2 := PyFloat l in
  loss <- py_bin Rminus log_sigma2 log_sigma1 ;;
  d <- py_bin Rminus mu1 mu2 ;;
  q <- py_bin Rplus var1 (py_square d) ;;
  q <- py_bin Rmult (PyFloat 0.5) q ;;
  q <- py_div q var2 ;;
  loss <- py_bin Rplus loss q ;;
  loss <- py_bin Rminus loss (PyFloat 0.5) ;;
  loss <- torch_sum_last loss ;;
  torch_mean_0 loss.

Section Noise.
(** the draw of [torch.randn_like] *)
Variable randn_like : tensor R -> tensor R.

(** the sampled threshold, lines 107-109 and 114 *)
Definition sample_threshold (logvar1 : tensor R) (mu1 : pyval)
    : result (tensor R) :=
  let std := tmap (fun v => exp (0.5 * v)) logvar1 in
  let eps := randn_like std in
  t <- tmul eps std ;;
  threshold <- py_bin Rplus (PyTensor t) mu1 ;;
  Ok (mean (as_tensor threshold)).

(** [kld_loss], lines 19-114; [mu2] and [std2] are Python floats, as their
    defaults are; the four flags are resolved in the order of the source *)
Definition kld_loss (raw_output mu1 logvar1 : tensor R) (mu2 std2 : R)
    (flag_mu1 flag_std1 flag_mu2 flag_std2 : Z)
    : result (tensor R * tensor R) :=
  let gamma := PyFloat 2 in
  let mu2 := PyFloat mu2 in
  let std2 := PyFloat std2 in
  mu1 <- posterior_mean raw_output mu1 mu2 flag_mu1 ;;
  '(log_sigma1, var1) <- posterior_std gamma logvar1 mu1 std2 flag_std1 ;;
  mu2 <- prior_mean raw_output mu2 flag_mu2 ;;
  sigma2 <- prior_std gamma mu2 std2 flag_std2 ;;
  loss <- kl_divergence log_sigma1 var1 mu1 mu2 sigma2 ;;
  threshold <- sample_threshold logvar1 mu1 ;;
  Ok (loss, threshold).
End Noise.

(** ** Reference formulas

    The definitions below are not taken from the source: they are the
    formulas that the statements compare the code with. *)

(** the logits of the voxels, one row per voxel: the first steps of
    [CrossentropyND.forward] and of its three copies *)
Definition voxel_logits (inp : tensor R) : result (tensor R) :=
  num_classes <- size_at inp 1 ;;
  inp <- class_axis_last inp ;;
  view_rows num_classes inp.

Definition voxel_rows (inp : tensor R) : result (list (list R)) :=
  x <- voxel_logits inp ;; rows_of x.

(** a class index inside the row of logits *)
Definition valid_target (row : list R) (t : Z) : Prop :=
  (0 <= t < Z.of_nat (length row))%Z.

(** the negative log-likelihood of the label [t] under the softmax of a row
    of logits *)
Definition voxel_nll (row : list R) (t : Z) : R :=
  - nth (Z.to_nat t) (log_softmax_row row) 0.

(** the plain cross entropy: the arithmetic mean of the voxels' negative
    log-likelihoods *)
Definition plain_cross_entropy (rows : list (list R)) (ts : list Z) : R :=
  Rsum (map2 voxel_nll rows ts) / INR (length rows).

(** the mean of the unweighted voxel losses, with the customised
    [nll_loss] of the module *)
Definition unweighted_nll (inp target : tensor R) : result (tensor R) :=
  x <- voxel_logits inp ;;
  logs <- log_softmax_1 x ;;
  nll_loss logs (view_flat (long target)).

(** ** Sample inputs *)

(** a stand-in for the distance transform, two voxels with two classes and
    their labels *)
Definition edt0 (m : tensor bool) : result (tensor R) := Ok (tmap bool_to_R m).
Definition inp0 : tensor R :=
  Dim [Dim [Scalar 0; Scalar 0]; Dim [Scalar 0; Scalar 0]].
Definition target0 : tensor R := Dim [Dim [Scalar 1]; Dim [Scalar 0]].

Definition example_sum_loss : DC_and_CE_loss.t :=
  {| DC_and_CE_loss.aggregate := "sum"; DC_and_CE_loss.ce := default_ce;
     DC_and_CE_loss.dc := soft_dice false true 1 false |}.

Definition example_mean_topk : DC_and_topk_loss.t :=
  {| DC_and_topk_loss.aggregate := "mean";
     DC_and_topk_loss.ce := TopKLoss.init None (-100) 10;
     DC_and_topk_loss.dc := soft_dice false true 1 false |}.

(** ** Shapes and entries *)

(** a shape without empty axis *)
Definition positive (s : list nat) : bool := forallb (fun n => (0 <? n)%nat) s.

(** [t] is a regular tensor of shape [s], no axis of which is empty *)
Definition tensor_of {A} (s : list nat) (t : tensor A) : bool :=
  positive s && has_shape s t.

(** the entry [t[i1, ..., ik]], 0 outside the tensor *)
Fixpoint entry (t : tensor R) (idx : list nat) : R :=
  match t, idx with
  | Scalar x, [] => x
  | Dim l, i :: idx' =>
      match nth_error l i with
      | Some t' => entry t' idx'
      | None => 0
      end
  | _, _ => 0
  end.

(** the sub-tensors of the first axis, and the grid of the sub-tensors of
    the first two axes: [cells t] holds [t[b, c]] at row [b], column [c] *)
Definition subs {A} (t : tensor A) : list (tensor A) :=
  match t with
  | Scalar _ => []
  | Dim l => l
  end.

Definition cells {A} (t : tensor A) : list (list (tensor A)) :=
  map subs (subs t).

(** the sum of the entries, axis by axis *)
Fixpoint total (t : tensor R) : R :=
  match t with
  | Scalar x => x
  | Dim l => Rsum (map total l)
  end.

(** the sums over the spatial axes, one per sample and class, and their sums
    over the samples, one per class *)
Definition spatial_sums (t : tensor R) : list (list R) :=
  map (map total) (cells t).

Definition column_sums (c : nat) (m : list (list R)) : list R :=
  fold_right (map2 Rplus) (repeat 0 c) m.

(** a grid of [B] rows of [C] items *)
Definition rect {A} (B C : nat) (G : list (list A)) : Prop :=
  length G = B /\ Forall (fun r => length r = C) G.

(** the single channel [m[:, 0]] of a mask, one sub-tensor per sample, and
    the product of every class slice of [t] with it *)
Definition mask_channel (m : tensor R) : list (tensor R) :=
  flat_map (fun row => firstn 1 (subs row)) (subs m).

Definition masked (k : nat) (t m : tensor R) : tensor R :=
  Dim (map Dim (map2 (fun row m0 => map (fun c => zip_at k Rmult c m0) row)
                  (cells t) (mask_channel m))).

(** the value of the mask at sample [b] and position [p]; no mask counts as 1 *)
Definition mask_entry (mask : option (tensor R)) (b : nat) (p : list nat) : R :=
  match mask with
  | None => 1
  | Some m => entry m (b :: 0%nat :: p)
  end.

Definition mask_fits (B : nat) (sp : list nat) (mask : option (tensor R)) : bool :=
  match mask with
  | None => true
  | Some m => has_shape (B :: 1%nat :: sp) m
  end.

(** the optional square *)
Definition sq (square : bool) (v : R) : R := if square then v ^ 2 else v.

(** the tensor that [get_tp_fp_fn] sums: the pointwise combination [f] of
    prediction and one-hot truth, masked and squared on demand *)
Definition confusion_map (f : R -> R -> R) (n : nat) (x y : tensor R)
    (mask : option (tensor R)) (sqr : bool) : tensor R :=
  let t := zip_at n f x y in
  square_if sqr (match mask with
                 | Some m => masked (n - 2) t m
                 | None => t
                 end).


(** the mean of the scores of the classes 1 .. C-1, for scores of shape
    [(C,)] and of shape [(B, C)] *)
Definition fg_mean_classes (C : nat) (dc : tensor R) : R :=
  Rsum (map (fun c => entry dc [c]) (seq 1 (C - 1))) / INR (C - 1).

Definition fg_mean_samples (B C : nat) (dc : tensor R) : R :=
  Rsum (map (fun b => Rsum (map (fun c => entry dc [b; c]) (seq 1 (C - 1))))
          (seq 0 B)) / INR (B * (C - 1)).

(** one sample, two classes and two voxels: a prediction, a one-hot truth
    and a mask *)
Definition pred1 : tensor R :=
  Dim [Dim [Dim [Scalar 0.75; Scalar 0.5]; Dim [Scalar 0.25; Scalar 0.5]]].
Definition truth1 : tensor R :=
  Dim [Dim [Dim [Scalar 1; Scalar 0]; Dim [Scalar 0; Scalar 1]]].
Definition mask1 : tensor R := Dim [Dim [Dim [Scalar 1; Scalar 0]]].

(** two samples with three classes and no spatial axis, scored without the
    background *)
Definition fg_loss : region_loss :=
  {| apply_nonlin := None; batch_dice := false; do_bg := false; smooth := 1;
     square := false |}.
Definition onehot2 : tensor R :=
  Dim [Dim [Scalar 1; Scalar 0; Scalar 0]; Dim [Scalar 0; Scalar 1; Scalar 0]].

(** a tensor of zeros and ones, as a one-hot encoding is *)
Definition binary (t : tensor R) : Prop :=
  Forall (fun v => v = 0 \/ v = 1) (data t).

(** the shape of the scores: [(C,)] with [batch_dice], else [(B, C)] *)
Definition score_shape (self : region_loss) (B C : nat) : list nat :=
  if batch_dice self then [C] else [B; C].

(** the label map of [onehot2], and a Dice configuration *)
Definition labels2 : tensor R := Dim [Dim [Scalar 0]; Dim [Scalar 1]].
Definition dice_loss : region_loss :=
  {| apply_nonlin := None; batch_dice := true; do_bg := true; smooth := 1;
     square := false |}.

(** the closed form of the divergence of [N(mu1, var1)] from
    [N(mu2, std2^2)] in one dimension *)
Definition kl_gauss (mu1 var1 mu2 std2 : R) : R :=
  ln std2 - ln (sqrt var1) + 0.5 * (var1 + (mu1 - mu2) ^ 2) / std2 ^ 2 - 0.5.

(** the divergences of the entries of a [(B, D)] batch, summed over the last
    axis and averaged over the batch axis *)
Definition kld_reference (B D : nat) (mu1 logvar1 : tensor R) (mu2 std2 : R) : R :=
  Rsum (map (fun b =>
          Rsum (map (fun d => kl_gauss (relu (entry mu1 [b; d]))
                                (exp (entry logvar1 [b; d])) mu2 std2)
                  (seq 0 D)))
          (seq 0 B)) / INR B.

(** a label map whose entries convert to class indices in [0, C) *)
Definition labels_in_range (C : nat) (y : tensor R) : Prop :=
  Forall (fun v => (0 <= trunc v < Z.of_nat C)%Z) (data y).

(** a label map for [pred1]: the first voxel is of class 1, the second of
    class 0; and one with a label outside the two classes *)
Definition labels1 : tensor R := Dim [Dim [Dim [Scalar 1; Scalar 0]]].
Definition labels_bad : tensor R := Dim [Dim [Dim [Scalar 1; Scalar 2]]].

(** a tensor of probabilities *)
Definition unit_interval (t : tensor R) : Prop :=
  Forall (fun v => 0 <= v <= 1) (data t).

(** the deviation that keeps [m - 2 sigma] and [m + 2 sigma] within [0, 1] *)
Definition two_sigma (m : R) : R :=
  if Rlt_dec ((1 - m) / 2) ((m - 0) / 2) then (1 - m) / 2 else (m - 0) / 2.

(** an index that Python accepts on a row: negative ones count from the end *)
Definition index_in_range (row : list R) (t : Z) : Prop :=
  (- Z.of_nat (length row) <= t < Z.of_nat (length row))%Z.

(** the entry that the index selects *)
Definition picked (row : list R) (t : Z) : R :=
  nth (Z.to_nat (t mod Z.of_nat (length row))) row 0.

(** the class-weighted cross entropy: the weighted negative
    log-likelihoods, normalised by the sum of the weights of the labels *)
Definition weighted_cross_entropy (w : list R) (rows : list (list R))
    (ts : list Z) : R :=
  Rsum (map2 (fun row t => nth (Z.to_nat t) w 0 * voxel_nll row t) rows ts) /
  Rsum (map (fun t => nth (Z.to_nat t) w 0) ts).

(** the largest entry of a row, and the softmax of a row of logits:
    [exp x_j / sum_k exp x_k] *)
Definition row_max (row : list R) : R :=
  match row with
  | [] => 0
  | a :: l => fold_left Rmax l a
  end.

Definition softmax_row (row : list R) : list R :=
  map (fun v => exp v / Rsum (map exp row)) row.

(** the rows of a tensor flattened class by class *)
Definition class_rows (t : tensor R) : list (list R) :=
  map (flat_map data) (transpose_ll (cells t)).

(** the generalised Dice score of the rows [X] of a prediction against the
    rows [G] of a truth: the weighted intersection and the weighted sum *)
Definition gdice_weights (smooth : R) (G : list (list R)) : list R :=
  map (fun v => 1 / Rmax v smooth) (map2 Rmult (map Rsum G) (map Rsum G)).

Definition gdice_intersect (smooth : R) (X G : list (list R)) : R :=
  Rsum (map2 Rmult (map Rsum (map2 (map2 Rmult) X G)) (gdice_weights smooth G)).

Definition gdice_denominator (smooth : R) (X G : list (list R)) : R :=
  Rsum (map2 Rmult (map Rsum (map2 (map2 Rplus) X G)) (gdice_weights smooth G)).

(** a list in decreasing order *)
Fixpoint descending (l : list R) : Prop :=
  match l with
  | [] => True
  | a :: l' => Forall (fun b => b <= a) l' /\ descending l'
  end.

(** the weight that [GDiceLoss] gives to a class of volume [v] *)
Definition gdice_w (v : R) : R := 1 / (v + 1e-10) ^ 2.

(** for the cells [t[b, c]] of one sample of a prediction and of a truth:
    the weighted intersection and the weighted union of [GDiceLoss] *)
Definition gd_intersection (rowx rowg : list (tensor R)) : R :=
  Rsum (map2 Rmult (map gdice_w (map total rowg))
          (map2 (fun cx cg => total (zip_at 3 Rmult cx cg)) rowx rowg)).

Definition gd_union (rowx rowg : list (tensor R)) : R :=
  Rsum (map2 Rmult (map gdice_w (map total rowg))
          (map2 Rplus (map total rowx) (map total rowg))).

(** one voxel of a 3-d image with one class: a prediction and its truth *)
Definition voxel5 (v : R) : tensor R :=
  Dim [Dim [Dim [Dim [Dim [Scalar v]]]]].

(** a label map [(B, *S)] with the channel axis added: [(B, 1, *S)] *)
Definition with_channel {A} (y : tensor A) : tensor A :=
  Dim (map (fun t => Dim [t]) (subs y)).

(** a composite loss with an aggregation that is not defined, whose top-k
    part keeps all the voxels *)
Definition example_mean_topk_all : DC_and_topk_loss.t :=
  {| DC_and_topk_loss.aggregate := "mean";
     DC_and_topk_loss.ce := TopKLoss.init None (-100) 100;
     DC_and_topk_loss.dc := soft_dice false true 1 false |}.
(** * Properties *)

(** ** The error monad *)

Lemma raises_bind_l {A B} (c : result A) (k : A -> result B) :
  raises c -> raises (bind c k).
Proof. intros [e ->]. exists e. reflexivity. Qed.

Lemma raises_bind {A B} (c : result A) (k : A -> result B) :
  (forall a, c = Ok a -> raises (k a)) -> raises (bind c k).
Proof.
  destruct c as [a|e]; intros H.
  - apply H. reflexivity.
  - exists e. reflexivity.
Qed.

Lemma raises_Raise {A} (e : exn) : raises (@Raise A e).
Proof. exists e. reflexivity. Qed.

Lemma not_raises_Ok {A} (a : A) : ~ raises (Ok a).
Proof. intros [e H]. discriminate H. Qed.

Lemma bind_Ok_inv {A B} (c : result A) (k : A -> result B) (b : B) :
  bind c k = Ok b -> exists a, c = Ok a /\ k a = Ok b.
Proof.
  destruct c as [a|e]; simpl; intros H.
  - exists a. split; [reflexivity | exact H].
  - discriminate H.
Qed.

Create HintDb py.
#[local] Hint Resolve raises_Raise raises_bind_l : py.

(** ** [kld_loss]: flags outside their sets *)

Lemma posterior_mean_bad_flag raw mu1 mu2 f :
  f <> 0%Z -> f <> 1%Z -> f <> 2%Z ->
  posterior_mean raw mu1 mu2 f = Raise NotImplementedError.
Proof.
  intros H0 H1 H2. unfold posterior_mean.
  destruct (Z.eqb_spec f 0); [contradiction|].
  destruct (Z.eqb_spec f 1); [contradiction|].
  destruct (Z.eqb_spec f 2); [contradiction|]. reflexivity.
Qed.

Lemma posterior_std_bad_flag g lv mu1 std2 f :
  f <> 0%Z -> f <> 1%Z -> f <> 2%Z ->
  posterior_std g lv mu1 std2 f = Raise NotImplementedError.
Proof.
  intros H0 H1 H2. unfold posterior_std.
  destruct (Z.eqb_spec f 0); [contradiction|].
  destruct (Z.eqb_spec f 1); [contradiction|].
  destruct (Z.eqb_spec f 2); [contradiction|]. reflexivity.
Qed.

Lemma prior_mean_bad_flag raw mu2 f :
  f <> 0%Z -> f <> 1%Z ->
  prior_mean raw mu2 f = Raise NotImplementedError.
Proof.
  intros H0 H1. unfold prior_mean.
  destruct (Z.eqb_spec f 0); [contradiction|].
  destruct (Z.eqb_spec f 1); [contradiction|]. reflexivity.
Qed.

Lemma prior_std_bad_flag g mu2 std2 f :
  f <> 0%Z -> f <> 1%Z ->
  prior_std g mu2 std2 f = Raise NotImplementedError.
Proof.
  intros H0 H1. unfold prior_std.
  destruct (Z.eqb_spec f 0); [contradiction|].
  destruct (Z.eqb_spec f 1); [contradiction|]. reflexivity.
Qed.

(** C8: whatever the tensors, the prior parameters and the noise, a flag
    outside its enumerated set ([flag_mu1], [flag_std1] outside {0,1,2},
    [flag_mu2], [flag_std2] outside {0,1}) makes [kld_loss] raise: it returns
    no value, and no branch stands in for the unknown flag. *)
Theorem kld_loss_unknown_flag_raises
    (randn_like : tensor R -> tensor R) (raw_output mu1 logvar1 : tensor R)
    (mu2 std2 : R) (flag_mu1 flag_std1 flag_mu2 flag_std2 : Z) :
  (flag_mu1 <> 0 /\ flag_mu1 <> 1 /\ flag_mu1 <> 2)%Z \/
  (flag_std1 <> 0 /\ flag_std1 <> 1 /\ flag_std1 <> 2)%Z \/
  (flag_mu2 <> 0 /\ flag_mu2 <> 1)%Z \/
  (flag_std2 <> 0 /\ flag_std2 <> 1)%Z ->
  raises (kld_loss randn_like raw_output mu1 logvar1 mu2 std2
            flag_mu1 flag_std1 flag_mu2 flag_std2) /\
  forall v, kld_loss randn_like raw_output mu1 logvar1 mu2 std2
              flag_mu1 flag_std1 flag_mu2 flag_std2 <> Ok v.
Proof.
  intros H.
  assert (R0 : raises (kld_loss randn_like raw_output mu1 logvar1 mu2 std2
                         flag_mu1 flag_std1 flag_mu2 flag_std2)).
  { unfold kld_loss.
    destruct H as [(A & B & C) | [(A & B & C) | [(A & B) | (A & B)]]].
    - rewrite posterior_mean_bad_flag by assumption. auto with py.
    - apply raises_bind; intros m1 _.
      rewrite posterior_std_bad_flag by assumption. auto with py.
    - apply raises_bind; intros m1 _.
      apply raises_bind; intros [ls1 v1] _.
      rewrite prior_mean_bad_flag by assumption. auto with py.
    - apply raises_bind; intros m1 _.
      apply raises_bind; intros [ls1 v1] _.
      apply raises_bind; intros m2 _.
      rewrite prior_std_bad_flag by assumption. auto with py. }
  split; [exact R0|].
  intros v Hv. rewrite Hv in R0. exact (not_raises_Ok _ R0).
Qed.

Lemma kld_loss_unknown_flag_raises_witness :
  raises (kld_loss (fun t => t) (Dim [Scalar 0]) (Dim [Scalar 0]) (Dim [Scalar 0])
            0.5 0.125 0 0 0 7).
Proof.
  apply (kld_loss_unknown_flag_raises (fun t => t) (Dim [Scalar 0])
           (Dim [Scalar 0]) (Dim [Scalar 0]) 0.5 0.125 0 0 0 7).
  right. right. right. split; discriminate.
Defined.

(** ** Composite losses: the aggregation mode *)

Lemma tadd_scalars (c d : R) : tadd (Scalar c) (Scalar d) = Ok (Scalar (c + d)).
Proof. reflexivity. Qed.

(** C9: with [aggregate = "sum"] the two composite losses return
    [ce_loss + dc_loss], the sum of their two parts; with any other
    aggregation string they raise and return no value, and the error is the
    NotImplementedError of the aggregation test as soon as the two parts
    have returned (the parts are evaluated first, so that a failure of a
    part comes before the test). *)
Theorem DC_losses_sum_or_raise (l1 : DC_and_CE_loss.t) (l2 : DC_and_topk_loss.t)
    (net_output target : tensor R) :
  (forall dc_loss ce_loss : tensor R,
     SoftDiceLoss.forward (DC_and_CE_loss.dc l1) net_output target None =
       Ok dc_loss ->
     CrossentropyND.forward (DC_and_CE_loss.ce l1) net_output target =
       Ok ce_loss ->
     (DC_and_CE_loss.aggregate l1 = "sum"%string ->
      DC_and_CE_loss.forward l1 net_output target = tadd ce_loss dc_loss) /\
     (DC_and_CE_loss.aggregate l1 <> "sum"%string ->
      DC_and_CE_loss.forward l1 net_output target = Raise NotImplementedError)) /\
  (forall dc_loss ce_loss : tensor R,
     SoftDiceLoss.forward (DC_and_topk_loss.dc l2) net_output target None =
       Ok dc_loss ->
     TopKLoss.forward (DC_and_topk_loss.ce l2) net_output target = Ok ce_loss ->
     (DC_and_topk_loss.aggregate l2 = "sum"%string ->
      DC_and_topk_loss.forward l2 net_output target = tadd ce_loss dc_loss) /\
     (DC_and_topk_loss.aggregate l2 <> "sum"%string ->
      DC_and_topk_loss.forward l2 net_output target =
        Raise NotImplementedError)) /\
  (DC_and_CE_loss.aggregate l1 = "sum"%string ->
   DC_and_CE_loss.forward l1 net_output target =
     (dc_loss <- SoftDiceLoss.forward (DC_and_CE_loss.dc l1) net_output target None ;;
      ce_loss <- CrossentropyND.forward (DC_and_CE_loss.ce l1) net_output target ;;
      tadd ce_loss dc_loss)) /\
  (DC_and_CE_loss.aggregate l1 <> "sum"%string ->
   raises (DC_and_CE_loss.forward l1 net_output target)) /\
  (DC_and_topk_loss.aggregate l2 = "sum"%string ->
   DC_and_topk_loss.forward l2 net_output target =
     (dc_loss <- SoftDiceLoss.forward (DC_and_topk_loss.dc l2) net_output target None ;;
      ce_loss <- TopKLoss.forward (DC_and_topk_loss.ce l2) net_output target ;;
      tadd ce_loss dc_loss)) /\
  (DC_and_topk_loss.aggregate l2 <> "sum"%string ->
   raises (DC_and_topk_loss.forward l2 net_output target)) /\
  (forall e : exn,
     SoftDiceLoss.forward (DC_and_CE_loss.dc l1) net_output target None =
       Raise e ->
     DC_and_CE_loss.forward l1 net_output target = Raise e) /\
  (forall e : exn,
     SoftDiceLoss.forward (DC_and_topk_loss.dc l2) net_output target None =
       Raise e ->
     DC_and_topk_loss.forward l2 net_output target = Raise e).
Proof.
  split; [|split; [|repeat split]].
  - intros d c Hd Hc. unfold DC_and_CE_loss.forward. rewrite Hd, Hc. cbn [bind].
    split; intros H.
    + rewrite H. cbn [String.eqb Ascii.eqb Bool.eqb].
      destruct (tadd c d); reflexivity.
    + destruct (String.eqb_spec (DC_and_CE_loss.aggregate l1) "sum");
        [contradiction | reflexivity].
  - intros d c Hd Hc. unfold DC_and_topk_loss.forward. rewrite Hd, Hc. cbn [bind].
    split; intros H.
    + rewrite H. cbn [String.eqb Ascii.eqb Bool.eqb].
      destruct (tadd c d); reflexivity.
    + destruct (String.eqb_spec (DC_and_topk_loss.aggregate l2) "sum");
        [contradiction | reflexivity].
  - intros H. unfold DC_and_CE_loss.forward. rewrite H. simpl.
    destruct (SoftDiceLoss.forward _ _ _ _) as [d|e]; [simpl|reflexivity].
    destruct (CrossentropyND.forward _ _ _) as [c|e]; [simpl|reflexivity].
    destruct (tadd c d); reflexivity.
  - intros H. unfold DC_and_CE_loss.forward.
    apply raises_bind; intros d _. apply raises_bind; intros c _.
    destruct (String.eqb_spec (DC_and_CE_loss.aggregate l1) "sum");
      [contradiction | auto with py].
  - intros H. unfold DC_and_topk_loss.forward. rewrite H. simpl.
    destruct (SoftDiceLoss.forward _ _ _ _) as [d|e]; [simpl|reflexivity].
    destruct (TopKLoss.forward _ _ _) as [c|e]; [simpl|reflexivity].
    destruct (tadd c d); reflexivity.
  - intros H. unfold DC_and_topk_loss.forward.
    apply raises_bind; intros d _. apply raises_bind; intros c _.
    destruct (String.eqb_spec (DC_and_topk_loss.aggregate l2) "sum");
      [contradiction | auto with py].
  - intros e He. unfold DC_and_CE_loss.forward. rewrite He. reflexivity.
  - intros e He. unfold DC_and_topk_loss.forward. rewrite He. reflexivity.
Qed.

(** ** Cross entropy *)

Lemma bind_assoc {A B C} (c : result A) (f : A -> result B) (g : B -> result C) :
  bind (bind c f) g = bind c (fun a => bind (f a) g).
Proof. destruct c; reflexivity. Qed.

Lemma mapM_Ok_map {A B} (f : A -> B) (l : list A) :
  mapM (fun a => Ok (f a)) l = Ok (map f l).
Proof. induction l as [|a l IH]; simpl; [|rewrite IH]; reflexivity. Qed.

Lemma mapM_ext_in {A B} (f g : A -> result B) (l : list A) :
  (forall a, In a l -> f a = g a) -> mapM f l = mapM g l.
Proof.
  induction l as [|a l IH]; simpl; intros H; [reflexivity|].
  rewrite (H a) by (left; reflexivity).
  rewrite IH by (intros b Hb; apply H; right; exact Hb). reflexivity.
Qed.

Lemma data_map_Scalar {A} (l : list A) : data (Dim (map Scalar l)) = l.
Proof. simpl. induction l as [|a l IH]; simpl; [|rewrite IH]; reflexivity. Qed.

Lemma entries_map_Scalar {A} (l : list A) : entries (Dim (map Scalar l)) = Ok l.
Proof.
  unfold entries. simpl.
  induction l as [|a l IH]; simpl; [reflexivity|]. rewrite IH. reflexivity.
Qed.

Lemma entries_view_flat {A} (t : tensor A) : entries (view_flat t) = Ok (data t).
Proof. apply entries_map_Scalar. Qed.

Lemma ce_voxel_default_valid (row : list R) (t : Z) :
  valid_target row t -> ce_voxel default_ce row t = Ok (voxel_nll row t, 1).
Proof.
  intros [H0 H1]. unfold ce_voxel, voxel_nll. simpl.
  destruct (Z.eqb_spec t (-100)); [lia|].
  destruct (Z.ltb_spec t 0); [lia|].
  destruct (Z.leb_spec (Z.of_nat (length row)) t); [lia|]. simpl.
  f_equal. f_equal. lra.
Qed.

Lemma mapM_ce_voxel_valid (rows : list (list R)) (ts : list Z) :
  Forall2 valid_target rows ts ->
  mapM (fun '(row, t) => ce_voxel default_ce row t) (combine rows ts) =
    Ok (map2 (fun row t => (voxel_nll row t, 1)) rows ts).
Proof.
  induction 1 as [|row t rows ts H _ IH]; simpl; [reflexivity|].
  rewrite (ce_voxel_default_valid _ _ H). simpl. rewrite IH. reflexivity.
Qed.

Lemma map_fst_map2 {A B} (f : A -> B -> R) (g : A -> B -> R) la lb :
  map fst (map2 (fun a b => (f a b, g a b)) la lb) = map2 f la lb.
Proof.
  revert lb. induction la as [|a la IH]; intros [|b lb]; simpl;
    [reflexivity..|]. rewrite IH. reflexivity.
Qed.

Lemma Rsum_weights_one {A B} (f : A -> B -> R) la lb :
  length la = length lb ->
  Rsum (map snd (map2 (fun a b => (f a b, 1)) la lb)) = INR (length la).
Proof.
  revert lb. induction la as [|a la IH]; intros [|b lb] H; try discriminate H.
  - reflexivity.
  - cbn [map2 map snd Rsum fold_right length]. fold (Rsum (map snd (map2 (fun a b => (f a b, 1)) la lb))).
    rewrite IH by (simpl in H; lia). rewrite S_INR. lra.
Qed.

(** the unweighted mean reduction on valid targets is the plain cross entropy *)
Lemma cross_entropy_default_plain (x : tensor R) (target : tensor Z)
    (rows : list (list R)) (ts : list Z) :
  rows_of x = Ok rows -> entries target = Ok ts ->
  Forall2 valid_target rows ts ->
  cross_entropy default_ce x target = Ok (Scalar (plain_cross_entropy rows ts)).
Proof.
  intros Hx Ht Hv. unfold cross_entropy. rewrite Hx, Ht. simpl.
  pose proof (Forall2_length Hv) as Hlen.
  rewrite (proj2 (Nat.eqb_eq _ _) Hlen). simpl.
  rewrite (mapM_ce_voxel_valid _ _ Hv). simpl.
  unfold plain_cross_entropy.
  rewrite (map_fst_map2 voxel_nll (fun _ _ => 1)).
  rewrite Rsum_weights_one by exact Hlen. reflexivity.
Qed.

Lemma WeightedCrossEntropyLossV2_unfold (net_output gt : tensor R) :
  WeightedCrossEntropyLossV2.forward true net_output gt =
    (x <- voxel_logits net_output ;;
     cross_entropy default_ce x (view_flat (long gt))).
Proof.
  unfold WeightedCrossEntropyLossV2.forward, voxel_logits. simpl.
  destruct (size_at net_output 1) as [c|e]; [simpl|reflexivity].
  destruct (class_axis_last net_output) as [x|e]; reflexivity.
Qed.

(** C10: on a device with CUDA, [WeightedCrossEntropyLossV2.forward] is the
    unweighted cross entropy of the module ([WeightedCrossEntropyLoss] built
    with [weight=None]), and on labels inside [0, C) it returns the plain mean
    of the voxels' negative log-likelihoods: the weights [0.2, 0.8] occur in
    no term of the result. *)
Theorem WeightedCrossEntropyLossV2_is_unweighted (net_output gt : tensor R) :
  WeightedCrossEntropyLossV2.forward true net_output gt =
    WeightedCrossEntropyLoss.forward None net_output gt /\
  forall rows : list (list R),
    voxel_rows net_output = Ok rows ->
    Forall2 valid_target rows (data (long gt)) ->
    WeightedCrossEntropyLossV2.forward true net_output gt =
      Ok (Scalar (plain_cross_entropy rows (data (long gt)))).
Proof.
  split; [reflexivity|].
  intros rows Hrows Hv. rewrite WeightedCrossEntropyLossV2_unfold.
  unfold voxel_rows in Hrows.
  destruct (voxel_logits net_output) as [x|e]; simpl in *; [|discriminate].
  apply cross_entropy_default_plain with (rows := rows) (ts := data (long gt));
    [exact Hrows | apply entries_view_flat | exact Hv].
Qed.

Lemma Int_part_IZR (z : Z) : Int_part (IZR z) = z.
Proof. symmetry. apply Int_part_spec. lra. Qed.

Lemma trunc_IZR (z : Z) : trunc (IZR z) = z.
Proof.
  unfold trunc. destruct (Rle_dec 0 (IZR z)) as [H|H].
  - apply Int_part_IZR.
  - rewrite <- opp_IZR, Int_part_IZR. lia.
Qed.

Lemma WeightedCrossEntropyLossV2_is_unweighted_witness :
  WeightedCrossEntropyLossV2.forward true (Dim [Dim [Scalar 0; Scalar 0]])
      (Dim [Scalar 1]) =
    Ok (Scalar (plain_cross_entropy [[0; 0]] [1%Z])).
Proof.
  pose proof (proj2 (WeightedCrossEntropyLossV2_is_unweighted
                (Dim [Dim [Scalar 0; Scalar 0]]) (Dim [Scalar 1]))
                [[0; 0]] eq_refl) as H.
  simpl in H. rewrite (trunc_IZR 1) in H. apply H.
  constructor; [|constructor]. split; simpl; lia.
Defined.

(** ** Top-k cross entropy *)

Lemma insert_down_perm (x : R) (l : list R) : Permutation (x :: l) (insert_down x l).
Proof.
  induction l as [|y l IH]; simpl; [apply Permutation_refl|].
  destruct (Rle_dec y x).
  - apply Permutation_refl.
  - eapply perm_trans; [apply perm_swap|]. apply perm_skip. exact IH.
Qed.

Lemma sort_down_perm (l : list R) : Permutation l (sort_down l).
Proof.
  induction l as [|x l IH]; simpl; [constructor|].
  eapply perm_trans; [apply perm_skip; exact IH|]. apply insert_down_perm.
Qed.

Lemma Rsum_perm (l l' : list R) : Permutation l l' -> Rsum l = Rsum l'.
Proof.
  induction 1 as [|x l l' _ IH|x y l|l l' l'' _ IH1 _ IH2]; simpl.
  - reflexivity.
  - rewrite IH. reflexivity.
  - lra.
  - rewrite IH1. exact IH2.
Qed.

Lemma cross_entropy_none_form (self : CrossEntropyLoss) (x : tensor R)
    (target : tensor Z) (res : tensor R) :
  reduction self = reduction_none ->
  cross_entropy self x target = Ok res ->
  exists ls : list R, res = Dim (map Scalar ls).
Proof.
  intros Hr. unfold cross_entropy. rewrite Hr.
  destruct (rows_of x) as [rows|e]; simpl; [|discriminate].
  destruct (entries target) as [ts|e]; simpl; [|discriminate].
  destruct (negb _); [discriminate|].
  destruct (negb _); [discriminate|].
  destruct (mapM _ _) as [vs|e]; simpl; [|discriminate].
  intros H. injection H as <-. exists (map fst vs).
  rewrite map_map. reflexivity.
Qed.

Lemma CrossentropyND_none_form (self : CrossEntropyLoss) (inp target res : tensor R) :
  reduction self = reduction_none ->
  CrossentropyND.forward self inp target = Ok res ->
  exists ls : list R, res = Dim (map Scalar ls).
Proof.
  intros Hr. unfold CrossentropyND.forward.
  destruct (size_at inp 1) as [c|e]; simpl; [|discriminate].
  destruct (class_axis_last inp) as [x|e]; simpl; [|discriminate].
  destruct (view_rows c x) as [x'|e]; simpl; [|discriminate].
  apply cross_entropy_none_form. exact Hr.
Qed.

Lemma size_map_Scalar {A} (l : list A) : prod (size (Dim (map Scalar l))) = length l.
Proof.
  destruct l as [|a l]; simpl; [reflexivity|]. rewrite length_map. lia.
Qed.

Lemma mean_map_Scalar (l : list R) :
  mean (Dim (map Scalar l)) = Scalar (Rsum l / INR (length l)).
Proof. unfold mean, sum_all, numel. rewrite data_map_Scalar. reflexivity. Qed.

(** the selection of all the entries keeps their mean *)
Lemma topk_all_mean (ls : list R) :
  (res <- topk (view_flat (Dim (map Scalar ls)))
            (Z.quot (Z.of_nat (length ls) * 100) 100) ;; Ok (mean res)) =
  Ok (mean (Dim (map Scalar ls))).
Proof.
  unfold topk. rewrite entries_view_flat, data_map_Scalar. simpl.
  rewrite Z.quot_mul by lia.
  destruct (Z.ltb_spec (Z.of_nat (length ls)) 0); [lia|].
  destruct (Z.ltb_spec (Z.of_nat (length ls)) (Z.of_nat (length ls))); [lia|].
  simpl. rewrite Nat2Z.id.
  pose proof (sort_down_perm ls) as HP.
  rewrite firstn_all2 by (rewrite <- (Permutation_length HP); lia).
  rewrite !mean_map_Scalar.
  rewrite <- (Rsum_perm _ _ HP), <- (Permutation_length HP). reflexivity.
Qed.

(** C7: with [k = 100] the top-k loss is the plain arithmetic mean of all
    the unreduced voxel losses that the parent cross entropy returns for the
    logits and the first channel of the label map; nothing is selected away. *)
Theorem TopKLoss_k100_is_mean (w : option (list R)) (ignored : Z)
    (inp target : tensor R) :
  TopKLoss.forward (TopKLoss.init w ignored 100) inp target =
    (labels <- select0_axis1 target ;;
     res <- CrossentropyND.forward
              {| weight := w; ignore_index := ignored;
                 reduction := reduction_none |}
              inp (tmap IZR (long labels)) ;;
     Ok (mean res)).
Proof.
  unfold TopKLoss.forward, TopKLoss.init. simpl.
  destruct (select0_axis1 target) as [labels|e]; simpl; [|reflexivity].
  destruct (CrossentropyND.forward _ inp _) as [res|e] eqn:E; simpl; [|reflexivity].
  apply CrossentropyND_none_form in E; [|reflexivity]. destruct E as [ls ->].
  rewrite size_map_Scalar. apply topk_all_mean.
Qed.

(** ** Distance-penalised cross entropy *)

Lemma DisPenalizedCE_forward_unweighted
    (edt : tensor bool -> result (tensor R)) (inp target v : tensor R) :
  DisPenalizedCE_forward edt inp target = Ok v ->
  unweighted_nll inp target = Ok v.
Proof.
  unfold DisPenalizedCE_forward, unweighted_nll, voxel_logits, nll_loss.
  destruct (compute_edts_forPenalizedLoss edt _) as [dist|e]; simpl; [|discriminate].
  destruct (size_at inp 1) as [c|e]; simpl; [|discriminate].
  destruct (class_axis_last inp) as [x|e]; simpl; [|discriminate].
  destruct (view_rows c x) as [x'|e]; simpl; [|discriminate].
  destruct (log_softmax_1 x') as [logs|e]; simpl; [|discriminate].
  destruct (entries (view_flat (long target))) as [ts|e]; simpl; [|discriminate].
  destruct (index_rows logs ts) as [picked|e]; simpl; [|discriminate].
  destruct (tmul _ _) as [w|e]; simpl; [|discriminate].
  intros H. exact H.
Qed.

(** C1: whenever [DisPenalizedCE.forward] returns, it returns the mean of
    the voxels' negative log-softmax losses, computed without the distance
    map: the product [loss * dist] is formed (and can fail) but the value
    does not depend on the distance transform. *)
Theorem DisPenalizedCE_returns_unweighted_mean
    (edt : tensor bool -> result (tensor R)) (inp target v : tensor R) :
  DisPenalizedCE_forward edt inp target = Ok v ->
  unweighted_nll inp target = Ok v /\
  forall (edt' : tensor bool -> result (tensor R)) (v' : tensor R),
    DisPenalizedCE_forward edt' inp target = Ok v' -> v' = v.
Proof.
  intros H. pose proof (DisPenalizedCE_forward_unweighted _ _ _ _ H) as Hu.
  split; [exact Hu|].
  intros edt' v' H'. apply DisPenalizedCE_forward_unweighted in H'.
  rewrite Hu in H'. injection H' as <-. reflexivity.
Qed.

Lemma DisPenalizedCE_forward_example :
  exists v, DisPenalizedCE_forward edt0 inp0 target0 = Ok v.
Proof.
  eexists. unfold DisPenalizedCE_forward, inp0, target0.
  cbn -[Rlt_dec trunc ln exp Rmax].
  destruct (Rlt_dec 0.5 1) as [_|H]; [|exfalso; lra].
  destruct (Rlt_dec 0.5 0) as [H|_]; [exfalso; lra|].
  cbn -[Rlt_dec trunc ln exp Rmax].
  rewrite (trunc_IZR 1), (trunc_IZR 0).
  cbn -[Rlt_dec trunc ln exp Rmax]. reflexivity.
Qed.

Lemma DisPenalizedCE_returns_unweighted_mean_witness :
  exists v, DisPenalizedCE_forward edt0 inp0 target0 = Ok v /\
            unweighted_nll inp0 target0 = Ok v.
Proof.
  destruct DisPenalizedCE_forward_example as [v Hv].
  exists v. split; [exact Hv|].
  exact (proj1 (DisPenalizedCE_returns_unweighted_mean edt0 inp0 target0 v Hv)).
Defined.

(** ** [kld_loss]: the posterior mean under [flag_mu1 = 2] *)

Lemma sigmoid_0 : sigmoid 0 = 1 / 2.
Proof. unfold sigmoid. rewrite Ropp_0, exp_0. lra. Qed.

(** C2, as stated, fails: with [flag_mu1 = 2] and [flag_mu2 = 1] the
    posterior mean is the argument [mu2 = 0] while the prior mean of the
    divergence is the mean sigmoid of the raw output, here 1/2. *)
Lemma posterior_mean_flag2_differs_from_prior :
  exists m1 m2 : pyval,
    posterior_mean (Dim [Scalar 0]) (Dim [Scalar 0]) (PyFloat 0) 2 = Ok m1 /\
    prior_mean (Dim [Scalar 0]) (PyFloat 0) 1 = Ok m2 /\
    as_tensor m1 <> as_tensor m2.
Proof.
  exists (PyFloat 0), (PyTensor (mean (tmap sigmoid (Dim [Scalar 0])))).
  repeat split. simpl. unfold mean, sum_all, numel. simpl.
  rewrite sigmoid_0. intros H. injection H as H. lra.
Qed.

(** C2, amended: with [flag_mu1 = 2] the posterior mean of the divergence
    and of the sampled threshold is the argument [mu2]; the prior mean is that
    same argument when [flag_mu2 = 0], and the mean sigmoid of the raw output
    when [flag_mu2 = 1]. *)
Theorem kld_loss_flag_mu1_2_takes_mu2_argument
    (randn_like : tensor R -> tensor R) (raw_output mu1 logvar1 : tensor R)
    (mu2 std2 : R) (flag_std1 flag_mu2 flag_std2 : Z) :
  kld_loss randn_like raw_output mu1 logvar1 mu2 std2 2 flag_std1 flag_mu2 flag_std2 =
    ('(log_sigma1, var1) <-
       posterior_std (PyFloat 2) logvar1 (PyFloat mu2) (PyFloat std2) flag_std1 ;;
     prior <- prior_mean raw_output (PyFloat mu2) flag_mu2 ;;
     sigma2 <- prior_std (PyFloat 2) prior (PyFloat std2) flag_std2 ;;
     loss <- kl_divergence log_sigma1 var1 (PyFloat mu2) prior sigma2 ;;
     threshold <- sample_threshold randn_like logvar1 (PyFloat mu2) ;;
     Ok (loss, threshold)) /\
  prior_mean raw_output (PyFloat mu2) 0 = Ok (PyFloat mu2) /\
  prior_mean raw_output (PyFloat mu2) 1 =
    Ok (PyTensor (mean (tmap sigmoid raw_output))).
Proof. repeat split. Qed.

(** ** Shapes *)

Lemma has_shape_Dim {A} (n : nat) (s : list nat) (l : list (tensor A)) :
  has_shape (n :: s) (Dim l) = true <->
  length l = n /\ Forall (fun t => has_shape s t = true) l.
Proof.
  simpl. rewrite andb_true_iff, Nat.eqb_eq, forallb_forall, Forall_forall.
  reflexivity.
Qed.

Lemma has_shape_nil {A} (t : tensor A) :
  has_shape [] t = true <-> exists x, t = Scalar x.
Proof.
  destruct t as [x|l]; simpl; split; intros H.
  - exists x. reflexivity.
  - reflexivity.
  - discriminate.
  - destruct H as [x H]. discriminate.
Qed.

Lemma has_shape_cons_inv {A} (n : nat) (s : list nat) (t : tensor A) :
  has_shape (n :: s) t = true ->
  exists l, t = Dim l /\ length l = n /\ Forall (fun t => has_shape s t = true) l.
Proof.
  destruct t as [x|l]; [discriminate|]. intros H. exists l.
  split; [reflexivity|]. apply has_shape_Dim. exact H.
Qed.

Lemma positive_cons (n : nat) (s : list nat) :
  positive (n :: s) = true <-> (0 < n)%nat /\ positive s = true.
Proof. unfold positive. simpl. rewrite andb_true_iff, Nat.ltb_lt. reflexivity. Qed.

Lemma has_shape_size {A} (s : list nat) (t : tensor A) :
  positive s = true -> has_shape s t = true -> size t = s.
Proof.
  revert t. induction s as [|n s IH]; intros t Hp Hs.
  - apply has_shape_nil in Hs. destruct Hs as [x ->]. reflexivity.
  - apply positive_cons in Hp. destruct Hp as [Hn Hp].
    apply has_shape_cons_inv in Hs. destruct Hs as (l & -> & Hl & Hall).
    destruct l as [|t0 l]; [simpl in Hl; lia|].
    simpl. f_equal; [exact Hl|]. apply IH; [exact Hp|].
    inversion Hall; assumption.
Qed.

Lemma has_shape_rank {A} (s : list nat) (t : tensor A) :
  positive s = true -> has_shape s t = true -> rank t = length s.
Proof. intros Hp Hs. unfold rank. rewrite (has_shape_size s t Hp Hs). reflexivity. Qed.

Lemma has_shape_tmap {A B} (f : A -> B) (s : list nat) (t : tensor A) :
  has_shape s t = true -> has_shape s (tmap f t) = true.
Proof.
  revert t. induction s as [|n s IH]; intros t Hs.
  - apply has_shape_nil in Hs. destruct Hs as [x ->]. reflexivity.
  - apply has_shape_cons_inv in Hs. destruct Hs as (l & -> & Hl & Hall).
    simpl tmap. apply has_shape_Dim. rewrite length_map. split; [exact Hl|].
    apply Forall_map. revert Hall. apply Forall_impl. intros a. apply IH.
Qed.

Lemma has_shape_full {A} (s : list nat) (v : A) : has_shape s (full s v) = true.
Proof.
  induction s as [|n s IH]; [reflexivity|].
  simpl full. apply has_shape_Dim. rewrite repeat_length. split; [reflexivity|].
  apply Forall_forall. intros t Ht. apply repeat_spec in Ht. subst t. exact IH.
Qed.

Lemma length_map2 {A B C} (f : A -> B -> C) la lb :
  length la = length lb -> length (map2 f la lb) = length la.
Proof.
  revert lb. induction la as [|a la IH]; intros [|b lb] H; simpl in *;
    try reflexivity; try discriminate. rewrite IH by lia. reflexivity.
Qed.

Lemma Forall_map2 {A B C} (P : A -> Prop) (Q : B -> Prop) (T : C -> Prop)
    (f : A -> B -> C) la lb :
  (forall a b, P a -> Q b -> T (f a b)) ->
  Forall P la -> Forall Q lb -> Forall T (map2 f la lb).
Proof.
  intros Hf Ha. revert lb. induction Ha as [|a la Pa _ IH]; intros lb Hb.
  - constructor.
  - destruct Hb as [|b lb Qb Hb]; simpl; constructor; auto.
Qed.

Lemma has_shape_zip_at {A B C} (f : A -> B -> C) (s : list nat)
    (a : tensor A) (b : tensor B) :
  has_shape s a = true -> has_shape s b = true ->
  has_shape s (zip_at (length s) f a b) = true.
Proof.
  revert a b. induction s as [|n s IH]; intros a b Ha Hb.
  - apply has_shape_nil in Ha, Hb. destruct Ha as [x ->], Hb as [y ->]. reflexivity.
  - apply has_shape_cons_inv in Ha, Hb.
    destruct Ha as (la & -> & Hla & Halla), Hb as (lb & -> & Hlb & Hallb).
    simpl. apply has_shape_Dim. split.
    + rewrite length_map2; congruence.
    + eapply Forall_map2; [|exact Halla|exact Hallb]. intros; apply IH; assumption.
Qed.

(** *** Broadcasting of equal shapes and of scalars *)

Lemma broadcast_rev_same (r : list nat) : broadcast_rev r r = Ok r.
Proof.
  induction r as [|n r IH]; [reflexivity|]. simpl. rewrite IH. simpl.
  rewrite Nat.eqb_refl. reflexivity.
Qed.

Lemma broadcast_shapes_same (s : list nat) : broadcast_shapes s s = Ok s.
Proof.
  unfold broadcast_shapes. rewrite broadcast_rev_same. simpl.
  rewrite rev_involutive. reflexivity.
Qed.

Lemma map_id_in {A} (f : A -> A) (l : list A) :
  Forall (fun a => f a = a) l -> map f l = l.
Proof. induction 1 as [|a l Ha _ IH]; simpl; [|rewrite Ha, IH]; reflexivity. Qed.

Lemma expand_same {A} (s : list nat) (t : tensor A) :
  positive s = true -> has_shape s t = true -> expand s t = t.
Proof.
  revert t. induction s as [|n s IH]; intros t Hp Hs; [reflexivity|].
  pose proof (has_shape_rank _ _ Hp Hs) as Hr.
  apply positive_cons in Hp. destruct Hp as [Hn Hp].
  apply has_shape_cons_inv in Hs. destruct Hs as (l & -> & Hl & Hall).
  cbn [expand]. rewrite Hr, Nat.ltb_irrefl.
  assert (Hm : map (expand s) l = l).
  { apply map_id_in. revert Hall. apply Forall_impl. intros a. apply IH, Hp. }
  destruct l as [|t0 [|t1 l]].
  - simpl in Hl. lia.
  - simpl in Hl. subst n. simpl. inversion Hm as [H0]. rewrite H0. rewrite H0. reflexivity.
  - rewrite Hm. reflexivity.
Qed.

Lemma tbin_same_shape {A B C} (f : A -> B -> C) (s : list nat)
    (a : tensor A) (b : tensor B) :
  positive s = true -> has_shape s a = true -> has_shape s b = true ->
  tbin f a b = Ok (zip_at (length s) f a b).
Proof.
  intros Hp Ha Hb. unfold tbin.
  rewrite (has_shape_size s a Hp Ha), (has_shape_size s b Hp Hb).
  rewrite broadcast_shapes_same. simpl.
  rewrite (expand_same s a Hp Ha), (expand_same s b Hp Hb). reflexivity.
Qed.

(** *** Sums over the spatial axes *)

Lemma mapM_Ok_Forall2 {A B} (f : A -> result B) (l : list A) (l' : list B) :
  Forall2 (fun a b => f a = Ok b) l l' -> mapM f l = Ok l'.
Proof.
  induction 1 as [|a b l l' H _ IH]; simpl; [reflexivity|].
  rewrite H. simpl. rewrite IH. reflexivity.
Qed.

Lemma mapM_Ok_map_in {A B} (f : A -> result B) (g : A -> B) (l : list A) :
  Forall (fun a => f a = Ok (g a)) l -> mapM f l = Ok (map g l).
Proof.
  induction 1 as [|a l H _ IH]; simpl; [reflexivity|].
  rewrite H. simpl. rewrite IH. reflexivity.
Qed.

Lemma Rsum_app (l1 l2 : list R) : Rsum (l1 ++ l2) = Rsum l1 + Rsum l2.
Proof. induction l1 as [|x l1 IH]; simpl; [|rewrite IH]; lra. Qed.

Lemma sum_all_Dim (l : list (tensor R)) :
  sum_all (Dim l) = Rsum (map sum_all l).
Proof.
  unfold sum_all. simpl.
  induction l as [|t l IH]; simpl; [reflexivity|].
  rewrite Rsum_app, IH. reflexivity.
Qed.

Lemma positive_removelast (s : list nat) :
  positive s = true -> positive (removelast s) = true.
Proof.
  induction s as [|n s IH]; [reflexivity|]. intros H.
  apply positive_cons in H. destruct H as [Hn H].
  destruct s as [|m s]; [reflexivity|].
  change (removelast (n :: m :: s)) with (n :: removelast (m :: s)).
  apply positive_cons. split; [exact Hn | exact (IH H)].
Qed.

Lemma length_flat_map_const {A B} (f : A -> list B) (k : nat) (l : list A) :
  Forall (fun a => length (f a) = k) l -> length (flat_map f l) = (length l * k)%nat.
Proof.
  induction 1 as [|a l H _ IH]; simpl; [reflexivity|].
  rewrite length_app, H, IH. reflexivity.
Qed.

Lemma numel_has_shape {A} (s : list nat) (t : tensor A) :
  has_shape s t = true -> numel t = prod s.
Proof.
  unfold numel. revert t. induction s as [|n s IH]; intros t Hs.
  - apply has_shape_nil in Hs. destruct Hs as [x ->]. reflexivity.
  - apply has_shape_cons_inv in Hs. destruct Hs as (l & -> & Hl & Hall).
    simpl. rewrite (length_flat_map_const data (prod s)).
    + rewrite Hl. reflexivity.
    + revert Hall. apply Forall_impl. intros a. apply IH.
Qed.

Lemma map2_app {A B C} (f : A -> B -> C) la la' lb lb' :
  length la = length lb ->
  map2 f (la ++ la') (lb ++ lb') = map2 f la lb ++ map2 f la' lb'.
Proof.
  revert lb. induction la as [|a la IH]; intros [|b lb] H; simpl in *;
    try discriminate; [reflexivity|]. rewrite IH by lia. reflexivity.
Qed.

Lemma data_zip_at {A B C} (f : A -> B -> C) (s : list nat)
    (a : tensor A) (b : tensor B) :
  has_shape s a = true -> has_shape s b = true ->
  data (zip_at (length s) f a b) = map2 f (data a) (data b).
Proof.
  revert a b. induction s as [|n s IH]; intros a b Ha Hb.
  - apply has_shape_nil in Ha, Hb. destruct Ha as [x ->], Hb as [y ->]. reflexivity.
  - apply has_shape_cons_inv in Ha, Hb.
    destruct Ha as (la & -> & Hla & Halla), Hb as (lb & -> & Hlb & Hallb).
    assert (Hlen : length la = length lb) by congruence.
    simpl. clear Hla Hlb. revert lb Hallb Hlen.
    induction Halla as [|a la Ha _ IHl]; intros lb Hallb Hlen.
    + destruct lb; [reflexivity | discriminate].
    + destruct Hallb as [|b lb Hb Hallb]; [discriminate|]. simpl.
      rewrite map2_app.
      * rewrite IH by assumption. rewrite IHl by (simpl in Hlen; auto; lia).
        reflexivity.
      * pose proof (numel_has_shape s a Ha) as H1.
        pose proof (numel_has_shape s b Hb) as H2.
        unfold numel in H1, H2. congruence.
Qed.

Lemma data_tmap {A B} (f : A -> B) (s : list nat) (t : tensor A) :
  has_shape s t = true -> data (tmap f t) = map f (data t).
Proof.
  revert t. induction s as [|n s IH]; intros t Hs.
  - apply has_shape_nil in Hs. destruct Hs as [x ->]. reflexivity.
  - apply has_shape_cons_inv in Hs. destruct Hs as (l & -> & Hl & Hall).
    simpl. clear Hl. induction Hall as [|a l Ha _ IHl]; [reflexivity|].
    simpl. rewrite map_app, IH, IHl by assumption. reflexivity.
Qed.

Lemma reduce_scalars (l : list (tensor R)) :
  Forall (fun t => has_shape [] t = true) l ->
  reduce_axis0 Rplus (zeros []) l 0 = Scalar (Rsum (map total l)).
Proof.
  induction 1 as [|a l Ha _ IH]; [reflexivity|].
  apply has_shape_nil in Ha. destruct Ha as [x ->].
  unfold reduce_axis0 in *. cbn [fold_right]. rewrite IH. reflexivity.
Qed.

Lemma total_sum_all (s : list nat) (t : tensor R) :
  has_shape s t = true -> total t = sum_all t.
Proof.
  revert t. induction s as [|n s IH]; intros t Hs.
  - apply has_shape_nil in Hs. destruct Hs as [x ->].
    unfold sum_all. simpl. lra.
  - apply has_shape_cons_inv in Hs. destruct Hs as (l & -> & _ & Hall).
    rewrite sum_all_Dim. simpl. f_equal.
    induction Hall as [|a l Ha _ IHl]; [reflexivity|].
    simpl. rewrite (IH a Ha), IHl. reflexivity.
Qed.

Lemma sum_axis_succ (ax : nat) (keepdim : bool) (l : list (tensor R)) :
  sum_axis (S ax) keepdim (Dim l) =
    (l' <- mapM (sum_axis ax keepdim) l ;; Ok (Dim l')).
Proof. reflexivity. Qed.

(** the sum over the last axis keeps the sum of all entries *)
Lemma sum_last_axis (s : list nat) (n : nat) (u : tensor R) :
  positive (s ++ [n]) = true -> has_shape (s ++ [n]) u = true ->
  exists u', sum_axis (length s) false u = Ok u' /\
             has_shape s u' = true /\ total u' = total u.
Proof.
  revert u. induction s as [|m s IH]; intros u Hp Hs.
  - cbn [app length] in *. apply has_shape_cons_inv in Hs.
    destruct Hs as (l & -> & Hl & Hall).
    assert (Hsz : inner_size (Dim l) = []).
    { unfold inner_size. apply positive_cons in Hp. destruct Hp as [Hn _].
      destruct l as [|t0 l]; [simpl in Hl; lia|]. simpl.
      inversion Hall as [|? ? H0 _]; subst. apply has_shape_nil in H0.
      destruct H0 as [x0 ->]. reflexivity. }
    cbn [sum_axis]. rewrite Hsz. cbn [length].
    rewrite (reduce_scalars l Hall). eexists. split; [reflexivity|].
    split; reflexivity.
  - cbn [app length] in *. apply positive_cons in Hp. destruct Hp as [Hm Hp].
    apply has_shape_cons_inv in Hs. destruct Hs as (l & -> & Hl & Hall).
    assert (Hex : exists l', Forall2 (fun a b => sum_axis (length s) false a = Ok b) l l' /\
                    Forall (fun t => has_shape s t = true) l' /\
                    map total l' = map total l).
    { clear Hl. induction Hall as [|a l Ha _ IHl].
      - exists []. repeat split; constructor.
      - destruct (IH a Hp Ha) as (a' & E1 & E2 & E3).
        destruct IHl as (l' & F1 & F2 & F3).
        exists (a' :: l'). repeat split; try constructor; try assumption.
        simpl. rewrite E3, F3. reflexivity. }
    destruct Hex as (l' & F1 & F2 & F3).
    exists (Dim l'). simpl. rewrite (mapM_Ok_Forall2 _ _ _ F1). simpl.
    split; [reflexivity|]. split.
    + rewrite <- (Forall2_length F1), Hl, Nat.eqb_refl. simpl.
      apply forallb_forall. apply Forall_forall. exact F2.
    + rewrite F3. reflexivity.
Qed.

(** the same under the sample and class axes *)
Lemma sum_last_spatial_axis (B C : nat) (s : list nat) (n : nat) (t : tensor R) :
  positive (B :: C :: s ++ [n]) = true ->
  has_shape (B :: C :: s ++ [n]) t = true ->
  exists t', sum_axis (S (S (length s))) false t = Ok t' /\
             has_shape (B :: C :: s) t' = true /\
             spatial_sums t' = spatial_sums t.
Proof.
  intros Hp Hs.
  apply positive_cons in Hp. destruct Hp as [HB Hp].
  apply positive_cons in Hp. destruct Hp as [HC Hp].
  apply has_shape_cons_inv in Hs. destruct Hs as (rows & -> & Hl & Hall).
  assert (Hrow : forall row, has_shape (C :: s ++ [n]) row = true ->
            exists row', sum_axis (S (length s)) false row = Ok row' /\
                         has_shape (C :: s) row' = true /\
                         map total (subs row') = map total (subs row)).
  { intros row Hrow. apply has_shape_cons_inv in Hrow.
    destruct Hrow as (cs & -> & Hlc & Hallc).
    assert (Hex : exists cs', Forall2 (fun a b => sum_axis (length s) false a = Ok b) cs cs' /\
                    Forall (fun t => has_shape s t = true) cs' /\
                    map total cs' = map total cs).
    { clear Hlc. induction Hallc as [|a l Ha _ IHl].
      - exists []. repeat split; constructor.
      - destruct (sum_last_axis s n a Hp Ha) as (a' & E1 & E2 & E3).
        destruct IHl as (l' & F1 & F2 & F3).
        exists (a' :: l'). repeat split; try constructor; try assumption.
        simpl. rewrite E3, F3. reflexivity. }
    destruct Hex as (cs' & F1 & F2 & F3).
    exists (Dim cs'). simpl. rewrite (mapM_Ok_Forall2 _ _ _ F1). simpl.
    split; [reflexivity|]. split; [|exact F3].
    rewrite <- (Forall2_length F1), Hlc, Nat.eqb_refl. simpl.
    apply forallb_forall. apply Forall_forall. exact F2. }
  assert (Hex : exists rows', Forall2 (fun a b => sum_axis (S (length s)) false a = Ok b) rows rows' /\
                  Forall (fun t => has_shape (C :: s) t = true) rows' /\
                  map (fun r => map total (subs r)) rows' =
                  map (fun r => map total (subs r)) rows).
  { clear Hl. induction Hall as [|a l Ha _ IHl].
    - exists []. repeat split; constructor.
    - destruct (Hrow a Ha) as (a' & E1 & E2 & E3).
      destruct IHl as (l' & F1 & F2 & F3).
      exists (a' :: l'). repeat split; try constructor; try assumption.
      simpl. rewrite E3, F3. reflexivity. }
  destruct Hex as (rows' & F1 & F2 & F3).
  exists (Dim rows'). rewrite sum_axis_succ.
  rewrite (mapM_Ok_Forall2 _ _ _ F1). simpl bind.
  split; [reflexivity|]. split.
  - apply has_shape_Dim. split; [|exact F2].
    rewrite <- (Forall2_length F1). exact Hl.
  - unfold spatial_sums, cells. simpl subs. rewrite !map_map. exact F3.
Qed.

(** *** [sum_tensor] over the axes that the losses build *)

Lemma insert_unique_lt (a : nat) (l : list nat) :
  Forall (fun b => (a < b)%nat) l -> insert_unique a l = a :: l.
Proof.
  destruct 1 as [|b l Hb _]; [reflexivity|]. simpl.
  rewrite (proj2 (Nat.ltb_lt a b) Hb). reflexivity.
Qed.

Lemma Forall_lt_seq (a b k : nat) :
  (a < b)%nat -> Forall (fun c => (a < c)%nat) (seq b k).
Proof.
  intros H. apply Forall_forall. intros c Hc. apply in_seq in Hc. lia.
Qed.

Lemma np_unique_seq (a k : nat) : np_unique (seq a k) = seq a k.
Proof.
  revert a. induction k as [|k IH]; intros a; [reflexivity|].
  simpl. unfold np_unique in IH. rewrite IH.
  apply insert_unique_lt, Forall_lt_seq. lia.
Qed.

Lemma insert_desc_lt (a : nat) (l : list nat) :
  Forall (fun b => (a < b)%nat) l -> insert_desc a l = l ++ [a].
Proof.
  induction 1 as [|b l Hb _ IH]; [reflexivity|]. simpl.
  destruct (Nat.ltb_spec b a); [lia|]. rewrite IH. reflexivity.
Qed.

Lemma sorted_reverse_seq (a k : nat) : sorted_reverse (seq a k) = rev (seq a k).
Proof.
  revert a. induction k as [|k IH]; intros a; [reflexivity|].
  simpl. unfold sorted_reverse in IH. rewrite IH.
  apply insert_desc_lt. apply Forall_rev, Forall_lt_seq. lia.
Qed.

Lemma np_unique_cons_seq (a b k : nat) :
  (a < b)%nat -> np_unique (a :: seq b k) = a :: seq b k.
Proof.
  intros H. unfold np_unique. simpl. fold (np_unique (seq b k)).
  rewrite np_unique_seq. apply insert_unique_lt, Forall_lt_seq, H.
Qed.

Lemma sorted_reverse_cons_seq (a b k : nat) :
  (a < b)%nat -> sorted_reverse (a :: seq b k) = rev (seq b k) ++ [a].
Proof.
  intros H. unfold sorted_reverse. simpl. fold (sorted_reverse (seq b k)).
  rewrite sorted_reverse_seq. apply insert_desc_lt, Forall_rev, Forall_lt_seq, H.
Qed.

Lemma sum_loop_cons (kd : bool) (ax : nat) (axes : list nat) (inp : tensor R) :
  sum_loop kd (ax :: axes) inp = (t <- tsum ax kd inp ;; sum_loop kd axes t).
Proof.
  unfold sum_loop. simpl. destruct (tsum ax kd inp) as [t|e]; [reflexivity|].
  simpl. induction axes as [|a axes IH]; [reflexivity|]. simpl. exact IH.
Qed.

Lemma sum_loop_app (kd : bool) (axes1 axes2 : list nat) (inp : tensor R) :
  sum_loop kd (axes1 ++ axes2) inp =
    (t <- sum_loop kd axes1 inp ;; sum_loop kd axes2 t).
Proof.
  revert inp. induction axes1 as [|a axes1 IH]; intros inp; [reflexivity|].
  simpl app. rewrite !sum_loop_cons.
  destruct (tsum a kd inp) as [t|e]; [simpl; apply IH | reflexivity].
Qed.

Lemma scalars_of_rows (B C : nat) (t : tensor R) :
  has_shape [B; C] t = true -> t = of_rows (spatial_sums t).
Proof.
  intros Hs. apply has_shape_cons_inv in Hs. destruct Hs as (rows & -> & _ & Hall).
  unfold of_rows, spatial_sums, cells. simpl subs. f_equal.
  rewrite !map_map. symmetry. apply map_id_in.
  revert Hall. apply Forall_impl. intros row Hrow.
  apply has_shape_cons_inv in Hrow. destruct Hrow as (cs & -> & _ & Hallc).
  simpl subs. f_equal. rewrite map_map. apply map_id_in.
  revert Hallc. apply Forall_impl. intros c Hc.
  apply has_shape_nil in Hc. destruct Hc as [x ->]. reflexivity.
Qed.

Lemma sum_loop_spatial (sp : list nat) (B C : nat) (t : tensor R) :
  positive (B :: C :: sp) = true -> has_shape (B :: C :: sp) t = true ->
  sum_loop false (rev (seq 2 (length sp))) t = Ok (of_rows (spatial_sums t)).
Proof.
  revert t. induction sp as [|n sp IH] using rev_ind; intros t Hp Hs.
  - unfold sum_loop. simpl. f_equal. apply (scalars_of_rows B C). exact Hs.
  - rewrite length_app. simpl length. rewrite seq_app, rev_app_distr. simpl.
    rewrite sum_loop_cons.
    destruct (sum_last_spatial_axis B C sp n t Hp Hs) as (t' & E1 & E2 & E3).
    assert (Ht : tsum (S (S (length sp))) false t = Ok t').
    { rewrite <- E1. apply has_shape_cons_inv in Hs.
      destruct Hs as (rows & -> & _). reflexivity. }
    rewrite Ht. simpl bind. rewrite <- E3. apply IH; [|exact E2].
    apply positive_cons in Hp. destruct Hp as [HB Hp].
    apply positive_cons in Hp. destruct Hp as [HC Hp].
    apply positive_cons. split; [exact HB|]. apply positive_cons. split; [exact HC|].
    apply positive_removelast in Hp. rewrite removelast_last in Hp. exact Hp.
Qed.

Lemma zip_at_scalars {A B C} (f : A -> B -> C) (a : list A) (b : list B) :
  zip_at 1 f (Dim (map Scalar a)) (Dim (map Scalar b)) =
  Dim (map Scalar (map2 f a b)).
Proof.
  simpl. f_equal. revert b.
  induction a as [|x a IH]; intros [|y b]; simpl; try reflexivity.
  rewrite IH. reflexivity.
Qed.

Lemma size_of_rows_inner (r : list R) (M : list (list R)) :
  inner_size (of_rows (r :: M)) = [length r].
Proof.
  unfold inner_size, of_rows. simpl. destruct r; simpl; [reflexivity|].
  rewrite length_map. reflexivity.
Qed.

Lemma sum_axis0_of_rows (r : list R) (M : list (list R)) :
  tsum 0 false (of_rows (r :: M)) =
  Ok (Dim (map Scalar (column_sums (length r) (r :: M)))).
Proof.
  change (tsum 0 false (of_rows (r :: M))) with
    (Ok (reduce_axis0 Rplus (zeros (inner_size (of_rows (r :: M))))
           (map (fun row => Dim (map Scalar row)) (r :: M))
           (length (inner_size (of_rows (r :: M)))))).
  rewrite size_of_rows_inner. f_equal. unfold reduce_axis0, column_sums.
  change (zeros [length r]) with (Dim (repeat (Scalar 0) (length r))).
  rewrite <- (map_repeat 0 (length r) Scalar).
  change (length [length r]) with 1%nat.
  generalize (repeat 0 (length r)) as z. generalize (r :: M) as N. intros N z.
  induction N as [|a N IH]; [reflexivity|].
  cbn [map fold_right]. rewrite IH. apply zip_at_scalars.
Qed.

Lemma spatial_sums_length (B C : nat) (sp : list nat) (t : tensor R) :
  has_shape (B :: C :: sp) t = true ->
  length (spatial_sums t) = B /\
  Forall (fun r => length r = C) (spatial_sums t).
Proof.
  intros Hs. apply has_shape_cons_inv in Hs. destruct Hs as (rows & -> & Hl & Hall).
  unfold spatial_sums, cells. simpl subs. rewrite !length_map. split; [exact Hl|].
  apply Forall_map, Forall_map. revert Hall. apply Forall_impl. intros row Hrow.
  apply has_shape_cons_inv in Hrow. destruct Hrow as (cs & -> & Hlc & _).
  simpl. rewrite length_map. exact Hlc.
Qed.

Lemma sum_tensor_spatial (B C : nat) (sp : list nat) (t : tensor R) :
  tensor_of (B :: C :: sp) t = true ->
  sum_tensor t (range 2 (length (B :: C :: sp))) false =
    Ok (of_rows (spatial_sums t)).
Proof.
  unfold tensor_of. intros H. apply andb_true_iff in H. destruct H as [Hp Hs].
  unfold sum_tensor, range. simpl length.
  replace (S (S (length sp)) - 2)%nat with (length sp) by lia.
  rewrite np_unique_seq, sorted_reverse_seq.
  apply (sum_loop_spatial sp B C); assumption.
Qed.

Lemma sum_tensor_batch_spatial (B C : nat) (sp : list nat) (t : tensor R) :
  tensor_of (B :: C :: sp) t = true ->
  sum_tensor t (0%nat :: range 2 (length (B :: C :: sp))) false =
    Ok (Dim (map Scalar (column_sums C (spatial_sums t)))).
Proof.
  unfold tensor_of. intros H. apply andb_true_iff in H. destruct H as [Hp Hs].
  unfold sum_tensor, range. simpl length.
  replace (S (S (length sp)) - 2)%nat with (length sp) by lia.
  rewrite np_unique_cons_seq, sorted_reverse_cons_seq by lia.
  rewrite sum_loop_app, (sum_loop_spatial sp B C) by assumption.
  simpl bind. rewrite sum_loop_cons.
  destruct (spatial_sums_length B C sp t Hs) as [HB HC].
  apply positive_cons in Hp. destruct Hp as [HBpos _].
  destruct (spatial_sums t) as [|r M]; [simpl in HB; lia|].
  rewrite sum_axis0_of_rows. inversion HC as [|? ? Hr _]; subst.
  reflexivity.
Qed.

(** *** Transposition of a rectangular grid *)

Lemma transpose_ll_one {A} (r : list A) :
  transpose_ll [r] = map (fun x => [x]) r.
Proof. reflexivity. Qed.

Lemma transpose_ll_cons {A} (r r' : list A) (G : list (list A)) :
  transpose_ll (r :: r' :: G) = map2 cons r (transpose_ll (r' :: G)).
Proof. reflexivity. Qed.

Lemma rect_cons_inv {A} (B C : nat) (r : list A) (G : list (list A)) :
  rect (S B) C (r :: G) -> length r = C /\ rect B C G.
Proof.
  intros [Hl Hall]. inversion Hall; subst. simpl in Hl.
  repeat split; try assumption; lia.
Qed.

Lemma transpose_ll_rect {A} (B C : nat) (G : list (list A)) :
  rect (S B) C G -> rect C (S B) (transpose_ll G).
Proof.
  revert G. induction B as [|B IH]; intros G HG.
  - destruct G as [|r [|r' G]]; destruct HG as [Hl Hall]; try discriminate Hl.
    inversion Hall; subst. rewrite transpose_ll_one. split.
    + apply length_map.
    + apply Forall_map. apply Forall_forall. reflexivity.
  - destruct G as [|r [|r' G]]; try (destruct HG as [Hl _]; discriminate Hl).
    apply rect_cons_inv in HG. destruct HG as [Hr HG].
    rewrite transpose_ll_cons. destruct (IH _ HG) as [Hl' Hall'].
    split.
    + rewrite length_map2; congruence.
    + revert Hall'. generalize (transpose_ll (r' :: G)) as T. clear.
      intros T HT. revert r. induction HT as [|c T Hc _ IHT]; intros [|x r];
        simpl; try constructor; [simpl; congruence | apply IHT].
Qed.

Lemma Forall_transpose_ll {A} (P : A -> Prop) (G : list (list A)) :
  Forall (Forall P) G -> Forall (Forall P) (transpose_ll G).
Proof.
  induction 1 as [|r G Hr HG IH]; [constructor|].
  destruct G as [|r' G].
  - rewrite transpose_ll_one. apply Forall_map.
    revert Hr. apply Forall_impl. intros x Hx. constructor; [exact Hx|constructor].
  - rewrite transpose_ll_cons. revert IH.
    generalize (transpose_ll (r' :: G)) as T. intros T HT. revert T HT.
    induction Hr as [|x r Hx _ IHr]; intros [|c T] HT; simpl; try constructor.
    + constructor; [exact Hx|]. inversion HT; assumption.
    + apply IHr. inversion HT; assumption.
Qed.

Lemma map_map2 {A B C D} (g : C -> D) (f : A -> B -> C) la lb :
  map g (map2 f la lb) = map2 (fun a b => g (f a b)) la lb.
Proof.
  revert lb. induction la as [|a la IH]; intros [|b lb]; simpl; try reflexivity.
  rewrite IH. reflexivity.
Qed.

Lemma map2_map_l {A A' B C} (f : A' -> B -> C) (g : A -> A') la lb :
  map2 f (map g la) lb = map2 (fun a b => f (g a) b) la lb.
Proof.
  revert lb. induction la as [|a la IH]; intros [|b lb]; simpl; try reflexivity.
  rewrite IH. reflexivity.
Qed.

Lemma map2_map_r {A B B' C} (f : A -> B' -> C) (g : B -> B') la lb :
  map2 f la (map g lb) = map2 (fun a b => f a (g b)) la lb.
Proof.
  revert lb. induction la as [|a la IH]; intros [|b lb]; simpl; try reflexivity.
  rewrite IH. reflexivity.
Qed.

Lemma map2_diag {A C} (f : A -> A -> C) la :
  map2 f la la = map (fun a => f a a) la.
Proof. induction la as [|a la IH]; simpl; [|rewrite IH]; reflexivity. Qed.

Lemma map2_ext_in {A B C} (f g : A -> B -> C) la lb :
  Forall2 (fun a b => f a b = g a b) la lb -> map2 f la lb = map2 g la lb.
Proof. induction 1 as [|a b la lb H _ IH]; simpl; [|rewrite H, IH]; reflexivity. Qed.

(** an operation along the columns of the transposed grid is an operation
    along the rows of the grid *)
Lemma transpose_ll_columnwise {A B C} (F : A -> B -> C) (G : list (list A))
    (ms : list B) :
  G <> [] -> length ms = length G ->
  map (fun col => map2 F col ms) (transpose_ll G) =
  transpose_ll (map2 (fun row m => map (fun c => F c m) row) G ms).
Proof.
  revert ms. induction G as [|r G IH]; intros ms Hne Hlen; [contradiction|].
  destruct ms as [|m ms]; [discriminate|].
  destruct G as [|r' G].
  - destruct ms; [|discriminate]. simpl map2. rewrite !transpose_ll_one.
    rewrite !map_map. reflexivity.
  - destruct ms as [|m' ms]; [discriminate|].
    rewrite transpose_ll_cons.
    change (map2 (fun row m0 => map (fun c => F c m0) row) (r :: r' :: G) (m :: m' :: ms))
      with (map (fun c => F c m) r ::
            map2 (fun row m0 => map (fun c => F c m0) row) (r' :: G) (m' :: ms)).
    assert (E : map2 (fun row m0 => map (fun c => F c m0) row) (r' :: G) (m' :: ms) =
                map (fun c => F c m') r' ::
                map2 (fun row m0 => map (fun c => F c m0) row) G ms) by reflexivity.
    rewrite E at 1. rewrite transpose_ll_cons. rewrite <- E.
    rewrite <- IH by (try discriminate; simpl in *; lia).
    rewrite map_map2, map2_map_l, map2_map_r. reflexivity.
Qed.

Lemma transpose_ll_singletons {A} (r : list A) :
  r <> [] -> transpose_ll (map (fun x => [x]) r) = [r].
Proof.
  induction r as [|x r IH]; intros Hne; [contradiction|].
  destruct r as [|y r]; [reflexivity|].
  change (map (fun x => [x]) (x :: y :: r)) with
    ([x] :: [y] :: map (fun x => [x]) r).
  rewrite transpose_ll_cons.
  change ([y] :: map (fun x => [x]) r) with (map (fun x => [x]) (y :: r)).
  rewrite IH by discriminate. reflexivity.
Qed.

Lemma transpose_ll_map2_cons {A} (r : list A) (T : list (list A)) :
  T <> [] -> length r = length T ->
  transpose_ll (map2 cons r T) = r :: transpose_ll T.
Proof.
  revert r. induction T as [|c T IH]; intros r Hne Hlen; [contradiction|].
  destruct r as [|x r]; [discriminate|].
  destruct T as [|c' T].
  - destruct r; [|discriminate]. reflexivity.
  - destruct r as [|x' r]; [discriminate|].
    change (map2 cons (x :: x' :: r) (c :: c' :: T)) with
      ((x :: c) :: (x' :: c') :: map2 cons r T).
    rewrite transpose_ll_cons.
    change ((x' :: c') :: map2 cons r T) with (map2 cons (x' :: r) (c' :: T)).
    rewrite IH by (try discriminate; simpl in *; lia).
    rewrite transpose_ll_cons. reflexivity.
Qed.

Lemma transpose_ll_involutive {A} (B C : nat) (G : list (list A)) :
  rect (S B) (S C) G -> transpose_ll (transpose_ll G) = G.
Proof.
  revert G. induction B as [|B IH]; intros G HG.
  - destruct G as [|r [|r' G]]; destruct HG as [Hl Hall]; try discriminate Hl.
    rewrite transpose_ll_one. apply transpose_ll_singletons.
    inversion Hall; subst. destruct r; [discriminate|discriminate].
  - destruct G as [|r [|r' G]]; try (destruct HG as [Hl _]; discriminate Hl).
    apply rect_cons_inv in HG. destruct HG as [Hr HG].
    rewrite transpose_ll_cons.
    destruct (transpose_ll_rect _ _ _ HG) as [Hl' _].
    rewrite transpose_ll_map2_cons.
    + rewrite (IH _ HG). reflexivity.
    + intros E. rewrite E in Hl'. discriminate Hl'.
    + congruence.
Qed.

(** *** The mask *)

Lemma cells_shape {A} (B C : nat) (sp : list nat) (t : tensor A) :
  has_shape (B :: C :: sp) t = true ->
  rect B C (cells t) /\
  Forall (Forall (fun c => has_shape sp c = true)) (cells t).
Proof.
  intros Hs. apply has_shape_cons_inv in Hs. destruct Hs as (rows & -> & Hl & Hall).
  unfold cells, rect. simpl subs. rewrite length_map.
  split; [split; [exact Hl|]|]; apply Forall_map; revert Hall;
    apply Forall_impl; intros row Hrow;
    apply has_shape_cons_inv in Hrow; destruct Hrow as (cs & -> & Hlc & Hallc);
    assumption.
Qed.

Lemma swap01_shaped {A} (B C : nat) (sp : list nat) (t : tensor A) :
  has_shape (B :: C :: sp) t = true ->
  swap01 t = Ok (Dim (map Dim (transpose_ll (cells t)))).
Proof.
  intros Hs. apply has_shape_cons_inv in Hs. destruct Hs as (rows & -> & Hl & Hall).
  unfold swap01, cells. simpl undim. simpl bind. simpl subs.
  rewrite (mapM_Ok_map_in undim subs); [reflexivity|].
  revert Hall. apply Forall_impl. intros row Hrow.
  apply has_shape_cons_inv in Hrow. destruct Hrow as (cs & -> & _). reflexivity.
Qed.

Lemma select0_axis1_mask (B : nat) (sp : list nat) (m : tensor R) :
  has_shape (B :: 1%nat :: sp) m = true ->
  select0_axis1 m = Ok (Dim (mask_channel m)) /\
  length (mask_channel m) = B /\
  Forall (fun c => has_shape sp c = true) (mask_channel m).
Proof.
  intros Hs. apply has_shape_cons_inv in Hs. destruct Hs as (rows & -> & Hl & Hall).
  unfold select0_axis1, mask_channel. simpl undim. simpl bind. simpl subs.
  subst B. induction Hall as [|row rows Hrow _ (IH1 & IH2 & IH3)].
  - repeat split. constructor.
  - apply has_shape_cons_inv in Hrow. destruct Hrow as (cs & -> & Hlc & Hallc).
    destruct cs as [|c0 [|c1 cs]]; try discriminate Hlc.
    cbn [mapM undim bind subs flat_map firstn app length].
    destruct (mapM _ rows) as [l'|e]; [|discriminate IH1].
    simpl in IH1. injection IH1 as ->. simpl. repeat split.
    + f_equal. exact IH2.
    + constructor; [inversion Hallc; assumption | exact IH3].
Qed.

Lemma zip_at_succ {A B C} (n : nat) (f : A -> B -> C) la lb :
  zip_at (S n) f (Dim la) (Dim lb) = Dim (map2 (zip_at n f) la lb).
Proof. reflexivity. Qed.

Lemma same_sizes_shaped {A} (s : list nat) (t0 : tensor A) (ts : list (tensor A)) :
  positive s = true ->
  Forall (fun t => has_shape s t = true) (t0 :: ts) ->
  same_sizes (t0 :: ts) = true.
Proof.
  intros Hp Hall. inversion Hall as [|? ? H0 Hts]; subst. unfold same_sizes.
  apply forallb_forall. intros t Ht.
  rewrite Forall_forall in Hts.
  rewrite (has_shape_size s t Hp (Hts t Ht)), (has_shape_size s t0 Hp H0).
  destruct (list_eq_dec Nat.eq_dec s s); [reflexivity|contradiction].
Qed.

Lemma Forall_map2_same {A B C} (P : A -> Prop) (Q : C -> Prop)
    (f : A -> B -> C) la lb :
  (forall a b, P a -> Q (f a b)) -> Forall P la -> Forall Q (map2 f la lb).
Proof.
  intros Hf Ha. revert lb. induction Ha as [|a la Pa _ IH]; intros [|b lb];
    simpl; constructor; auto.
Qed.

(** the mask multiplies every class slice by its single channel *)
Lemma apply_mask_masked (B C : nat) (sp : list nat) (t m : tensor R) :
  positive (B :: C :: sp) = true ->
  has_shape (B :: C :: sp) t = true ->
  has_shape (B :: 1%nat :: sp) m = true ->
  apply_mask m t = Ok (masked (length sp) t m).
Proof.
  intros Hp Ht Hm.
  destruct (cells_shape B C sp t Ht) as [Hrect Hcells].
  destruct (select0_axis1_mask B sp m Hm) as (Hsel & Hlm & Hms).
  apply positive_cons in Hp. destruct Hp as [HB Hp].
  apply positive_cons in Hp. destruct Hp as [HC Hp].
  destruct B as [|B]; [lia|]. destruct C as [|C]; [lia|].
  pose proof (transpose_ll_rect _ _ _ Hrect) as [HTl HTall].
  pose proof (Forall_transpose_ll _ _ Hcells) as HTcells.
  unfold apply_mask, unbind1. rewrite (swap01_shaped _ _ _ _ Ht).
  simpl undim. simpl bind.
  set (F := zip_at (length sp) Rmult).
  assert (Hpos : positive (S B :: sp) = true)
    by (apply positive_cons; split; [lia | exact Hp]).
  rewrite (mapM_Ok_map_in _ (fun x => Dim (map2 F (subs x) (mask_channel m)))).
  2:{ apply Forall_map. rewrite Forall_forall in HTall, HTcells.
      apply Forall_forall. intros col Hcol. rewrite Hsel. simpl bind.
      unfold tmul. rewrite (tbin_same_shape Rmult (S B :: sp)).
      - reflexivity.
      - exact Hpos.
      - apply has_shape_Dim. split; [apply HTall, Hcol | apply HTcells, Hcol].
      - apply has_shape_Dim. split; assumption. }
  rewrite map_map. simpl subs.
  unfold stack1.
  assert (Hys : Forall (fun y => has_shape (S B :: sp) y = true)
                  (map (fun col => Dim (map2 F col (mask_channel m)))
                     (transpose_ll (cells t)))).
  { apply Forall_map. rewrite Forall_forall in HTall, HTcells.
    apply Forall_forall. intros col Hcol. apply has_shape_Dim. split.
    - rewrite length_map2; [apply HTall, Hcol|]. rewrite (HTall col Hcol). congruence.
    - eapply Forall_map2; [|apply HTcells, Hcol|exact Hms].
      intros a b Ha Hb. apply has_shape_zip_at; assumption. }
  destruct (map _ (transpose_ll (cells t))) as [|y0 ys] eqn:Eys.
  { apply (f_equal (@length _)) in Eys. rewrite length_map, HTl in Eys. discriminate. }
  cbn [bind]. rewrite (same_sizes_shaped (S B :: sp) y0 ys Hpos Hys). rewrite <- Eys.
  unfold swap01. simpl undim. simpl bind.
  rewrite (mapM_Ok_map_in undim subs).
  2:{ apply Forall_map. apply Forall_forall. reflexivity. }
  simpl bind. rewrite map_map. simpl subs.
  unfold masked. do 3 f_equal.
  rewrite transpose_ll_columnwise.
  - apply (transpose_ll_involutive B C). destruct Hrect as [Hl Hall]. split.
    + rewrite length_map2; congruence.
    + eapply Forall_map2_same; [|exact Hall]. intros a b Ha.
      rewrite length_map. exact Ha.
  - destruct Hrect as [Hl _]. intros E. rewrite E in Hl. discriminate.
  - destruct Hrect as [Hl _]. congruence.
Qed.

(** *** Entries *)

Lemma nth_error_map2 {A B C} (f : A -> B -> C) la lb (i : nat) :
  nth_error (map2 f la lb) i =
  match nth_error la i, nth_error lb i with
  | Some a, Some b => Some (f a b)
  | _, _ => None
  end.
Proof.
  revert la lb. induction i as [|i IH]; intros [|a la] [|b lb]; simpl;
    try reflexivity.
  - destruct (nth_error la i); reflexivity.
  - apply IH.
Qed.

Lemma nth_error_shaped {A} (s : list nat) (l : list (tensor A)) (i : nat) :
  Forall (fun t => has_shape s t = true) l -> (i < length l)%nat ->
  exists t, nth_error l i = Some t /\ has_shape s t = true.
Proof.
  intros Hall Hi. destruct (nth_error l i) as [t|] eqn:E.
  - exists t. split; [reflexivity|]. rewrite Forall_forall in Hall.
    apply Hall. eapply nth_error_In. exact E.
  - apply nth_error_None in E. lia.
Qed.

Lemma entry_zip_at (f : R -> R -> R) (s : list nat) (a b : tensor R)
    (idx : list nat) :
  has_shape s a = true -> has_shape s b = true -> Forall2 lt idx s ->
  entry (zip_at (length s) f a b) idx = f (entry a idx) (entry b idx).
Proof.
  intros Ha Hb Hidx. revert a b Ha Hb.
  induction Hidx as [|i n idx s Hi _ IH]; intros a b Ha Hb.
  - apply has_shape_nil in Ha, Hb. destruct Ha as [x ->], Hb as [y ->]. reflexivity.
  - apply has_shape_cons_inv in Ha, Hb.
    destruct Ha as (la & -> & Hla & Halla), Hb as (lb & -> & Hlb & Hallb).
    simpl length. rewrite zip_at_succ. cbn [entry]. rewrite nth_error_map2.
    destruct (nth_error_shaped s la i Halla) as (a' & Ea & Ha'); [lia|].
    destruct (nth_error_shaped s lb i Hallb) as (b' & Eb & Hb'); [lia|].
    rewrite Ea, Eb. apply IH; assumption.
Qed.

Lemma entry_tmap (f : R -> R) (s : list nat) (t : tensor R) (idx : list nat) :
  has_shape s t = true -> Forall2 lt idx s ->
  entry (tmap f t) idx = f (entry t idx).
Proof.
  intros Ht Hidx. revert t Ht.
  induction Hidx as [|i n idx s Hi _ IH]; intros t Ht.
  - apply has_shape_nil in Ht. destruct Ht as [x ->]. reflexivity.
  - apply has_shape_cons_inv in Ht. destruct Ht as (l & -> & Hl & Hall).
    cbn [tmap entry]. rewrite nth_error_map.
    destruct (nth_error_shaped s l i Hall) as (t' & Et & Ht'); [lia|].
    rewrite Et. simpl. apply IH. exact Ht'.
Qed.

Lemma nth_error_mask_channel (B : nat) (sp : list nat) (m : tensor R) (b : nat) :
  has_shape (B :: 1%nat :: sp) m = true -> (b < B)%nat ->
  exists m0, nth_error (mask_channel m) b = Some m0 /\
             has_shape sp m0 = true /\
             forall p, entry m (b :: 0%nat :: p) = entry m0 p.
Proof.
  intros Hs. apply has_shape_cons_inv in Hs. destruct Hs as (rows & -> & Hl & Hall).
  unfold mask_channel. simpl subs. subst B. revert b.
  induction Hall as [|row rows Hrow _ IH]; intros b Hb; [simpl in Hb; lia|].
  apply has_shape_cons_inv in Hrow. destruct Hrow as (cs & -> & Hlc & Hallc).
  destruct cs as [|c0 [|c1 cs]]; try discriminate Hlc.
  cbn [flat_map subs firstn app]. destruct b as [|b].
  - exists c0. repeat split. inversion Hallc; assumption.
  - destruct (IH b) as (m0 & E1 & E2 & E3); [simpl in Hb; lia|].
    exists m0. repeat split; assumption.
Qed.

Lemma masked_shape (B C : nat) (sp : list nat) (t m : tensor R) :
  has_shape (B :: C :: sp) t = true ->
  has_shape (B :: 1%nat :: sp) m = true ->
  has_shape (B :: C :: sp) (masked (length sp) t m) = true.
Proof.
  intros Ht Hm.
  destruct (cells_shape B C sp t Ht) as [[Hl Hall] Hcells].
  destruct (select0_axis1_mask B sp m Hm) as (_ & Hlm & Hms).
  unfold masked. apply has_shape_Dim. split.
  - rewrite length_map, length_map2; congruence.
  - apply Forall_map.
    assert (H : Forall (fun r => length r = C /\ Forall (fun c => has_shape sp c = true) r)
                  (cells t)).
    { rewrite Forall_forall in *. intros r Hr. split; auto. }
    eapply Forall_map2; [|exact H|exact Hms].
    intros row m0 [Hlr Hr] Hm0. apply has_shape_Dim. split.
    + rewrite length_map. exact Hlr.
    + apply Forall_map. revert Hr. apply Forall_impl. intros c Hc.
      apply has_shape_zip_at; assumption.
Qed.

Lemma entry_masked (B C : nat) (sp : list nat) (t m : tensor R)
    (b c : nat) (p : list nat) :
  has_shape (B :: C :: sp) t = true ->
  has_shape (B :: 1%nat :: sp) m = true ->
  (b < B)%nat -> (c < C)%nat -> Forall2 lt p sp ->
  entry (masked (length sp) t m) (b :: c :: p) =
  entry t (b :: c :: p) * entry m (b :: 0%nat :: p).
Proof.
  intros Ht Hm Hb Hc Hp.
  destruct (nth_error_mask_channel B sp m b Hm Hb) as (m0 & Em & Hm0 & Hent).
  rewrite Hent.
  apply has_shape_cons_inv in Ht. destruct Ht as (rows & -> & Hl & Hall).
  destruct (nth_error_shaped (C :: sp) rows b Hall) as (row & Er & Hrow); [lia|].
  apply has_shape_cons_inv in Hrow. destruct Hrow as (cs & -> & Hlc & Hallc).
  destruct (nth_error_shaped sp cs c Hallc) as (cell & Ec & Hcell); [lia|].
  unfold masked, cells. simpl subs. cbn [entry].
  rewrite nth_error_map, nth_error_map2, nth_error_map, Er, Em. simpl.
  rewrite nth_error_map, Ec. simpl.
  apply entry_zip_at; assumption.
Qed.

(** ** [get_tp_fp_fn] *)

Lemma tensor_of_inv {A} (s : list nat) (t : tensor A) :
  tensor_of s t = true -> positive s = true /\ has_shape s t = true.
Proof. unfold tensor_of. intros H. apply andb_true_iff in H. exact H. Qed.

Lemma all_equal_zip_same (s : list nat) : all_equal_zip s s = true.
Proof.
  unfold all_equal_zip. induction s as [|n s IH]; [reflexivity|].
  simpl. rewrite Nat.eqb_refl. exact IH.
Qed.

(** a ground truth of the prediction's shape is taken as the one-hot encoding *)
Lemma to_onehot_same_shape (s : list nat) (x y : tensor R) :
  tensor_of s x = true -> tensor_of s y = true -> to_onehot x y = Ok y.
Proof.
  intros Hx Hy. apply tensor_of_inv in Hx, Hy.
  destruct Hx as [Hp Hx], Hy as [_ Hy]. unfold to_onehot.
  rewrite (has_shape_size s x Hp Hx), (has_shape_size s y Hp Hy).
  rewrite Nat.eqb_refl. simpl. rewrite (has_shape_size s y Hp Hy).
  rewrite all_equal_zip_same. reflexivity.
Qed.

Lemma has_shape_square_if (sqr : bool) (s : list nat) (t : tensor R) :
  has_shape s t = true -> has_shape s (square_if sqr t) = true.
Proof. destruct sqr; simpl; [apply has_shape_tmap | auto]. Qed.

Lemma entry_square_if (sqr : bool) (s : list nat) (t : tensor R) (idx : list nat) :
  has_shape s t = true -> Forall2 lt idx s ->
  entry (square_if sqr t) idx = sq sqr (entry t idx).
Proof.
  intros Ht Hidx. destruct sqr; simpl; [|reflexivity].
  apply (entry_tmap (fun v => v ^ 2) s); assumption.
Qed.

Lemma confusion_map_spec (f : R -> R -> R) (B C : nat) (sp : list nat)
    (x y : tensor R) (mask : option (tensor R)) (sqr : bool) :
  has_shape (B :: C :: sp) x = true -> has_shape (B :: C :: sp) y = true ->
  mask_fits B sp mask = true ->
  let T := confusion_map f (length (B :: C :: sp)) x y mask sqr in
  has_shape (B :: C :: sp) T = true /\
  forall b c p, (b < B)%nat -> (c < C)%nat -> Forall2 lt p sp ->
    entry T (b :: c :: p) =
    sq sqr (f (entry x (b :: c :: p)) (entry y (b :: c :: p)) * mask_entry mask b p).
Proof.
  intros Hx Hy Hm T.
  pose proof (has_shape_zip_at f _ x y Hx Hy) as Hz.
  assert (Hidx : forall b c p, (b < B)%nat -> (c < C)%nat -> Forall2 lt p sp ->
            Forall2 lt (b :: c :: p) (B :: C :: sp))
    by (intros; repeat constructor; assumption).
  subst T. unfold confusion_map. simpl length. replace (S (S (length sp)) - 2)%nat with (length sp) by lia.
  destruct mask as [m|]; simpl in Hm.
  - pose proof (masked_shape B C sp _ m Hz Hm) as Hmk. split.
    + apply has_shape_square_if. exact Hmk.
    + intros b c p Hb Hc Hp.
      rewrite (entry_square_if sqr (B :: C :: sp)) by auto.
      rewrite (entry_masked B C sp) by assumption.
      rewrite (entry_zip_at f (B :: C :: sp)) by auto. reflexivity.
  - split.
    + apply has_shape_square_if. exact Hz.
    + intros b c p Hb Hc Hp.
      rewrite (entry_square_if sqr (B :: C :: sp)) by auto.
      rewrite (entry_zip_at f (B :: C :: sp)) by auto.
      simpl. f_equal. lra.
Qed.

Lemma map2_ext_Forall {A B C} (P : A -> Prop) (Q : B -> Prop)
    (f g : A -> B -> C) la lb :
  (forall a b, P a -> Q b -> f a b = g a b) ->
  Forall P la -> Forall Q lb -> map2 f la lb = map2 g la lb.
Proof.
  intros Hfg Ha. revert lb. induction Ha as [|a la Pa _ IH]; intros lb Hb.
  - reflexivity.
  - destruct Hb as [|b lb Qb Hb]; [reflexivity|]. simpl.
    rewrite (Hfg a b Pa Qb), (IH lb Hb). reflexivity.
Qed.

Lemma zip_at_tmap_r {A B B' C} (f : A -> B' -> C) (g : B -> B') (s : list nat)
    (a : tensor A) (b : tensor B) :
  has_shape s a = true -> has_shape s b = true ->
  zip_at (length s) f a (tmap g b) = zip_at (length s) (fun p q => f p (g q)) a b.
Proof.
  revert a b. induction s as [|n s IH]; intros a b Ha Hb.
  - apply has_shape_nil in Ha, Hb. destruct Ha as [x ->], Hb as [y ->]. reflexivity.
  - apply has_shape_cons_inv in Ha, Hb.
    destruct Ha as (la & -> & _ & Halla), Hb as (lb & -> & _ & Hallb).
    simpl. f_equal. rewrite map2_map_r.
    eapply map2_ext_Forall; [|exact Halla|exact Hallb]. intros; apply IH; assumption.
Qed.

Lemma zip_at_tmap_l {A A' B C} (f : A' -> B -> C) (g : A -> A') (s : list nat)
    (a : tensor A) (b : tensor B) :
  has_shape s a = true -> has_shape s b = true ->
  zip_at (length s) f (tmap g a) b = zip_at (length s) (fun p q => f (g p) q) a b.
Proof.
  revert a b. induction s as [|n s IH]; intros a b Ha Hb.
  - apply has_shape_nil in Ha, Hb. destruct Ha as [x ->], Hb as [y ->]. reflexivity.
  - apply has_shape_cons_inv in Ha, Hb.
    destruct Ha as (la & -> & _ & Halla), Hb as (lb & -> & _ & Hallb).
    simpl. f_equal. rewrite map2_map_l.
    eapply map2_ext_Forall; [|exact Halla|exact Hallb]. intros; apply IH; assumption.
Qed.

Lemma get_tp_fp_fn_unfold (B C : nat) (sp : list nat) (x y g : tensor R)
    (axes : list nat) (mask : option (tensor R)) (sqr : bool) :
  tensor_of (B :: C :: sp) x = true ->
  to_onehot x y = Ok g -> has_shape (B :: C :: sp) g = true ->
  mask_fits B sp mask = true ->
  let n := length (B :: C :: sp) in
  get_tp_fp_fn x y (Some axes) mask sqr =
    (tp <- sum_tensor (confusion_map (fun p g => p * g) n x g mask sqr) axes false ;;
     fp <- sum_tensor (confusion_map (fun p g => p * (1 - g)) n x g mask sqr) axes false ;;
     fn <- sum_tensor (confusion_map (fun p g => (1 - p) * g) n x g mask sqr) axes false ;;
     Ok (tp, fp, fn)).
Proof.
  intros Hx Hg Hy Hm n. unfold get_tp_fp_fn.
  rewrite Hg. cbn [bind].
  apply tensor_of_inv in Hx. destruct Hx as [Hp Hx].
  unfold tmul.
  rewrite (tbin_same_shape Rmult _ x g Hp Hx Hy). cbn [bind].
  rewrite (tbin_same_shape Rmult _ x (tmap (fun v => 1 - v) g) Hp Hx
             (has_shape_tmap _ _ _ Hy)). cbn [bind].
  rewrite (tbin_same_shape Rmult _ (tmap (fun v => 1 - v) x) g Hp
             (has_shape_tmap _ _ _ Hx) Hy). cbn [bind].
  rewrite (zip_at_tmap_r Rmult _ _ x g Hx Hy).
  rewrite (zip_at_tmap_l Rmult _ _ x g Hx Hy).
  fold n. unfold confusion_map.
  destruct mask as [m|]; cbn [mask_fits] in Hm.
  - assert (Hn : (n - 2)%nat = length sp) by (unfold n; simpl; lia).
    rewrite Hn.
    rewrite !(apply_mask_masked B C sp) by
      (try assumption; apply (has_shape_zip_at _ (B :: C :: sp)); assumption).
    reflexivity.
  - reflexivity.
Qed.

(** C5: on a prediction and a one-hot ground truth of one shape
    [(B, C, *S)], with an optional mask of shape [(B, 1, *S)],
    [get_tp_fp_fn] sums over the reduction axes three tensors of that shape
    whose entries are [p * g], [p * (1 - g)] and [(1 - p) * g] for the
    prediction [p] and the truth [g] at the same index, each multiplied by the
    mask's value at the same sample and position (its channel 0) and then
    squared when [square] is set. *)
Theorem get_tp_fp_fn_pointwise (B C : nat) (sp : list nat) (x y : tensor R)
    (axes : list nat) (mask : option (tensor R)) (sqr : bool) :
  tensor_of (B :: C :: sp) x = true -> tensor_of (B :: C :: sp) y = true ->
  mask_fits B sp mask = true ->
  exists TP FP FN : tensor R,
    has_shape (B :: C :: sp) TP = true /\
    has_shape (B :: C :: sp) FP = true /\
    has_shape (B :: C :: sp) FN = true /\
    (forall b c p, (b < B)%nat -> (c < C)%nat -> Forall2 lt p sp ->
       let pv := entry x (b :: c :: p) in
       let gv := entry y (b :: c :: p) in
       let mv := mask_entry mask b p in
       entry TP (b :: c :: p) = sq sqr (pv * gv * mv) /\
       entry FP (b :: c :: p) = sq sqr (pv * (1 - gv) * mv) /\
       entry FN (b :: c :: p) = sq sqr ((1 - pv) * gv * mv)) /\
    get_tp_fp_fn x y (Some axes) mask sqr =
      (tp <- sum_tensor TP axes false ;;
       fp <- sum_tensor FP axes false ;;
       fn <- sum_tensor FN axes false ;;
       Ok (tp, fp, fn)).
Proof.
  intros Hx Hy Hm.
  pose proof (get_tp_fp_fn_unfold B C sp x y y axes mask sqr Hx
                (to_onehot_same_shape _ x y Hx Hy)
                (proj2 (tensor_of_inv _ _ Hy)) Hm) as Hu.
  apply tensor_of_inv in Hx, Hy. destruct Hx as [Hp Hx], Hy as [_ Hy].
  destruct (confusion_map_spec (fun p g => p * g) B C sp x y mask sqr Hx Hy Hm)
    as [S1 E1].
  destruct (confusion_map_spec (fun p g => p * (1 - g)) B C sp x y mask sqr Hx Hy Hm)
    as [S2 E2].
  destruct (confusion_map_spec (fun p g => (1 - p) * g) B C sp x y mask sqr Hx Hy Hm)
    as [S3 E3].
  eexists _, _, _. repeat split; [exact S1 | exact S2 | exact S3 | | | | exact Hu].
  - apply E1; assumption.
  - apply E2; assumption.
  - apply E3; assumption.
Qed.

(** ** The background class *)

Lemma shaped_vector (C : nat) (t : tensor R) :
  has_shape [C] t = true -> exists vs, t = Dim (map Scalar vs) /\ length vs = C.
Proof.
  intros Hs. apply has_shape_cons_inv in Hs. destruct Hs as (l & -> & Hl & Hall).
  exists (data (Dim l)). subst C. clear -Hall.
  induction Hall as [|a l Ha _ [IH1 IH2]]; [split; reflexivity|].
  apply has_shape_nil in Ha. destruct Ha as [x ->]. simpl. split.
  - injection IH1 as IH1. simpl in IH1. rewrite <- IH1. reflexivity.
  - simpl in IH2. rewrite IH2. reflexivity.
Qed.

Lemma shaped_matrix (B C : nat) (t : tensor R) :
  has_shape [B; C] t = true -> exists M, t = of_rows M /\ rect B C M.
Proof.
  intros Hs. exists (spatial_sums t). split.
  - apply (scalars_of_rows B C). exact Hs.
  - apply (spatial_sums_length B C []). exact Hs.
Qed.

Lemma entry_vector (vs : list R) (c : nat) :
  entry (Dim (map Scalar vs)) [c] = nth c vs 0.
Proof.
  simpl. rewrite nth_error_map. revert c.
  induction vs as [|v vs IH]; intros [|c]; simpl; try reflexivity. apply IH.
Qed.

Lemma entry_of_rows (M : list (list R)) (b c : nat) :
  entry (of_rows M) [b; c] = nth c (nth b M []) 0.
Proof.
  unfold of_rows. cbn [entry]. rewrite nth_error_map.
  destruct (nth_error M b) as [row|] eqn:E.
  - rewrite (nth_error_nth _ _ [] E). simpl. rewrite nth_error_map.
    destruct (nth_error row c) as [v|] eqn:Ec.
    + rewrite (nth_error_nth _ _ 0 Ec). reflexivity.
    + apply nth_error_None in Ec. rewrite nth_overflow by exact Ec. reflexivity.
  - apply nth_error_None in E. rewrite (nth_overflow M []) by exact E.
    simpl. destruct c; reflexivity.
Qed.

Lemma map_nth_seq {A} (l : list A) (d : A) :
  map (fun i => nth i l d) (seq 0 (length l)) = l.
Proof.
  induction l as [|a l IH]; [reflexivity|].
  simpl. f_equal. rewrite <- seq_shift, map_map. exact IH.
Qed.

Lemma map_nth_seq_tl {A} (l : list A) (d : A) :
  map (fun i => nth i l d) (seq 1 (length l - 1)) = tl l.
Proof.
  destruct l as [|a l]; [reflexivity|]. simpl length.
  replace (S (length l) - 1)%nat with (length l) by lia.
  rewrite <- seq_shift, map_map. simpl. apply map_nth_seq.
Qed.

Lemma Rsum_flat_map {A} (f : A -> list R) (l : list A) :
  Rsum (flat_map f l) = Rsum (map (fun a => Rsum (f a)) l).
Proof.
  induction l as [|a l IH]; [reflexivity|]. simpl. rewrite Rsum_app, IH. reflexivity.
Qed.

Lemma data_of_rows (M : list (list R)) : data (of_rows M) = concat M.
Proof.
  unfold of_rows. simpl. induction M as [|r M IH]; [reflexivity|].
  simpl. rewrite IH. f_equal.
  change (flat_map data (map Scalar r)) with (data (Dim (map Scalar r))).
  apply data_map_Scalar.
Qed.

(** the slices [dc[1:]] and [dc[:, 1:]] keep the classes 1 .. C-1 *)
Lemma drop_bg_classes (self : region_loss) (C : nat) (dc : tensor R) :
  do_bg self = false -> batch_dice self = true -> has_shape [C] dc = true ->
  exists d, drop_bg self dc = Ok d /\ has_shape [(C - 1)%nat] d = true /\
            mean d = Scalar (fg_mean_classes C dc) /\
            forall P : R -> Prop, Forall P (data dc) -> Forall P (data d).
Proof.
  intros Hbg Hbd Hs. destruct (shaped_vector C dc Hs) as (vs & -> & Hl).
  unfold drop_bg. rewrite Hbg, Hbd. simpl negb. cbn iota.
  exists (Dim (tl (map Scalar vs))). split; [reflexivity|].
  assert (Et : tl (map Scalar vs) = map (@Scalar R) (tl vs))
    by (destruct vs; reflexivity).
  rewrite Et. split.
  - apply has_shape_Dim. rewrite length_map. split.
    + destruct vs; simpl in *; lia.
    + apply Forall_map. apply Forall_forall. reflexivity.
  - split.
    + rewrite mean_map_Scalar. unfold fg_mean_classes. f_equal. f_equal.
      * f_equal. rewrite <- Hl, <- (map_nth_seq_tl vs 0).
        apply map_ext. intros c. symmetry. apply entry_vector.
      * f_equal. destruct vs; simpl in *; lia.
    + intros P. rewrite !data_map_Scalar. intros HP.
      destruct vs; [exact HP | inversion HP; assumption].
Qed.

Lemma drop_bg_samples (self : region_loss) (B C : nat) (dc : tensor R) :
  do_bg self = false -> batch_dice self = false -> has_shape [B; C] dc = true ->
  exists d, drop_bg self dc = Ok d /\ has_shape [B; (C - 1)%nat] d = true /\
            mean d = Scalar (fg_mean_samples B C dc) /\
            forall P : R -> Prop, Forall P (data dc) -> Forall P (data d).
Proof.
  intros Hbg Hbd Hs. destruct (shaped_matrix B C dc Hs) as (M & -> & HB & HC).
  unfold drop_bg. rewrite Hbg, Hbd. simpl negb. cbn iota.
  exists (of_rows (map (@tl R) M)).
  assert (E : slice_from1_axis1 (of_rows M) = Ok (of_rows (map (@tl R) M))).
  { unfold slice_from1_axis1, of_rows. simpl undim. cbn [bind].
    rewrite (mapM_Ok_map_in _ (fun t => Dim (tl (subs t)))).
    - cbn [bind]. rewrite !map_map. f_equal. f_equal. apply map_ext.
      intros r. simpl. destruct r; reflexivity.
    - apply Forall_map. apply Forall_forall. reflexivity. }
  split; [exact E|]. split.
  - unfold of_rows. apply has_shape_Dim. rewrite !length_map. split; [exact HB|].
    apply Forall_map, Forall_map. revert HC. apply Forall_impl. intros r Hr.
    apply has_shape_Dim. rewrite length_map. split.
    + destruct r; simpl in *; lia.
    + apply Forall_map. apply Forall_forall. reflexivity.
  - split.
    2:{ intros P. rewrite !data_of_rows. intros HP. apply Forall_concat.
        apply Forall_concat in HP. apply Forall_map. revert HP.
        apply Forall_impl. intros r Hr.
        destruct r; [exact Hr | inversion Hr; assumption]. }
    unfold mean, sum_all, numel, fg_mean_samples. rewrite data_of_rows.
    f_equal. f_equal.
    + rewrite <- flat_map_concat_map, Rsum_flat_map.
      rewrite <- HB, <- (map_nth_seq M []) at 1. rewrite map_map.
      rewrite Forall_forall in HC. f_equal.
      apply map_ext_in. intros b Hb. apply in_seq in Hb.
      assert (Hrow : length (nth b M []) = C) by (apply HC, nth_In; lia).
      rewrite <- Hrow, <- (map_nth_seq_tl (nth b M []) 0). f_equal.
      apply map_ext. intros c. symmetry. apply entry_of_rows.
    + f_equal. rewrite <- flat_map_concat_map.
      rewrite (length_flat_map_const _ (C - 1)).
      * rewrite HB. reflexivity.
      * revert HC. apply Forall_impl. intros r Hr.
        destruct r; simpl in *; lia.
Qed.

(** the last lines of the five [forward] methods, on a given score tensor *)
Lemma forward_after_scores (self : region_loss) (post : R -> R)
    (scores : result (tensor R)) (dc d : tensor R) (m : R) :
  scores = Ok dc -> drop_bg self dc = Ok d -> mean d = Scalar m ->
  (dc <- scores ;; dc <- drop_bg self dc ;; Ok (tmap post (mean dc))) =
    Ok (Scalar (post m)).
Proof.
  intros -> H1 H2. cbn [bind]. rewrite H1. cbn [bind]. rewrite H2. reflexivity.
Qed.

Lemma SSLoss_forward_after_scores (self : region_loss) (x y : tensor R)
    (mask : option (tensor R)) (dc d : tensor R) (m : R) :
  SSLoss.scores self x y mask = Ok dc -> drop_bg self dc = Ok d ->
  mean d = Scalar m -> SSLoss.forward self x y mask = Ok (Scalar m).
Proof.
  intros H0 H1 H2. unfold SSLoss.forward. rewrite H0. cbn [bind].
  rewrite H1. cbn [bind]. rewrite H2. reflexivity.
Qed.

(** C6: with [do_bg = False] each of the five losses averages the scores of
    the classes 1 .. C-1 only: over the [C - 1] entries [dc[c]] of a score
    tensor of shape [(C,)] when [batch_dice] is set, and over the
    [B * (C - 1)] entries [dc[b, c]] of a score tensor of shape [(B, C)]
    otherwise; class 0 enters neither the sum nor the count. *)
Theorem do_bg_false_excludes_class_0 (self : region_loss) (x y : tensor R)
    (mask : option (tensor R)) :
  do_bg self = false ->
  (forall (C : nat) (dc : tensor R),
     batch_dice self = true -> has_shape [C] dc = true ->
     let m := fg_mean_classes C dc in
     (SoftDiceLoss.scores self x y mask = Ok dc ->
      SoftDiceLoss.forward self x y mask = Ok (Scalar (1 - m))) /\
     (IoULoss.scores self x y mask = Ok dc ->
      IoULoss.forward self x y mask = Ok (Scalar (- m))) /\
     (TverskyLoss.scores self x y mask = Ok dc ->
      TverskyLoss.forward self x y mask = Ok (Scalar (- m))) /\
     (AsymLoss.scores self x y mask = Ok dc ->
      AsymLoss.forward self x y mask = Ok (Scalar (- m))) /\
     (SSLoss.scores self x y mask = Ok dc ->
      SSLoss.forward self x y mask = Ok (Scalar m))) /\
  (forall (B C : nat) (dc : tensor R),
     batch_dice self = false -> has_shape [B; C] dc = true ->
     let m := fg_mean_samples B C dc in
     (SoftDiceLoss.scores self x y mask = Ok dc ->
      SoftDiceLoss.forward self x y mask = Ok (Scalar (1 - m))) /\
     (IoULoss.scores self x y mask = Ok dc ->
      IoULoss.forward self x y mask = Ok (Scalar (- m))) /\
     (TverskyLoss.scores self x y mask = Ok dc ->
      TverskyLoss.forward self x y mask = Ok (Scalar (- m))) /\
     (AsymLoss.scores self x y mask = Ok dc ->
      AsymLoss.forward self x y mask = Ok (Scalar (- m))) /\
     (SSLoss.scores self x y mask = Ok dc ->
      SSLoss.forward self x y mask = Ok (Scalar m))).
Proof.
  intros Hbg. split.
  - intros C dc Hbd Hs m.
    destruct (drop_bg_classes self C dc Hbg Hbd Hs) as (d & Hd & _ & Hm & _).
    repeat split; intros Hsc.
    + exact (forward_after_scores self (fun v => 1 - v) _ dc d _ Hsc Hd Hm).
    + exact (forward_after_scores self Ropp _ dc d _ Hsc Hd Hm).
    + exact (forward_after_scores self Ropp _ dc d _ Hsc Hd Hm).
    + exact (forward_after_scores self Ropp _ dc d _ Hsc Hd Hm).
    + exact (SSLoss_forward_after_scores self x y mask dc d _ Hsc Hd Hm).
  - intros B C dc Hbd Hs m.
    destruct (drop_bg_samples self B C dc Hbg Hbd Hs) as (d & Hd & _ & Hm & _).
    repeat split; intros Hsc.
    + exact (forward_after_scores self (fun v => 1 - v) _ dc d _ Hsc Hd Hm).
    + exact (forward_after_scores self Ropp _ dc d _ Hsc Hd Hm).
    + exact (forward_after_scores self Ropp _ dc d _ Hsc Hd Hm).
    + exact (forward_after_scores self Ropp _ dc d _ Hsc Hd Hm).
    + exact (SSLoss_forward_after_scores self x y mask dc d _ Hsc Hd Hm).
Qed.

Lemma get_tp_fp_fn_pointwise_witness :
  exists TP FP FN : tensor R,
    has_shape [1; 2; 2]%nat TP = true /\
    entry TP [0; 0; 0]%nat =
      sq true (entry pred1 [0; 0; 0]%nat * entry truth1 [0; 0; 0]%nat *
               mask_entry (Some mask1) 0 [0%nat]) /\
    get_tp_fp_fn pred1 truth1 (Some [2%nat]) (Some mask1) true =
      (tp <- sum_tensor TP [2%nat] false ;;
       fp <- sum_tensor FP [2%nat] false ;;
       fn <- sum_tensor FN [2%nat] false ;;
       Ok (tp, fp, fn)).
Proof.
  destruct (get_tp_fp_fn_pointwise 1 2 [2%nat] pred1 truth1 [2%nat]
              (Some mask1) true eq_refl eq_refl eq_refl)
    as (TP & FP & FN & H1 & _ & _ & He & Hg).
  exists TP, FP, FN. split; [exact H1|]. split; [|exact Hg].
  apply (He 0%nat 0%nat [0%nat]); [lia | lia | repeat constructor].
Defined.

Lemma do_bg_false_excludes_class_0_witness :
  exists dc : tensor R,
    SoftDiceLoss.scores fg_loss onehot2 onehot2 None = Ok dc /\
    SoftDiceLoss.forward fg_loss onehot2 onehot2 None =
      Ok (Scalar (1 - fg_mean_samples 2 3 dc)).
Proof.
  eexists. split; [cbn; reflexivity|].
  match goal with
  | |- _ = Ok (Scalar (1 - fg_mean_samples _ _ ?dc)) =>
      apply (proj2 (do_bg_false_excludes_class_0 fg_loss onehot2 onehot2 None
                      eq_refl) 2%nat 3%nat dc eq_refl eq_refl)
  end.
  cbn. reflexivity.
Defined.

(** ** The perfect prediction *)

Lemma data_cells {A} (B C : nat) (sp : list nat) (t : tensor A) :
  has_shape (B :: C :: sp) t = true ->
  data t = flat_map (fun row => flat_map data row) (cells t).
Proof.
  intros Hs. apply has_shape_cons_inv in Hs. destruct Hs as (rows & -> & _ & Hall).
  unfold cells. simpl. induction Hall as [|row rows Hrow _ IH]; [reflexivity|].
  simpl. rewrite IH. f_equal.
  apply has_shape_cons_inv in Hrow. destruct Hrow as (cs & -> & _). reflexivity.
Qed.

Lemma spatial_sums_Forall (Q P : R -> Prop) (B C : nat) (sp : list nat)
    (t : tensor R) :
  (forall l, Forall Q l -> P (Rsum l)) ->
  has_shape (B :: C :: sp) t = true -> Forall Q (data t) ->
  Forall (Forall P) (spatial_sums t).
Proof.
  intros HQP Hs HQ. rewrite (data_cells B C sp t Hs) in HQ.
  apply Forall_flat_map in HQ.
  destruct (cells_shape B C sp t Hs) as [_ Hcells].
  unfold spatial_sums. apply Forall_map.
  rewrite Forall_forall in *. intros row Hrow. apply Forall_map.
  specialize (HQ row Hrow). apply Forall_flat_map in HQ.
  specialize (Hcells row Hrow). rewrite Forall_forall in *.
  intros c Hc. rewrite (total_sum_all sp c (Hcells c Hc)).
  apply HQP. apply HQ. exact Hc.
Qed.

Lemma has_shape_of_rows (B C : nat) (M : list (list R)) :
  rect B C M -> has_shape [B; C] (of_rows M) = true.
Proof.
  intros [HB HC]. unfold of_rows. apply has_shape_Dim. rewrite length_map.
  split; [exact HB|]. apply Forall_map. revert HC. apply Forall_impl.
  intros r Hr. apply has_shape_Dim. rewrite length_map. split; [exact Hr|].
  apply Forall_map. apply Forall_forall. reflexivity.
Qed.

Lemma has_shape_vector (vs : list R) :
  has_shape [length vs] (Dim (map Scalar vs)) = true.
Proof.
  apply has_shape_Dim. rewrite length_map. split; [reflexivity|].
  apply Forall_map. apply Forall_forall. reflexivity.
Qed.

Lemma column_sums_length (C : nat) (M : list (list R)) :
  Forall (fun r => length r = C) M -> length (column_sums C M) = C.
Proof.
  unfold column_sums. induction 1 as [|r M Hr _ IH]; simpl.
  - apply repeat_length.
  - rewrite length_map2; congruence.
Qed.

Lemma column_sums_Forall (P : R -> Prop) (C : nat) (M : list (list R)) :
  P 0 -> (forall a b, P a -> P b -> P (a + b)) ->
  Forall (Forall P) M -> Forall P (column_sums C M).
Proof.
  intros H0 Hadd. unfold column_sums. induction 1 as [|r M Hr _ IH]; simpl.
  - apply Forall_forall. intros v Hv. apply repeat_spec in Hv. subst v. exact H0.
  - eapply Forall_map2; [|exact Hr|exact IH]. intros a b; apply Hadd.
Qed.

Lemma positive_score_shape (self : region_loss) (B C : nat) :
  (0 < B)%nat -> (0 < C)%nat -> positive (score_shape self B C) = true.
Proof.
  intros HB HC. unfold score_shape, positive.
  destruct (batch_dice self); simpl;
    rewrite ?(proj2 (Nat.ltb_lt 0 B) HB), ?(proj2 (Nat.ltb_lt 0 C) HC); reflexivity.
Qed.

(** the sums that the losses take keep a property of the summed entries *)
Lemma sum_tensor_loss_axes (Q P : R -> Prop) (self : region_loss) (B C : nat)
    (sp : list nat) (t : tensor R) :
  (forall l, Forall Q l -> P (Rsum l)) ->
  P 0 -> (forall a b, P a -> P b -> P (a + b)) ->
  tensor_of (B :: C :: sp) t = true -> Forall Q (data t) ->
  exists r, sum_tensor t (loss_axes self (B :: C :: sp)) false = Ok r /\
            has_shape (score_shape self B C) r = true /\
            Forall P (data r).
Proof.
  intros HQP H0 Hadd Ht HQ. pose proof Ht as Ht'.
  apply tensor_of_inv in Ht'. destruct Ht' as [Hp Hs].
  pose proof (spatial_sums_Forall Q P B C sp t HQP Hs HQ) as HM.
  pose proof (spatial_sums_length B C sp t Hs) as [HB HC].
  unfold loss_axes, score_shape. destruct (batch_dice self).
  - rewrite (sum_tensor_batch_spatial B C sp t Ht). eexists. split; [reflexivity|].
    rewrite data_map_Scalar. split.
    + rewrite <- (column_sums_length C (spatial_sums t) HC) at 1.
      apply has_shape_vector.
    + apply column_sums_Forall; assumption.
  - rewrite (sum_tensor_spatial B C sp t Ht). eexists. split; [reflexivity|].
    split.
    + apply has_shape_of_rows. split; assumption.
    + rewrite data_of_rows. apply Forall_concat. exact HM.
Qed.

Lemma Rsum_nonneg (l : list R) : Forall (fun v => 0 <= v) l -> 0 <= Rsum l.
Proof. induction 1 as [|v l Hv _ IH]; simpl; lra. Qed.

Lemma Rsum_zero (l : list R) : Forall (fun v => v = 0) l -> Rsum l = 0.
Proof. induction 1 as [|v l Hv _ IH]; simpl; lra. Qed.

Lemma data_confusion_map_diag (f : R -> R -> R) (s : list nat) (x : tensor R)
    (sqr : bool) :
  has_shape s x = true ->
  has_shape s (confusion_map f (length s) x x None sqr) = true /\
  data (confusion_map f (length s) x x None sqr) =
    map (fun v => sq sqr (f v v)) (data x).
Proof.
  intros Hx. unfold confusion_map.
  pose proof (has_shape_zip_at f s x x Hx Hx) as Hz. split.
  - apply has_shape_square_if. exact Hz.
  - destruct sqr; simpl.
    + rewrite (data_tmap _ s _ Hz), (data_zip_at f s x x Hx Hx), map2_diag, map_map.
      reflexivity.
    + rewrite (data_zip_at f s x x Hx Hx), map2_diag. reflexivity.
Qed.

(** the confusion counts of a prediction that is the one-hot truth *)
Lemma perfect_counts (self : region_loss) (B C : nat) (sp : list nat)
    (x y : tensor R) :
  tensor_of (B :: C :: sp) x = true -> to_onehot x y = Ok x -> binary x ->
  exists tp fp fn,
    get_tp_fp_fn x y (Some (loss_axes self (size x))) None (square self) =
      Ok (tp, fp, fn) /\
    has_shape (score_shape self B C) tp = true /\
    has_shape (score_shape self B C) fp = true /\
    has_shape (score_shape self B C) fn = true /\
    Forall (fun v => 0 <= v) (data tp) /\
    Forall (fun v => v = 0) (data fp) /\
    Forall (fun v => v = 0) (data fn).
Proof.
  intros Hx Hg Hbin. pose proof Hx as Hx'.
  apply tensor_of_inv in Hx'. destruct Hx' as [Hp Hs].
  rewrite (has_shape_size _ x Hp Hs).
  rewrite (get_tp_fp_fn_unfold B C sp x y x _ None (square self) Hx Hg Hs eq_refl).
  set (n := length (B :: C :: sp)).
  destruct (data_confusion_map_diag (fun p g => p * g) _ x (square self) Hs)
    as [S1 D1].
  destruct (data_confusion_map_diag (fun p g => p * (1 - g)) _ x (square self) Hs)
    as [S2 D2].
  destruct (data_confusion_map_diag (fun p g => (1 - p) * g) _ x (square self) Hs)
    as [S3 D3].
  fold n in S1, S2, S3, D1, D2, D3.
  assert (T1 : tensor_of (B :: C :: sp) (confusion_map (fun p g => p * g) n x x None (square self)) = true)
    by (unfold tensor_of; rewrite Hp, S1; reflexivity).
  assert (T2 : tensor_of (B :: C :: sp) (confusion_map (fun p g => p * (1 - g)) n x x None (square self)) = true)
    by (unfold tensor_of; rewrite Hp, S2; reflexivity).
  assert (T3 : tensor_of (B :: C :: sp) (confusion_map (fun p g => (1 - p) * g) n x x None (square self)) = true)
    by (unfold tensor_of; rewrite Hp, S3; reflexivity).
  destruct (sum_tensor_loss_axes (fun v => 0 <= v) (fun v => 0 <= v) self B C sp _
              Rsum_nonneg (Rle_refl 0) (fun a b Ha Hb => Rplus_le_le_0_compat a b Ha Hb) T1)
    as (tp & E1 & Stp & Dtp).
  { rewrite D1. apply Forall_map. revert Hbin. apply Forall_impl.
    intros v [-> | ->]; destruct (square self); simpl; lra. }
  destruct (sum_tensor_loss_axes (fun v => v = 0) (fun v => v = 0) self B C sp _
              Rsum_zero eq_refl (fun a b Ha Hb => eq_trans (f_equal2 Rplus Ha Hb) (Rplus_0_l 0)) T2)
    as (fp & E2 & Sfp & Dfp).
  { rewrite D2. apply Forall_map. revert Hbin. apply Forall_impl.
    intros v [-> | ->]; destruct (square self); simpl; lra. }
  destruct (sum_tensor_loss_axes (fun v => v = 0) (fun v => v = 0) self B C sp _
              Rsum_zero eq_refl (fun a b Ha Hb => eq_trans (f_equal2 Rplus Ha Hb) (Rplus_0_l 0)) T3)
    as (fn & E3 & Sfn & Dfn).
  { rewrite D3. apply Forall_map. revert Hbin. apply Forall_impl.
    intros v [-> | ->]; destruct (square self); simpl; lra. }
  exists tp, fp, fn. rewrite E1. cbn [bind]. rewrite E2. cbn [bind]. rewrite E3.
  repeat split; assumption.
Qed.

Lemma Rsum_ones (l : list R) : Forall (fun v => v = 1) l -> Rsum l = INR (length l).
Proof.
  induction 1 as [|v l Hv _ IH]; [reflexivity|].
  cbn [Rsum fold_right length]. fold (Rsum l). rewrite IH, S_INR, Hv. lra.
Qed.

Lemma mean_ones (s : list nat) (d : tensor R) :
  has_shape s d = true -> (0 < prod s)%nat -> Forall (fun v => v = 1) (data d) ->
  mean d = Scalar 1.
Proof.
  intros Hs Hpos H1. unfold mean, sum_all. rewrite (Rsum_ones _ H1).
  fold (numel d). rewrite (numel_has_shape s d Hs). f_equal.
  apply Rdiv_diag. apply not_0_INR. lia.
Qed.

(** scores that are all 1 have the mean 1, with or without the background *)
Lemma mean_of_unit_scores (self : region_loss) (B C : nat) (dc : tensor R) :
  (0 < B)%nat -> (0 < C)%nat -> (do_bg self = false -> (2 <= C)%nat) ->
  has_shape (score_shape self B C) dc = true ->
  Forall (fun v => v = 1) (data dc) ->
  exists d, drop_bg self dc = Ok d /\ mean d = Scalar 1.
Proof.
  intros HB HC Hbg Hs H1. unfold score_shape in Hs.
  destruct (do_bg self) eqn:Ebg.
  - exists dc. unfold drop_bg. rewrite Ebg. split; [reflexivity|].
    destruct (batch_dice self); eapply mean_ones; eauto; simpl; nia.
  - specialize (Hbg eq_refl). destruct (batch_dice self) eqn:Ebd.
    + destruct (drop_bg_classes self C dc Ebg Ebd Hs) as (d & Hd & Hsd & _ & HP).
      exists d. split; [exact Hd|].
      eapply mean_ones; [exact Hsd | simpl; lia | apply HP, H1].
    + destruct (drop_bg_samples self B C dc Ebg Ebd Hs) as (d & Hd & Hsd & _ & HP).
      exists d. split; [exact Hd|].
      eapply mean_ones; [exact Hsd | simpl; nia | apply HP, H1].
Qed.

Lemma ratio_ones (N D : R -> R) (s : R) (dtp dfp dfn : list R) :
  length dfp = length dtp -> length dfn = length dtp ->
  Forall (fun v => 0 <= v) dtp ->
  Forall (fun v => v = 0) dfp -> Forall (fun v => v = 0) dfn ->
  (forall t, 0 <= t -> N t = D t + s /\ D t + s <> 0) ->
  Forall (fun v => v = 1)
    (map2 Rdiv (map N dtp)
       (map (fun v => v + s) (map2 Rplus (map2 Rplus (map D dtp) dfp) dfn))).
Proof.
  intros L1 L2 Htp. revert dfp dfn L1 L2.
  induction Htp as [|t dtp Ht _ IH]; intros dfp dfn L1 L2 Hfp Hfn HND;
    [constructor|].
  destruct dfp as [|p dfp]; [discriminate|].
  destruct dfn as [|n dfn]; [discriminate|].
  inversion Hfp; inversion Hfn; subst. simpl. constructor.
  - destruct (HND t Ht) as [E Hne]. rewrite E.
    replace (D t + 0 + 0 + s) with (D t + s) by lra. apply Rdiv_diag. exact Hne.
  - apply IH; simpl in *; try lia; assumption.
Qed.

(** the quotient that Dice, IoU and Tversky form from the counts of a
    perfect prediction *)
Lemma unit_scores (s' : list nat) (N D : R -> R) (s : R)
    (num a fp fn tp : tensor R) :
  positive s' = true ->
  has_shape s' tp = true -> has_shape s' fp = true -> has_shape s' fn = true ->
  has_shape s' num = true -> has_shape s' a = true ->
  data num = map N (data tp) -> data a = map D (data tp) ->
  Forall (fun v => 0 <= v) (data tp) ->
  Forall (fun v => v = 0) (data fp) -> Forall (fun v => v = 0) (data fn) ->
  (forall t, 0 <= t -> N t = D t + s /\ D t + s <> 0) ->
  exists dc,
    (den <- tadd a fp ;; den <- tadd den fn ;;
     tdiv num (tmap (fun v => v + s) den)) = Ok dc /\
    has_shape s' dc = true /\ Forall (fun v => v = 1) (data dc).
Proof.
  intros Hp Stp Sfp Sfn Snum Sa Dnum Da Dtp Dfp Dfn HND.
  unfold tadd, tdiv.
  rewrite (tbin_same_shape Rplus s' _ _ Hp Sa Sfp). cbn [bind].
  pose proof (has_shape_zip_at Rplus s' _ _ Sa Sfp) as S1.
  rewrite (tbin_same_shape Rplus s' _ _ Hp S1 Sfn). cbn [bind].
  pose proof (has_shape_zip_at Rplus s' _ _ S1 Sfn) as S2.
  pose proof (has_shape_tmap (fun v => v + s) _ _ S2) as S3.
  rewrite (tbin_same_shape Rdiv s' _ _ Hp Snum S3).
  eexists. split; [reflexivity|]. split.
  - apply has_shape_zip_at; assumption.
  - rewrite (data_zip_at Rdiv s' _ _ Snum S3).
    rewrite Dnum, (data_tmap _ s' _ S2).
    rewrite (data_zip_at Rplus s' _ _ S1 Sfn), (data_zip_at Rplus s' _ _ Sa Sfp).
    rewrite Da.
    pose proof (numel_has_shape s' tp Stp) as Ntp.
    pose proof (numel_has_shape s' fp Sfp) as Nfp.
    pose proof (numel_has_shape s' fn Sfn) as Nfn.
    unfold numel in *. apply ratio_ones; try assumption; congruence.
Qed.

Lemma forward_unit_scores (self : region_loss) (post : R -> R)
    (scores : result (tensor R)) (B C : nat) (dc : tensor R) :
  (0 < B)%nat -> (0 < C)%nat -> (do_bg self = false -> (2 <= C)%nat) ->
  scores = Ok dc -> has_shape (score_shape self B C) dc = true ->
  Forall (fun v => v = 1) (data dc) ->
  (dc <- scores ;; dc <- drop_bg self dc ;; Ok (tmap post (mean dc))) =
    Ok (Scalar (post 1)).
Proof.
  intros HB HC Hbg Hsc Hs H1.
  destruct (mean_of_unit_scores self B C dc HB HC Hbg Hs H1) as (d & Hd & Hm).
  exact (forward_after_scores self post scores dc d 1 Hsc Hd Hm).
Qed.

Lemma Forall_zero_scaled (k : R) (s : list nat) (t : tensor R) :
  has_shape s t = true -> Forall (fun v => v = 0) (data t) ->
  Forall (fun v => v = 0) (data (tmap (fun v => k * v) t)).
Proof.
  intros Hs H0. rewrite (data_tmap _ s t Hs). apply Forall_map.
  revert H0. apply Forall_impl. intros v ->. lra.
Qed.

(** C4: when the prediction is exactly the one-hot encoding that the ground
    truth is reconciled to (so that it consists of zeros and ones), no
    nonlinearity is applied and the smoothing constant is positive, the false
    positives and negatives vanish, every score is [1] and SoftDiceLoss
    returns 0, IoULoss -1 and TverskyLoss -1, for every choice of
    [batch_dice], [square] and [do_bg] (at least two classes when the
    background is dropped). *)
Theorem perfect_prediction_losses (self : region_loss) (B C : nat)
    (sp : list nat) (x y : tensor R) :
  tensor_of (B :: C :: sp) x = true -> to_onehot x y = Ok x -> binary x ->
  apply_nonlin self = None -> 0 < smooth self ->
  (do_bg self = false -> (2 <= C)%nat) ->
  SoftDiceLoss.forward self x y None = Ok (Scalar 0) /\
  IoULoss.forward self x y None = Ok (Scalar (-1)) /\
  TverskyLoss.forward self x y None = Ok (Scalar (-1)).
Proof.
  intros Hx Hg Hbin Hnl Hs Hbg.
  destruct (perfect_counts self B C sp x y Hx Hg Hbin)
    as (tp & fp & fn & Hc & Stp & Sfp & Sfn & Dtp & Dfp & Dfn).
  apply tensor_of_inv in Hx. destruct Hx as [Hp _].
  apply positive_cons in Hp. destruct Hp as [HB Hp].
  apply positive_cons in Hp. destruct Hp as [HC _].
  pose proof (positive_score_shape self B C HB HC) as Hps.
  set (s' := score_shape self B C) in *.
  repeat split.
  - destruct (unit_scores s' (fun v => 2 * v + smooth self) (fun v => 2 * v)
                (smooth self) (tmap (fun v => 2 * v + smooth self) tp)
                (tmap (fun v => 2 * v) tp) fp fn tp Hps Stp Sfp Sfn
                (has_shape_tmap _ _ _ Stp) (has_shape_tmap _ _ _ Stp)
                (data_tmap _ _ _ Stp) (data_tmap _ _ _ Stp) Dtp Dfp Dfn)
      as (dc & Edc & Sdc & Ddc).
    { intros t Ht. split; lra. }
    replace 0 with (1 - 1) by lra.
    apply (forward_unit_scores self (fun v => 1 - v) _ B C dc HB HC Hbg);
      [|exact Sdc|exact Ddc].
    unfold SoftDiceLoss.scores. rewrite Hnl. cbn [nonlin bind].
    rewrite Hc. cbn [bind]. exact Edc.
  - assert (Ea : data tp = map (fun v => v) (data tp)) by (symmetry; apply map_id).
    destruct (unit_scores s' (fun v => v + smooth self) (fun v => v)
                (smooth self) (tmap (fun v => v + smooth self) tp)
                tp fp fn tp Hps Stp Sfp Sfn
                (has_shape_tmap _ _ _ Stp) Stp
                (data_tmap _ _ _ Stp) Ea Dtp Dfp Dfn)
      as (dc & Edc & Sdc & Ddc).
    { intros t Ht. split; lra. }
    apply (forward_unit_scores self Ropp _ B C dc HB HC Hbg);
      [|exact Sdc|exact Ddc].
    unfold IoULoss.scores. rewrite Hnl. cbn [nonlin bind].
    rewrite Hc. cbn [bind]. exact Edc.
  - assert (Ea : data tp = map (fun v => v) (data tp)) by (symmetry; apply map_id).
    destruct (unit_scores s' (fun v => v + smooth self) (fun v => v)
                (smooth self) (tmap (fun v => v + smooth self) tp)
                tp (tmap (fun v => TverskyLoss.alpha * v) fp)
                (tmap (fun v => TverskyLoss.beta * v) fn) tp Hps Stp
                (has_shape_tmap _ _ _ Sfp) (has_shape_tmap _ _ _ Sfn)
                (has_shape_tmap _ _ _ Stp) Stp
                (data_tmap _ _ _ Stp) Ea Dtp
                (Forall_zero_scaled _ _ _ Sfp Dfp)
                (Forall_zero_scaled _ _ _ Sfn Dfn))
      as (dc & Edc & Sdc & Ddc).
    { intros t Ht. split; lra. }
    apply (forward_unit_scores self Ropp _ B C dc HB HC Hbg);
      [|exact Sdc|exact Ddc].
    unfold TverskyLoss.scores. rewrite Hnl. cbn [nonlin bind].
    rewrite Hc. cbn [bind]. exact Edc.
Qed.

Lemma to_onehot_labels2 : to_onehot onehot2 labels2 = Ok onehot2.
Proof.
  unfold to_onehot, onehot2, labels2. cbn -[trunc].
  rewrite (trunc_IZR 0), (trunc_IZR 1). reflexivity.
Qed.

Lemma perfect_prediction_losses_witness :
  SoftDiceLoss.forward dice_loss onehot2 labels2 None = Ok (Scalar 0) /\
  IoULoss.forward dice_loss onehot2 labels2 None = Ok (Scalar (-1)) /\
  TverskyLoss.forward dice_loss onehot2 labels2 None = Ok (Scalar (-1)).
Proof.
  apply (perfect_prediction_losses dice_loss 2 3 [] onehot2 labels2).
  - reflexivity.
  - exact to_onehot_labels2.
  - unfold binary. simpl.
    repeat (apply Forall_cons; [first [left; reflexivity | right; reflexivity]|]).
    apply Forall_nil.
  - reflexivity.
  - simpl. lra.
  - discriminate.
Defined.

(** ** [kld_loss]: the closed form *)

Lemma broadcast_shapes_nil_l (s : list nat) : broadcast_shapes [] s = Ok s.
Proof.
  unfold broadcast_shapes. change (rev []) with (@nil nat).
  rewrite <- (rev_involutive s) at 2. generalize (rev s) as l. intros l.
  destruct l; reflexivity.
Qed.

Lemma broadcast_shapes_nil_r (s : list nat) : broadcast_shapes s [] = Ok s.
Proof.
  unfold broadcast_shapes. change (rev []) with (@nil nat).
  rewrite <- (rev_involutive s) at 2. generalize (rev s) as l. intros l.
  destruct l; reflexivity.
Qed.

Lemma expand_scalar {A} (s : list nat) (x : A) : expand s (Scalar x) = full s x.
Proof.
  induction s as [|n s IH]; [reflexivity|]. simpl. rewrite IH. reflexivity.
Qed.

Lemma map2_repeat_l {A B C} (f : A -> B -> C) (a : A) (l : list B) :
  map2 f (repeat a (length l)) l = map (f a) l.
Proof. induction l as [|b l IH]; simpl; [|rewrite IH]; reflexivity. Qed.

Lemma map2_repeat_r {A B C} (f : A -> B -> C) (b : B) (l : list A) :
  map2 f l (repeat b (length l)) = map (fun a => f a b) l.
Proof. induction l as [|a l IH]; simpl; [|rewrite IH]; reflexivity. Qed.

Lemma zip_at_full_l {A B C} (f : A -> B -> C) (s : list nat) (x : A)
    (t : tensor B) :
  has_shape s t = true -> zip_at (length s) f (full s x) t = tmap (f x) t.
Proof.
  revert t. induction s as [|n s IH]; intros t Hs.
  - apply has_shape_nil in Hs. destruct Hs as [y ->]. reflexivity.
  - apply has_shape_cons_inv in Hs. destruct Hs as (l & -> & Hl & Hall).
    simpl. f_equal. subst n. rewrite map2_repeat_l.
    apply map_ext_Forall. revert Hall. apply Forall_impl. intros a. apply IH.
Qed.

Lemma zip_at_full_r {A B C} (f : A -> B -> C) (s : list nat) (y : B)
    (t : tensor A) :
  has_shape s t = true ->
  zip_at (length s) f t (full s y) = tmap (fun v => f v y) t.
Proof.
  revert t. induction s as [|n s IH]; intros t Hs.
  - apply has_shape_nil in Hs. destruct Hs as [x ->]. reflexivity.
  - apply has_shape_cons_inv in Hs. destruct Hs as (l & -> & Hl & Hall).
    simpl. f_equal. subst n. rewrite map2_repeat_r.
    apply map_ext_Forall. revert Hall. apply Forall_impl. intros a. apply IH.
Qed.

(** a Python float meets a tensor like a 0-d tensor *)
Lemma tbin_scalar_l {A B C} (f : A -> B -> C) (s : list nat) (x : A)
    (t : tensor B) :
  positive s = true -> has_shape s t = true ->
  tbin f (Scalar x) t = Ok (tmap (f x) t).
Proof.
  intros Hp Hs. unfold tbin. simpl size. rewrite (has_shape_size s t Hp Hs).
  rewrite broadcast_shapes_nil_l. cbn [bind].
  rewrite expand_scalar, (expand_same s t Hp Hs), (zip_at_full_l f s x t Hs).
  reflexivity.
Qed.

Lemma tbin_scalar_r {A B C} (f : A -> B -> C) (s : list nat) (y : B)
    (t : tensor A) :
  positive s = true -> has_shape s t = true ->
  tbin f t (Scalar y) = Ok (tmap (fun v => f v y) t).
Proof.
  intros Hp Hs. unfold tbin. simpl size. rewrite (has_shape_size s t Hp Hs).
  rewrite broadcast_shapes_nil_r. cbn [bind].
  rewrite expand_scalar, (expand_same s t Hp Hs), (zip_at_full_r f s y t Hs).
  reflexivity.
Qed.

Lemma inner_size_scalars (r : list R) : inner_size (Dim (map Scalar r)) = [].
Proof. destruct r; reflexivity. Qed.

Lemma map_total_Scalar (r : list R) : map total (map Scalar r) = r.
Proof. rewrite map_map. apply map_id. Qed.

Lemma sum_axis0_scalars (r : list R) :
  sum_axis 0 false (Dim (map Scalar r)) = Ok (Scalar (Rsum r)).
Proof.
  cbn [sum_axis]. rewrite inner_size_scalars. cbn [length].
  rewrite reduce_scalars, map_total_Scalar; [reflexivity|].
  apply Forall_map. apply Forall_forall. reflexivity.
Qed.

(** [torch.mean(torch.sum(loss, dim=-1), dim=0)] on a batch *)
Lemma sum_last_mean_batch (B D : nat) (L : tensor R) :
  (0 < B)%nat -> (0 < D)%nat -> has_shape [B; D] L = true ->
  (loss <- torch_sum_last (PyTensor L) ;; torch_mean_0 loss) =
    Ok (Scalar (Rsum (map (fun b => Rsum (map (fun d => entry L [b; d]) (seq 0 D)))
                        (seq 0 B)) / INR B)).
Proof.
  intros HB HD Hs.
  assert (Hr : rank L = 2%nat).
  { apply (has_shape_rank [B; D]); [|exact Hs]. unfold positive. simpl.
    rewrite (proj2 (Nat.ltb_lt 0 B) HB), (proj2 (Nat.ltb_lt 0 D) HD). reflexivity. }
  destruct (shaped_matrix B D L Hs) as (M & -> & HMB & HMD).
  unfold torch_sum_last. rewrite Hr. simpl Nat.sub.
  unfold of_rows at 1. unfold tsum. rewrite sum_axis_succ.
  rewrite (mapM_Ok_map_in _ (fun t => Scalar (Rsum (data t)))).
  2:{ apply Forall_map. apply Forall_forall. intros r _.
      rewrite sum_axis0_scalars, data_map_Scalar. reflexivity. }
  cbn [bind]. rewrite map_map.
  assert (E : map (fun r => Scalar (Rsum (data (Dim (map Scalar r))))) M =
              map Scalar (map Rsum M)).
  { rewrite map_map. apply map_ext. intros r. rewrite data_map_Scalar. reflexivity. }
  rewrite E. unfold torch_mean_0. rewrite sum_axis0_scalars. cbn [bind tmap].
  rewrite !length_map, HMB. do 3 f_equal.
  rewrite <- HMB, <- (map_nth_seq M []) at 1. rewrite map_map. f_equal.
  apply map_ext_in. intros b Hb. apply in_seq in Hb. f_equal.
  rewrite Forall_forall in HMD.
  assert (Hrow : length (nth b M []) = D) by (apply HMD, nth_In; lia).
  rewrite <- Hrow, <- (map_nth_seq (nth b M []) 0) at 1.
  apply map_ext. intros d. symmetry. apply entry_of_rows.
Qed.

Lemma ln_sqrt_exp (v : R) : ln (sqrt (exp v)) = 0.5 * v.
Proof.
  replace (exp v) with (exp (v / 2) * exp (v / 2))
    by (rewrite <- exp_plus; f_equal; lra).
  rewrite sqrt_square by (left; apply exp_pos). rewrite ln_exp. lra.
Qed.

Lemma positive_2d (B D : nat) :
  (0 < B)%nat -> (0 < D)%nat -> positive [B; D] = true.
Proof.
  intros HB HD. unfold positive. simpl.
  rewrite (proj2 (Nat.ltb_lt 0 B) HB), (proj2 (Nat.ltb_lt 0 D) HD). reflexivity.
Qed.

(** the tensor of the divergences, before it is summed *)
Lemma kl_divergence_direct (B D : nat) (mu1 lv : tensor R) (mu2 std2 : R) :
  tensor_of [B; D] mu1 = true -> tensor_of [B; D] lv = true -> 0 < std2 ->
  kl_divergence (PyTensor (tmap (fun v => 0.5 * v) lv)) (PyTensor (tmap exp lv))
      (PyTensor (tmap relu mu1)) (PyFloat mu2) (PyFloat std2) =
    Ok (Scalar (kld_reference B D mu1 lv mu2 std2)).
Proof.
  intros Hm Hl Hstd.
  apply tensor_of_inv in Hm, Hl. destruct Hm as [Hp Hm], Hl as [_ Hl].
  pose proof Hp as Hp'. apply positive_cons in Hp'. destruct Hp' as [HB Hp'].
  apply positive_cons in Hp'. destruct Hp' as [HD _].
  unfold kl_divergence, math_log. cbn [py_float bind py_square].
  destruct (Rlt_dec 0 std2) as [_|Hn]; [|contradiction]. cbn [bind].
  set (s := [B; D]) in *.
  pose proof (has_shape_tmap (fun v => 0.5 * v) s lv Hl) as S1.
  pose proof (has_shape_tmap exp s lv Hl) as S2.
  pose proof (has_shape_tmap relu s mu1 Hm) as S3.
  unfold py_bin, py_div, py_bin. cbn [as_tensor].
  rewrite (tbin_scalar_l Rminus s _ _ Hp S1). cbn [bind as_tensor py_square].
  rewrite (tbin_scalar_r Rminus s _ _ Hp S3). cbn [bind as_tensor py_square].
  pose proof (has_shape_tmap (fun v => v - mu2) s _ S3) as S4.
  pose proof (has_shape_tmap (fun v => v ^ 2) s _ S4) as S5.
  rewrite (tbin_same_shape Rplus s _ _ Hp S2 S5). cbn [bind as_tensor].
  pose proof (has_shape_zip_at Rplus s _ _ S2 S5) as S6.
  rewrite (tbin_scalar_l Rmult s _ _ Hp S6). cbn [bind as_tensor].
  pose proof (has_shape_tmap (Rmult 0.5) s _ S6) as S7.
  rewrite (tbin_scalar_r Rdiv s _ _ Hp S7). cbn [bind as_tensor].
  pose proof (has_shape_tmap (fun v => v / std2 ^ 2) s _ S7) as S8.
  pose proof (has_shape_tmap (Rminus (ln std2)) s _ S1) as S9.
  rewrite (tbin_same_shape Rplus s _ _ Hp S9 S8). cbn [bind as_tensor].
  pose proof (has_shape_zip_at Rplus s _ _ S9 S8) as S10.
  rewrite (tbin_scalar_r Rminus s _ _ Hp S10). cbn [bind as_tensor].
  pose proof (has_shape_tmap (fun v => v - 0.5) s _ S10) as S11.
  subst s. rewrite (sum_last_mean_batch B D _ HB HD S11).
  unfold kld_reference. do 2 f_equal.
  apply (f_equal (fun z => z / INR B)). apply (f_equal Rsum).
  apply map_ext_in. intros b Hb. apply in_seq in Hb. f_equal.
  apply map_ext_in. intros d Hd. apply in_seq in Hd.
  assert (Hidx : Forall2 lt [b; d] [B; D]) by (repeat constructor; lia).
  rewrite (entry_tmap _ [B; D] _ _ S10 Hidx).
  rewrite (entry_zip_at Rplus [B; D] _ _ _ S9 S8 Hidx).
  rewrite (entry_tmap _ [B; D] _ _ S1 Hidx), (entry_tmap _ [B; D] _ _ Hl Hidx).
  rewrite (entry_tmap _ [B; D] _ _ S7 Hidx), (entry_tmap _ [B; D] _ _ S6 Hidx).
  rewrite (entry_zip_at Rplus [B; D] _ _ _ S2 S5 Hidx).
  rewrite (entry_tmap _ [B; D] _ _ Hl Hidx), (entry_tmap _ [B; D] _ _ S4 Hidx).
  rewrite (entry_tmap _ [B; D] _ _ S3 Hidx), (entry_tmap _ [B; D] _ _ Hm Hidx).
  unfold kl_gauss. rewrite ln_sqrt_exp. lra.
Qed.

(** C3: with all four flags at 0, on a posterior mean and log-variance of
    shape [(B, D)] and a positive prior deviation, the loss of [kld_loss] is
    the closed-form divergence
    [ln std2 - ln sigma1 + 0.5 * (var1 + (mu1' - mu2)^2) / std2^2 - 0.5]
    with [mu1' = relu(mu1)], [var1 = exp(logvar1)], [sigma1 = sqrt var1],
    summed over the last axis and averaged over the batch axis. *)
Theorem kld_loss_direct_closed_form (randn_like : tensor R -> tensor R)
    (raw_output mu1 logvar1 : tensor R) (mu2 std2 : R) (B D : nat) :
  tensor_of [B; D] mu1 = true -> tensor_of [B; D] logvar1 = true ->
  0 < std2 ->
  has_shape [B; D] (randn_like (tmap (fun v => exp (0.5 * v)) logvar1)) = true ->
  exists threshold : tensor R,
    kld_loss randn_like raw_output mu1 logvar1 mu2 std2 0 0 0 0 =
      Ok (Scalar (kld_reference B D mu1 logvar1 mu2 std2), threshold).
Proof.
  intros Hm Hl Hstd Hn. unfold kld_loss.
  cbn [posterior_mean posterior_std prior_mean prior_std Z.eqb bind].
  rewrite (kl_divergence_direct B D mu1 logvar1 mu2 std2 Hm Hl Hstd). cbn [bind].
  apply tensor_of_inv in Hm, Hl. destruct Hm as [Hp Hm], Hl as [_ Hl].
  unfold sample_threshold, tmul.
  pose proof (has_shape_tmap (fun v => exp (0.5 * v)) _ _ Hl) as S1.
  rewrite (tbin_same_shape Rmult [B; D] _ _ Hp Hn S1). cbn [bind].
  unfold py_bin. cbn [as_tensor].
  rewrite (tbin_same_shape Rplus [B; D] _ _ Hp
             (has_shape_zip_at Rmult [B; D] _ _ Hn S1)
             (has_shape_tmap relu _ _ Hm)).
  cbn [bind as_tensor]. eexists. reflexivity.
Qed.

Lemma kld_loss_direct_closed_form_witness :
  exists threshold : tensor R,
    kld_loss (fun t => t) (Dim [Scalar 0])
        (Dim [Dim [Scalar 1; Scalar 0.5]]) (Dim [Dim [Scalar 0; Scalar 0]])
        0.5 0.125 0 0 0 0 =
      Ok (Scalar (kld_reference 1 2 (Dim [Dim [Scalar 1; Scalar 0.5]])
                    (Dim [Dim [Scalar 0; Scalar 0]]) 0.5 0.125), threshold).
Proof.
  apply (kld_loss_direct_closed_form (fun t => t) (Dim [Scalar 0])
           (Dim [Dim [Scalar 1; Scalar 0.5]]) (Dim [Dim [Scalar 0; Scalar 0]])
           0.5 0.125 1 2).
  - reflexivity.
  - reflexivity.
  - lra.
  - reflexivity.
Defined.

(** * Further properties of the module *)

(** ** [sum_tensor] and the two reduction modes *)

Lemma nth_map2_plus (c : nat) (r cs : list R) :
  length r = length cs ->
  nth c (map2 Rplus r cs) 0 = nth c r 0 + nth c cs 0.
Proof.
  revert r cs. induction c as [|c IH]; intros [|x r] [|y cs] H; simpl in *;
    try discriminate; try lra.
  apply IH. lia.
Qed.

Lemma nth_repeat_0 (c n : nat) : nth c (repeat 0 n) 0 = 0.
Proof.
  revert c. induction n as [|n IH]; intros [|c]; simpl; try reflexivity. apply IH.
Qed.

Lemma nth_column_sums (C c : nat) (M : list (list R)) :
  Forall (fun r => length r = C) M ->
  nth c (column_sums C M) 0 =
    Rsum (map (fun b => nth c (nth b M []) 0) (seq 0 (length M))).
Proof.
  induction 1 as [|r M Hr HM IH].
  - simpl. apply nth_repeat_0.
  - change (column_sums C (r :: M)) with (map2 Rplus r (column_sums C M)).
    rewrite nth_map2_plus by (rewrite (column_sums_length C M HM); exact Hr).
    rewrite IH. simpl length. rewrite <- cons_seq, <- seq_shift, map_cons, map_map.
    reflexivity.
Qed.

(** X1: on a tensor of shape [(B, C, *S)], [sum_tensor] over the spatial
    axes [2 ..] returns a [(B, C)] tensor whose entry [(b, c)] is the sum of
    the slice [t[b, c]]; with the batch axis 0 added to the axes it returns a
    [(C,)] tensor, entry [c] being the sum of those sums over the samples:
    the two modes of [batch_dice] differ by the reduction of axis 0 only. *)
Theorem sum_tensor_batch_and_per_sample (B C : nat) (sp : list nat) (t : tensor R) :
  tensor_of (B :: C :: sp) t = true ->
  exists r r' : tensor R,
    sum_tensor t (range 2 (length (B :: C :: sp))) false = Ok r /\
    sum_tensor t (0%nat :: range 2 (length (B :: C :: sp))) false = Ok r' /\
    has_shape [B; C] r = true /\ has_shape [C] r' = true /\
    (forall b c, (b < B)%nat -> (c < C)%nat ->
       entry r [b; c] = total (nth c (nth b (cells t) []) (Scalar 0))) /\
    (forall c, (c < C)%nat ->
       entry r' [c] = Rsum (map (fun b => entry r [b; c]) (seq 0 B))).
Proof.
  intros Ht. pose proof Ht as Ht'. apply tensor_of_inv in Ht'.
  destruct Ht' as [Hp Hs].
  destruct (spatial_sums_length B C sp t Hs) as [HB HC].
  exists (of_rows (spatial_sums t)),
         (Dim (map Scalar (column_sums C (spatial_sums t)))).
  split; [apply sum_tensor_spatial, Ht|].
  split; [apply sum_tensor_batch_spatial, Ht|].
  split; [apply has_shape_of_rows; split; assumption|].
  split.
  { rewrite <- (column_sums_length C (spatial_sums t) HC) at 1.
    apply has_shape_vector. }
  split.
  - intros b c Hb Hc. rewrite entry_of_rows. unfold spatial_sums.
    destruct (cells_shape B C sp t Hs) as [[HlB HlC] _].
    rewrite (nth_indep _ [] (map total []))
      by (rewrite length_map; lia).
    rewrite map_nth.
    rewrite Forall_forall in HlC.
    assert (Hrow : length (nth b (cells t) []) = C)
      by (apply HlC, nth_In; lia).
    rewrite (nth_indep _ 0 (total (Scalar 0)))
      by (rewrite length_map; lia).
    rewrite map_nth. reflexivity.
  - intros c Hc. rewrite entry_vector, (nth_column_sums C c _ HC), HB.
    f_equal. apply map_ext. intros b. symmetry. apply entry_of_rows.
Qed.

Lemma sum_tensor_batch_and_per_sample_witness :
  exists r r' : tensor R,
    sum_tensor pred1 [2%nat] false = Ok r /\
    sum_tensor pred1 [0%nat; 2%nat] false = Ok r' /\
    has_shape [1; 2]%nat r = true /\ has_shape [2%nat] r' = true.
Proof.
  destruct (sum_tensor_batch_and_per_sample 1 2 [2%nat] pred1 eq_refl)
    as (r & r' & H1 & H2 & H3 & H4 & _).
  exists r, r'. repeat split; assumption.
Defined.

(** ** Label reconciliation *)

(** X2: a ground truth that already has the prediction's shape is taken as
    the one-hot encoding and returned unchanged, so that reconciling twice
    is reconciling once. *)
Theorem to_onehot_idempotent (s : list nat) (x y : tensor R) :
  tensor_of s x = true -> tensor_of s y = true ->
  to_onehot x y = Ok y /\
  (g <- to_onehot x y ;; to_onehot x g) = to_onehot x y.
Proof.
  intros Hx Hy. pose proof (to_onehot_same_shape s x y Hx Hy) as H.
  split; [exact H|]. rewrite H. cbn [bind]. exact H.
Qed.

Lemma to_onehot_idempotent_witness : to_onehot pred1 truth1 = Ok truth1.
Proof.
  exact (proj1 (to_onehot_idempotent [1; 2; 2]%nat pred1 truth1 eq_refl eq_refl)).
Defined.

Lemma nth_error_zip_prefix {A B} (f : A -> B -> B) la lb (i : nat) :
  length la = length lb ->
  nth_error (zip_prefix f la lb) i =
  match nth_error la i, nth_error lb i with
  | Some a, Some b => Some (f a b)
  | _, _ => None
  end.
Proof.
  revert la lb. induction i as [|i IH]; intros [|a la] [|b lb] H; simpl in *;
    try reflexivity; try discriminate.
  apply IH. lia.
Qed.

Lemma length_zip_prefix {A B} (f : A -> B -> B) la lb :
  length (zip_prefix f la lb) = length lb.
Proof.
  revert lb. induction la as [|a la IH]; intros [|b lb]; simpl; try reflexivity.
  rewrite IH. reflexivity.
Qed.

Lemma has_shape_set_where (s : list nat) (c : Z) (v : R) (idx : tensor Z)
    (t : tensor R) :
  has_shape s idx = true -> has_shape s t = true ->
  has_shape s (set_where (length s) c v idx t) = true.
Proof.
  revert idx t. induction s as [|n s IH]; intros idx t Hi Ht.
  - apply has_shape_nil in Hi, Ht. destruct Hi as [i ->], Ht as [x ->]. reflexivity.
  - apply has_shape_cons_inv in Hi, Ht.
    destruct Hi as (li & -> & Hli & Halli), Ht as (lt & -> & Hlt & Hallt).
    simpl. apply has_shape_Dim. rewrite length_zip_prefix. split; [exact Hlt|].
    clear Hli Hlt. revert lt Hallt.
    induction Halli as [|i li Hi _ IHl]; intros lt Hallt; [exact Hallt|].
    destruct Hallt as [|t lt Ht Hallt]; simpl; constructor; auto.
Qed.

(** the entries of a scattered slice *)
Lemma entry_set_where (s : list nat) (c : Z) (v : R) (m t : tensor R)
    (p : list nat) :
  has_shape s m = true -> has_shape s t = true -> Forall2 lt p s ->
  entry (set_where (length s) c v (long m) t) p =
    if (trunc (entry m p) =? c)%Z then v else entry t p.
Proof.
  intros Hm Ht Hp. revert m t Hm Ht.
  induction Hp as [|i n p s Hi _ IH]; intros m t Hm Ht.
  - apply has_shape_nil in Hm, Ht. destruct Hm as [y ->], Ht as [x ->]. reflexivity.
  - apply has_shape_cons_inv in Hm, Ht.
    destruct Hm as (lm & -> & Hlm & Hallm), Ht as (lt & -> & Hlt & Hallt).
    unfold long. cbn [tmap length set_where entry].
    rewrite nth_error_zip_prefix by (rewrite length_map; congruence).
    rewrite nth_error_map.
    destruct (nth_error_shaped s lm i Hallm) as (m' & Em & Hm'); [lia|].
    destruct (nth_error_shaped s lt i Hallt) as (t' & Et & Ht'); [lia|].
    rewrite Em, Et. simpl. apply IH; assumption.
Qed.

Lemma fits_except_labels (B C : nat) (sp : list nat) :
  fits_except 1 (B :: 1%nat :: sp) (B :: C :: sp) = true.
Proof.
  simpl. rewrite Nat.leb_refl. simpl.
  induction sp as [|n sp IH]; [reflexivity|]. simpl. rewrite Nat.leb_refl. exact IH.
Qed.

Lemma size_zeros (s : list nat) : positive s = true -> size (zeros s) = s.
Proof. intros Hp. apply has_shape_size; [exact Hp | apply has_shape_full]. Qed.

Lemma all_equal_zip_labels (B C : nat) (sp : list nat) :
  C <> 1%nat -> all_equal_zip (B :: C :: sp) (B :: 1%nat :: sp) = false.
Proof.
  intros HC. unfold all_equal_zip. simpl. rewrite Nat.eqb_refl. simpl.
  destruct (Nat.eqb_spec C 1); [contradiction|]. reflexivity.
Qed.

(** the scatter of a label map into zeros *)
Lemma scatter_labels (B C : nat) (sp : list nat) (y : tensor R) :
  positive (B :: C :: sp) = true -> has_shape (B :: 1%nat :: sp) y = true ->
  labels_in_range C y ->
  scatter_1 (zeros (B :: C :: sp)) (long y) 1 =
    Ok (Dim (map (fun m0 =>
               Dim (map (fun k => set_where (length sp) (Z.of_nat k) 1 (long m0)
                                    (zeros sp))
                      (seq 0 C)))
          (mask_channel y))).
Proof.
  intros Hp Hy Hr.
  assert (Hpy : positive (B :: 1%nat :: sp) = true).
  { apply positive_cons in Hp. destruct Hp as [HB Hp].
    apply positive_cons in Hp. destruct Hp as [_ Hp].
    apply positive_cons. split; [exact HB|]. apply positive_cons. split; [lia|exact Hp]. }
  assert (Hps : positive sp = true).
  { apply positive_cons in Hp. destruct Hp as [_ Hp].
    apply positive_cons in Hp. destruct Hp as [_ Hp]. exact Hp. }
  pose proof (has_shape_tmap trunc _ _ Hy) as Hly.
  unfold scatter_1. unfold rank.
  rewrite (has_shape_size _ (long y) Hpy Hly), (size_zeros _ Hp).
  simpl length. rewrite Nat.eqb_refl. cbn [negb].
  rewrite fits_except_labels. cbn [negb nth].
  assert (Hrng : forallb (fun i => (0 <=? i)%Z && (i <? Z.of_nat C)%Z)
                   (data (long y)) = true).
  { unfold long. rewrite (data_tmap trunc _ y Hy). apply forallb_forall.
    intros i Hi. apply in_map_iff in Hi. destruct Hi as (v & <- & Hv).
    unfold labels_in_range in Hr. rewrite Forall_forall in Hr.
    specialize (Hr v Hv). apply andb_true_iff. split; [apply Z.leb_le|apply Z.ltb_lt]; lia. }
  rewrite Hrng. cbn [negb].
  apply has_shape_cons_inv in Hy. destruct Hy as (rows & -> & Hl & Hall).
  unfold long, zeros. cbn [tmap full undim bind]. f_equal. f_equal.
  unfold mask_channel. cbn [subs]. subst B. clear -Hall Hps.
  induction Hall as [|row rows Hrow _ IH]; [reflexivity|].
  apply has_shape_cons_inv in Hrow. destruct Hrow as (cs & -> & Hlc & Hallc).
  destruct cs as [|c0 [|c1 cs]]; try discriminate Hlc.
  cbn [length repeat map zip_prefix flat_map subs firstn app tmap].
  rewrite IH. f_equal. f_equal.
  rewrite repeat_length.
  assert (Hrk : rank (full sp 0) = length sp)
    by (apply has_shape_rank; [exact Hps | apply has_shape_full]).
  unfold rank in Hrk. clear IH.
  generalize 0%nat as k0. induction C as [|C IHC]; intros k0; [reflexivity|].
  cbn [repeat seq combine map fold_left]. rewrite Hrk. f_equal. apply IHC.
Qed.

Lemma entry_in_data (s : list nat) (t : tensor R) (idx : list nat) :
  has_shape s t = true -> Forall2 lt idx s -> In (entry t idx) (data t).
Proof.
  intros Ht Hidx. revert t Ht.
  induction Hidx as [|i n idx s Hi _ IH]; intros t Ht.
  - apply has_shape_nil in Ht. destruct Ht as [x ->]. left. reflexivity.
  - apply has_shape_cons_inv in Ht. destruct Ht as (l & -> & Hl & Hall).
    destruct (nth_error_shaped s l i Hall) as (t' & Et & Ht'); [lia|].
    cbn [entry data]. rewrite Et. apply in_flat_map. exists t'.
    split; [eapply nth_error_In; exact Et | apply IH; exact Ht'].
Qed.

Lemma Rsum_indicator (l : Z) (C k0 : nat) :
  Rsum (map (fun c => if (l =? Z.of_nat c)%Z then 1 else 0) (seq k0 C)) =
    if ((Z.of_nat k0 <=? l) && (l <? Z.of_nat (k0 + C)))%Z then 1 else 0.
Proof.
  revert k0. induction C as [|C IH]; intros k0.
  - simpl. rewrite Nat.add_0_r.
    destruct (Z.leb_spec (Z.of_nat k0) l), (Z.ltb_spec l (Z.of_nat k0));
      simpl; try reflexivity; lia.
  - cbn [seq map Rsum fold_right]. fold (Rsum (map (fun c => if (l =? Z.of_nat c)%Z then 1 else 0) (seq (S k0) C))).
    rewrite IH.
    destruct (Z.eqb_spec l (Z.of_nat k0)),
             (Z.leb_spec (Z.of_nat (S k0)) l),
             (Z.ltb_spec l (Z.of_nat (S k0 + C))),
             (Z.leb_spec (Z.of_nat k0) l),
             (Z.ltb_spec l (Z.of_nat (k0 + S C))); simpl; try lra; lia.
Qed.

(** the encoding of a label map, entry by entry *)
Lemma to_onehot_label_map_spec (B C : nat) (sp : list nat) (x y : tensor R) :
  tensor_of (B :: C :: sp) x = true -> C <> 1%nat ->
  has_shape (B :: 1%nat :: sp) y = true -> labels_in_range C y ->
  exists g : tensor R,
    to_onehot x y = Ok g /\ has_shape (B :: C :: sp) g = true /\
    (forall b c p, (b < B)%nat -> (c < C)%nat -> Forall2 lt p sp ->
       entry g (b :: c :: p) =
         if (trunc (entry y (b :: 0%nat :: p)) =? Z.of_nat c)%Z then 1 else 0) /\
    (forall b p, (b < B)%nat -> Forall2 lt p sp ->
       Rsum (map (fun c => entry g (b :: c :: p)) (seq 0 C)) = 1).
Proof.
  intros Hx HC Hy Hr. apply tensor_of_inv in Hx. destruct Hx as [Hp Hx].
  pose proof Hp as Hp'. apply positive_cons in Hp'. destruct Hp' as [HB Hp'].
  apply positive_cons in Hp'. destruct Hp' as [HCpos Hps].
  assert (Hpy : positive (B :: 1%nat :: sp) = true).
  { apply positive_cons. split; [exact HB|]. apply positive_cons. split; [lia|exact Hps]. }
  assert (Hentry : forall g, g = Dim (map (fun m0 =>
               Dim (map (fun k => set_where (length sp) (Z.of_nat k) 1 (long m0)
                                    (zeros sp)) (seq 0 C))) (mask_channel y)) ->
            forall b c p, (b < B)%nat -> (c < C)%nat -> Forall2 lt p sp ->
              entry g (b :: c :: p) =
              if (trunc (entry y (b :: 0%nat :: p)) =? Z.of_nat c)%Z then 1 else 0).
  { intros g -> b c p Hb Hc Hpp.
    destruct (nth_error_mask_channel B sp y b Hy Hb) as (m0 & Em & Hm0 & Hent).
    rewrite Hent. cbn [entry]. rewrite nth_error_map, Em. simpl.
    rewrite nth_error_map.
    assert (Es : nth_error (seq 0 C) c = Some c).
    { rewrite nth_error_nth' with (d := 0%nat) by (rewrite length_seq; exact Hc).
      rewrite seq_nth by exact Hc. reflexivity. }
    rewrite Es. simpl.
    rewrite (entry_set_where sp _ _ m0 (zeros sp) p Hm0 (has_shape_full sp 0) Hpp).
    destruct (trunc (entry m0 p) =? Z.of_nat c)%Z; [reflexivity|].
    assert (Hin : In (entry (zeros sp) p) (data (zeros sp)))
      by (apply (entry_in_data sp); [apply has_shape_full | exact Hpp]).
    clear -Hin. unfold zeros in *. revert Hin. generalize (entry (full sp 0) p).
    induction sp as [|n sp IH]; intros v Hin.
    - simpl in Hin. destruct Hin as [<-|[]]. reflexivity.
    - simpl in Hin. apply in_flat_map in Hin. destruct Hin as (t & Ht & Hv).
      apply repeat_spec in Ht. subst t. apply IH. exact Hv. }
  eexists. split; [|split; [|split]].
  - unfold to_onehot.
    rewrite (has_shape_size _ x Hp Hx), (has_shape_size _ y Hpy Hy).
    simpl length. rewrite Nat.eqb_refl. cbn [negb bind].
    rewrite (has_shape_size _ y Hpy Hy), (all_equal_zip_labels B C sp HC).
    apply (scatter_labels B C sp y Hp Hy Hr).
  - destruct (select0_axis1_mask B sp y Hy) as (_ & Hlm & Hms).
    apply has_shape_Dim. rewrite length_map. split; [exact Hlm|].
    apply Forall_map. revert Hms. apply Forall_impl. intros m0 Hm0.
    apply has_shape_Dim. rewrite length_map, length_seq. split; [reflexivity|].
    apply Forall_map. apply Forall_forall. intros k _.
    apply has_shape_set_where; [apply has_shape_tmap; exact Hm0 | apply has_shape_full].
  - apply Hentry. reflexivity.
  - intros b p Hb Hpp.
    rewrite (map_ext_in _ (fun c => if (trunc (entry y (b :: 0%nat :: p)) =? Z.of_nat c)%Z
                                   then 1 else 0)).
    + rewrite Rsum_indicator. simpl Nat.add.
      assert (Hin : In (entry y (b :: 0%nat :: p)) (data y)).
      { apply (entry_in_data (B :: 1%nat :: sp)); [exact Hy|].
        apply Forall2_cons; [exact Hb|]. apply Forall2_cons; [lia | exact Hpp]. }
      unfold labels_in_range in Hr. rewrite Forall_forall in Hr.
      specialize (Hr _ Hin).
      destruct (Z.leb_spec (Z.of_nat 0) (trunc (entry y (b :: 0%nat :: p)))),
               (Z.ltb_spec (trunc (entry y (b :: 0%nat :: p))) (Z.of_nat C));
        simpl; try reflexivity; lia.
    + intros c Hc. apply in_seq in Hc. apply Hentry; [reflexivity|exact Hb|lia|exact Hpp].
Qed.

(** X3: a label map of shape [(B, 1, *S)] with labels in [0, C) is turned
    into a tensor of the prediction's shape [(B, C, *S)] that holds 1 at the
    label's class and 0 at the others, so that it sums to 1 over the class
    axis at every position. *)
Theorem to_onehot_of_label_map (B C : nat) (sp : list nat) (x y : tensor R) :
  tensor_of (B :: C :: sp) x = true -> C <> 1%nat ->
  has_shape (B :: 1%nat :: sp) y = true -> labels_in_range C y ->
  exists g : tensor R,
    to_onehot x y = Ok g /\ has_shape (B :: C :: sp) g = true /\
    (forall b c p, (b < B)%nat -> (c < C)%nat -> Forall2 lt p sp ->
       entry g (b :: c :: p) =
         if (trunc (entry y (b :: 0%nat :: p)) =? Z.of_nat c)%Z then 1 else 0) /\
    (forall b p, (b < B)%nat -> Forall2 lt p sp ->
       Rsum (map (fun c => entry g (b :: c :: p)) (seq 0 C)) = 1).
Proof. exact (to_onehot_label_map_spec B C sp x y). Qed.

Lemma to_onehot_of_label_map_witness :
  exists g : tensor R,
    to_onehot pred1 labels1 = Ok g /\ has_shape [1; 2; 2]%nat g = true /\
    Rsum (map (fun c => entry g [0%nat; c; 0%nat]) (seq 0 2)) = 1.
Proof.
  destruct (to_onehot_of_label_map 1 2 [2%nat] pred1 labels1 eq_refl)
    as (g & H1 & H2 & _ & H4).
  - discriminate.
  - reflexivity.
  - unfold labels_in_range, labels1. cbn -[trunc].
    repeat (apply Forall_cons; [rewrite trunc_IZR; lia|]). apply Forall_nil.
  - exists g. split; [exact H1|]. split; [exact H2|].
    apply (H4 0%nat [0%nat]); [lia|]. apply Forall2_cons; [lia|constructor].
Defined.

(** X4: a label outside [0, C) makes the reconciliation raise (the
    bounds-checked scatter fails); no encoding is returned. *)
Theorem to_onehot_label_out_of_range (B C : nat) (sp : list nat) (x y : tensor R) :
  tensor_of (B :: C :: sp) x = true -> C <> 1%nat ->
  has_shape (B :: 1%nat :: sp) y = true ->
  Exists (fun v => ~ (0 <= trunc v < Z.of_nat C)%Z) (data y) ->
  to_onehot x y = Raise RuntimeError.
Proof.
  intros Hx HC Hy Hbad. apply tensor_of_inv in Hx. destruct Hx as [Hp Hx].
  pose proof Hp as Hp'. apply positive_cons in Hp'. destruct Hp' as [HB Hp'].
  apply positive_cons in Hp'. destruct Hp' as [HCpos Hps].
  assert (Hpy : positive (B :: 1%nat :: sp) = true).
  { apply positive_cons. split; [exact HB|]. apply positive_cons. split; [lia|exact Hps]. }
  unfold to_onehot.
  rewrite (has_shape_size _ x Hp Hx), (has_shape_size _ y Hpy Hy).
  simpl length. rewrite Nat.eqb_refl. cbn [negb bind].
  rewrite (has_shape_size _ y Hpy Hy), (all_equal_zip_labels B C sp HC).
  pose proof (has_shape_tmap trunc _ _ Hy) as Hly.
  unfold scatter_1. unfold rank.
  rewrite (has_shape_size _ (long y) Hpy Hly), (size_zeros _ Hp).
  simpl length. rewrite Nat.eqb_refl. cbn [negb].
  rewrite fits_except_labels. cbn [negb nth].
  assert (Hrng : forallb (fun i => (0 <=? i)%Z && (i <? Z.of_nat C)%Z)
                   (data (long y)) = false).
  { unfold long. rewrite (data_tmap trunc _ y Hy).
    apply Exists_exists in Hbad. destruct Hbad as (v & Hv & Hn).
    destruct (forallb _ _) eqn:E; [|reflexivity]. exfalso. apply Hn.
    rewrite forallb_forall in E. specialize (E (trunc v) (in_map trunc _ _ Hv)).
    apply andb_true_iff in E. destruct E as [E1 E2].
    apply Z.leb_le in E1. apply Z.ltb_lt in E2. lia. }
  rewrite Hrng. reflexivity.
Qed.

Lemma to_onehot_label_out_of_range_witness :
  to_onehot pred1 labels_bad = Raise RuntimeError.
Proof.
  apply (to_onehot_label_out_of_range 1 2 [2%nat] pred1 labels_bad eq_refl).
  - discriminate.
  - reflexivity.
  - unfold labels_bad. cbn -[trunc]. apply Exists_cons_tl, Exists_cons_hd.
    rewrite (trunc_IZR 2). lia.
Defined.

(** ** Bounds of the overlap losses *)

Lemma data_confusion_map (f : R -> R -> R) (s : list nat) (x g : tensor R)
    (sqr : bool) :
  has_shape s x = true -> has_shape s g = true ->
  has_shape s (confusion_map f (length s) x g None sqr) = true /\
  data (confusion_map f (length s) x g None sqr) =
    map2 (fun p q => sq sqr (f p q)) (data x) (data g).
Proof.
  intros Hx Hg. unfold confusion_map.
  pose proof (has_shape_zip_at f s x g Hx Hg) as Hz. split.
  - apply has_shape_square_if. exact Hz.
  - destruct sqr; simpl.
    + rewrite (data_tmap _ s _ Hz), (data_zip_at f s x g Hx Hg), map_map2.
      reflexivity.
    + rewrite (data_zip_at f s x g Hx Hg). reflexivity.
Qed.

(** the confusion counts of probabilities against a one-hot truth are not
    negative *)
Lemma nonneg_counts (self : region_loss) (B C : nat) (sp : list nat)
    (x y g : tensor R) :
  tensor_of (B :: C :: sp) x = true ->
  to_onehot x y = Ok g -> has_shape (B :: C :: sp) g = true ->
  unit_interval x -> binary g ->
  exists tp fp fn,
    get_tp_fp_fn x y (Some (loss_axes self (size x))) None (square self) =
      Ok (tp, fp, fn) /\
    has_shape (score_shape self B C) tp = true /\
    has_shape (score_shape self B C) fp = true /\
    has_shape (score_shape self B C) fn = true /\
    Forall (fun v => 0 <= v) (data tp) /\
    Forall (fun v => 0 <= v) (data fp) /\
    Forall (fun v => 0 <= v) (data fn).
Proof.
  intros Hx Hg Hsg Hux Hbg. pose proof Hx as Hx'.
  apply tensor_of_inv in Hx'. destruct Hx' as [Hp Hs].
  rewrite (has_shape_size _ x Hp Hs).
  rewrite (get_tp_fp_fn_unfold B C sp x y g _ None (square self) Hx Hg Hsg eq_refl).
  set (n := length (B :: C :: sp)).
  assert (Hgen : forall f : R -> R -> R,
    (forall p q, 0 <= p <= 1 -> (q = 0 \/ q = 1) -> 0 <= f p q) ->
    exists r, sum_tensor (confusion_map f n x g None (square self))
                (loss_axes self (B :: C :: sp)) false = Ok r /\
              has_shape (score_shape self B C) r = true /\
              Forall (fun v => 0 <= v) (data r)).
  { intros f Hf.
    destruct (data_confusion_map f _ x g (square self) Hs Hsg) as [S1 D1].
    fold n in S1, D1.
    apply (sum_tensor_loss_axes (fun v => 0 <= v) (fun v => 0 <= v) self B C sp _
             Rsum_nonneg (Rle_refl 0)
             (fun a b Ha Hb => Rplus_le_le_0_compat a b Ha Hb)).
    - unfold tensor_of. rewrite Hp, S1. reflexivity.
    - rewrite D1. eapply Forall_map2; [|exact Hux|exact Hbg].
      intros p q Hp' Hq. specialize (Hf p q Hp' Hq).
      destruct (square self); simpl; [nra | exact Hf]. }
  destruct (Hgen (fun p q => p * q)) as (tp & E1 & S1 & D1).
  { intros p q Hp' [-> | ->]; lra. }
  destruct (Hgen (fun p q => p * (1 - q))) as (fp & E2 & S2 & D2).
  { intros p q Hp' [-> | ->]; lra. }
  destruct (Hgen (fun p q => (1 - p) * q)) as (fn & E3 & S3 & D3).
  { intros p q Hp' [-> | ->]; lra. }
  exists tp, fp, fn. rewrite E1. cbn [bind]. rewrite E2. cbn [bind]. rewrite E3.
  repeat split; assumption.
Qed.

Lemma ratio_bounds (N D : R -> R) (s : R) (dtp dfp dfn : list R) :
  length dfp = length dtp -> length dfn = length dtp ->
  Forall (fun v => 0 <= v) dtp ->
  Forall (fun v => 0 <= v) dfp -> Forall (fun v => 0 <= v) dfn ->
  (forall t, 0 <= t -> N t = D t + s /\ 0 < D t + s) ->
  Forall (fun v => 0 < v <= 1)
    (map2 Rdiv (map N dtp)
       (map (fun v => v + s) (map2 Rplus (map2 Rplus (map D dtp) dfp) dfn))).
Proof.
  intros L1 L2 Htp. revert dfp dfn L1 L2.
  induction Htp as [|t dtp Ht _ IH]; intros dfp dfn L1 L2 Hfp Hfn HND;
    [constructor|].
  destruct dfp as [|p dfp]; [discriminate|].
  destruct dfn as [|n dfn]; [discriminate|].
  inversion Hfp; inversion Hfn; subst. simpl. constructor.
  - destruct (HND t Ht) as [E Hpos]. rewrite E.
    assert (Hden : 0 < D t + p + n + s) by lra. split.
    + apply Rdiv_lt_0_compat; assumption.
    + apply (Rmult_le_reg_r (D t + p + n + s)); [exact Hden|].
      unfold Rdiv. rewrite Rmult_assoc, Rinv_l by lra. lra.
  - apply IH; simpl in *; try lia; assumption.
Qed.

Lemma bounded_scores (s' : list nat) (N D : R -> R) (s : R)
    (num a fp fn tp : tensor R) :
  positive s' = true ->
  has_shape s' tp = true -> has_shape s' fp = true -> has_shape s' fn = true ->
  has_shape s' num = true -> has_shape s' a = true ->
  data num = map N (data tp) -> data a = map D (data tp) ->
  Forall (fun v => 0 <= v) (data tp) ->
  Forall (fun v => 0 <= v) (data fp) -> Forall (fun v => 0 <= v) (data fn) ->
  (forall t, 0 <= t -> N t = D t + s /\ 0 < D t + s) ->
  exists dc,
    (den <- tadd a fp ;; den <- tadd den fn ;;
     tdiv num (tmap (fun v => v + s) den)) = Ok dc /\
    has_shape s' dc = true /\ Forall (fun v => 0 < v <= 1) (data dc).
Proof.
  intros Hp Stp Sfp Sfn Snum Sa Dnum Da Dtp Dfp Dfn HND.
  unfold tadd, tdiv.
  rewrite (tbin_same_shape Rplus s' _ _ Hp Sa Sfp). cbn [bind].
  pose proof (has_shape_zip_at Rplus s' _ _ Sa Sfp) as S1.
  rewrite (tbin_same_shape Rplus s' _ _ Hp S1 Sfn). cbn [bind].
  pose proof (has_shape_zip_at Rplus s' _ _ S1 Sfn) as S2.
  pose proof (has_shape_tmap (fun v => v + s) _ _ S2) as S3.
  rewrite (tbin_same_shape Rdiv s' _ _ Hp Snum S3).
  eexists. split; [reflexivity|]. split.
  - apply has_shape_zip_at; assumption.
  - rewrite (data_zip_at Rdiv s' _ _ Snum S3).
    rewrite Dnum, (data_tmap _ s' _ S2).
    rewrite (data_zip_at Rplus s' _ _ S1 Sfn), (data_zip_at Rplus s' _ _ Sa Sfp).
    rewrite Da.
    pose proof (numel_has_shape s' tp Stp) as Ntp.
    pose proof (numel_has_shape s' fp Sfp) as Nfp.
    pose proof (numel_has_shape s' fn Sfn) as Nfn.
    unfold numel in *. apply ratio_bounds; try assumption; congruence.
Qed.

Lemma Rsum_bounds (l : list R) :
  Forall (fun v => 0 < v <= 1) l -> l <> [] ->
  0 < Rsum l <= INR (length l).
Proof.
  induction 1 as [|v l Hv Hl IH]; intros Hne; [contradiction|].
  cbn [Rsum fold_right length]. fold (Rsum l). rewrite S_INR.
  destruct l as [|w l].
  - simpl. lra.
  - assert (H : 0 < Rsum (w :: l) <= INR (length (w :: l)))
      by (apply IH; discriminate). lra.
Qed.

Lemma mean_bounds (s : list nat) (d : tensor R) :
  has_shape s d = true -> (0 < prod s)%nat ->
  Forall (fun v => 0 < v <= 1) (data d) ->
  exists m, mean d = Scalar m /\ 0 < m <= 1.
Proof.
  intros Hs Hpos Hb. unfold mean, sum_all. eexists. split; [reflexivity|].
  pose proof (numel_has_shape s d Hs) as Hn. unfold numel in *.
  assert (Hne : data d <> []) by (intros E; rewrite E in Hn; simpl in Hn; lia).
  pose proof (Rsum_bounds _ Hb Hne) as [H1 H2].
  assert (Hlen : 0 < INR (length (data d))) by (apply lt_0_INR; lia).
  split.
  - apply Rdiv_lt_0_compat; assumption.
  - apply (Rmult_le_reg_r (INR (length (data d)))); [exact Hlen|].
    unfold Rdiv. rewrite Rmult_assoc, Rinv_l by lra. lra.
Qed.

Lemma mean_of_bounded_scores (self : region_loss) (B C : nat) (dc : tensor R) :
  (0 < B)%nat -> (0 < C)%nat -> (do_bg self = false -> (2 <= C)%nat) ->
  has_shape (score_shape self B C) dc = true ->
  Forall (fun v => 0 < v <= 1) (data dc) ->
  exists d m, drop_bg self dc = Ok d /\ mean d = Scalar m /\ 0 < m <= 1.
Proof.
  intros HB HC Hbg Hs H1. unfold score_shape in Hs.
  destruct (do_bg self) eqn:Ebg.
  - assert (Hm : exists m, mean dc = Scalar m /\ 0 < m <= 1)
      by (destruct (batch_dice self); eapply mean_bounds; eauto; simpl; nia).
    destruct Hm as (m & Hm & Hb). exists dc, m. unfold drop_bg. rewrite Ebg.
    repeat split; try assumption; apply Hb.
  - specialize (Hbg eq_refl). destruct (batch_dice self) eqn:Ebd.
    + destruct (drop_bg_classes self C dc Ebg Ebd Hs) as (d & Hd & Hsd & _ & HP).
      destruct (mean_bounds _ d Hsd) as (m & Hm & Hb);
        [simpl; lia | apply HP, H1|].
      exists d, m. repeat split; try assumption; apply Hb.
    + destruct (drop_bg_samples self B C dc Ebg Ebd Hs) as (d & Hd & Hsd & _ & HP).
      destruct (mean_bounds _ d Hsd) as (m & Hm & Hb);
        [simpl; nia | apply HP, H1|].
      exists d, m. repeat split; try assumption; apply Hb.
Qed.

Lemma forward_bounded_scores (self : region_loss) (post : R -> R)
    (scores : result (tensor R)) (B C : nat) (dc : tensor R) :
  (0 < B)%nat -> (0 < C)%nat -> (do_bg self = false -> (2 <= C)%nat) ->
  scores = Ok dc -> has_shape (score_shape self B C) dc = true ->
  Forall (fun v => 0 < v <= 1) (data dc) ->
  exists m, 0 < m <= 1 /\
    (dc <- scores ;; dc <- drop_bg self dc ;; Ok (tmap post (mean dc))) =
      Ok (Scalar (post m)).
Proof.
  intros HB HC Hbg Hsc Hs H1.
  destruct (mean_of_bounded_scores self B C dc HB HC Hbg Hs H1)
    as (d & m & Hd & Hm & Hb).
  exists m. split; [exact Hb|].
  exact (forward_after_scores self post scores dc d m Hsc Hd Hm).
Qed.

Lemma Forall_nonneg_scaled (c : R) (s : list nat) (t : tensor R) :
  0 <= c -> has_shape s t = true -> Forall (fun v => 0 <= v) (data t) ->
  Forall (fun v => 0 <= v) (data (tmap (fun v => c * v) t)).
Proof.
  intros Hc Hs H. rewrite (data_tmap _ s t Hs). apply Forall_map.
  eapply Forall_impl; [|exact H]. simpl. intros a Ha. nra.
Qed.

Lemma AsymLoss_weight_bounds :
  0 <= AsymLoss.beta ^ 2 / (1 + AsymLoss.beta ^ 2) <= 1.
Proof. unfold AsymLoss.beta. lra. Qed.

(** the bounds of the four overlap losses, for the output [x'] of the
    nonlinearity *)
Lemma overlap_bounds_after_nonlin (self : region_loss) (B C : nat)
    (sp : list nat) (x x' y g : tensor R) :
  tensor_of (B :: C :: sp) x = true ->
  nonlin (apply_nonlin self) x = Ok x' ->
  tensor_of (B :: C :: sp) x' = true ->
  to_onehot x' y = Ok g -> has_shape (B :: C :: sp) g = true ->
  unit_interval x' -> binary g ->
  0 < smooth self ->
  (do_bg self = false -> (2 <= C)%nat) ->
  (exists l, SoftDiceLoss.forward self x y None = Ok (Scalar l) /\ 0 <= l < 1) /\
  (exists l, IoULoss.forward self x y None = Ok (Scalar l) /\ -1 <= l < 0) /\
  (exists l, TverskyLoss.forward self x y None = Ok (Scalar l) /\ -1 <= l < 0) /\
  (exists l, AsymLoss.forward self x y None = Ok (Scalar l) /\ -1 <= l < 0).
Proof.
  intros Hx0 Hnl Hx Hg Hsg Hux Hbin Hs Hbg.
  destruct (nonneg_counts self B C sp x' y g Hx Hg Hsg Hux Hbin)
    as (tp & fp & fn & Hc & Stp & Sfp & Sfn & Dtp & Dfp & Dfn).
  apply tensor_of_inv in Hx. destruct Hx as [Hp Hx].
  apply tensor_of_inv in Hx0. destruct Hx0 as [_ Hx0].
  rewrite (has_shape_size _ x' Hp Hx) in Hc.
  rewrite <- (has_shape_size _ x Hp Hx0) in Hc.
  apply positive_cons in Hp. destruct Hp as [HB Hp].
  apply positive_cons in Hp. destruct Hp as [HC _].
  pose proof (positive_score_shape self B C HB HC) as Hps.
  set (s' := score_shape self B C) in *.
  assert (Ea : data tp = map (fun v => v) (data tp)) by (symmetry; apply map_id).
  pose proof AsymLoss_weight_bounds as Hw.
  repeat split.
  - destruct (bounded_scores s' (fun v => 2 * v + smooth self) (fun v => 2 * v)
                (smooth self) (tmap (fun v => 2 * v + smooth self) tp)
                (tmap (fun v => 2 * v) tp) fp fn tp Hps Stp Sfp Sfn
                (has_shape_tmap _ _ _ Stp) (has_shape_tmap _ _ _ Stp)
                (data_tmap _ _ _ Stp) (data_tmap _ _ _ Stp) Dtp Dfp Dfn)
      as (dc & Edc & Sdc & Ddc).
    { intros t Ht. split; lra. }
    destruct (forward_bounded_scores self (fun v => 1 - v)
                (SoftDiceLoss.scores self x y None) B C dc HB HC Hbg)
      as (m & Hm & E); [|exact Sdc|exact Ddc|].
    { unfold SoftDiceLoss.scores. rewrite Hnl. cbn [bind].
      rewrite Hc. cbn [bind]. exact Edc. }
    exists (1 - m). split; [exact E | lra].
  - destruct (bounded_scores s' (fun v => v + smooth self) (fun v => v)
                (smooth self) (tmap (fun v => v + smooth self) tp)
                tp fp fn tp Hps Stp Sfp Sfn
                (has_shape_tmap _ _ _ Stp) Stp
                (data_tmap _ _ _ Stp) Ea Dtp Dfp Dfn)
      as (dc & Edc & Sdc & Ddc).
    { intros t Ht. split; lra. }
    destruct (forward_bounded_scores self Ropp
                (IoULoss.scores self x y None) B C dc HB HC Hbg)
      as (m & Hm & E); [|exact Sdc|exact Ddc|].
    { unfold IoULoss.scores. rewrite Hnl. cbn [bind].
      rewrite Hc. cbn [bind]. exact Edc. }
    exists (- m). split; [exact E | lra].
  - destruct (bounded_scores s' (fun v => v + smooth self) (fun v => v)
                (smooth self) (tmap (fun v => v + smooth self) tp)
                tp (tmap (fun v => TverskyLoss.alpha * v) fp)
                (tmap (fun v => TverskyLoss.beta * v) fn) tp Hps Stp
                (has_shape_tmap _ _ _ Sfp) (has_shape_tmap _ _ _ Sfn)
                (has_shape_tmap _ _ _ Stp) Stp
                (data_tmap _ _ _ Stp) Ea Dtp)
      as (dc & Edc & Sdc & Ddc).
    { apply (Forall_nonneg_scaled _ s'); [unfold TverskyLoss.alpha; lra| |];
        assumption. }
    { apply (Forall_nonneg_scaled _ s'); [unfold TverskyLoss.beta; lra| |];
        assumption. }
    { intros t Ht. split; lra. }
    destruct (forward_bounded_scores self Ropp
                (TverskyLoss.scores self x y None) B C dc HB HC Hbg)
      as (m & Hm & E); [|exact Sdc|exact Ddc|].
    { unfold TverskyLoss.scores. rewrite Hnl. cbn [bind].
      rewrite Hc. cbn [bind]. exact Edc. }
    exists (- m). split; [exact E | lra].
  - set (w := AsymLoss.beta ^ 2 / (1 + AsymLoss.beta ^ 2)) in *.
    destruct (bounded_scores s' (fun v => v + smooth self) (fun v => v)
                (smooth self) (tmap (fun v => v + smooth self) tp)
                tp (tmap (fun v => w * v) fn)
                (tmap (fun v => (1 - w) * v) fp) tp Hps Stp
                (has_shape_tmap _ _ _ Sfn) (has_shape_tmap _ _ _ Sfp)
                (has_shape_tmap _ _ _ Stp) Stp
                (data_tmap _ _ _ Stp) Ea Dtp)
      as (dc & Edc & Sdc & Ddc).
    { apply (Forall_nonneg_scaled _ s'); [lra| |]; assumption. }
    { apply (Forall_nonneg_scaled _ s'); [lra| |]; assumption. }
    { intros t Ht. split; lra. }
    destruct (forward_bounded_scores self Ropp
                (AsymLoss.scores self x y None) B C dc HB HC Hbg)
      as (m & Hm & E); [|exact Sdc|exact Ddc|].
    { unfold AsymLoss.scores. rewrite Hnl. cbn [bind].
      rewrite Hc. cbn [bind]. fold w. exact Edc. }
    exists (- m). split; [exact E | lra].
Qed.

(** X5: for a prediction of probabilities (entries in [0,1], no
    nonlinearity) against a one-hot truth, without a mask and with a
    positive [smooth], the four overlap losses return a value in a fixed
    range: SoftDiceLoss in [0,1), IoULoss, TverskyLoss and AsymLoss in
    [-1,0). *)
Theorem overlap_losses_bounded (self : region_loss) (B C : nat)
    (sp : list nat) (x y g : tensor R) :
  tensor_of (B :: C :: sp) x = true ->
  to_onehot x y = Ok g -> has_shape (B :: C :: sp) g = true ->
  unit_interval x -> binary g ->
  apply_nonlin self = None -> 0 < smooth self ->
  (do_bg self = false -> (2 <= C)%nat) ->
  (exists l, SoftDiceLoss.forward self x y None = Ok (Scalar l) /\ 0 <= l < 1) /\
  (exists l, IoULoss.forward self x y None = Ok (Scalar l) /\ -1 <= l < 0) /\
  (exists l, TverskyLoss.forward self x y None = Ok (Scalar l) /\ -1 <= l < 0) /\
  (exists l, AsymLoss.forward self x y None = Ok (Scalar l) /\ -1 <= l < 0).
Proof.
  intros Hx Hg Hsg Hux Hbin Hnl Hs Hbg.
  apply (overlap_bounds_after_nonlin self B C sp x x y g); try assumption.
  rewrite Hnl. reflexivity.
Qed.

Lemma overlap_losses_bounded_witness :
  (exists l, SoftDiceLoss.forward dice_loss pred1 truth1 None = Ok (Scalar l) /\
             0 <= l < 1) /\
  (exists l, IoULoss.forward dice_loss pred1 truth1 None = Ok (Scalar l) /\
             -1 <= l < 0) /\
  (exists l, TverskyLoss.forward dice_loss pred1 truth1 None = Ok (Scalar l) /\
             -1 <= l < 0) /\
  (exists l, AsymLoss.forward dice_loss pred1 truth1 None = Ok (Scalar l) /\
             -1 <= l < 0).
Proof.
  apply (overlap_losses_bounded dice_loss 1 2 [2%nat] pred1 truth1 truth1).
  - reflexivity.
  - reflexivity.
  - reflexivity.
  - unfold unit_interval. simpl.
    repeat (apply Forall_cons; [lra|]). apply Forall_nil.
  - unfold binary. simpl.
    repeat (apply Forall_cons; [first [left; reflexivity | right; reflexivity]|]).
    apply Forall_nil.
  - reflexivity.
  - simpl. lra.
  - discriminate.
Defined.

(** ** [kld_loss]: the estimated deviations and the value of the divergence *)

Lemma exp_ge_1_plus (x : R) : 1 + x <= exp x.
Proof.
  destruct (Req_dec x 0) as [->|Hx].
  - rewrite exp_0. lra.
  - left. apply exp_ineq1. exact Hx.
Qed.

Lemma kl_gauss_nonneg (m v mu2 std2 : R) :
  0 < std2 -> 0 <= kl_gauss m (exp v) mu2 std2.
Proof.
  intros Hs. unfold kl_gauss. rewrite ln_sqrt_exp.
  set (w := v - 2 * ln std2).
  assert (Hw : exp v = exp w * std2 ^ 2).
  { replace v with (w + 2 * ln std2) at 1 by (unfold w; lra).
    rewrite exp_plus. apply (f_equal (Rmult (exp w))).
    replace (2 * ln std2) with (ln std2 + ln std2) by lra.
    rewrite exp_plus, exp_ln by exact Hs. simpl. lra. }
  assert (Hge : 1 + (v - 2 * ln std2) <= exp w) by apply exp_ge_1_plus.
  assert (Hs2 : 0 < std2 ^ 2) by (simpl; nra).
  assert (Hd : 0 <= (m - mu2) ^ 2 / std2 ^ 2).
  { apply Rmult_le_pos; [apply pow2_ge_0|]. left. apply Rinv_0_lt_compat. exact Hs2. }
  replace (0.5 * (exp v + (m - mu2) ^ 2) / std2 ^ 2)
    with (0.5 * exp w + 0.5 * ((m - mu2) ^ 2 / std2 ^ 2)).
  - lra.
  - rewrite Hw. field. lra.
Qed.

Lemma Rsum_map_nonneg {A} (f : A -> R) (l : list A) :
  (forall a, In a l -> 0 <= f a) -> 0 <= Rsum (map f l).
Proof.
  intros H. apply Rsum_nonneg. apply Forall_map. apply Forall_forall. exact H.
Qed.

(** X6: with all four flags at 0 (hypotheses of the closed form) the
    divergence returned by [kld_loss] is not negative. *)
Theorem kld_loss_direct_nonneg (randn_like : tensor R -> tensor R)
    (raw_output mu1 logvar1 : tensor R) (mu2 std2 : R) (B D : nat) :
  tensor_of [B; D] mu1 = true -> tensor_of [B; D] logvar1 = true ->
  0 < std2 ->
  has_shape [B; D] (randn_like (tmap (fun v => exp (0.5 * v)) logvar1)) = true ->
  exists (l : R) (threshold : tensor R),
    kld_loss randn_like raw_output mu1 logvar1 mu2 std2 0 0 0 0 =
      Ok (Scalar l, threshold) /\ 0 <= l.
Proof.
  intros Hm Hl Hstd Hn. unfold kld_loss.
  cbn [posterior_mean posterior_std prior_mean prior_std Z.eqb bind].
  rewrite (kl_divergence_direct B D mu1 logvar1 mu2 std2 Hm Hl Hstd). cbn [bind].
  apply tensor_of_inv in Hm, Hl. destruct Hm as [Hp Hm], Hl as [_ Hl].
  pose proof Hp as Hp'. apply positive_cons in Hp'. destruct Hp' as [HB _].
  unfold sample_threshold, tmul.
  pose proof (has_shape_tmap (fun v => exp (0.5 * v)) _ _ Hl) as S1.
  rewrite (tbin_same_shape Rmult [B; D] _ _ Hp Hn S1). cbn [bind].
  unfold py_bin. cbn [as_tensor].
  rewrite (tbin_same_shape Rplus [B; D] _ _ Hp
             (has_shape_zip_at Rmult [B; D] _ _ Hn S1)
             (has_shape_tmap relu _ _ Hm)).
  cbn [bind as_tensor]. eexists. eexists. split; [reflexivity|].
  unfold kld_reference. apply Rmult_le_pos.
  - apply Rsum_map_nonneg. intros b _. apply Rsum_map_nonneg. intros d _.
    apply kl_gauss_nonneg. exact Hstd.
  - left. apply Rinv_0_lt_compat. apply lt_0_INR. exact HB.
Qed.

Lemma kld_loss_direct_nonneg_witness :
  exists (l : R) (threshold : tensor R),
    kld_loss (fun t => t) (Dim [Scalar 0])
        (Dim [Dim [Scalar 1; Scalar 0.5]]) (Dim [Dim [Scalar 0; Scalar 0]])
        0.5 0.125 0 0 0 0 = Ok (Scalar l, threshold) /\ 0 <= l.
Proof.
  apply (kld_loss_direct_nonneg (fun t => t) (Dim [Scalar 0])
           (Dim [Dim [Scalar 1; Scalar 0.5]]) (Dim [Dim [Scalar 0; Scalar 0]])
           0.5 0.125 1 2).
  - reflexivity.
  - reflexivity.
  - lra.
  - reflexivity.
Defined.

Lemma two_sigma_bound_float (m : R) :
  two_sigma_bound (PyFloat 2) (PyFloat m) = Ok (PyFloat (two_sigma m)).
Proof.
  unfold two_sigma_bound, py_min, py_lt, py_div, py_bin, two_sigma.
  cbn [bind]. destruct (Req_EM_T 2 0) as [H|_]; [lra|]. cbn [bind].
  destruct (Rlt_dec ((1 - m) / 2) ((m - 0) / 2)); reflexivity.
Qed.

Lemma two_sigma_bound_scalar (m : R) :
  two_sigma_bound (PyFloat 2) (PyTensor (Scalar m)) =
    Ok (PyTensor (Scalar (two_sigma m))).
Proof.
  unfold two_sigma_bound, py_min, py_lt, py_div, py_bin, two_sigma.
  cbn. destruct (Rlt_dec ((1 - m) / 2) ((m - 0) / 2)); reflexivity.
Qed.

Lemma two_sigma_min (m : R) : two_sigma m = Rmin m (1 - m) / 2.
Proof.
  unfold two_sigma, Rmin.
  destruct (Rlt_dec ((1 - m) / 2) ((m - 0) / 2)), (Rle_dec m (1 - m)); lra.
Qed.

Lemma two_sigma_pos (m : R) : 0 < two_sigma m <-> 0 < m < 1.
Proof.
  rewrite two_sigma_min. unfold Rmin. destruct (Rle_dec m (1 - m)); lra.
Qed.

(** X7: the deviation estimated from a mean [m] (a Python float or a 0-d
    tensor) with [gamma = 2] is [min(m, 1 - m) / 2]; it keeps [m - 2 sigma]
    and [m + 2 sigma] within [0, 1], and it is positive exactly when
    [0 < m < 1]. *)
Theorem two_sigma_bound_constraint (m : R) :
  two_sigma_bound (PyFloat 2) (PyFloat m) = Ok (PyFloat (Rmin m (1 - m) / 2)) /\
  two_sigma_bound (PyFloat 2) (PyTensor (Scalar m)) =
    Ok (PyTensor (Scalar (Rmin m (1 - m) / 2))) /\
  0 <= m - 2 * (Rmin m (1 - m) / 2) /\
  m + 2 * (Rmin m (1 - m) / 2) <= 1 /\
  (0 < Rmin m (1 - m) / 2 <-> 0 < m < 1).
Proof.
  rewrite <- two_sigma_min.
  split; [apply two_sigma_bound_float|].
  split; [apply two_sigma_bound_scalar|].
  pose proof (two_sigma_pos m) as Hp. rewrite two_sigma_min in *.
  unfold Rmin in *. destruct (Rle_dec m (1 - m)); repeat split; try lra; apply Hp.
Qed.

Lemma kl_divergence_floats (a b c d e : R) :
  kl_divergence (PyFloat a) (PyFloat b) (PyFloat c) (PyFloat d) (PyFloat e) =
    if Rlt_dec 0 e
    then if Req_EM_T (e ^ 2) 0 then Raise ZeroDivisionError else Raise TypeError
    else Raise ValueError.
Proof.
  unfold kl_divergence, math_log. cbn [py_float bind py_square].
  destruct (Rlt_dec 0 e); [|reflexivity].
  cbn [bind py_bin py_div py_square].
  destruct (Req_EM_T (e ^ 2) 0); reflexivity.
Qed.

Lemma kl_divergence_floats_raises (a b c d e : R) :
  raises (kl_divergence (PyFloat a) (PyFloat b) (PyFloat c) (PyFloat d) (PyFloat e)).
Proof.
  rewrite kl_divergence_floats.
  destruct (Rlt_dec 0 e); [destruct (Req_EM_T (e ^ 2) 0)|]; apply raises_Raise.
Qed.

Lemma posterior_std_float (lv : tensor R) (m s : R) (f : Z) :
  f = 1%Z \/ f = 2%Z ->
  posterior_std (PyFloat 2) lv (PyFloat m) (PyFloat s) f =
    let v := if (f =? 1)%Z then two_sigma m ^ 2 else s ^ 2 in
    if Rlt_dec 0 v then Ok (PyFloat (0.5 * ln v), PyFloat v) else Raise ValueError.
Proof.
  intros [-> | ->]; unfold posterior_std; cbn [Z.eqb Pos.eqb].
  - rewrite two_sigma_bound_float. cbn [bind py_square]. unfold math_log.
    cbn [py_float bind]. destruct (Rlt_dec 0 (two_sigma m ^ 2)); reflexivity.
  - cbn [py_square]. unfold math_log. cbn [py_float bind].
    destruct (Rlt_dec 0 (s ^ 2)); reflexivity.
Qed.

Lemma prior_std_float (m s : R) (f : Z) :
  prior_std (PyFloat 2) (PyFloat m) (PyFloat s) f =
    if (f =? 0)%Z then Ok (PyFloat s)
    else if (f =? 1)%Z then Ok (PyFloat (two_sigma m))
    else Raise NotImplementedError.
Proof.
  unfold prior_std. destruct (f =? 0)%Z; [reflexivity|].
  destruct (f =? 1)%Z; [apply two_sigma_bound_float | reflexivity].
Qed.

(** X8: with [flag_mu1 = 2], [flag_std1] 1 or 2 and [flag_mu2 = 0] every
    quantity of the divergence is a Python float, which [torch.sum] does
    not accept: [kld_loss] returns for no input, and it raises a TypeError
    whenever the logarithms are defined ([0 < mu2 < 1], [0 < std2], valid
    [flag_std2]). *)
Theorem kld_loss_float_only_raises (randn_like : tensor R -> tensor R)
    (raw_output mu1 logvar1 : tensor R) (mu2 std2 : R) (flag_std1 flag_std2 : Z) :
  flag_std1 = 1%Z \/ flag_std1 = 2%Z ->
  raises (kld_loss randn_like raw_output mu1 logvar1 mu2 std2
            2 flag_std1 0 flag_std2) /\
  (0 < mu2 < 1 -> 0 < std2 -> flag_std2 = 0%Z \/ flag_std2 = 1%Z ->
   kld_loss randn_like raw_output mu1 logvar1 mu2 std2 2 flag_std1 0 flag_std2 =
     Raise TypeError).
Proof.
  intros Hf. unfold kld_loss. cbn [posterior_mean Z.eqb Pos.eqb bind].
  rewrite (posterior_std_float logvar1 mu2 std2 flag_std1 Hf).
  cbn zeta. cbn [prior_mean Z.eqb bind]. rewrite prior_std_float. split.
  - destruct (Rlt_dec 0 _); [|apply raises_Raise]. cbn [bind].
    destruct (flag_std2 =? 0)%Z; [|destruct (flag_std2 =? 1)%Z];
      cbn [bind]; try apply raises_Raise;
      apply raises_bind_l, kl_divergence_floats_raises.
  - intros Hm Hs Hf2.
    assert (Hsig : 0 < two_sigma mu2) by (apply two_sigma_pos; exact Hm).
    assert (Hv : 0 < (if (flag_std1 =? 1)%Z then two_sigma mu2 ^ 2 else std2 ^ 2)).
    { destruct (flag_std1 =? 1)%Z; simpl; nra. }
    destruct (Rlt_dec 0 _) as [_|Hn]; [|contradiction]. cbn [bind].
    assert (He : exists e, 0 < e /\
              (if (flag_std2 =? 0)%Z then Ok (PyFloat std2)
               else if (flag_std2 =? 1)%Z then Ok (PyFloat (two_sigma mu2))
               else Raise NotImplementedError) = Ok (PyFloat e)).
    { destruct Hf2 as [-> | ->]; cbn [Z.eqb Pos.eqb]; eauto. }
    destruct He as (e & He & ->). cbn [bind].
    rewrite kl_divergence_floats.
    destruct (Rlt_dec 0 e) as [_|Hn]; [|contradiction].
    destruct (Req_EM_T (e ^ 2) 0) as [H0|_]; [simpl in H0; nra|]. reflexivity.
Qed.

Lemma kld_loss_float_only_raises_witness :
  raises (kld_loss (fun t => t) (Dim [Scalar 0]) (Dim [Scalar 0]) (Dim [Scalar 0])
            0.5 0.125 2 2 0 1) /\
  kld_loss (fun t => t) (Dim [Scalar 0]) (Dim [Scalar 0]) (Dim [Scalar 0])
    0.5 0.125 2 2 0 1 = Raise TypeError.
Proof.
  destruct (kld_loss_float_only_raises (fun t => t) (Dim [Scalar 0])
              (Dim [Scalar 0]) (Dim [Scalar 0]) 0.5 0.125 2 1) as [H1 H2].
  - right. reflexivity.
  - split; [exact H1|]. apply H2; [lra | lra | right; reflexivity].
Defined.

Lemma sigmoid_bounds (x : R) : 0 < sigmoid x < 1.
Proof.
  unfold sigmoid. pose proof (exp_pos (- x)) as He.
  assert (Hd : 0 < 1 + exp (- x)) by lra. split.
  - apply Rdiv_lt_0_compat; lra.
  - apply (Rmult_lt_reg_r (1 + exp (- x))); [exact Hd|].
    unfold Rdiv. rewrite Rmult_assoc, Rinv_l by lra. lra.
Qed.

Lemma Rsum_strict_bounds (l : list R) :
  Forall (fun v => 0 < v < 1) l -> l <> [] ->
  0 < Rsum l < INR (length l).
Proof.
  induction 1 as [|v l Hv Hl IH]; intros Hne; [contradiction|].
  cbn [Rsum fold_right length]. fold (Rsum l). rewrite S_INR.
  destruct l as [|w l].
  - simpl. lra.
  - assert (H : 0 < Rsum (w :: l) < INR (length (w :: l)))
      by (apply IH; discriminate). lra.
Qed.

Lemma positive_prod (s : list nat) : positive s = true -> (0 < prod s)%nat.
Proof.
  induction s as [|n s IH]; intros H; [simpl; lia|].
  apply positive_cons in H. destruct H as [Hn Hs]. specialize (IH Hs).
  cbn [prod fold_right]. fold (prod s). nia.
Qed.

(** the mean confidence of a prediction lies strictly between 0 and 1 *)
Lemma mean_sigmoid_bounds (s : list nat) (raw : tensor R) :
  tensor_of s raw = true ->
  exists m, mean (tmap sigmoid raw) = Scalar m /\ 0 < m < 1.
Proof.
  intros H. apply tensor_of_inv in H. destruct H as [Hp Hs].
  pose proof (has_shape_tmap sigmoid s raw Hs) as Hs'.
  unfold mean, sum_all. eexists. split; [reflexivity|].
  pose proof (numel_has_shape s _ Hs') as Hn. pose proof (positive_prod s Hp) as Hpr.
  unfold numel in *.
  assert (Hb : Forall (fun v => 0 < v < 1) (data (tmap sigmoid raw))).
  { rewrite (data_tmap sigmoid s raw Hs). apply Forall_map, Forall_forall.
    intros x _. apply sigmoid_bounds. }
  assert (Hne : data (tmap sigmoid raw) <> [])
    by (intros E; rewrite E in Hn; simpl in Hn; lia).
  pose proof (Rsum_strict_bounds _ Hb Hne) as [H1 H2].
  assert (Hlen : 0 < INR (length (data (tmap sigmoid raw))))
    by (apply lt_0_INR; lia).
  split.
  - apply Rdiv_lt_0_compat; assumption.
  - apply (Rmult_lt_reg_r (INR (length (data (tmap sigmoid raw))))); [exact Hlen|].
    unfold Rdiv. rewrite Rmult_assoc, Rinv_l by lra. lra.
Qed.

Lemma kl_divergence_same (m sg : R) :
  0 < sg ->
  kl_divergence (PyFloat (0.5 * ln (sg ^ 2))) (PyTensor (Scalar (sg ^ 2)))
      (PyTensor (Scalar m)) (PyTensor (Scalar m)) (PyTensor (Scalar sg)) =
    Ok (Scalar 0).
Proof.
  intros Hs. unfold kl_divergence, math_log. cbn [py_float data bind].
  destruct (Rlt_dec 0 sg) as [_|Hn]; [|contradiction]. cbn.
  do 2 f_equal.
  replace (sg * (sg * 1)) with (sg * sg) by lra.
  replace ((m - m) * ((m - m) * 1)) with 0 by lra.
  rewrite Rplus_0_r, ln_mult by assumption.
  unfold Rdiv. rewrite Rmult_assoc, Rinv_r by nra. lra.
Qed.

(** X9: with all four flags at 1 the posterior and the prior are both
    estimated from the raw output (mean sigmoid, and the deviation bounded
    by it), so they coincide and the divergence returned by [kld_loss] is 0,
    whatever [mu1], [mu2] and [std2] are. *)
Theorem kld_loss_estimated_is_zero (randn_like : tensor R -> tensor R)
    (raw_output mu1 logvar1 : tensor R) (mu2 std2 : R) (s s' : list nat) :
  tensor_of s raw_output = true -> tensor_of s' logvar1 = true ->
  has_shape s' (randn_like (tmap (fun v => exp (0.5 * v)) logvar1)) = true ->
  exists threshold : tensor R,
    kld_loss randn_like raw_output mu1 logvar1 mu2 std2 1 1 1 1 =
      Ok (Scalar 0, threshold).
Proof.
  intros Hr Hl Hn. unfold kld_loss.
  cbn [posterior_mean prior_mean prior_std posterior_std Z.eqb Pos.eqb bind].
  destruct (mean_sigmoid_bounds s raw_output Hr) as (m & -> & Hm).
  rewrite two_sigma_bound_scalar. cbn [bind py_square tmap].
  assert (Hsig : 0 < two_sigma m) by (apply two_sigma_pos; exact Hm).
  unfold math_log at 1. cbn [py_float data bind].
  destruct (Rlt_dec 0 (two_sigma m ^ 2)) as [_|Hn']; [|exfalso; apply Hn'; simpl; nra].
  cbn [bind]. rewrite (kl_divergence_same m (two_sigma m) Hsig). cbn [bind].
  apply tensor_of_inv in Hl. destruct Hl as [Hp Hl].
  unfold sample_threshold, tmul.
  pose proof (has_shape_tmap (fun v => exp (0.5 * v)) _ _ Hl) as S1.
  rewrite (tbin_same_shape Rmult s' _ _ Hp Hn S1). cbn [bind].
  unfold py_bin. cbn [as_tensor].
  rewrite (tbin_scalar_r Rplus s' _ _ Hp (has_shape_zip_at Rmult s' _ _ Hn S1)).
  cbn [bind as_tensor]. eexists. reflexivity.
Qed.

Lemma kld_loss_estimated_is_zero_witness :
  exists threshold : tensor R,
    kld_loss (fun t => t) (Dim [Scalar 0; Scalar 1]) (Dim [Scalar 0])
        (Dim [Dim [Scalar 0; Scalar 0]]) 0.5 0.125 1 1 1 1 =
      Ok (Scalar 0, threshold).
Proof.
  apply (kld_loss_estimated_is_zero (fun t => t) (Dim [Scalar 0; Scalar 1])
           (Dim [Scalar 0]) (Dim [Dim [Scalar 0; Scalar 0]]) 0.5 0.125
           [2%nat] [1%nat; 2%nat]).
  - reflexivity.
  - reflexivity.
  - reflexivity.
Defined.

(** ** The customised [nll_loss] and torch's cross entropy *)

Lemma rows_of_of_rows {A} (rows : list (list A)) :
  rows_of (of_rows rows) = Ok rows.
Proof.
  unfold rows_of, of_rows. cbn [undim bind].
  induction rows as [|row rows IH]; [reflexivity|].
  cbn [map mapM]. rewrite entries_map_Scalar. cbn [bind].
  rewrite IH. reflexivity.
Qed.

Lemma py_index_in_range (row : list R) (t : Z) :
  index_in_range row t -> py_index row t = Ok (picked row t).
Proof.
  unfold index_in_range, py_index, picked. intros [H1 H2].
  set (n := Z.of_nat (length row)) in *.
  assert (Hj : (if (t <? 0)%Z then (t + n)%Z else t) = (t mod n)%Z).
  { destruct (Z.ltb_spec t 0).
    - symmetry. rewrite <- (Z.mod_add t 1 n) by lia.
      rewrite Z.mul_1_l. apply Z.mod_small. lia.
    - symmetry. apply Z.mod_small. lia. }
  cbv zeta. rewrite Hj.
  assert (Hm : (0 <= t mod n < n)%Z) by (apply Z.mod_pos_bound; lia).
  destruct (Z.ltb_spec (t mod n) 0); [lia|].
  destruct (Z.leb_spec n (t mod n)); [lia|]. cbn [orb].
  destruct (nth_error row (Z.to_nat (t mod n))) as [x|] eqn:E.
  - f_equal. symmetry. apply nth_error_nth. exact E.
  - apply nth_error_None in E. unfold n in Hm. lia.
Qed.

Lemma index_rows_picks (pre rows : list (list R)) (ts : list Z) :
  Forall2 index_in_range rows ts ->
  mapM (fun '(i, t) =>
          match nth_error (pre ++ rows) i with
          | Some row => py_index row t
          | None => Raise IndexError
          end)
       (combine (seq (length pre) (length ts)) ts) =
    Ok (map2 picked rows ts).
Proof.
  intros H. revert pre.
  induction H as [|row t rows ts Hrt _ IH]; intros pre; [reflexivity|].
  cbn [length seq combine mapM map2].
  rewrite nth_error_app2 by lia. rewrite Nat.sub_diag. cbn [nth_error].
  rewrite (py_index_in_range row t Hrt). cbn [bind].
  specialize (IH (pre ++ [row])).
  rewrite <- app_assoc in IH. cbn [app] in IH.
  rewrite length_app in IH. cbn [length] in IH.
  rewrite Nat.add_1_r in IH. rewrite IH. reflexivity.
Qed.

Lemma tmap_map_Scalar {A B} (f : A -> B) (l : list A) :
  tmap f (Dim (map Scalar l)) = Dim (map Scalar (map f l)).
Proof. cbn [tmap]. rewrite !map_map. reflexivity. Qed.

Lemma map_map2_r {A B C D} (g : C -> D) (f : A -> B -> C) la lb :
  map g (map2 f la lb) = map2 (fun a b => g (f a b)) la lb.
Proof.
  revert lb. induction la as [|a la IH]; intros [|b lb]; simpl;
    [reflexivity..|]. rewrite IH. reflexivity.
Qed.

(** the value of [nll_loss] on rows and indices that fit them *)
Lemma nll_loss_picks (rows : list (list R)) (ts : list Z) :
  Forall2 index_in_range rows ts ->
  nll_loss (of_rows rows) (Dim (map Scalar ts)) =
    Ok (Scalar (Rsum (map2 (fun row t => - picked row t) rows ts) /
                INR (length rows))).
Proof.
  intros H. unfold nll_loss, index_rows.
  rewrite entries_map_Scalar. cbn [bind]. rewrite rows_of_of_rows. cbn [bind].
  unfold range. rewrite Nat.sub_0_r.
  pose proof (index_rows_picks [] rows ts H) as E. cbn [app length] in E.
  rewrite E. cbn [bind].
  rewrite tmap_map_Scalar, mean_map_Scalar, length_map, map_map2_r.
  rewrite (length_map2 picked rows ts (Forall2_length H)). reflexivity.
Qed.

Lemma log_softmax_1_of_rows (rows : list (list R)) :
  log_softmax_1 (of_rows rows) = Ok (of_rows (map log_softmax_row rows)).
Proof. unfold log_softmax_1. rewrite rows_of_of_rows. reflexivity. Qed.

Lemma length_log_softmax_row (row : list R) :
  length (log_softmax_row row) = length row.
Proof. unfold log_softmax_row. apply length_map. Qed.

Lemma picked_valid (row : list R) (t : Z) :
  valid_target row t -> picked row t = nth (Z.to_nat t) row 0.
Proof.
  intros [H0 H1]. unfold picked. rewrite Z.mod_small by lia. reflexivity.
Qed.

Lemma Forall2_impl {A B} (P Q : A -> B -> Prop) la lb :
  (forall a b, P a b -> Q a b) -> Forall2 P la lb -> Forall2 Q la lb.
Proof. intros H. induction 1; constructor; auto. Qed.

Lemma Forall2_map_l {A A' B} (P : A' -> B -> Prop) (g : A -> A') la lb :
  Forall2 (fun a b => P (g a) b) la lb -> Forall2 P (map g la) lb.
Proof. induction 1; simpl; constructor; auto. Qed.

(** X10: on logits given row by row and labels inside [0, C), the
    customised [nll_loss] applied to the log-softmax is torch's default
    cross entropy, and both are the plain mean of the voxels' negative
    log-likelihoods. *)
Theorem nll_loss_of_log_softmax_is_cross_entropy (rows : list (list R))
    (ts : list Z) :
  rows <> [] -> Forall2 valid_target rows ts ->
  (logs <- log_softmax_1 (of_rows rows) ;; nll_loss logs (Dim (map Scalar ts))) =
    cross_entropy default_ce (of_rows rows) (Dim (map Scalar ts)) /\
  cross_entropy default_ce (of_rows rows) (Dim (map Scalar ts)) =
    Ok (Scalar (plain_cross_entropy rows ts)).
Proof.
  intros _ Hv.
  rewrite (cross_entropy_default_plain _ _ rows ts (rows_of_of_rows rows)
             (entries_map_Scalar ts) Hv).
  split; [|reflexivity].
  rewrite log_softmax_1_of_rows. cbn [bind].
  rewrite nll_loss_picks.
  - unfold plain_cross_entropy. rewrite length_map, map2_map_l.
    do 2 f_equal. apply (f_equal (fun z => z / INR (length rows))).
    f_equal. apply map2_ext_in.
    eapply Forall2_impl; [|exact Hv]. intros row t Hrt. cbv beta.
    unfold voxel_nll. rewrite picked_valid; [reflexivity|].
    unfold valid_target in *. rewrite length_log_softmax_row. exact Hrt.
  - apply Forall2_map_l. eapply Forall2_impl; [|exact Hv].
    intros row t [H0 H1]. unfold index_in_range.
    rewrite length_log_softmax_row. lia.
Qed.

Lemma nll_loss_of_log_softmax_is_cross_entropy_witness :
  (logs <- log_softmax_1 (of_rows [[0; 0]; [1; 0]]) ;;
   nll_loss logs (Dim (map Scalar [1%Z; 0%Z]))) =
    cross_entropy default_ce (of_rows [[0; 0]; [1; 0]]) (Dim (map Scalar [1%Z; 0%Z])) /\
  cross_entropy default_ce (of_rows [[0; 0]; [1; 0]]) (Dim (map Scalar [1%Z; 0%Z])) =
    Ok (Scalar (plain_cross_entropy [[0; 0]; [1; 0]] [1%Z; 0%Z])).
Proof.
  apply (nll_loss_of_log_softmax_is_cross_entropy [[0; 0]; [1; 0]] [1%Z; 0%Z]).
  - discriminate.
  - repeat (apply Forall2_cons; [split; simpl; lia|]). apply Forall2_nil.
Defined.

Lemma mapM_raises_at {A B} (f : A -> result B) (e : exn) (l : list A) :
  (forall a e', In a l -> f a = Raise e' -> e' = e) ->
  Exists (fun a => f a = Raise e) l -> mapM f l = Raise e.
Proof.
  intros Hall Hex. induction l as [|a l IH]; [inversion Hex|].
  cbn [mapM]. destruct (f a) as [b|e'] eqn:E.
  - cbn [bind]. rewrite IH.
    + reflexivity.
    + intros a' e'' Hin. apply (Hall a' e''). right. exact Hin.
    + inversion Hex as [x l' Hx|x l' Hx]; subst; [congruence | exact Hx].
  - cbn [bind]. f_equal. apply (Hall a e' (or_introl eq_refl) E).
Qed.

Lemma ce_voxel_raises_IndexError (self : CrossEntropyLoss) (row : list R)
    (t : Z) (e : exn) :
  ce_voxel self row t = Raise e -> e = IndexError.
Proof.
  unfold ce_voxel. destruct (t =? ignore_index self)%Z; [discriminate|].
  destruct ((t <? 0) || (Z.of_nat (length row) <=? t))%Z; [|discriminate].
  intros H. injection H as <-. reflexivity.
Qed.

(** X11: the customised [nll_loss] indexes as Python does: an index in
    [-C, C) selects an entry, the negative ones counting from the end, and
    the loss is the mean of the negated selections; torch's cross entropy
    on the same rows raises an IndexError as soon as one label is negative
    (and is not the index to ignore). *)
Theorem nll_loss_wraps_negative_labels (rows : list (list R)) (ts : list Z) :
  rows <> [] -> Forall2 index_in_range rows ts ->
  nll_loss (of_rows rows) (Dim (map Scalar ts)) =
    Ok (Scalar (Rsum (map2 (fun row t => - picked row t) rows ts) /
                INR (length rows))) /\
  (Exists (fun t => (t < 0)%Z /\ t <> ignore_index default_ce) ts ->
   cross_entropy default_ce (of_rows rows) (Dim (map Scalar ts)) =
     Raise IndexError).
Proof.
  intros _ H. split; [apply nll_loss_picks; exact H|].
  intros Hex. unfold cross_entropy.
  rewrite rows_of_of_rows, entries_map_Scalar. cbn [bind].
  rewrite (proj2 (Nat.eqb_eq _ _) (Forall2_length H)).
  cbn [negb default_ce weight reduction].
  rewrite (mapM_raises_at _ IndexError); [reflexivity| |].
  - intros [row t] e' _ E. exact (ce_voxel_raises_IndexError _ row t e' E).
  - clear -H Hex. induction H as [|row t rows ts Hrt _ IH]; [inversion Hex|].
    cbn [combine].
    inversion Hex as [x l' [Hneg Hig]|x l' Hx]; subst.
    + apply Exists_cons_hd. unfold ce_voxel.
      destruct (Z.eqb_spec t (ignore_index default_ce)); [contradiction|].
      destruct (Z.ltb_spec t 0); [reflexivity | lia].
    + apply Exists_cons_tl. apply IH. exact Hx.
Qed.

Lemma nll_loss_wraps_negative_labels_witness :
  nll_loss (of_rows [[1; 2]; [3; 4]]) (Dim (map Scalar [(-1)%Z; 0%Z])) =
    Ok (Scalar (Rsum (map2 (fun row t => - picked row t) [[1; 2]; [3; 4]]
                        [(-1)%Z; 0%Z]) / INR (length [[1; 2]; [3; 4]]))) /\
  cross_entropy default_ce (of_rows [[1; 2]; [3; 4]])
      (Dim (map Scalar [(-1)%Z; 0%Z])) = Raise IndexError.
Proof.
  destruct (nll_loss_wraps_negative_labels [[1; 2]; [3; 4]] [(-1)%Z; 0%Z])
    as [H1 H2].
  - discriminate.
  - repeat (apply Forall2_cons; [split; simpl; lia|]). apply Forall2_nil.
  - split; [exact H1|]. apply H2. apply Exists_cons_hd.
    split; [lia | discriminate].
Defined.

(** ** Sign and weights of the cross entropy *)

Lemma exp_le_Rsum_exp (x : R) (row : list R) :
  In x row -> exp x <= Rsum (map exp row).
Proof.
  induction row as [|y row IH]; intros Hin; [contradiction|].
  cbn [map Rsum fold_right]. fold (Rsum (map exp row)).
  assert (Hpos : 0 <= Rsum (map exp row)).
  { apply Rsum_nonneg. apply Forall_map, Forall_forall. intros z _.
    left. apply exp_pos. }
  destruct Hin as [-> | Hin].
  - lra.
  - specialize (IH Hin). pose proof (exp_pos y). lra.
Qed.

Lemma voxel_nll_nonneg (row : list R) (t : Z) :
  valid_target row t -> 0 <= voxel_nll row t.
Proof.
  intros [H0 H1]. unfold voxel_nll, log_softmax_row.
  set (f := fun v : R => v - ln (Rsum (map exp row))).
  assert (Hlt : (Z.to_nat t < length row)%nat) by lia.
  rewrite (nth_indep _ 0 (f 0)) by (rewrite length_map; exact Hlt).
  rewrite map_nth. unfold f.
  set (x := nth (Z.to_nat t) row 0).
  assert (Hin : In x row) by (apply nth_In; exact Hlt).
  pose proof (exp_le_Rsum_exp x row Hin) as Hle.
  pose proof (exp_pos x) as Hx.
  assert (Hln : x <= ln (Rsum (map exp row))).
  { rewrite <- (ln_exp x) at 1. destruct Hle as [Hl | He].
    - left. apply ln_increasing; assumption.
    - rewrite He. lra. }
  lra.
Qed.

Lemma plain_cross_entropy_nonneg (rows : list (list R)) (ts : list Z) :
  rows <> [] -> Forall2 valid_target rows ts ->
  0 <= plain_cross_entropy rows ts.
Proof.
  intros Hne Hv. unfold plain_cross_entropy. apply Rmult_le_pos.
  - apply Rsum_nonneg. clear Hne.
    induction Hv as [|row t rows ts H _ IH]; cbn [map2]; constructor;
      [apply voxel_nll_nonneg; exact H | exact IH].
  - left. apply Rinv_0_lt_compat. apply lt_0_INR.
    destruct rows; [contradiction | simpl; lia].
Qed.

Lemma CrossentropyND_unfold (self : CrossEntropyLoss) (inp target : tensor R) :
  CrossentropyND.forward self inp target =
    (x <- voxel_logits inp ;; cross_entropy self x (view_flat (long target))).
Proof.
  unfold CrossentropyND.forward, voxel_logits.
  destruct (size_at inp 1) as [c|e]; [cbn [bind]|reflexivity].
  destruct (class_axis_last inp) as [x|e]; reflexivity.
Qed.

Lemma WeightedCrossEntropyLoss_is_CrossentropyND (w : option (list R))
    (inp target : tensor R) :
  WeightedCrossEntropyLoss.forward w inp target =
    CrossentropyND.forward
      {| weight := w; ignore_index := -100; reduction := reduction_mean |}
      inp target.
Proof. reflexivity. Qed.

Lemma voxel_rows_inv (inp : tensor R) (rows : list (list R)) :
  voxel_rows inp = Ok rows ->
  exists x, voxel_logits inp = Ok x /\ rows_of x = Ok rows.
Proof. unfold voxel_rows. intros H. apply bind_Ok_inv in H. exact H. Qed.

(** X12: on labels inside [0, C) the cross entropy of [CrossentropyND]
    (default loss) and of [WeightedCrossEntropyLoss] without weights is the
    plain mean of the voxels' negative log-likelihoods, and it is not
    negative. *)
Theorem cross_entropy_losses_nonneg (inp target : tensor R)
    (rows : list (list R)) :
  voxel_rows inp = Ok rows -> rows <> [] ->
  Forall2 valid_target rows (data (long target)) ->
  CrossentropyND.forward default_ce inp target =
    Ok (Scalar (plain_cross_entropy rows (data (long target)))) /\
  WeightedCrossEntropyLoss.forward None inp target =
    Ok (Scalar (plain_cross_entropy rows (data (long target)))) /\
  0 <= plain_cross_entropy rows (data (long target)).
Proof.
  intros Hrows Hne Hv.
  destruct (voxel_rows_inv inp rows Hrows) as (x & Hx & Hr).
  assert (E : CrossentropyND.forward default_ce inp target =
              Ok (Scalar (plain_cross_entropy rows (data (long target))))).
  { rewrite CrossentropyND_unfold, Hx. cbn [bind].
    apply (cross_entropy_default_plain x _ rows _ Hr (entries_view_flat _) Hv). }
  split; [exact E|]. split.
  - rewrite WeightedCrossEntropyLoss_is_CrossentropyND. exact E.
  - apply plain_cross_entropy_nonneg; assumption.
Qed.

Lemma cross_entropy_losses_nonneg_witness :
  CrossentropyND.forward default_ce (Dim [Dim [Scalar 0; Scalar 0]])
      (Dim [Scalar 1]) =
    Ok (Scalar (plain_cross_entropy [[0; 0]] [1%Z])) /\
  WeightedCrossEntropyLoss.forward None (Dim [Dim [Scalar 0; Scalar 0]])
      (Dim [Scalar 1]) =
    Ok (Scalar (plain_cross_entropy [[0; 0]] [1%Z])) /\
  0 <= plain_cross_entropy [[0; 0]] [1%Z].
Proof.
  pose proof (cross_entropy_losses_nonneg (Dim [Dim [Scalar 0; Scalar 0]])
                (Dim [Scalar 1]) [[0; 0]] eq_refl) as H.
  simpl in H. rewrite (trunc_IZR 1) in H. apply H.
  - discriminate.
  - constructor; [|constructor]. split; simpl; lia.
Defined.

Lemma ce_voxel_weighted_valid (w : list R) (row : list R) (t : Z) :
  valid_target row t ->
  ce_voxel {| weight := Some w; ignore_index := -100; reduction := reduction_mean |}
      row t =
    Ok (nth (Z.to_nat t) w 0 * voxel_nll row t, nth (Z.to_nat t) w 0).
Proof.
  intros [H0 H1]. unfold ce_voxel, voxel_nll. cbn [ignore_index weight].
  destruct (Z.eqb_spec t (-100)); [lia|].
  destruct (Z.ltb_spec t 0); [lia|].
  destruct (Z.leb_spec (Z.of_nat (length row)) t); [lia|]. reflexivity.
Qed.

Lemma mapM_ce_voxel_weighted (w : list R) (rows : list (list R)) (ts : list Z) :
  Forall2 valid_target rows ts ->
  mapM (fun '(row, t) =>
          ce_voxel {| weight := Some w; ignore_index := -100;
                      reduction := reduction_mean |} row t)
       (combine rows ts) =
    Ok (map2 (fun row t => (nth (Z.to_nat t) w 0 * voxel_nll row t,
                            nth (Z.to_nat t) w 0)) rows ts).
Proof.
  induction 1 as [|row t rows ts H _ IH]; [reflexivity|].
  cbn [combine mapM map2].
  rewrite (ce_voxel_weighted_valid w _ _ H). cbn [bind]. rewrite IH. reflexivity.
Qed.

Lemma map_snd_map2 {A B} (f : A -> B -> R) (g : B -> R) (la : list A) lb :
  length la = length lb ->
  map snd (map2 (fun a b => (f a b, g b)) la lb) = map g lb.
Proof.
  revert lb. induction la as [|a la IH]; intros [|b lb] H; try discriminate H;
    [reflexivity|]. cbn [map2 map snd]. rewrite IH by (simpl in H; lia).
  reflexivity.
Qed.

Lemma forallb_lengths (n : nat) (rows : list (list R)) :
  Forall (fun row => length row = n) rows ->
  forallb (fun row => (length row =? n)%nat) rows = true.
Proof.
  induction 1 as [|row rows H _ IH]; [reflexivity|].
  cbn [forallb]. rewrite IH, (proj2 (Nat.eqb_eq _ _) H). reflexivity.
Qed.

Lemma constant_weights_sums (c : R) (C : nat) (rows : list (list R))
    (ts : list Z) :
  Forall (fun row => length row = C) rows -> Forall2 valid_target rows ts ->
  Rsum (map2 (fun row t => nth (Z.to_nat t) (repeat c C) 0 * voxel_nll row t)
          rows ts) = c * Rsum (map2 voxel_nll rows ts) /\
  Rsum (map (fun t => nth (Z.to_nat t) (repeat c C) 0) ts) =
    c * INR (length rows).
Proof.
  intros Hlen Hv. induction Hv as [|row t rows ts [H0 H1] _ IH].
  - simpl. split; lra.
  - apply Forall_cons_iff in Hlen. destruct Hlen as [Hrow Hrest].
    destruct (IH Hrest) as [IH1 IH2].
    cbn [map2 map Rsum fold_right length]. rewrite S_INR.
    unfold Rsum in IH1, IH2. rewrite IH1, IH2.
    rewrite nth_repeat_lt by lia. split; lra.
Qed.

(** X13: with class weights [w] (one per class) and labels inside [0, C),
    [WeightedCrossEntropyLoss] returns the weighted negative
    log-likelihoods divided by the sum of the weights of the labels, not by
    the number of voxels; hence one constant weight [c] for all the classes
    cancels and gives the plain cross entropy. *)
Theorem WeightedCrossEntropyLoss_weighted_mean (w : list R)
    (inp target : tensor R) (rows : list (list R)) :
  voxel_rows inp = Ok rows -> rows <> [] ->
  Forall (fun row => length row = length w) rows ->
  Forall2 valid_target rows (data (long target)) ->
  Forall (fun v => 0 < v) w ->
  WeightedCrossEntropyLoss.forward (Some w) inp target =
    Ok (Scalar (weighted_cross_entropy w rows (data (long target)))) /\
  (forall c, w = repeat c (length w) ->
     WeightedCrossEntropyLoss.forward (Some w) inp target =
       WeightedCrossEntropyLoss.forward None inp target).
Proof.
  intros Hrows Hne Hlen Hv Hw.
  destruct (voxel_rows_inv inp rows Hrows) as (x & Hx & Hr).
  assert (E : WeightedCrossEntropyLoss.forward (Some w) inp target =
              Ok (Scalar (weighted_cross_entropy w rows (data (long target))))).
  { rewrite WeightedCrossEntropyLoss_is_CrossentropyND, CrossentropyND_unfold, Hx.
    cbn [bind]. unfold cross_entropy. rewrite Hr, entries_view_flat. cbn [bind].
    rewrite (proj2 (Nat.eqb_eq _ _) (Forall2_length Hv)).
    cbn [negb weight reduction]. rewrite (forallb_lengths _ _ Hlen). cbn [negb].
    rewrite (mapM_ce_voxel_weighted w _ _ Hv). cbn [bind].
    unfold weighted_cross_entropy.
    rewrite (map_fst_map2 (fun row t => nth (Z.to_nat t) w 0 * voxel_nll row t)
               (fun _ t => nth (Z.to_nat t) w 0)).
    rewrite (map_snd_map2 _ (fun t => nth (Z.to_nat t) w 0))
      by exact (Forall2_length Hv).
    reflexivity. }
  split; [exact E|]. intros c Hc. rewrite E.
  rewrite WeightedCrossEntropyLoss_is_CrossentropyND, CrossentropyND_unfold, Hx.
  cbn [bind].
  pose proof (cross_entropy_default_plain x _ rows _ Hr
                (entries_view_flat (long target)) Hv) as E2.
  unfold default_ce in E2. rewrite E2.
  do 2 f_equal. unfold weighted_cross_entropy, plain_cross_entropy.
  rewrite Hc.
  destruct (constant_weights_sums c (length w) rows _ Hlen Hv) as [-> ->].
  assert (Hcpos : 0 < c).
  { destruct rows as [|row rows]; [contradiction|].
    inversion Hv as [|? t ? ? [H0 H1] _]; subst.
    apply Forall_cons_iff in Hlen. destruct Hlen as [Hrow _].
    destruct w as [|v w]; [simpl in Hrow; lia|].
    simpl in Hc. injection Hc as Hv' _. apply Forall_cons_iff in Hw.
    destruct Hw as [Hv0 _]. lra. }
  assert (Hn : 0 < INR (length rows)).
  { apply lt_0_INR. destruct rows; [contradiction | simpl; lia]. }
  field. split; lra.
Qed.

Lemma WeightedCrossEntropyLoss_weighted_mean_witness :
  WeightedCrossEntropyLoss.forward (Some [0.5; 0.5])
      (Dim [Dim [Scalar 0; Scalar 0]]) (Dim [Scalar 1]) =
    Ok (Scalar (weighted_cross_entropy [0.5; 0.5] [[0; 0]] [1%Z])) /\
  WeightedCrossEntropyLoss.forward (Some [0.5; 0.5])
      (Dim [Dim [Scalar 0; Scalar 0]]) (Dim [Scalar 1]) =
    WeightedCrossEntropyLoss.forward None
      (Dim [Dim [Scalar 0; Scalar 0]]) (Dim [Scalar 1]).
Proof.
  pose proof (WeightedCrossEntropyLoss_weighted_mean [0.5; 0.5]
                (Dim [Dim [Scalar 0; Scalar 0]]) (Dim [Scalar 1]) [[0; 0]]
                eq_refl) as H.
  cbn [long tmap map data flat_map app] in H. rewrite (trunc_IZR 1) in H.
  destruct H as [H1 H2].
  - discriminate.
  - repeat constructor.
  - constructor; [|constructor]. split; simpl; lia.
  - repeat (apply Forall_cons; [lra|]). apply Forall_nil.
  - split; [exact H1|]. apply (H2 0.5). reflexivity.
Defined.

(** ** [softmax_helper] on a batch of rows of logits *)

Lemma zip_at_of_rows {A B C} (f : A -> B -> C) (M : list (list A))
    (M' : list (list B)) :
  zip_at 2 f (of_rows M) (of_rows M') = of_rows (map2 (map2 f) M M').
Proof.
  unfold of_rows. rewrite zip_at_succ. f_equal.
  revert M'. induction M as [|r M IH]; intros [|r' M']; try reflexivity.
  cbn [map map2]. rewrite zip_at_scalars, IH. reflexivity.
Qed.

Lemma tmap_of_rows {A B} (f : A -> B) (M : list (list A)) :
  tmap f (of_rows M) = of_rows (map (map f) M).
Proof.
  unfold of_rows. cbn [tmap]. rewrite !map_map. f_equal.
  apply map_ext. intros r. apply tmap_map_Scalar.
Qed.

Lemma rect_map_rows {A B} (B0 C : nat) (g : list A -> list B) (M : list (list A)) :
  rect B0 C M -> (forall r, length r = C -> length (g r) = C) ->
  rect B0 C (map g M).
Proof.
  intros [HB HC] Hg. split; [rewrite length_map; exact HB|].
  apply Forall_map. revert HC. apply Forall_impl. exact Hg.
Qed.

Lemma tbin_of_rows (f : R -> R -> R) (B C : nat) (M M' : list (list R)) :
  (0 < B)%nat -> (0 < C)%nat -> rect B C M -> rect B C M' ->
  tbin f (of_rows M) (of_rows M') = Ok (of_rows (map2 (map2 f) M M')).
Proof.
  intros HB HC HM HM'.
  rewrite (tbin_same_shape f [B; C] _ _ (positive_2d B C HB HC)
             (has_shape_of_rows B C M HM) (has_shape_of_rows B C M' HM')).
  cbn [length]. rewrite zip_at_of_rows. reflexivity.
Qed.

(** a row-wise operation against one value per row, repeated along the row *)
Lemma rowwise_against_repeated (f : R -> R -> R) (g : list R -> R) (C : nat)
    (M : list (list R)) :
  Forall (fun r => length r = C) M ->
  map2 (map2 f) M (map (fun r => repeat (g r) C) M) =
    map (fun r => map (fun v => f v (g r)) r) M.
Proof.
  intros H. rewrite map2_map_r, map2_diag. apply map_ext_in.
  intros r Hr. rewrite Forall_forall in H. rewrite <- (H r Hr).
  apply map2_repeat_r.
Qed.

Lemma concat_repeat_singleton {A} (a : A) (n : nat) :
  concat (repeat [a] n) = repeat a n.
Proof. induction n as [|n IH]; simpl; [|rewrite IH]; reflexivity. Qed.

(** [keepdim] columns repeated along the class axis *)
Lemma repeat_keepdim (g : list R -> R) (C : nat) (M : list (list R)) :
  M <> [] ->
  repeat_ [1%nat; C] (Dim (map (fun r => Dim [Scalar (g r)]) M)) =
    Ok (of_rows (map (fun r => repeat (g r) C) M)).
Proof.
  intros Hne. destruct M as [|r0 M]; [contradiction|].
  unfold repeat_. cbn [map rank size length Nat.ltb Nat.leb].
  f_equal. unfold of_rows.
  cbn [trepeat rank size length Nat.ltb Nat.leb repeat concat map].
  rewrite app_nil_r.
  change (Dim (map (trepeat [C]) (Dim [Scalar (g r0)] ::
                 map (fun r => Dim [Scalar (g r)]) M)) =
          Dim (map (fun row => Dim (map Scalar row))
                 (repeat (g r0) C :: map (fun r => repeat (g r) C) M))).
  f_equal.
  change (map (trepeat [C]) (map (fun r => Dim [Scalar (g r)]) (r0 :: M)) =
          map (fun row => Dim (map Scalar row))
            (map (fun r => repeat (g r) C) (r0 :: M))).
  rewrite !map_map. apply map_ext. intros r.
  cbn [trepeat rank size length Nat.ltb Nat.leb map].
  rewrite concat_repeat_singleton, map_repeat. reflexivity.
Qed.

Lemma fold_left_zip_Rmax (l : list R) (a : R) :
  fold_left (zip_at 0 Rmax) (map Scalar l) (Scalar a) = Scalar (fold_left Rmax l a).
Proof.
  revert a. induction l as [|b l IH]; intros a; [reflexivity|].
  cbn [map fold_left zip_at]. apply IH.
Qed.

Lemma max_axis_rows (C : nat) (M : list (list R)) :
  (0 < C)%nat -> Forall (fun r => length r = C) M ->
  max_axis_keepdim 1 (of_rows M) =
    Ok (Dim (map (fun r => Dim [Scalar (row_max r)]) M)).
Proof.
  intros HC HM. unfold of_rows. cbn [max_axis_keepdim].
  rewrite (mapM_Ok_map_in _ (fun t => Dim [Scalar (row_max (data t))])).
  - cbn [bind]. rewrite map_map. do 2 f_equal. apply map_ext.
    intros r. rewrite data_map_Scalar. reflexivity.
  - apply Forall_map. revert HM. apply Forall_impl. intros r Hr.
    destruct r as [|a r]; [simpl in Hr; lia|].
    cbn [map max_axis_keepdim rank size length].
    rewrite fold_left_zip_Rmax.
    change (Scalar a :: map Scalar r) with (map Scalar (a :: r)).
    rewrite data_map_Scalar. reflexivity.
Qed.

Lemma sum_axis0_keepdim_scalars (r : list R) :
  sum_axis 0 true (Dim (map Scalar r)) = Ok (Dim [Scalar (Rsum r)]).
Proof.
  cbn [sum_axis]. rewrite inner_size_scalars. cbn [length].
  rewrite reduce_scalars, map_total_Scalar; [reflexivity|].
  apply Forall_map. apply Forall_forall. reflexivity.
Qed.

Lemma sum_axis_rows_keepdim (M : list (list R)) :
  M <> [] ->
  tsum 1 true (of_rows M) = Ok (Dim (map (fun r => Dim [Scalar (Rsum r)]) M)).
Proof.
  intros _. unfold of_rows, tsum. rewrite sum_axis_succ.
  rewrite (mapM_Ok_map_in _ (fun t => Dim [Scalar (Rsum (data t))])).
  - cbn [bind]. rewrite map_map. do 2 f_equal. apply map_ext.
    intros r. rewrite data_map_Scalar. reflexivity.
  - apply Forall_map. apply Forall_forall. intros r _.
    rewrite sum_axis0_keepdim_scalars, data_map_Scalar. reflexivity.
Qed.

Lemma Rsum_map_scale (c : R) (l : list R) :
  Rsum (map (fun v => v * c) l) = Rsum l * c.
Proof.
  induction l as [|a l IH]; cbn [map Rsum fold_right]; [lra|].
  unfold Rsum in IH. rewrite IH. lra.
Qed.

Lemma Rsum_exp_pos (row : list R) : row <> [] -> 0 < Rsum (map exp row).
Proof.
  intros Hne. destruct row as [|a row]; [contradiction|].
  pose proof (exp_le_Rsum_exp a (a :: row) (or_introl eq_refl)) as H.
  pose proof (exp_pos a). lra.
Qed.

(** subtracting the maximum (or any constant) changes no softmax *)
Lemma stable_softmax_row (m : R) (row : list R) :
  row <> [] ->
  map (fun v => v / Rsum (map exp (map (fun v => v - m) row)))
      (map exp (map (fun v => v - m) row)) = softmax_row row.
Proof.
  intros Hne. unfold softmax_row. rewrite !map_map.
  assert (E : Rsum (map (fun x => exp (x - m)) row) =
              Rsum (map exp row) * exp (- m)).
  { rewrite <- Rsum_map_scale, map_map. f_equal. apply map_ext.
    intros v. rewrite <- exp_plus. f_equal. }
  rewrite E. apply map_ext. intros v.
  pose proof (Rsum_exp_pos row Hne) as Hs. pose proof (exp_pos (- m)) as Hm.
  replace (v - m) with (v + - m) by lra. rewrite exp_plus. field. split; lra.
Qed.

Lemma Rsum_softmax_row (row : list R) : row <> [] -> Rsum (softmax_row row) = 1.
Proof.
  intros Hne. unfold softmax_row.
  rewrite <- (map_map exp (fun e => e / Rsum (map exp row))).
  unfold Rdiv. rewrite Rsum_map_scale.
  apply Rinv_r. pose proof (Rsum_exp_pos row Hne). lra.
Qed.

Lemma softmax_row_bounds (row : list R) :
  Forall (fun p => 0 < p <= 1) (softmax_row row).
Proof.
  unfold softmax_row. apply Forall_map, Forall_forall. intros v Hin.
  assert (Hne : row <> []) by (intros ->; contradiction).
  pose proof (Rsum_exp_pos row Hne) as Hs.
  pose proof (exp_le_Rsum_exp v row Hin) as Hle. pose proof (exp_pos v) as Hv.
  split.
  - apply Rdiv_lt_0_compat; assumption.
  - apply (Rmult_le_reg_r (Rsum (map exp row))); [exact Hs|].
    unfold Rdiv. rewrite Rmult_assoc, Rinv_l by lra. lra.
Qed.

(** the softmax of the rows, as [softmax_helper] computes it *)
Lemma softmax_helper_of_rows (B C : nat) (M : list (list R)) :
  (0 < B)%nat -> (0 < C)%nat -> rect B C M ->
  softmax_helper (of_rows M) = Ok (of_rows (map softmax_row M)) /\
  Forall (fun row => Forall (fun p => 0 < p <= 1) (softmax_row row) /\
                     Rsum (softmax_row row) = 1) M.
Proof.
  intros HB HC HM. pose proof HM as [HlenB HlenC].
  assert (Hne : M <> []) by (intros ->; simpl in HlenB; lia).
  assert (Hrow : forall r, In r M -> r <> []).
  { intros r Hin ->. rewrite Forall_forall in HlenC.
    specialize (HlenC [] Hin). simpl in HlenC. lia. }
  split.
  - unfold softmax_helper, size_at, rank.
    rewrite (has_shape_size [B; C] _ (positive_2d B C HB HC)
               (has_shape_of_rows B C M HM)).
    cbn [length repeat nth_error bind list_assign].
    rewrite (max_axis_rows C M HC HlenC). cbn [bind].
    rewrite (repeat_keepdim row_max C M Hne). cbn [bind].
    unfold tsub.
    rewrite (tbin_of_rows Rminus B C _ _ HB HC HM)
      by (apply rect_map_rows; [exact HM | intros; apply repeat_length]).
    cbn [bind]. rewrite (rowwise_against_repeated Rminus row_max C M HlenC).
    rewrite tmap_of_rows, map_map.
    set (E := map (fun r => map exp (map (fun v => v - row_max r) r)) M).
    assert (HE : rect B C E).
    { apply rect_map_rows; [exact HM|]. intros r Hr. rewrite !length_map. exact Hr. }
    assert (HEne : E <> []).
    { unfold E. destruct M; [contradiction | discriminate]. }
    rewrite (sum_axis_rows_keepdim E HEne). cbn [bind].
    rewrite (repeat_keepdim Rsum C E HEne). cbn [bind].
    unfold tdiv.
    rewrite (tbin_of_rows Rdiv B C _ _ HB HC HE)
      by (apply rect_map_rows; [exact HE | intros; apply repeat_length]).
    rewrite (rowwise_against_repeated Rdiv Rsum C E (proj2 HE)).
    do 2 f_equal. unfold E. rewrite map_map. apply map_ext_in.
    intros r Hin. apply stable_softmax_row. exact (Hrow r Hin).
  - apply Forall_forall. intros r Hin. split.
    + apply softmax_row_bounds.
    + apply Rsum_softmax_row. exact (Hrow r Hin).
Qed.

(** X14: on a batch [(B, C)] of rows of logits [softmax_helper] returns the
    softmax of every row, [exp x_j / sum_k exp x_k]: the subtraction of the
    row's maximum changes no value; every entry lies in (0, 1] and every
    row sums to 1. *)
Theorem softmax_helper_rows (B C : nat) (M : list (list R)) :
  (0 < B)%nat -> (0 < C)%nat -> rect B C M ->
  softmax_helper (of_rows M) = Ok (of_rows (map softmax_row M)) /\
  Forall (fun row => Forall (fun p => 0 < p <= 1) (softmax_row row) /\
                     Rsum (softmax_row row) = 1) M.
Proof. exact (softmax_helper_of_rows B C M). Qed.

Lemma softmax_helper_rows_witness :
  softmax_helper (of_rows [[0; 0]; [1; 0]]) =
    Ok (of_rows (map softmax_row [[0; 0]; [1; 0]])) /\
  Forall (fun row => Forall (fun p => 0 < p <= 1) (softmax_row row) /\
                     Rsum (softmax_row row) = 1) [[0; 0]; [1; 0]].
Proof.
  apply (softmax_helper_rows 2 2 [[0; 0]; [1; 0]]).
  - lia.
  - lia.
  - split; [reflexivity|]. repeat constructor.
Defined.

(** ** The overlap losses on softmax outputs *)

Lemma softmax_rows_probabilities (B C : nat) (M : list (list R)) :
  (0 < B)%nat -> (0 < C)%nat -> rect B C M ->
  tensor_of [B; C] (of_rows (map softmax_row M)) = true /\
  unit_interval (of_rows (map softmax_row M)).
Proof.
  intros HB HC HM. split.
  - unfold tensor_of. rewrite (positive_2d B C HB HC). cbn [andb].
    apply has_shape_of_rows. apply rect_map_rows; [exact HM|].
    intros r Hr. unfold softmax_row. rewrite length_map. exact Hr.
  - unfold unit_interval. rewrite data_of_rows. apply Forall_concat.
    apply Forall_map. apply Forall_forall. intros r _.
    eapply Forall_impl; [|apply softmax_row_bounds]. simpl. intros p Hp. lra.
Qed.

(** X15: with [apply_nonlin = softmax_helper], on a batch [(B, C)] of rows
    of logits and a one-hot truth of the same shape, the four overlap
    losses return a value in their range for every logits: SoftDiceLoss in
    [0,1), IoULoss, TverskyLoss and AsymLoss in [-1,0). *)
Theorem softmax_overlap_losses_bounded (self : region_loss) (B C : nat)
    (M : list (list R)) (y : tensor R) :
  (0 < B)%nat -> (0 < C)%nat -> rect B C M ->
  tensor_of [B; C] y = true -> binary y ->
  apply_nonlin self = Some softmax_helper -> 0 < smooth self ->
  (do_bg self = false -> (2 <= C)%nat) ->
  (exists l, SoftDiceLoss.forward self (of_rows M) y None = Ok (Scalar l) /\
             0 <= l < 1) /\
  (exists l, IoULoss.forward self (of_rows M) y None = Ok (Scalar l) /\
             -1 <= l < 0) /\
  (exists l, TverskyLoss.forward self (of_rows M) y None = Ok (Scalar l) /\
             -1 <= l < 0) /\
  (exists l, AsymLoss.forward self (of_rows M) y None = Ok (Scalar l) /\
             -1 <= l < 0).
Proof.
  intros HB HC HM Hy Hbin Hnl Hs Hbg.
  destruct (softmax_rows_probabilities B C M HB HC HM) as [Hx' Hux].
  assert (Hx : tensor_of [B; C] (of_rows M) = true).
  { unfold tensor_of. rewrite (positive_2d B C HB HC). cbn [andb].
    apply has_shape_of_rows. exact HM. }
  apply (overlap_bounds_after_nonlin self B C [] (of_rows M)
           (of_rows (map softmax_row M)) y y); try assumption.
  - rewrite Hnl. cbn [nonlin].
    exact (proj1 (softmax_helper_of_rows B C M HB HC HM)).
  - apply (to_onehot_same_shape [B; C]); assumption.
  - apply tensor_of_inv in Hy. apply Hy.
Qed.

Lemma softmax_overlap_losses_bounded_witness :
  (exists l, SoftDiceLoss.forward (soft_dice true true 1 false)
               (of_rows [[0; 0]; [1; 0]]) (of_rows [[1; 0]; [0; 1]]) None =
               Ok (Scalar l) /\ 0 <= l < 1) /\
  (exists l, IoULoss.forward (soft_dice true true 1 false)
               (of_rows [[0; 0]; [1; 0]]) (of_rows [[1; 0]; [0; 1]]) None =
               Ok (Scalar l) /\ -1 <= l < 0) /\
  (exists l, TverskyLoss.forward (soft_dice true true 1 false)
               (of_rows [[0; 0]; [1; 0]]) (of_rows [[1; 0]; [0; 1]]) None =
               Ok (Scalar l) /\ -1 <= l < 0) /\
  (exists l, AsymLoss.forward (soft_dice true true 1 false)
               (of_rows [[0; 0]; [1; 0]]) (of_rows [[1; 0]; [0; 1]]) None =
               Ok (Scalar l) /\ -1 <= l < 0).
Proof.
  apply (softmax_overlap_losses_bounded (soft_dice true true 1 false) 2 2
           [[0; 0]; [1; 0]] (of_rows [[1; 0]; [0; 1]])).
  - lia.
  - lia.
  - split; [reflexivity|]. repeat constructor.
  - reflexivity.
  - unfold binary. simpl.
    repeat (apply Forall_cons; [first [left; reflexivity | right; reflexivity]|]).
    apply Forall_nil.
  - reflexivity.
  - simpl. lra.
  - discriminate.
Defined.

(** ** Views that keep the shape *)

Lemma chunks_data {A} (k : nat) (l : list (tensor A)) :
  Forall (fun t => length (data t) = k) l ->
  chunks (length l) k (flat_map data l) = map data l.
Proof.
  induction 1 as [|t l Ht _ IH]; [reflexivity|].
  cbn [length chunks flat_map map].
  assert (E1 : firstn k (data t ++ flat_map data l) = data t).
  { rewrite <- Ht, firstn_app, Nat.sub_diag, firstn_all. apply app_nil_r. }
  assert (E2 : skipn k (data t ++ flat_map data l) = flat_map data l).
  { rewrite <- Ht, skipn_app, Nat.sub_diag, skipn_all. reflexivity. }
  rewrite E1, E2, IH. reflexivity.
Qed.

(** [t.view(t.shape)] is [t] *)
Lemma build_data {A} (s : list nat) (t : tensor A) :
  has_shape s t = true -> build s (data t) = Ok t.
Proof.
  revert t. induction s as [|n s IH]; intros t Hs.
  - apply has_shape_nil in Hs. destruct Hs as [x ->]. reflexivity.
  - apply has_shape_cons_inv in Hs. destruct Hs as (l & -> & Hl & Hall).
    cbn [build data]. rewrite <- Hl, chunks_data.
    + rewrite (mapM_Ok_Forall2 _ _ l); [reflexivity|].
      clear Hl. induction Hall as [|t l Ht _ IHl]; cbn [map]; constructor.
      * apply IH. exact Ht.
      * exact IHl.
    + revert Hall. apply Forall_impl. intros t Ht.
      exact (numel_has_shape s t Ht).
Qed.

Lemma view_same_shape {A} (s : list nat) (t : tensor A) :
  has_shape s t = true -> view s t = Ok t.
Proof.
  intros Hs. unfold view. rewrite (numel_has_shape s t Hs), Nat.eqb_refl.
  apply build_data. exact Hs.
Qed.

Lemma view_rows_matrix {A} (B C : nat) (t : tensor A) :
  (0 < C)%nat -> has_shape [B; C] t = true -> view_rows C t = Ok t.
Proof.
  intros HC Hs. unfold view_rows.
  destruct (Nat.eqb_spec C 0) as [E|_]; [lia|].
  rewrite (numel_has_shape _ t Hs). cbn [prod fold_right].
  rewrite Nat.mul_1_r, Nat.Div0.mod_mul, Nat.div_mul by lia. cbn [Nat.eqb].
  apply view_same_shape. exact Hs.
Qed.

(** a batch [(B, C)] of rows of logits is its own list of voxels *)
Lemma voxel_rows_matrix (B C : nat) (M : list (list R)) :
  (0 < B)%nat -> (0 < C)%nat -> rect B C M -> voxel_rows (of_rows M) = Ok M.
Proof.
  intros HB HC HM. pose proof (has_shape_of_rows B C M HM) as Hs.
  pose proof (has_shape_size [B; C] _ (positive_2d B C HB HC) Hs) as Hsz.
  unfold voxel_rows, voxel_logits, size_at, class_axis_last, rank.
  rewrite Hsz. cbn [nth_error bind length class_axis_loop].
  unfold rank. rewrite Hsz. cbn [length Nat.ltb Nat.leb bind].
  rewrite (view_rows_matrix B C _ HC Hs). cbn [bind].
  apply rows_of_of_rows.
Qed.

(** every entry of the data of a tensor is met at an index of its shape *)
Lemma data_entry (s : list nat) (t : tensor R) (v : R) :
  has_shape s t = true -> In v (data t) ->
  exists idx, Forall2 lt idx s /\ entry t idx = v.
Proof.
  revert t. induction s as [|n s IH]; intros t Hs Hin.
  - apply has_shape_nil in Hs. destruct Hs as [x ->].
    destruct Hin as [<-|[]]. exists []. split; [constructor | reflexivity].
  - apply has_shape_cons_inv in Hs. destruct Hs as (l & -> & Hl & Hall).
    cbn [data] in Hin. apply in_flat_map in Hin. destruct Hin as (t' & Ht' & Hv).
    destruct (In_nth_error _ _ Ht') as [i Ei].
    rewrite Forall_forall in Hall.
    destruct (IH t' (Hall t' Ht') Hv) as (idx & Hidx & He).
    exists (i :: idx). split.
    + constructor; [|exact Hidx]. rewrite <- Hl. apply nth_error_Some. congruence.
    + cbn [entry]. rewrite Ei. exact He.
Qed.

(** the encoding of a label map is a tensor of zeros and ones *)
Lemma to_onehot_label_map_binary (B C : nat) (sp : list nat) (x y : tensor R) :
  tensor_of (B :: C :: sp) x = true -> C <> 1%nat ->
  has_shape (B :: 1%nat :: sp) y = true -> labels_in_range C y ->
  exists g : tensor R,
    to_onehot x y = Ok g /\ has_shape (B :: C :: sp) g = true /\ binary g.
Proof.
  intros Hx HC Hy Hr.
  destruct (to_onehot_label_map_spec B C sp x y Hx HC Hy Hr)
    as (g & Hg & Hs & Hent & _).
  exists g. split; [exact Hg|]. split; [exact Hs|].
  unfold binary. apply Forall_forall. intros v Hv.
  destruct (data_entry _ g v Hs Hv) as (idx & Hidx & <-).
  inversion Hidx as [|b B' idx1 s1 Hb Hidx1]; subst.
  inversion Hidx1 as [|c C' p s2 Hc Hp]; subst.
  rewrite (Hent b c p Hb Hc Hp).
  destruct (_ =? _)%Z; [right | left]; reflexivity.
Qed.

(** ** [ExpLog_loss]: the Dice term *)

Lemma Forall2_of_Forall {A B} (P : A -> Prop) (Q : B -> Prop) la lb :
  length la = length lb -> Forall P la -> Forall Q lb ->
  Forall2 (fun a b => P a /\ Q b) la lb.
Proof.
  intros Hlen Ha. revert lb Hlen.
  induction Ha as [|a la Pa _ IH]; intros [|b lb] Hlen Hb;
    try discriminate Hlen; constructor.
  - split; [exact Pa|]. inversion Hb; assumption.
  - apply IH; [simpl in Hlen; lia|]. inversion Hb; assumption.
Qed.

Lemma label_map_valid_targets (B C : nat) (M : list (list R)) (y : tensor R) :
  rect B C M -> has_shape [B; 1%nat] y = true -> labels_in_range C y ->
  Forall2 valid_target M (data (long y)).
Proof.
  intros [HB HC] Hy Hr. unfold long. rewrite (data_tmap trunc _ y Hy).
  pose proof (numel_has_shape _ y Hy) as Hn. unfold numel in Hn.
  cbn [prod fold_right] in Hn.
  eapply Forall2_impl;
    [|apply (Forall2_of_Forall (fun r => length r = C)
               (fun t => (0 <= t < Z.of_nat C)%Z))].
  - intros r t [Hlen Ht]. unfold valid_target. rewrite Hlen. exact Ht.
  - rewrite length_map. lia.
  - exact HC.
  - apply Forall_map. exact Hr.
Qed.

(** X16: [ExpLog_loss] negates the Dice loss [1 - dc], which is not
    negative, before it clamps it at 1e-6: on a batch [(B, C)] of rows of
    logits with a label map [(B, 1)] the Dice term is the constant
    [0.8 * (-log 1e-6) ** gamma], and the loss is this constant plus 0.2
    times the cross entropy, whatever the Dice score of the prediction. *)
Theorem ExpLog_loss_dice_term_constant (self : ExpLog_loss.t) (B C : nat)
    (M : list (list R)) (y : tensor R) :
  (0 < B)%nat -> (2 <= C)%nat -> rect B C M ->
  has_shape [B; 1%nat] y = true -> labels_in_range C y ->
  apply_nonlin (ExpLog_loss.dc self) = Some softmax_helper ->
  0 < smooth (ExpLog_loss.dc self) -> ExpLog_loss.wce self = None ->
  ExpLog_loss.forward self (of_rows M) y =
    Ok (Scalar (0.8 * torch_pow (- ln 1e-6) (ExpLog_loss.gamma self) +
                0.2 * plain_cross_entropy M (data (long y)))).
Proof.
  intros HB HC HM Hy Hr Hnl Hs Hw.
  assert (HC0 : (0 < C)%nat) by lia.
  destruct (softmax_rows_probabilities B C M HB HC0 HM) as [Hx' Hux].
  assert (Hx : tensor_of [B; C] (of_rows M) = true).
  { unfold tensor_of. rewrite (positive_2d B C HB HC0). cbn [andb].
    apply has_shape_of_rows. exact HM. }
  destruct (to_onehot_label_map_binary B C [] _ y Hx' ltac:(lia) Hy Hr)
    as (g & Hg & Hsg & Hbin).
  destruct (overlap_bounds_after_nonlin (ExpLog_loss.dc self) B C []
              (of_rows M) (of_rows (map softmax_row M)) y g Hx) as [[l [Hl Hlb]] _];
    try assumption.
  { rewrite Hnl. cbn [nonlin].
    exact (proj1 (softmax_helper_of_rows B C M HB HC0 HM)). }
  { intros _. exact HC. }
  unfold ExpLog_loss.forward. rewrite Hl. cbn [bind tmap]. rewrite Hw.
  rewrite WeightedCrossEntropyLoss_is_CrossentropyND, CrossentropyND_unfold.
  pose proof (voxel_rows_matrix B C M HB HC0 HM) as Hrows.
  destruct (voxel_rows_inv _ M Hrows) as (x & Hvx & Hrx).
  rewrite Hvx. cbn [bind].
  pose proof (cross_entropy_default_plain x _ M _ Hrx
                (entries_view_flat (long y))
                (label_map_valid_targets B C M y HM Hy Hr)) as E.
  unfold default_ce in E. rewrite E. cbn [bind tmap].
  rewrite tadd_scalars. do 4 f_equal.
  unfold Rmax. destruct (Rle_dec (- l) 1e-6) as [_|Hn]; [reflexivity|lra].
Qed.

Lemma ExpLog_loss_dice_term_constant_witness :
  ExpLog_loss.forward
      {| ExpLog_loss.wce := None; ExpLog_loss.dc := soft_dice false true 1 false;
         ExpLog_loss.gamma := 0.3 |}
      (of_rows [[0; 0]; [1; 0]]) (of_rows [[1]; [0]]) =
    Ok (Scalar (0.8 * torch_pow (- ln 1e-6) 0.3 +
                0.2 * plain_cross_entropy [[0; 0]; [1; 0]]
                        (data (long (of_rows [[1]; [0]]))))).
Proof.
  apply (ExpLog_loss_dice_term_constant
           {| ExpLog_loss.wce := None;
              ExpLog_loss.dc := soft_dice false true 1 false;
              ExpLog_loss.gamma := 0.3 |} 2 2).
  - lia.
  - lia.
  - split; [reflexivity|]. repeat constructor.
  - reflexivity.
  - unfold labels_in_range. cbn -[trunc].
    repeat (apply Forall_cons; [rewrite trunc_IZR; lia|]). apply Forall_nil.
  - reflexivity.
  - simpl. lra.
  - reflexivity.
Defined.

(** ** The composite Dice and cross-entropy loss on logits *)

(** X17: with [aggregate = "sum"], the default cross entropy and a positive
    [smooth], [DC_and_CE_loss] on a batch [(B, C)] of rows of logits with a
    label map [(B, 1)] returns the plain cross entropy plus a Dice loss that
    lies in [0, 1). *)
Theorem DC_and_CE_loss_on_logits (self : DC_and_CE_loss.t) (B C : nat)
    (M : list (list R)) (y : tensor R) :
  (0 < B)%nat -> (2 <= C)%nat -> rect B C M ->
  has_shape [B; 1%nat] y = true -> labels_in_range C y ->
  DC_and_CE_loss.aggregate self = "sum"%string ->
  DC_and_CE_loss.ce self = default_ce ->
  apply_nonlin (DC_and_CE_loss.dc self) = Some softmax_helper ->
  0 < smooth (DC_and_CE_loss.dc self) ->
  exists l : R,
    SoftDiceLoss.forward (DC_and_CE_loss.dc self) (of_rows M) y None =
      Ok (Scalar l) /\ 0 <= l < 1 /\
    DC_and_CE_loss.forward self (of_rows M) y =
      Ok (Scalar (plain_cross_entropy M (data (long y)) + l)).
Proof.
  intros HB HC HM Hy Hr Hagg Hce Hnl Hs.
  assert (HC0 : (0 < C)%nat) by lia.
  destruct (softmax_rows_probabilities B C M HB HC0 HM) as [Hx' Hux].
  assert (Hx : tensor_of [B; C] (of_rows M) = true).
  { unfold tensor_of. rewrite (positive_2d B C HB HC0). cbn [andb].
    apply has_shape_of_rows. exact HM. }
  destruct (to_onehot_label_map_binary B C [] _ y Hx' ltac:(lia) Hy Hr)
    as (g & Hg & Hsg & Hbin).
  destruct (overlap_bounds_after_nonlin (DC_and_CE_loss.dc self) B C []
              (of_rows M) (of_rows (map softmax_row M)) y g Hx) as [[l [Hl Hlb]] _];
    try assumption.
  { rewrite Hnl. cbn [nonlin].
    exact (proj1 (softmax_helper_of_rows B C M HB HC0 HM)). }
  { intros _. exact HC. }
  exists l. split; [exact Hl|]. split; [exact Hlb|].
  unfold DC_and_CE_loss.forward. rewrite Hl, Hce, Hagg. cbn [bind].
  rewrite CrossentropyND_unfold.
  pose proof (voxel_rows_matrix B C M HB HC0 HM) as Hrows.
  destruct (voxel_rows_inv _ M Hrows) as (x & Hvx & Hrx).
  rewrite Hvx. cbn [bind].
  rewrite (cross_entropy_default_plain x _ M _ Hrx
             (entries_view_flat (long y))
             (label_map_valid_targets B C M y HM Hy Hr)).
  cbn [bind String.eqb Ascii.eqb Bool.eqb]. rewrite tadd_scalars. reflexivity.
Qed.

Lemma DC_and_CE_loss_on_logits_witness :
  exists l : R,
    SoftDiceLoss.forward (DC_and_CE_loss.dc example_sum_loss)
        (of_rows [[0; 0]; [1; 0]]) (of_rows [[1]; [0]]) None = Ok (Scalar l) /\
    0 <= l < 1 /\
    DC_and_CE_loss.forward example_sum_loss (of_rows [[0; 0]; [1; 0]])
        (of_rows [[1]; [0]]) =
      Ok (Scalar (plain_cross_entropy [[0; 0]; [1; 0]]
                    (data (long (of_rows [[1]; [0]]))) + l)).
Proof.
  apply (DC_and_CE_loss_on_logits example_sum_loss 2 2).
  - lia.
  - lia.
  - split; [reflexivity|]. repeat constructor.
  - reflexivity.
  - unfold labels_in_range. cbn -[trunc].
    repeat (apply Forall_cons; [rewrite trunc_IZR; lia|]). apply Forall_nil.
  - reflexivity.
  - reflexivity.
  - reflexivity.
  - simpl. lra.
Defined.

(** ** [SSLoss]: sign and value at a perfect prediction *)

Section SSLossScores.
(** a property of reals kept by sums and by scaling with a factor that is
    not negative: being not negative, or being zero *)
Variable P : R -> Prop.
Hypothesis P_zero : P 0.
Hypothesis P_plus : forall a b, P a -> P b -> P (a + b).
Hypothesis P_scale : forall c a, 0 <= c -> P a -> P (c * a).

Lemma P_Rsum (l : list R) : Forall P l -> P (Rsum l).
Proof.
  induction 1 as [|a l Ha _ IH]; [exact P_zero|].
  cbn [Rsum fold_right]. apply P_plus; assumption.
Qed.

Lemma P_div (a d : R) : P a -> 0 < d -> P (a / d).
Proof.
  intros Ha Hd. unfold Rdiv. rewrite Rmult_comm. apply P_scale; [|exact Ha].
  left. apply Rinv_0_lt_compat. exact Hd.
Qed.

Lemma weighted_errors (w : R -> R) (dx dg : list R) :
  Forall2 (fun p q => P ((q - p) ^ 2 * w q)) dx dg ->
  Forall P (map2 Rmult (map (fun v => v ^ 2) (map2 Rminus dg dx)) (map w dg)).
Proof.
  induction 1 as [|p q dx dg H _ IH]; [constructor|].
  cbn [map2 map]. constructor; assumption.
Qed.

Lemma SSLoss_scores_keep (self : region_loss) (B C : nat) (sp : list nat)
    (x y g : tensor R) :
  tensor_of (B :: C :: sp) x = true -> apply_nonlin self = None ->
  to_onehot x y = Ok g -> has_shape (B :: C :: sp) g = true -> binary g ->
  0 < smooth self ->
  Forall2 (fun p q => P ((q - p) ^ 2 * q) /\ P ((q - p) ^ 2 * (1 - q)))
    (data x) (data g) ->
  exists ss, SSLoss.scores self x y None = Ok ss /\
             has_shape (score_shape self B C) ss = true /\
             Forall P (data ss).
Proof.
  intros Hx Hnl Hg Hsg Hbin Hs Hpq.
  pose proof Hx as Hx'. apply tensor_of_inv in Hx'. destruct Hx' as [Hp Hsx].
  set (s := B :: C :: sp) in *.
  unfold SSLoss.scores. rewrite Hg, Hnl. cbn [bind nonlin].
  rewrite (has_shape_size s x Hp Hsx).
  unfold tsub, tmul.
  rewrite (tbin_same_shape Rminus s _ _ Hp Hsg Hsx). cbn [bind].
  pose proof (has_shape_zip_at Rminus s _ _ Hsg Hsx) as S1.
  pose proof (has_shape_tmap (fun v => v ^ 2) s _ S1) as S2.
  pose proof (has_shape_tmap (fun v => 1 - v) s _ Hsg) as S3.
  rewrite (tbin_same_shape Rmult s _ _ Hp S2 Hsg). cbn [bind].
  pose proof (has_shape_zip_at Rmult s _ _ S2 Hsg) as S4.
  assert (T : forall t : tensor R, has_shape s t = true -> tensor_of s t = true).
  { intros t Ht. unfold tensor_of. rewrite Hp, Ht. reflexivity. }
  assert (Hnn : forall t, has_shape s t = true ->
              Forall (fun v => 0 <= v) (data t) ->
              exists r, sum_tensor t (loss_axes self s) false = Ok r /\
                        has_shape (score_shape self B C) r = true /\
                        Forall (fun v => 0 <= v) (data r)).
  { intros t Ht Hd.
    apply (sum_tensor_loss_axes (fun v => 0 <= v) (fun v => 0 <= v) self B C sp t
             Rsum_nonneg (Rle_refl 0)
             (fun a b Ha Hb => Rplus_le_le_0_compat a b Ha Hb) (T t Ht) Hd). }
  assert (HP : forall t, has_shape s t = true -> Forall P (data t) ->
              exists r, sum_tensor t (loss_axes self s) false = Ok r /\
                        has_shape (score_shape self B C) r = true /\
                        Forall P (data r)).
  { intros t Ht Hd.
    apply (sum_tensor_loss_axes P P self B C sp t P_Rsum P_zero P_plus (T t Ht) Hd). }
  assert (Hdg : data g = map (fun q => q) (data g)) by (symmetry; apply map_id).
  destruct (HP _ S4) as (n1 & En1 & Sn1 & Dn1).
  { rewrite (data_zip_at Rmult s _ _ S2 Hsg), (data_tmap _ s _ S1).
    rewrite (data_zip_at Rminus s _ _ Hsg Hsx). rewrite Hdg at 2.
    apply weighted_errors. eapply Forall2_impl; [|exact Hpq].
    intros p q [H _]. exact H. }
  rewrite En1. cbn [bind].
  destruct (Hnn g Hsg) as (d1 & Ed1 & Sd1 & Dd1).
  { eapply Forall_impl; [|exact Hbin]. simpl. intros v [-> | ->]; lra. }
  rewrite Ed1. cbn [bind].
  apply tensor_of_inv in Hx. destruct Hx as [Hp' _].
  apply positive_cons in Hp'. destruct Hp' as [HB Hp'].
  apply positive_cons in Hp'. destruct Hp' as [HC _].
  pose proof (positive_score_shape self B C HB HC) as Hps.
  set (s' := score_shape self B C) in *.
  assert (Hratio : forall n d, has_shape s' n = true -> has_shape s' d = true ->
            Forall P (data n) -> Forall (fun v => 0 <= v) (data d) ->
            exists q, tdiv n (tmap (fun v => v + smooth self) d) = Ok q /\
                      has_shape s' q = true /\ Forall P (data q)).
  { intros n d Sn Sd Dn Dd. unfold tdiv.
    pose proof (has_shape_tmap (fun v => v + smooth self) s' d Sd) as Sd'.
    rewrite (tbin_same_shape Rdiv s' _ _ Hps Sn Sd').
    eexists. split; [reflexivity|]. split; [apply has_shape_zip_at; assumption|].
    rewrite (data_zip_at Rdiv s' _ _ Sn Sd'), (data_tmap _ s' d Sd).
    apply (Forall_map2 P (fun b => 0 < b) P Rdiv).
    - intros a b Ha Hb. apply P_div; assumption.
    - exact Dn.
    - apply Forall_map. eapply Forall_impl; [|exact Dd]. simpl. intros v Hv. lra. }
  destruct (Hratio n1 d1 Sn1 Sd1 Dn1 Dd1) as (q1 & Eq1 & Sq1 & Dq1).
  rewrite Eq1. cbn [bind].
  rewrite (tbin_same_shape Rmult s _ _ Hp S2 S3). cbn [bind].
  pose proof (has_shape_zip_at Rmult s _ _ S2 S3) as S5.
  destruct (HP _ S5) as (n2 & En2 & Sn2 & Dn2).
  { rewrite (data_zip_at Rmult s _ _ S2 S3), (data_tmap _ s _ S1).
    rewrite (data_zip_at Rminus s _ _ Hsg Hsx), (data_tmap _ s _ Hsg).
    apply weighted_errors. eapply Forall2_impl; [|exact Hpq].
    intros p q [_ H]. exact H. }
  rewrite En2. cbn [bind].
  destruct (Hnn _ S3) as (d2 & Ed2 & Sd2 & Dd2).
  { rewrite (data_tmap _ s _ Hsg). apply Forall_map.
    eapply Forall_impl; [|exact Hbin]. simpl. intros v [-> | ->]; lra. }
  rewrite Ed2. cbn [bind].
  destruct (Hratio n2 d2 Sn2 Sd2 Dn2 Dd2) as (q2 & Eq2 & Sq2 & Dq2).
  rewrite Eq2. cbn [bind]. unfold tadd.
  pose proof (has_shape_tmap (fun v => SSLoss.r * v) s' _ Sq1) as Sa.
  pose proof (has_shape_tmap (fun v => (1 - SSLoss.r) * v) s' _ Sq2) as Sb.
  rewrite (tbin_same_shape Rplus s' _ _ Hps Sa Sb).
  eexists. split; [reflexivity|]. split; [apply has_shape_zip_at; assumption|].
  rewrite (data_zip_at Rplus s' _ _ Sa Sb).
  rewrite (data_tmap _ s' _ Sq1), (data_tmap _ s' _ Sq2).
  apply (Forall_map2 P P P Rplus); [exact P_plus| |].
  - apply Forall_map. eapply Forall_impl; [|exact Dq1]. simpl. intros v Hv.
    apply P_scale; [unfold SSLoss.r; lra | exact Hv].
  - apply Forall_map. eapply Forall_impl; [|exact Dq2]. simpl. intros v Hv.
    apply P_scale; [unfold SSLoss.r; lra | exact Hv].
Qed.

Lemma mean_of_kept_scores (self : region_loss) (B C : nat) (dc : tensor R) :
  (0 < B)%nat -> (0 < C)%nat -> (do_bg self = false -> (2 <= C)%nat) ->
  has_shape (score_shape self B C) dc = true -> Forall P (data dc) ->
  exists d m, drop_bg self dc = Ok d /\ mean d = Scalar m /\ P m.
Proof.
  intros HB HC Hbg Hs Hd. unfold score_shape in Hs.
  assert (Hmean : forall s (d : tensor R), has_shape s d = true ->
            (0 < prod s)%nat -> Forall P (data d) ->
            exists m, mean d = Scalar m /\ P m).
  { intros s d Hsd Hpos HPd. unfold mean, sum_all. eexists.
    split; [reflexivity|]. apply P_div; [apply P_Rsum; exact HPd|].
    rewrite (numel_has_shape s d Hsd). apply lt_0_INR. exact Hpos. }
  destruct (do_bg self) eqn:Ebg.
  - assert (Hm : exists m, mean dc = Scalar m /\ P m)
      by (destruct (batch_dice self); eapply Hmean; eauto; simpl; nia).
    destruct Hm as (m & Hm & HPm). exists dc, m. unfold drop_bg. rewrite Ebg.
    repeat split; assumption.
  - specialize (Hbg eq_refl). destruct (batch_dice self) eqn:Ebd.
    + destruct (drop_bg_classes self C dc Ebg Ebd Hs) as (d & Hdd & Hsd & _ & HP).
      destruct (Hmean _ d Hsd) as (m & Hm & HPm); [simpl; lia | apply HP, Hd|].
      exists d, m. repeat split; assumption.
    + destruct (drop_bg_samples self B C dc Ebg Ebd Hs) as (d & Hdd & Hsd & _ & HP).
      destruct (Hmean _ d Hsd) as (m & Hm & HPm); [simpl; nia | apply HP, Hd|].
      exists d, m. repeat split; assumption.
Qed.

Lemma SSLoss_forward_keep (self : region_loss) (B C : nat) (sp : list nat)
    (x y g : tensor R) (mask : option (tensor R)) :
  tensor_of (B :: C :: sp) x = true -> apply_nonlin self = None ->
  to_onehot x y = Ok g -> has_shape (B :: C :: sp) g = true -> binary g ->
  0 < smooth self -> (do_bg self = false -> (2 <= C)%nat) ->
  Forall2 (fun p q => P ((q - p) ^ 2 * q) /\ P ((q - p) ^ 2 * (1 - q)))
    (data x) (data g) ->
  exists l, SSLoss.forward self x y mask = Ok (Scalar l) /\ P l.
Proof.
  intros Hx Hnl Hg Hsg Hbin Hs Hbg Hpq.
  destruct (SSLoss_scores_keep self B C sp x y g Hx Hnl Hg Hsg Hbin Hs Hpq)
    as (ss & Ess & Sss & Dss).
  apply tensor_of_inv in Hx. destruct Hx as [Hp _].
  apply positive_cons in Hp. destruct Hp as [HB Hp].
  apply positive_cons in Hp. destruct Hp as [HC _].
  destruct (mean_of_kept_scores self B C ss HB HC Hbg Sss Dss)
    as (d & m & Hd & Hm & HPm).
  exists m. split; [|exact HPm].
  exact (SSLoss_forward_after_scores self x y mask ss d m Ess Hd Hm).
Qed.
End SSLossScores.

Lemma Forall2_diag {A} (Q : A -> A -> Prop) (l : list A) :
  Forall (fun a => Q a a) l -> Forall2 Q l l.
Proof. induction 1; constructor; assumption. Qed.

(** X18: for a prediction without nonlinearity against a one-hot truth and
    a positive [smooth], [SSLoss] returns a value that is not negative,
    with or without a mask, and it returns 0 when the prediction is the
    truth. *)
Theorem SSLoss_nonneg_and_zero (self : region_loss) (B C : nat)
    (sp : list nat) (x y g : tensor R) (mask : option (tensor R)) :
  tensor_of (B :: C :: sp) x = true -> apply_nonlin self = None ->
  to_onehot x y = Ok g -> has_shape (B :: C :: sp) g = true -> binary g ->
  0 < smooth self -> (do_bg self = false -> (2 <= C)%nat) ->
  (exists l, SSLoss.forward self x y mask = Ok (Scalar l) /\ 0 <= l) /\
  (x = g -> SSLoss.forward self x y mask = Ok (Scalar 0)).
Proof.
  intros Hx Hnl Hg Hsg Hbin Hs Hbg. split.
  - apply (SSLoss_forward_keep (fun v => 0 <= v) (Rle_refl 0)
             (fun a b Ha Hb => Rplus_le_le_0_compat a b Ha Hb)
             (fun c a Hc Ha => Rmult_le_pos c a Hc Ha)
             self B C sp x y g mask Hx Hnl Hg Hsg Hbin Hs Hbg).
    pose proof Hx as Hx'. apply tensor_of_inv in Hx'. destruct Hx' as [_ Hsx].
    eapply Forall2_impl;
      [|apply (Forall2_of_Forall (fun _ : R => True) (fun q => q = 0 \/ q = 1))].
    + intros p q [_ Hq]. cbv beta.
      assert (0 <= (q - p) ^ 2) by apply pow2_ge_0.
      destruct Hq as [-> | ->]; split; nra.
    + pose proof (numel_has_shape _ x Hsx) as N1.
      pose proof (numel_has_shape _ g Hsg) as N2. unfold numel in *. congruence.
    + apply Forall_forall. intros; exact I.
    + exact Hbin.
  - intros E. subst g.
    assert (Hplus : forall a b : R, a = 0 -> b = 0 -> a + b = 0)
      by (intros a b -> ->; lra).
    assert (Hscale : forall c a : R, 0 <= c -> a = 0 -> c * a = 0)
      by (intros c a _ ->; lra).
    destruct (SSLoss_forward_keep (fun v => v = 0) eq_refl Hplus Hscale
                self B C sp x y x mask Hx Hnl Hg Hsg Hbin Hs Hbg)
      as (l & El & ->); [|exact El].
    apply Forall2_diag. apply Forall_forall. intros v _. split; simpl; lra.
Qed.

Lemma SSLoss_nonneg_and_zero_witness :
  (exists l, SSLoss.forward dice_loss pred1 truth1 None = Ok (Scalar l) /\
             0 <= l) /\
  SSLoss.forward dice_loss truth1 truth1 None = Ok (Scalar 0).
Proof.
  split.
  - apply (SSLoss_nonneg_and_zero dice_loss 1 2 [2%nat] pred1 truth1 truth1 None);
      try reflexivity; try discriminate; [|simpl; lra].
    unfold binary. simpl.
    repeat (apply Forall_cons; [first [left; reflexivity | right; reflexivity]|]).
    apply Forall_nil.
  - apply (SSLoss_nonneg_and_zero dice_loss 1 2 [2%nat] truth1 truth1 truth1 None);
      try reflexivity; try discriminate; [|simpl; lra].
    unfold binary. simpl.
    repeat (apply Forall_cons; [first [left; reflexivity | right; reflexivity]|]).
    apply Forall_nil.
Defined.

(** ** [FocalTversky_loss] and [AsymLoss] *)

Lemma torch_pow_unit (v g : R) : 0 <= v < 1 -> 0 < g -> 0 <= torch_pow v g < 1.
Proof.
  intros [H0 H1] Hg. unfold torch_pow.
  destruct (Rlt_dec 0 v) as [Hv|_]; [|lra].
  unfold Rpower. split; [left; apply exp_pos|].
  rewrite <- exp_0. apply exp_increasing.
  assert (Hln : ln v < 0) by (rewrite <- ln_1; apply ln_increasing; lra).
  nra.
Qed.

(** at a perfect prediction the Tversky and the asymmetric scores are 1 *)
Lemma perfect_Tversky_Asym (self : region_loss) (B C : nat)
    (sp : list nat) (x y : tensor R) :
  tensor_of (B :: C :: sp) x = true -> to_onehot x y = Ok x -> binary x ->
  apply_nonlin self = None -> 0 < smooth self ->
  (do_bg self = false -> (2 <= C)%nat) ->
  TverskyLoss.forward self x y None = Ok (Scalar (-1)) /\
  AsymLoss.forward self x y None = Ok (Scalar (-1)).
Proof.
  intros Hx Hg Hbin Hnl Hs Hbg.
  destruct (perfect_counts self B C sp x y Hx Hg Hbin)
    as (tp & fp & fn & Hc & Stp & Sfp & Sfn & Dtp & Dfp & Dfn).
  apply tensor_of_inv in Hx. destruct Hx as [Hp _].
  apply positive_cons in Hp. destruct Hp as [HB Hp].
  apply positive_cons in Hp. destruct Hp as [HC _].
  pose proof (positive_score_shape self B C HB HC) as Hps.
  set (s' := score_shape self B C) in *.
  assert (Ea : data tp = map (fun v => v) (data tp)) by (symmetry; apply map_id).
  split.
  - destruct (unit_scores s' (fun v => v + smooth self) (fun v => v)
                (smooth self) (tmap (fun v => v + smooth self) tp)
                tp (tmap (fun v => TverskyLoss.alpha * v) fp)
                (tmap (fun v => TverskyLoss.beta * v) fn) tp Hps Stp
                (has_shape_tmap _ _ _ Sfp) (has_shape_tmap _ _ _ Sfn)
                (has_shape_tmap _ _ _ Stp) Stp
                (data_tmap _ _ _ Stp) Ea Dtp
                (Forall_zero_scaled _ _ _ Sfp Dfp)
                (Forall_zero_scaled _ _ _ Sfn Dfn))
      as (dc & Edc & Sdc & Ddc).
    { intros t Ht. split; lra. }
    apply (forward_unit_scores self Ropp _ B C dc HB HC Hbg);
      [|exact Sdc|exact Ddc].
    unfold TverskyLoss.scores. rewrite Hnl. cbn [nonlin bind].
    rewrite Hc. cbn [bind]. exact Edc.
  - destruct (unit_scores s' (fun v => v + smooth self) (fun v => v)
                (smooth self) (tmap (fun v => v + smooth self) tp)
                tp (tmap (fun v => AsymLoss.beta ^ 2 / (1 + AsymLoss.beta ^ 2) * v) fn)
                (tmap (fun v => (1 - AsymLoss.beta ^ 2 / (1 + AsymLoss.beta ^ 2)) * v) fp)
                tp Hps Stp
                (has_shape_tmap _ _ _ Sfn) (has_shape_tmap _ _ _ Sfp)
                (has_shape_tmap _ _ _ Stp) Stp
                (data_tmap _ _ _ Stp) Ea Dtp
                (Forall_zero_scaled _ _ _ Sfn Dfn)
                (Forall_zero_scaled _ _ _ Sfp Dfp))
      as (dc & Edc & Sdc & Ddc).
    { intros t Ht. split; lra. }
    apply (forward_unit_scores self Ropp _ B C dc HB HC Hbg);
      [|exact Sdc|exact Ddc].
    unfold AsymLoss.scores. rewrite Hnl. cbn [nonlin bind].
    rewrite Hc. cbn [bind]. exact Edc.
Qed.

(** X19: for a prediction of probabilities against a one-hot truth (no
    nonlinearity, positive [smooth]) and a positive [gamma],
    [FocalTversky_loss] returns a value in [0, 1); at a perfect prediction
    it returns 0 and [AsymLoss] returns -1. *)
Theorem FocalTversky_loss_range (self : FocalTversky_loss.t) (B C : nat)
    (sp : list nat) (x y g : tensor R) :
  tensor_of (B :: C :: sp) x = true ->
  to_onehot x y = Ok g -> has_shape (B :: C :: sp) g = true ->
  unit_interval x -> binary g ->
  apply_nonlin (FocalTversky_loss.tversky self) = None ->
  0 < smooth (FocalTversky_loss.tversky self) ->
  (do_bg (FocalTversky_loss.tversky self) = false -> (2 <= C)%nat) ->
  0 < FocalTversky_loss.gamma self ->
  (exists f, FocalTversky_loss.forward self x y = Ok (Scalar f) /\ 0 <= f < 1) /\
  (x = g ->
   FocalTversky_loss.forward self x y = Ok (Scalar 0) /\
   AsymLoss.forward (FocalTversky_loss.tversky self) x y None = Ok (Scalar (-1))).
Proof.
  intros Hx Hg Hsg Hux Hbin Hnl Hs Hbg Hgamma. split.
  - destruct (overlap_bounds_after_nonlin (FocalTversky_loss.tversky self)
                B C sp x x y g Hx) as (_ & _ & [l [Hl Hlb]] & _); try assumption.
    { rewrite Hnl. reflexivity. }
    unfold FocalTversky_loss.forward. rewrite Hl. cbn [bind tmap].
    eexists. split; [reflexivity|]. apply torch_pow_unit; [lra | exact Hgamma].
  - intros E. subst g.
    destruct (perfect_Tversky_Asym (FocalTversky_loss.tversky self) B C sp x y
                Hx Hg Hbin Hnl Hs Hbg) as [HT HA].
    split; [|exact HA].
    unfold FocalTversky_loss.forward. rewrite HT. cbn [bind tmap].
    do 2 f_equal. replace (1 + -1) with 0 by lra.
    unfold torch_pow. destruct (Rlt_dec 0 0) as [H|_]; [lra | reflexivity].
Qed.

Lemma FocalTversky_loss_range_witness :
  (exists f, FocalTversky_loss.forward
               {| FocalTversky_loss.gamma := 0.75;
                  FocalTversky_loss.tversky := dice_loss |} pred1 truth1 =
               Ok (Scalar f) /\ 0 <= f < 1) /\
  FocalTversky_loss.forward
      {| FocalTversky_loss.gamma := 0.75; FocalTversky_loss.tversky := dice_loss |}
      truth1 truth1 = Ok (Scalar 0) /\
  AsymLoss.forward dice_loss truth1 truth1 None = Ok (Scalar (-1)).
Proof.
  assert (Hb : binary truth1).
  { unfold binary. simpl.
    repeat (apply Forall_cons; [first [left; reflexivity | right; reflexivity]|]).
    apply Forall_nil. }
  split.
  - apply (FocalTversky_loss_range
             {| FocalTversky_loss.gamma := 0.75;
                FocalTversky_loss.tversky := dice_loss |}
             1 2 [2%nat] pred1 truth1 truth1);
      try reflexivity; try discriminate; try exact Hb; try (simpl; lra).
    unfold unit_interval. simpl.
    repeat (apply Forall_cons; [lra|]). apply Forall_nil.
  - apply (FocalTversky_loss_range
             {| FocalTversky_loss.gamma := 0.75;
                FocalTversky_loss.tversky := dice_loss |}
             1 2 [2%nat] truth1 truth1 truth1);
      try reflexivity; try discriminate; try exact Hb; try (simpl; lra).
    unfold unit_interval. simpl.
    repeat (apply Forall_cons; [lra|]). apply Forall_nil.
Defined.

(** ** The generalised Dice losses *)

(** X20: [GDiceLoss] sums with the subscripts [bcxyz]: when the one-hot
    truth is not 5-d (a batch of 3-d images) the loss raises and returns no
    value, a RuntimeError once the nonlinearity has returned; so does
    [PenaltyGDiceLoss], which is built on it. *)
Theorem GDiceLoss_needs_5d (self : GDiceLoss.t) (smooth : R)
    (net_output gt g : tensor R) :
  to_onehot net_output gt = Ok g -> rank g <> 5%nat ->
  raises (GDiceLoss.forward self net_output gt) /\
  (forall x', nonlin (GDiceLoss.apply_nonlin self) net_output = Ok x' ->
     GDiceLoss.forward self net_output gt = Raise RuntimeError) /\
  raises (PenaltyGDiceLoss.forward smooth net_output gt).
Proof.
  intros Hg Hrk.
  assert (He : einsum_bcxyz_bc g = Raise RuntimeError).
  { unfold einsum_bcxyz_bc. destruct (Nat.eqb_spec (rank g) 5); [contradiction|].
    reflexivity. }
  assert (Hgen : forall s : GDiceLoss.t, raises (GDiceLoss.forward s net_output gt)).
  { intros s. unfold GDiceLoss.forward. rewrite Hg. cbn [bind].
    destruct (nonlin (GDiceLoss.apply_nonlin s) net_output) as [x'|e];
      cbn [bind]; [|apply raises_Raise].
    rewrite He. apply raises_Raise. }
  split; [apply Hgen|]. split.
  - intros x' Hx'. unfold GDiceLoss.forward. rewrite Hg. cbn [bind].
    rewrite Hx'. cbn [bind]. rewrite He. reflexivity.
  - unfold PenaltyGDiceLoss.forward. apply raises_bind_l. apply Hgen.
Qed.

Lemma GDiceLoss_needs_5d_witness :
  raises (GDiceLoss.forward
            {| GDiceLoss.apply_nonlin := None; GDiceLoss.smooth := 1 |}
            pred1 truth1) /\
  GDiceLoss.forward {| GDiceLoss.apply_nonlin := None; GDiceLoss.smooth := 1 |}
      pred1 truth1 = Raise RuntimeError /\
  raises (PenaltyGDiceLoss.forward 1 pred1 truth1).
Proof.
  destruct (GDiceLoss_needs_5d
              {| GDiceLoss.apply_nonlin := None; GDiceLoss.smooth := 1 |} 1
              pred1 truth1 truth1) as (H1 & H2 & H3).
  - reflexivity.
  - discriminate.
  - split; [exact H1|]. split; [|exact H3]. apply (H2 pred1). reflexivity.
Defined.

(** *** [flatten] *)

Lemma chunks_singletons {A} (d : list A) :
  chunks (length d) 1 d = map (fun x => [x]) d.
Proof.
  induction d as [|x d IH]; [reflexivity|].
  cbn [length chunks firstn skipn map]. rewrite IH. reflexivity.
Qed.

Lemma build_vector {A} (d : list A) :
  build [length d] d = Ok (Dim (map Scalar d)).
Proof.
  cbn [build prod fold_right]. rewrite chunks_singletons.
  rewrite (mapM_Ok_Forall2 _ _ (map Scalar d)); [reflexivity|].
  induction d as [|x d IH]; cbn [map]; constructor; [reflexivity | exact IH].
Qed.

(** [flatten] on [(N, C, *S)]: the row of a class holds the entries of the
    class in all the samples, sample after sample *)
Lemma flatten_rows (N C : nat) (sp : list nat) (t : tensor R) :
  tensor_of (N :: C :: sp) t = true ->
  flatten t = Ok (of_rows (map (flat_map data) (transpose_ll (cells t)))) /\
  rect C (N * prod sp) (map (flat_map data) (transpose_ll (cells t))).
Proof.
  intros Ht. apply tensor_of_inv in Ht. destruct Ht as [Hp Hs].
  pose proof Hp as Hp'. apply positive_cons in Hp'. destruct Hp' as [HN Hp'].
  apply positive_cons in Hp'. destruct Hp' as [HC _].
  destruct (cells_shape N C sp t Hs) as [Hrect Hcells].
  destruct N as [|N']; [lia|].
  pose proof (transpose_ll_rect N' C (cells t) Hrect) as [HTl HTr].
  pose proof (Forall_transpose_ll _ _ Hcells) as HTs.
  set (TT := transpose_ll (cells t)) in *.
  assert (Hrow : Forall (fun row => length (flat_map data row) = (S N' * prod sp)%nat) TT).
  { rewrite Forall_forall in HTr, HTs |- *. intros row Hin.
    specialize (HTr row Hin). specialize (HTs row Hin).
    rewrite <- HTr. clear -HTs. induction HTs as [|c row Hc _ IH]; [reflexivity|].
    cbn [flat_map length]. rewrite length_app, IH.
    pose proof (numel_has_shape sp c Hc) as Hn. unfold numel in Hn. lia. }
  split.
  - unfold flatten, size_at. rewrite (has_shape_size _ t Hp Hs).
    cbn [nth_error bind]. rewrite (swap01_shaped (S N') C sp t Hs). cbn [bind].
    fold TT. destruct (Nat.eqb_spec C 0) as [E|_]; [lia|].
    assert (Hnum : numel (Dim (map Dim TT)) = (C * (S N' * prod sp))%nat).
    { unfold numel. cbn [data]. rewrite flat_map_concat_map, map_map.
      rewrite <- HTl. clear -Hrow.
      induction Hrow as [|row TT Hr _ IH]; [reflexivity|].
      cbn [map concat length]. rewrite length_app. cbn [data].
      rewrite Hr. unfold data in IH. fold (@data R) in IH. rewrite IH. lia. }
    rewrite Hnum. rewrite Nat.mul_comm, Nat.Div0.mod_mul, Nat.div_mul by lia.
    cbn [Nat.eqb]. unfold view. rewrite Hnum. cbn [prod fold_right].
    rewrite Nat.mul_1_r, (Nat.mul_comm C), Nat.eqb_refl.
    cbn [build data prod fold_right]. rewrite Nat.mul_1_r.
    rewrite <- HTl at 1. rewrite <- (length_map Dim TT).
    rewrite chunks_data.
    + rewrite (mapM_Ok_Forall2 _ _ (map (fun row => Dim (map Scalar (flat_map data row))) TT)).
      * cbn [bind]. unfold of_rows. rewrite map_map. reflexivity.
      * clear -Hrow. induction Hrow as [|row TT Hr _ IH]; cbn [map]; constructor.
        -- cbn [data]. rewrite <- Hr. apply build_vector.
        -- exact IH.
    + apply Forall_map. exact Hrow.
  - split; [rewrite length_map; exact HTl|]. apply Forall_map. exact Hrow.
Qed.

Lemma sum_last_rows (M : list (list R)) :
  M <> [] -> tsum 1 false (of_rows M) = Ok (Dim (map Scalar (map Rsum M))).
Proof.
  intros _. unfold of_rows, tsum. rewrite sum_axis_succ.
  rewrite (mapM_Ok_map_in _ (fun t => Scalar (Rsum (data t)))).
  - cbn [bind]. rewrite !map_map. do 2 f_equal. apply map_ext.
    intros r. rewrite data_map_Scalar. reflexivity.
  - apply Forall_map. apply Forall_forall. intros r _.
    rewrite sum_axis0_scalars, data_map_Scalar. reflexivity.
Qed.

(** the sums of the rows of the flattened tensor are the sums over the
    samples of the spatial sums *)
Lemma row_sums_transpose (B C : nat) (sp : list nat) (G : list (list (tensor R))) :
  rect (S B) C G -> Forall (Forall (fun c => has_shape sp c = true)) G ->
  map Rsum (map (flat_map data) (transpose_ll G)) =
    column_sums C (map (map total) G).
Proof.
  revert G. induction B as [|B IH]; intros G HG Hsh.
  - destruct G as [|r [|r' G]]; destruct HG as [Hl Hall]; try discriminate Hl.
    apply Forall_cons_iff in Hall. destruct Hall as [Hr _].
    apply Forall_cons_iff in Hsh. destruct Hsh as [Hsr _].
    rewrite transpose_ll_one, !map_map. unfold column_sums. cbn [map fold_right].
    rewrite <- Hr, <- (length_map total r), map2_repeat_r, map_map.
    apply map_ext_in. intros x Hx. rewrite Forall_forall in Hsr.
    cbn [flat_map]. rewrite app_nil_r.
    rewrite (total_sum_all sp x (Hsr x Hx)). unfold sum_all. lra.
  - destruct G as [|r [|r' G]]; try (destruct HG as [Hl _]; discriminate Hl).
    apply rect_cons_inv in HG. destruct HG as [Hr HG'].
    apply Forall_cons_iff in Hsh. destruct Hsh as [Hsr Hsh'].
    specialize (IH (r' :: G) HG' Hsh').
    rewrite transpose_ll_cons, map_map.
    change (column_sums C (map (map total) (r :: r' :: G)))
      with (map2 Rplus (map total r) (column_sums C (map (map total) (r' :: G)))).
    rewrite <- IH, map_map, map_map2, map2_map_l, map2_map_r.
    apply map2_ext_Forall with (P := fun c => has_shape sp c = true)
                               (Q := fun _ => True).
    + intros x col Hx _. cbn [flat_map]. rewrite Rsum_app.
      rewrite (total_sum_all sp x Hx). reflexivity.
    + exact Hsr.
    + apply Forall_forall. intros; exact I.
Qed.

(** X21: [flatten] turns a tensor [(N, C, *S)] into [(C, N * prod S)], and
    the sums of its rows, [flatten(t).sum(-1)], are the sums that
    [sum_tensor] takes over the batch and the spatial axes. *)
Theorem flatten_row_sums (N C : nat) (sp : list nat) (t : tensor R) :
  tensor_of (N :: C :: sp) t = true ->
  (exists r, flatten t = Ok r /\ has_shape [C; (N * prod sp)%nat] r = true) /\
  (r <- flatten t ;; tsum 1 false r) =
    sum_tensor t (0%nat :: range 2 (length (N :: C :: sp))) false.
Proof.
  intros Ht. destruct (flatten_rows N C sp t Ht) as [Hf Hrect].
  pose proof Ht as Ht'. apply tensor_of_inv in Ht'. destruct Ht' as [Hp Hs].
  pose proof Hp as Hp'. apply positive_cons in Hp'. destruct Hp' as [HN Hp'].
  apply positive_cons in Hp'. destruct Hp' as [HC _].
  destruct (cells_shape N C sp t Hs) as [Hcr Hcs].
  split.
  - eexists. split; [exact Hf|]. apply has_shape_of_rows. exact Hrect.
  - rewrite Hf. cbn [bind]. rewrite (sum_tensor_batch_spatial N C sp t Ht).
    rewrite sum_last_rows.
    + destruct N as [|N']; [lia|].
      rewrite (row_sums_transpose N' C sp (cells t) Hcr Hcs). reflexivity.
    + destruct Hrect as [Hl _]. intros E. rewrite E in Hl. simpl in Hl. lia.
Qed.

Lemma flatten_row_sums_witness :
  (exists r, flatten pred1 = Ok r /\ has_shape [2; (1 * prod [2])]%nat r = true) /\
  (r <- flatten pred1 ;; tsum 1 false r) =
    sum_tensor pred1 (0%nat :: range 2 (length [1; 2; 2]%nat)) false.
Proof.
  apply (flatten_row_sums 1 2 [2%nat] pred1). reflexivity.
Defined.

(** *** [GDiceLossV2] *)

Lemma tbin_vectors (f : R -> R -> R) (a b : list R) :
  a <> [] -> length a = length b ->
  tbin f (Dim (map Scalar a)) (Dim (map Scalar b)) =
    Ok (Dim (map Scalar (map2 f a b))).
Proof.
  intros Hne Hlen.
  assert (Hp : positive [length a] = true).
  { destruct a; [contradiction|]. reflexivity. }
  pose proof (has_shape_vector a) as Ha. pose proof (has_shape_vector b) as Hb.
  rewrite <- Hlen in Hb.
  rewrite (tbin_same_shape f [length a] _ _ Hp Ha Hb). cbn [length].
  rewrite zip_at_scalars. reflexivity.
Qed.

Lemma sum_all_vector (l : list R) : sum_all (Dim (map Scalar l)) = Rsum l.
Proof. unfold sum_all. rewrite data_map_Scalar. reflexivity. Qed.

Lemma rank_of_rows (C K : nat) (M : list (list R)) :
  (0 < C)%nat -> (0 < K)%nat -> rect C K M -> rank (of_rows M) = 2%nat.
Proof.
  intros HC HK HM. unfold rank.
  rewrite (has_shape_size [C; K] _ (positive_2d C K HC HK)
             (has_shape_of_rows C K M HM)). reflexivity.
Qed.

Lemma rect_map2_rows {A B D} (C K : nat) (f : A -> B -> D)
    (X : list (list A)) (G : list (list B)) :
  rect C K X -> rect C K G -> rect C K (map2 (map2 f) X G).
Proof.
  intros [HX1 HX2] [HG1 HG2]. split.
  - rewrite length_map2 by congruence. exact HX1.
  - clear HX1 HG1. revert G HG2.
    induction HX2 as [|r X Hr _ IH]; intros G HG2; [constructor|].
    destruct HG2 as [|r' G Hr' HG2]; [constructor|].
    cbn [map2]. constructor; [|apply IH; exact HG2].
    rewrite length_map2 by congruence. exact Hr.
Qed.

(** the value of [GDiceLossV2.forward] in terms of the rows of the classes *)
Lemma GDiceLossV2_rows (self : GDiceLoss.t) (N C : nat) (sp : list nat)
    (x y g : tensor R) :
  tensor_of (N :: C :: sp) x = true -> to_onehot x y = Ok g ->
  has_shape (N :: C :: sp) g = true -> GDiceLoss.apply_nonlin self = None ->
  GDiceLossV2.forward self x y =
    Ok (Scalar (-2 * gdice_intersect (GDiceLoss.smooth self)
                       (class_rows x) (class_rows g) /
                Rmax (gdice_denominator (GDiceLoss.smooth self)
                        (class_rows x) (class_rows g))
                     (GDiceLoss.smooth self))).
Proof.
  intros Hx Hg Hsg Hnl.
  pose proof Hx as Hx'. apply tensor_of_inv in Hx'. destruct Hx' as [Hp Hsx].
  assert (Hgt : tensor_of (N :: C :: sp) g = true)
    by (unfold tensor_of; rewrite Hp, Hsg; reflexivity).
  destruct (flatten_rows N C sp x Hx) as [Fx Rx].
  destruct (flatten_rows N C sp g Hgt) as [Fg Rg].
  fold (class_rows x) in Fx, Rx. fold (class_rows g) in Fg, Rg.
  pose proof Hp as Hp'. apply positive_cons in Hp'. destruct Hp' as [HN Hp'].
  apply positive_cons in Hp'. destruct Hp' as [HC Hps].
  assert (HK : (0 < N * prod sp)%nat) by (pose proof (positive_prod sp Hps); nia).
  set (K := (N * prod sp)%nat) in *.
  set (X := class_rows x) in *. set (G := class_rows g) in *.
  assert (Hne : forall (A : Type) (M : list (list A)), rect C K M -> M <> []).
  { intros A M [Hl _] E. rewrite E in Hl. simpl in Hl. lia. }
  assert (Hlen : forall M : list (list R), rect C K M -> length (map Rsum M) = C).
  { intros M [Hl _]. rewrite length_map. exact Hl. }
  assert (Hne' : forall M : list (list R), rect C K M -> map Rsum M <> []).
  { intros M HM E. pose proof (Hlen M HM) as L. rewrite E in L. simpl in L. lia. }
  unfold GDiceLossV2.forward. rewrite Hg, Hnl. cbn [bind nonlin].
  rewrite Fx, Fg. cbn [bind].
  rewrite (rank_of_rows C K G HC HK Rg). cbn [Nat.sub].
  rewrite (sum_last_rows G (Hne _ G Rg)). cbn [bind].
  unfold tmul, tadd.
  rewrite (tbin_vectors Rmult _ _ (Hne' G Rg) eq_refl). cbn [bind].
  rewrite tmap_map_Scalar.
  rewrite (tbin_of_rows Rmult C K X G HC HK Rx Rg). cbn [bind].
  pose proof (rect_map2_rows C K Rmult X G Rx Rg) as Rm.
  pose proof (rect_map2_rows C K Rplus X G Rx Rg) as Ra.
  rewrite (rank_of_rows C K _ HC HK Rm). cbn [Nat.sub].
  rewrite (sum_last_rows _ (Hne _ _ Rm)). cbn [bind].
  assert (HW : length (gdice_weights (GDiceLoss.smooth self) G) = C).
  { unfold gdice_weights. rewrite length_map, length_map2 by reflexivity.
    apply Hlen. exact Rg. }
  fold (gdice_weights (GDiceLoss.smooth self) G).
  rewrite (tbin_vectors Rmult _ _ (Hne' _ Rm))
    by (rewrite HW; apply Hlen; exact Rm).
  cbn [bind]. rewrite sum_all_vector.
  rewrite (tbin_of_rows Rplus C K X G HC HK Rx Rg). cbn [bind].
  rewrite (rank_of_rows C K _ HC HK Ra). cbn [Nat.sub].
  rewrite (sum_last_rows _ (Hne _ _ Ra)). cbn [bind].
  rewrite (tbin_vectors Rmult _ _ (Hne' _ Ra))
    by (rewrite HW; apply Hlen; exact Ra).
  cbn [bind]. rewrite sum_all_vector. reflexivity.
Qed.

Lemma class_rows_Forall (P : R -> Prop) (N C : nat) (sp : list nat) (t : tensor R) :
  has_shape (N :: C :: sp) t = true -> Forall P (data t) ->
  Forall (Forall P) (class_rows t).
Proof.
  intros Hs Hd. rewrite (data_cells N C sp t Hs) in Hd.
  assert (Hc : Forall (Forall (fun c => Forall P (data c))) (cells t)).
  { apply Forall_flat_map in Hd. eapply Forall_impl; [|exact Hd].
    intros row Hrow. apply Forall_flat_map in Hrow. exact Hrow. }
  apply Forall_transpose_ll in Hc. unfold class_rows. apply Forall_map.
  eapply Forall_impl; [|exact Hc]. intros col Hcol.
  apply Forall_flat_map. exact Hcol.
Qed.

Lemma row_overlap (xs gs : list R) :
  Forall (fun v => 0 <= v <= 1) xs -> Forall (fun v => v = 0 \/ v = 1) gs ->
  0 <= Rsum (map2 Rmult xs gs) /\
  2 * Rsum (map2 Rmult xs gs) <= Rsum (map2 Rplus xs gs).
Proof.
  intros Hx. revert gs. induction Hx as [|x xs Hx0 _ IH]; intros gs Hg.
  - simpl. lra.
  - destruct Hg as [|q gs Hq Hg]; [simpl; lra|].
    destruct (IH gs Hg) as [I1 I2]. cbn [map2 Rsum fold_right].
    unfold Rsum in I1, I2. destruct Hq as [-> | ->]; split; lra.
Qed.

Lemma rows_overlap (X G : list (list R)) :
  Forall (Forall (fun v => 0 <= v <= 1)) X ->
  Forall (Forall (fun v => v = 0 \/ v = 1)) G ->
  Forall2 (fun a b => 0 <= a /\ 2 * a <= b)
    (map Rsum (map2 (map2 Rmult) X G)) (map Rsum (map2 (map2 Rplus) X G)).
Proof.
  intros HX. revert G. induction HX as [|xs X Hxs _ IH]; intros G HG;
    [constructor|].
  destruct HG as [|gs G Hgs HG]; [constructor|].
  cbn [map2 map]. constructor; [apply row_overlap; assumption | apply IH; exact HG].
Qed.

Lemma weighted_overlap (A D W : list R) :
  Forall2 (fun a b => 0 <= a /\ 2 * a <= b) A D -> Forall (fun w => 0 <= w) W ->
  0 <= Rsum (map2 Rmult A W) /\
  2 * Rsum (map2 Rmult A W) <= Rsum (map2 Rmult D W).
Proof.
  intros H. revert W. induction H as [|a b A D [Ha Hab] _ IH]; intros W HW.
  - simpl. lra.
  - destruct HW as [|w W Hw HW]; [simpl; lra|].
    destruct (IH W HW) as [I1 I2]. cbn [map2 Rsum fold_right].
    unfold Rsum in I1, I2. split; nra.
Qed.

Lemma gdice_weights_nonneg (smooth : R) (G : list (list R)) :
  0 < smooth -> Forall (fun w => 0 <= w) (gdice_weights smooth G).
Proof.
  intros Hs. unfold gdice_weights. apply Forall_map, Forall_forall.
  intros v _. pose proof (Rmax_r v smooth) as Hm.
  unfold Rdiv. rewrite Rmult_1_l. left. apply Rinv_0_lt_compat. lra.
Qed.

(** X22: without nonlinearity, for a prediction of probabilities
    [(N, C, *S)] against a one-hot truth and a positive [smooth],
    [GDiceLossV2] returns [-2 I / max(D, smooth)], [I] and [D] being the
    class-weighted sums of the products and of the sums of the flattened
    rows, and the value lies in [-1, 0]. *)
Theorem GDiceLossV2_range (self : GDiceLoss.t) (N C : nat) (sp : list nat)
    (x y g : tensor R) :
  tensor_of (N :: C :: sp) x = true -> to_onehot x y = Ok g ->
  has_shape (N :: C :: sp) g = true -> unit_interval x -> binary g ->
  GDiceLoss.apply_nonlin self = None -> 0 < GDiceLoss.smooth self ->
  exists l,
    GDiceLossV2.forward self x y = Ok (Scalar l) /\
    l = -2 * gdice_intersect (GDiceLoss.smooth self) (class_rows x) (class_rows g) /
        Rmax (gdice_denominator (GDiceLoss.smooth self) (class_rows x) (class_rows g))
             (GDiceLoss.smooth self) /\
    -1 <= l <= 0.
Proof.
  intros Hx Hg Hsg Hux Hbin Hnl Hs.
  eexists. split; [apply (GDiceLossV2_rows self N C sp x y g); assumption|].
  split; [reflexivity|].
  pose proof Hx as Hx'. apply tensor_of_inv in Hx'. destruct Hx' as [_ Hsx].
  pose proof (class_rows_Forall _ N C sp x Hsx Hux) as HX.
  pose proof (class_rows_Forall _ N C sp g Hsg Hbin) as HG.
  destruct (weighted_overlap _ _ _ (rows_overlap _ _ HX HG)
              (gdice_weights_nonneg (GDiceLoss.smooth self) (class_rows g) Hs))
    as [I1 I2].
  fold (gdice_intersect (GDiceLoss.smooth self) (class_rows x) (class_rows g)) in I1, I2.
  fold (gdice_denominator (GDiceLoss.smooth self) (class_rows x) (class_rows g)) in I2.
  set (I := gdice_intersect _ _ _) in *. set (D := gdice_denominator _ _ _) in *.
  pose proof (Rmax_l D (GDiceLoss.smooth self)) as M1.
  pose proof (Rmax_r D (GDiceLoss.smooth self)) as M2.
  set (m := Rmax D (GDiceLoss.smooth self)) in *.
  assert (Hm : 0 < m) by lra.
  assert (Hq : 0 <= 2 * I / m <= 1).
  { split.
    - apply Rmult_le_pos; [lra|]. left. apply Rinv_0_lt_compat. exact Hm.
    - apply (Rmult_le_reg_r m); [exact Hm|].
      unfold Rdiv. rewrite Rmult_assoc, Rinv_l by lra. lra. }
  replace (-2 * I / m) with (- (2 * I / m)) by (unfold Rdiv; lra). lra.
Qed.

Lemma GDiceLossV2_range_witness :
  exists l,
    GDiceLossV2.forward {| GDiceLoss.apply_nonlin := None; GDiceLoss.smooth := 1 |}
        pred1 truth1 = Ok (Scalar l) /\
    l = -2 * gdice_intersect 1 (class_rows pred1) (class_rows truth1) /
        Rmax (gdice_denominator 1 (class_rows pred1) (class_rows truth1)) 1 /\
    -1 <= l <= 0.
Proof.
  apply (GDiceLossV2_range
           {| GDiceLoss.apply_nonlin := None; GDiceLoss.smooth := 1 |}
           1 2 [2%nat] pred1 truth1 truth1).
  - reflexivity.
  - reflexivity.
  - reflexivity.
  - unfold unit_interval. simpl.
    repeat (apply Forall_cons; [lra|]). apply Forall_nil.
  - unfold binary. simpl.
    repeat (apply Forall_cons; [first [left; reflexivity | right; reflexivity]|]).
    apply Forall_nil.
  - reflexivity.
  - simpl. lra.
Defined.

(** ** [TopKLoss]: the selected voxels *)

Lemma Forall_insert_down (P : R -> Prop) (x : R) (l : list R) :
  P x -> Forall P l -> Forall P (insert_down x l).
Proof.
  intros Hx Hl. apply (Permutation_Forall (insert_down_perm x l)).
  constructor; assumption.
Qed.

Lemma insert_down_desc (x : R) (l : list R) :
  descending l -> descending (insert_down x l).
Proof.
  induction l as [|y l IH]; intros Hd.
  - simpl. split; [constructor | exact I].
  - destruct Hd as [Hy Hd]. cbn [insert_down].
    destruct (Rle_dec y x) as [Hyx|Hyx].
    + split; [|split; assumption]. constructor; [exact Hyx|].
      eapply Forall_impl; [|exact Hy]. simpl. intros b Hb. lra.
    + split; [|apply IH; exact Hd].
      apply Forall_insert_down; [lra | exact Hy].
Qed.

Lemma sort_down_desc (l : list R) : descending (sort_down l).
Proof.
  induction l as [|x l IH]; [exact I|]. apply insert_down_desc. exact IH.
Qed.

Lemma Rsum_bounded_above (a : R) (l : list R) :
  Forall (fun b => b <= a) l -> Rsum l <= INR (length l) * a.
Proof.
  induction 1 as [|b l Hb _ IH]; [simpl; lra|].
  cbn [Rsum fold_right length]. rewrite S_INR. unfold Rsum in IH. lra.
Qed.

Lemma Forall_skipn {A} (P : A -> Prop) (k : nat) (l : list A) :
  Forall P l -> Forall P (skipn k l).
Proof.
  intros H. rewrite <- (firstn_skipn k l) in H. apply Forall_app in H. apply H.
Qed.

(** the mean of the first entries of a decreasing list is at least the mean
    of the list *)
Lemma prefix_sum_descending (l : list R) (k : nat) :
  descending l -> (k <= length l)%nat ->
  INR k * Rsum l <= INR (length l) * Rsum (firstn k l).
Proof.
  revert k. induction l as [|a l IH]; intros k Hd Hk.
  - destruct k; simpl; lra.
  - destruct k as [|k]; [simpl; lra|].
    destruct Hd as [Ha Hd]. cbn [length] in Hk.
    specialize (IH k Hd ltac:(lia)).
    cbn [firstn Rsum fold_right length]. rewrite !S_INR.
    fold (Rsum l). fold (Rsum (firstn k l)).
    assert (Hsplit : Rsum l = Rsum (firstn k l) + Rsum (skipn k l)).
    { rewrite <- (firstn_skipn k l) at 1. apply Rsum_app. }
    pose proof (Rsum_bounded_above a _ (Forall_skipn _ k l Ha)) as Hrest.
    rewrite length_skipn, minus_INR in Hrest by lia.
    nra.
Qed.

Lemma prefix_mean_descending (l : list R) (k : nat) :
  descending l -> (0 < k <= length l)%nat ->
  Rsum l / INR (length l) <= Rsum (firstn k l) / INR k.
Proof.
  intros Hd [Hk0 Hk]. pose proof (prefix_sum_descending l k Hd Hk) as H.
  assert (Hn : 0 < INR (length l)) by (apply lt_0_INR; lia).
  assert (Hk' : 0 < INR k) by (apply lt_0_INR; exact Hk0).
  apply (Rmult_le_reg_r (INR (length l) * INR k)); [nra|].
  unfold Rdiv.
  replace (Rsum l * / INR (length l) * (INR (length l) * INR k))
    with (INR k * Rsum l * (INR (length l) * / INR (length l))) by ring.
  replace (Rsum (firstn k l) * / INR k * (INR (length l) * INR k))
    with (INR (length l) * Rsum (firstn k l) * (INR k * / INR k)) by ring.
  rewrite !Rinv_r by lra. lra.
Qed.

(** X23: [TopKLoss] with a percentage [k] keeps the [int(n * k / 100)]
    largest of the [n] voxel losses of its parent and returns their mean;
    when at least one voxel is kept ([n * k >= 100], [k <= 100]) this mean
    is at least the mean of all the voxel losses. *)
Theorem TopKLoss_at_least_mean (w : option (list R)) (ignored k : Z)
    (inp target : tensor R) (ls : list R) :
  (labels <- select0_axis1 target ;;
   CrossentropyND.forward
     {| weight := w; ignore_index := ignored; reduction := reduction_none |}
     inp (tmap IZR (long labels))) = Ok (Dim (map Scalar ls)) ->
  (0 <= k <= 100)%Z -> (100 <= Z.of_nat (length ls) * k)%Z ->
  let kept := Z.to_nat (Z.quot (Z.of_nat (length ls) * k) 100) in
  TopKLoss.forward (TopKLoss.init w ignored k) inp target =
    Ok (Scalar (Rsum (firstn kept (sort_down ls)) / INR kept)) /\
  (0 < kept <= length ls)%nat /\
  Rsum ls / INR (length ls) <= Rsum (firstn kept (sort_down ls)) / INR kept.
Proof.
  intros Hres Hk Hn kept.
  assert (Hq : (1 <= Z.quot (Z.of_nat (length ls) * k) 100 <= Z.of_nat (length ls))%Z).
  { split.
    - apply Z.quot_le_lower_bound; lia.
    - apply Z.quot_le_upper_bound; [lia|]. nia. }
  assert (Hkept : (0 < kept <= length ls)%nat) by (unfold kept; lia).
  pose proof (sort_down_perm ls) as HP.
  split; [|split; [exact Hkept|]].
  - unfold TopKLoss.forward, TopKLoss.init. cbn [TopKLoss.ce TopKLoss.k].
    destruct (select0_axis1 target) as [labels|e]; cbn [bind] in Hres |- *;
      [|discriminate].
    rewrite Hres. cbn [bind]. rewrite size_map_Scalar.
    unfold topk. rewrite entries_view_flat, data_map_Scalar. cbn [bind].
    destruct (Z.ltb_spec (Z.quot (Z.of_nat (length ls) * k) 100) 0); [lia|].
    destruct (Z.ltb_spec (Z.of_nat (length ls))
                (Z.quot (Z.of_nat (length ls) * k) 100)); [lia|].
    cbn [orb bind]. fold kept. rewrite mean_map_Scalar.
    rewrite length_firstn, <- (Permutation_length HP), Nat.min_l by lia.
    reflexivity.
  - rewrite (Rsum_perm _ _ HP), (Permutation_length HP).
    apply prefix_mean_descending; [apply sort_down_desc|].
    rewrite <- (Permutation_length HP). exact Hkept.
Qed.

Lemma TopKLoss_example :
  exists ls : list R,
    (labels <- select0_axis1 (of_rows [[1]; [0]]) ;;
     CrossentropyND.forward
       {| weight := None; ignore_index := -100; reduction := reduction_none |}
       (of_rows [[0; 0]; [1; 0]]) (tmap IZR (long labels))) =
      Ok (Dim (map Scalar ls)) /\ length ls = 2%nat.
Proof.
  unfold of_rows. cbn -[trunc ln exp IZR].
  rewrite (trunc_IZR 1), (trunc_IZR 0).
  cbn -[trunc ln exp IZR].
  rewrite (trunc_IZR 1), (trunc_IZR 0).
  cbn -[trunc ln exp IZR].
  eexists [_; _]. split; reflexivity.
Qed.

Lemma TopKLoss_at_least_mean_witness :
  exists ls : list R,
    TopKLoss.forward (TopKLoss.init None (-100) 50) (of_rows [[0; 0]; [1; 0]])
        (of_rows [[1]; [0]]) =
      Ok (Scalar (Rsum (firstn 1 (sort_down ls)) / INR 1)) /\
    Rsum ls / INR (length ls) <= Rsum (firstn 1 (sort_down ls)) / INR 1.
Proof.
  destruct TopKLoss_example as (ls & Hres & Hlen). exists ls.
  destruct (TopKLoss_at_least_mean None (-100) 50 (of_rows [[0; 0]; [1; 0]])
              (of_rows [[1]; [0]]) ls Hres) as (H1 & _ & H3).
  - lia.
  - rewrite Hlen. lia.
  - rewrite Hlen in H1, H3 |- *. split; [exact H1 | exact H3].
Defined.

(** ** The rows of logits of a batch of 1-d images *)

Lemma transpose_ll_map {A B} (f : A -> B) (G : list (list A)) :
  transpose_ll (map (map f) G) = map (map f) (transpose_ll G).
Proof.
  induction G as [|r G IH]; [reflexivity|].
  destruct G as [|r' G].
  - cbn [map]. rewrite !transpose_ll_one, !map_map. reflexivity.
  - change (map (map f) (r :: r' :: G))
      with (map f r :: map f r' :: map (map f) G).
    rewrite !transpose_ll_cons.
    change (map f r' :: map (map f) G) with (map (map f) (r' :: G)).
    rewrite IH, map2_map_l, map2_map_r, map_map2. reflexivity.
Qed.

Lemma swap01_of_rows {A} (C S : nat) (M : list (list A)) :
  rect C S M -> swap01 (of_rows M) = Ok (of_rows (transpose_ll M)).
Proof.
  intros [HC HS]. unfold swap01, of_rows. cbn [undim bind].
  rewrite (mapM_Ok_map_in undim subs).
  - cbn [bind]. rewrite map_map. cbn [subs].
    rewrite transpose_ll_map, map_map. reflexivity.
  - apply Forall_map. apply Forall_forall. intros r _. reflexivity.
Qed.

Lemma chunks_concat {A} (C : nat) (rows : list (list A)) :
  Forall (fun r => length r = C) rows ->
  chunks (length rows) C (concat rows) = rows.
Proof.
  induction 1 as [|r rows Hr _ IH]; [reflexivity|].
  cbn [length chunks concat].
  assert (E1 : firstn C (r ++ concat rows) = r).
  { rewrite <- Hr, firstn_app, Nat.sub_diag, firstn_all. apply app_nil_r. }
  assert (E2 : skipn C (r ++ concat rows) = concat rows).
  { rewrite <- Hr, skipn_app, Nat.sub_diag, skipn_all. reflexivity. }
  rewrite E1, E2, IH. reflexivity.
Qed.

(** [view(-1, C)] of rows of length [C] laid end to end *)
Lemma build_rows (C : nat) (rows : list (list R)) :
  Forall (fun r => length r = C) rows ->
  build [length rows; C] (concat rows) = Ok (of_rows rows).
Proof.
  intros H. cbn [build prod fold_right]. rewrite Nat.mul_1_r.
  rewrite (chunks_concat C rows H).
  rewrite (mapM_Ok_Forall2 _ _ (map (fun r => Dim (map Scalar r)) rows));
    [reflexivity|].
  induction H as [|r rows Hr _ IH]; cbn [map]; constructor; [|exact IH].
  pose proof (build_vector r) as E. rewrite Hr in E.
  cbn [build prod fold_right] in E |- *. exact E.
Qed.

Lemma length_concat_rect {A} (n k : nat) (G : list (list A)) :
  rect n k G -> length (concat G) = (n * k)%nat.
Proof.
  intros [Hn Hk]. subst n. induction Hk as [|r G Hr _ IH]; [reflexivity|].
  cbn [concat length]. rewrite length_app, IH, Hr. lia.
Qed.

Lemma rows_of_samples (B C S : nat) (Ms : list (list (list R))) :
  (0 < C)%nat -> length Ms = B -> Forall (rect C S) Ms ->
  rect (B * S) C (concat (map transpose_ll Ms)) /\
  flat_map (fun M => data (of_rows (transpose_ll M))) Ms =
    concat (concat (map transpose_ll Ms)).
Proof.
  intros HC HB HMs. subst B. induction HMs as [|M Ms HM _ IH].
  - split; [split; [reflexivity | constructor] | reflexivity].
  - destruct IH as [[IH1 IH2] IH3].
    destruct C as [|C']; [lia|].
    pose proof (transpose_ll_rect C' S M HM) as [HT1 HT2].
    cbn [map concat flat_map length]. split; [split|].
    + rewrite length_app, IH1, HT1. lia.
    + apply Forall_app. split; assumption.
    + rewrite concat_app, IH3, data_of_rows. reflexivity.
Qed.

(** X24: on a batch [(B, C, S)] of 1-d images the loop of
    [CrossentropyND.forward] exchanges the class axis with the spatial one
    once, and the view [(-1, C)] has one row of [C] logits per voxel: the
    rows of sample [b] are the columns of its [(C, S)] matrix, sample after
    sample. *)
Theorem voxel_rows_of_1d_images (B C S : nat) (Ms : list (list (list R))) :
  (0 < B)%nat -> (0 < C)%nat -> (0 < S)%nat ->
  length Ms = B -> Forall (rect C S) Ms ->
  class_axis_last (Dim (map of_rows Ms)) =
    Ok (Dim (map (fun M => of_rows (transpose_ll M)) Ms)) /\
  voxel_rows (Dim (map of_rows Ms)) = Ok (concat (map transpose_ll Ms)) /\
  rect (B * S) C (concat (map transpose_ll Ms)).
Proof.
  intros HB HC HS HlB HMs.
  destruct (rows_of_samples B C S Ms HC HlB HMs) as [Hrows Hdata].
  assert (Hp : positive [B; C; S] = true).
  { apply positive_cons. split; [exact HB|]. apply positive_2d; assumption. }
  assert (Hp' : positive [B; S; C] = true).
  { apply positive_cons. split; [exact HB|]. apply positive_2d; assumption. }
  assert (Hs : has_shape [B; C; S] (Dim (map of_rows Ms)) = true).
  { apply has_shape_Dim. rewrite length_map. split; [exact HlB|].
    apply Forall_map. eapply Forall_impl; [|exact HMs].
    intros M HM. apply has_shape_of_rows. exact HM. }
  assert (Hs' : has_shape [B; S; C]
                  (Dim (map (fun M => of_rows (transpose_ll M)) Ms)) = true).
  { apply has_shape_Dim. rewrite length_map. split; [exact HlB|].
    apply Forall_map. eapply Forall_impl; [|exact HMs].
    intros M HM. apply has_shape_of_rows.
    destruct C as [|C']; [lia|]. apply (transpose_ll_rect C' S M HM). }
  assert (Hswap : mapM (fun t : tensor R => swap01 t) (map of_rows Ms) =
                  Ok (map (fun M => of_rows (transpose_ll M)) Ms)).
  { apply mapM_Ok_Forall2. clear -HMs.
    induction HMs as [|M Ms HM _ IH]; cbn [map]; constructor; [|exact IH].
    apply (swap01_of_rows C S M HM). }
  assert (Hcal : class_axis_last (Dim (map of_rows Ms)) =
                 Ok (Dim (map (fun M => of_rows (transpose_ll M)) Ms))).
  { unfold class_axis_last, rank. rewrite (has_shape_size _ _ Hp Hs).
    cbn [length class_axis_loop]. unfold rank at 1.
    rewrite (has_shape_size _ _ Hp Hs). cbn [length Nat.ltb Nat.leb].
    unfold transpose, rank. rewrite (has_shape_size _ _ Hp Hs).
    cbn [length Nat.min Nat.max Nat.leb Nat.sub axis_up axis_down transpose_adj
         undim bind].
    rewrite Hswap. cbn [bind].
    rewrite (has_shape_size _ _ Hp' Hs'). reflexivity. }
  split; [exact Hcal|]. split; [|exact Hrows].
  unfold voxel_rows, voxel_logits, size_at.
  rewrite (has_shape_size _ _ Hp Hs). cbn [nth_error bind].
  rewrite Hcal. cbn [bind].
  assert (Hd : data (Dim (map (fun M => of_rows (transpose_ll M)) Ms)) =
               concat (concat (map transpose_ll Ms))).
  { cbn [data]. rewrite flat_map_concat_map, map_map, <- flat_map_concat_map.
    exact Hdata. }
  unfold view_rows. destruct (Nat.eqb_spec C 0) as [E|_]; [lia|].
  unfold numel. rewrite Hd, (length_concat_rect _ _ _ Hrows).
  rewrite Nat.Div0.mod_mul, Nat.div_mul by lia. cbn [Nat.eqb].
  unfold view, numel. rewrite Hd, (length_concat_rect _ _ _ Hrows).
  cbn [prod fold_right]. rewrite Nat.mul_1_r, Nat.eqb_refl.
  destruct Hrows as [Hl Hc]. rewrite <- Hl at 1.
  rewrite (build_rows C _ Hc). cbn [bind]. apply rows_of_of_rows.
Qed.

Lemma voxel_rows_of_1d_images_witness :
  class_axis_last (Dim (map of_rows [[[1; 2]; [3; 4]]])) =
    Ok (Dim (map (fun M => of_rows (transpose_ll M)) [[[1; 2]; [3; 4]]])) /\
  voxel_rows (Dim (map of_rows [[[1; 2]; [3; 4]]])) =
    Ok (concat (map transpose_ll [[[1; 2]; [3; 4]]])) /\
  rect (1 * 2) 2 (concat (map transpose_ll [[[1; 2]; [3; 4]]])).
Proof.
  apply (voxel_rows_of_1d_images 1 2 2 [[[1; 2]; [3; 4]]]); try lia.
  - reflexivity.
  - repeat constructor.
Defined.

(** ** [GDiceLoss] on a batch of 3-d images *)

Lemma tsum_pos_axis (ax : nat) (k : bool) (t : tensor R) :
  ax <> 0%nat -> tsum ax k t = sum_axis ax k t.
Proof.
  intros Hax. destruct t as [x|l]; [|reflexivity].
  destruct ax as [|ax]; [contradiction | reflexivity].
Qed.

Lemma einsum_spatial_sums (B C X Y Z : nat) (t : tensor R) :
  tensor_of [B; C; X; Y; Z] t = true ->
  einsum_bcxyz_bc t = Ok (of_rows (spatial_sums t)).
Proof.
  intros Ht. apply tensor_of_inv in Ht. destruct Ht as [Hp Hs].
  unfold einsum_bcxyz_bc, rank. rewrite (has_shape_size _ t Hp Hs).
  cbn [length Nat.eqb negb].
  pose proof (sum_loop_spatial [X; Y; Z] B C t Hp Hs) as H.
  unfold sum_loop in H. cbn [length seq rev app fold_left bind] in H.
  rewrite !tsum_pos_axis in H by discriminate.
  destruct (sum_axis 4 false t) as [t1|e]; [|cbn [bind] in H; discriminate H].
  cbn [bind] in H |- *. rewrite !tsum_pos_axis in H by discriminate.
  destruct (sum_axis 3 false t1) as [t2|e]; [|cbn [bind] in H; discriminate H].
  cbn [bind] in H |- *. rewrite !tsum_pos_axis in H by discriminate. exact H.
Qed.

Lemma einsum_bc_b_rows (B C : nat) (M : list (list R)) :
  (0 < B)%nat -> (0 < C)%nat -> rect B C M ->
  einsum_bc_b (of_rows M) = Ok (Dim (map Scalar (map Rsum M))).
Proof.
  intros HB HC HM. unfold einsum_bc_b.
  rewrite (rank_of_rows B C M HB HC HM). cbn [Nat.eqb negb].
  assert (Hne : M <> []) by (destruct HM as [Hl _]; intros E; rewrite E in Hl;
                             simpl in Hl; lia).
  pose proof (sum_last_rows M Hne) as H. unfold of_rows, tsum in H |- *. exact H.
Qed.

(** the spatial sums of a pointwise combination, cell by cell *)
Lemma spatial_sums_zip (f : R -> R -> R) (B C : nat) (sp : list nat)
    (x g : tensor R) :
  has_shape (B :: C :: sp) x = true -> has_shape (B :: C :: sp) g = true ->
  spatial_sums (zip_at (length (B :: C :: sp)) f x g) =
    map2 (map2 (fun cx cg => total (zip_at (length sp) f cx cg)))
      (cells x) (cells g).
Proof.
  intros Hx Hg.
  apply has_shape_cons_inv in Hx. destruct Hx as (lx & -> & Hlx & Hallx).
  apply has_shape_cons_inv in Hg. destruct Hg as (lg & -> & Hlg & Hallg).
  cbn [length]. rewrite zip_at_succ. unfold spatial_sums, cells. cbn [subs].
  clear Hlx Hlg. revert lg Hallg.
  induction Hallx as [|rx lx Hrx _ IH]; intros lg Hallg; [reflexivity|].
  destruct Hallg as [|rg lg Hrg Hallg]; [reflexivity|].
  cbn [map2 map]. rewrite IH by exact Hallg. f_equal.
  apply has_shape_cons_inv in Hrx. destruct Hrx as (cx & -> & _ & _).
  apply has_shape_cons_inv in Hrg. destruct Hrg as (cg & -> & _ & _).
  rewrite zip_at_succ. cbn [subs]. apply map_map2.
Qed.

Lemma gd_rows_fold (s : R) (CX CG : list (list (tensor R))) :
  map2 Rdiv
    (map (fun v => -2 * (v + s))
       (map Rsum
          (map2 (map2 Rmult) (map (map gdice_w) (map (map total) CG))
             (map2 (map2 (fun cx cg => total (zip_at 3 Rmult cx cg))) CX CG))))
    (map (fun v => v + s)
       (map Rsum
          (map2 (map2 Rmult) (map (map gdice_w) (map (map total) CG))
             (map2 (map2 Rplus) (map (map total) CX) (map (map total) CG))))) =
  map2 (fun rowx rowg =>
          -2 * (gd_intersection rowx rowg + s) / (gd_union rowx rowg + s))
    CX CG.
Proof.
  revert CG. induction CX as [|rowx CX IH]; intros [|rowg CG];
    try reflexivity.
  cbn [map map2]. rewrite IH. reflexivity.
Qed.

(** the value of [GDiceLoss.forward], sample by sample *)
Lemma GDiceLoss_rows (self : GDiceLoss.t) (B C X Y Z : nat) (x y g : tensor R) :
  tensor_of [B; C; X; Y; Z] x = true -> to_onehot x y = Ok g ->
  has_shape [B; C; X; Y; Z] g = true -> GDiceLoss.apply_nonlin self = None ->
  GDiceLoss.forward self x y =
    Ok (Scalar (1 - Rsum (map2 (fun rowx rowg =>
                                  -2 * (gd_intersection rowx rowg +
                                        GDiceLoss.smooth self) /
                                  (gd_union rowx rowg + GDiceLoss.smooth self))
                            (cells x) (cells g)) / INR B)).
Proof.
  intros Hx Hg Hsg Hnl.
  pose proof Hx as Hx'. apply tensor_of_inv in Hx'. destruct Hx' as [Hp Hsx].
  set (s := [B; C; X; Y; Z]) in *.
  assert (T : forall t : tensor R, has_shape s t = true -> tensor_of s t = true).
  { intros t Ht. unfold tensor_of. rewrite Hp, Ht. reflexivity. }
  pose proof Hp as Hp'. apply positive_cons in Hp'. destruct Hp' as [HB Hp'].
  apply positive_cons in Hp'. destruct Hp' as [HC _].
  pose proof (has_shape_zip_at Rmult s x g Hsx Hsg) as Hsz.
  change (length s) with 5%nat in Hsz.
  assert (RG : rect B C (spatial_sums g)) by (apply (spatial_sums_length B C [X; Y; Z]); exact Hsg).
  assert (RX : rect B C (spatial_sums x)) by (apply (spatial_sums_length B C [X; Y; Z]); exact Hsx).
  assert (RI : rect B C (spatial_sums (zip_at 5 Rmult x g)))
    by (apply (spatial_sums_length B C [X; Y; Z]); exact Hsz).
  assert (RW : rect B C (map (map gdice_w) (spatial_sums g))).
  { apply rect_map_rows; [exact RG|]. intros r Hr. rewrite length_map. exact Hr. }
  unfold GDiceLoss.forward. rewrite Hg, Hnl. cbn [bind nonlin].
  rewrite (einsum_spatial_sums B C X Y Z g (T g Hsg)). cbn [bind].
  change (fun v : R => 1 / (v + 1e-10) ^ 2) with gdice_w.
  rewrite tmap_of_rows.
  unfold einsum_bcxyz_bcxyz_bc, rank.
  rewrite (has_shape_size s x Hp Hsx), (has_shape_size s g Hp Hsg).
  change (length s) with 5%nat. cbn [Nat.eqb andb negb]. unfold tmul, tadd.
  rewrite (tbin_same_shape Rmult s x g Hp Hsx Hsg). cbn [bind].
  change (length s) with 5%nat.
  rewrite (einsum_spatial_sums B C X Y Z _ (T _ Hsz)). cbn [bind].
  rewrite (tbin_of_rows Rmult B C _ _ HB HC RW RI). cbn [bind].
  rewrite (einsum_spatial_sums B C X Y Z x (T x Hsx)). cbn [bind].
  rewrite (tbin_of_rows Rplus B C _ _ HB HC RX RG). cbn [bind].
  pose proof (rect_map2_rows B C Rplus _ _ RX RG) as RU.
  rewrite (tbin_of_rows Rmult B C _ _ HB HC RW RU). cbn [bind].
  pose proof (rect_map2_rows B C Rmult _ _ RW RI) as RWI.
  pose proof (rect_map2_rows B C Rmult _ _ RW RU) as RWU.
  rewrite (einsum_bc_b_rows B C _ HB HC RWI). cbn [bind].
  rewrite (einsum_bc_b_rows B C _ HB HC RWU). cbn [bind].
  rewrite !tmap_map_Scalar. unfold tdiv.
  assert (LI : length (map Rsum (map2 (map2 Rmult) (map (map gdice_w) (spatial_sums g))
                                   (spatial_sums (zip_at 5 Rmult x g)))) = B).
  { rewrite length_map. apply RWI. }
  assert (LU : length (map Rsum (map2 (map2 Rmult) (map (map gdice_w) (spatial_sums g))
                                   (map2 (map2 Rplus) (spatial_sums x) (spatial_sums g)))) = B).
  { rewrite length_map. apply RWU. }
  rewrite tbin_vectors.
  - cbn [bind]. rewrite mean_map_Scalar. cbn [tmap]. do 2 f_equal.
    pose proof (spatial_sums_zip Rmult B C [X; Y; Z] x g Hsx Hsg) as Ez.
    cbn [length] in Ez. rewrite Ez.
    unfold spatial_sums.
    rewrite gd_rows_fold.
    destruct (cells_shape B C [X; Y; Z] x Hsx) as [[Lx _] _].
    destruct (cells_shape B C [X; Y; Z] g Hsg) as [[Lg _] _].
    rewrite length_map2 by congruence. rewrite Lx. reflexivity.
  - intros E. apply (f_equal (@length R)) in E. rewrite length_map, LI in E.
    simpl in E. lia.
  - rewrite !length_map in *. congruence.
Qed.

Lemma Rsum_map2_plus (a b : list R) :
  length a = length b -> Rsum (map2 Rplus a b) = Rsum a + Rsum b.
Proof.
  revert b. induction a as [|x a IH]; intros [|y b] H; try discriminate H.
  - simpl. lra.
  - cbn [map2 Rsum fold_right]. injection H as H. specialize (IH b H).
    unfold Rsum in IH. rewrite IH. lra.
Qed.

Lemma gdice_w_nonneg (v : R) : 0 <= gdice_w v.
Proof.
  unfold gdice_w. pose proof (pow2_ge_0 (v + 1e-10)) as Hp.
  set (d := (v + 1e-10) ^ 2) in *. unfold Rdiv. rewrite Rmult_1_l.
  destruct (Req_dec d 0) as [E|E].
  - rewrite E, Rinv_0. lra.
  - left. apply Rinv_0_lt_compat. lra.
Qed.

Lemma cell_overlap (sp : list nat) (cx cg : tensor R) :
  length sp = 3%nat ->
  has_shape sp cx = true -> has_shape sp cg = true ->
  Forall (fun v => 0 <= v <= 1) (data cx) ->
  Forall (fun v => v = 0 \/ v = 1) (data cg) ->
  0 <= total (zip_at 3 Rmult cx cg) /\
  2 * total (zip_at 3 Rmult cx cg) <= total cx + total cg.
Proof.
  intros Hl Hx Hg Dx Dg.
  pose proof (has_shape_zip_at Rmult sp cx cg Hx Hg) as Hz.
  pose proof (data_zip_at Rmult sp cx cg Hx Hg) as Dz.
  rewrite Hl in Hz, Dz.
  rewrite (total_sum_all sp _ Hz), (total_sum_all sp _ Hx), (total_sum_all sp _ Hg).
  unfold sum_all. rewrite Dz.
  destruct (row_overlap _ _ Dx Dg) as [H1 H2].
  rewrite Rsum_map2_plus in H2.
  - split; assumption.
  - pose proof (numel_has_shape sp cx Hx) as N1.
    pose proof (numel_has_shape sp cg Hg) as N2. unfold numel in *. congruence.
Qed.

Lemma gd_sample_overlap (sp : list nat) (rowx rowg : list (tensor R)) :
  length sp = 3%nat ->
  Forall (fun c => has_shape sp c = true /\
                   Forall (fun v => 0 <= v <= 1) (data c)) rowx ->
  Forall (fun c => has_shape sp c = true /\
                   Forall (fun v => v = 0 \/ v = 1) (data c)) rowg ->
  0 <= gd_intersection rowx rowg /\
  2 * gd_intersection rowx rowg <= gd_union rowx rowg.
Proof.
  intros Hl Hx. revert rowg. unfold gd_intersection, gd_union.
  induction Hx as [|cx rowx [Sx Dx] _ IH]; intros rowg Hg.
  - destruct rowg; simpl; lra.
  - destruct Hg as [|cg rowg [Sg Dg] Hg]; [simpl; lra|].
    destruct (IH rowg Hg) as [I1 I2].
    destruct (cell_overlap sp cx cg Hl Sx Sg Dx Dg) as [C1 C2].
    pose proof (gdice_w_nonneg (total cg)) as Hw.
    cbn [map map2 Rsum fold_right]. unfold Rsum in I1, I2. split; nra.
Qed.

Lemma cells_facts (P : R -> Prop) (B C : nat) (sp : list nat) (t : tensor R) :
  has_shape (B :: C :: sp) t = true -> Forall P (data t) ->
  Forall (Forall (fun c => has_shape sp c = true /\ Forall P (data c))) (cells t).
Proof.
  intros Hs Hd. destruct (cells_shape B C sp t Hs) as [_ Hsh].
  rewrite (data_cells B C sp t Hs) in Hd. apply Forall_flat_map in Hd.
  rewrite Forall_forall in Hsh, Hd |- *. intros row Hrow.
  specialize (Hsh row Hrow). specialize (Hd row Hrow).
  apply Forall_flat_map in Hd.
  rewrite Forall_forall in Hsh, Hd |- *. intros c Hc. split; auto.
Qed.

Lemma mean_in_interval (a b : R) (l : list R) :
  Forall (fun v => a <= v < b) l -> l <> [] ->
  a <= Rsum l / INR (length l) < b.
Proof.
  intros H Hne.
  assert (Hs : INR (length l) * a <= Rsum l < INR (length l) * b).
  { assert (Hs' : INR (length l) * a <= Rsum l /\
                  (l <> [] -> Rsum l < INR (length l) * b)).
    { clear Hne.
      induction H as [|v l Hv _ [IH1 IH2]]; [split; [simpl; lra | congruence]|].
      cbn [Rsum fold_right length]. rewrite S_INR. unfold Rsum in IH1, IH2 |- *.
      split; [lra|]. intros _. destruct l as [|w l].
      - simpl. lra.
      - specialize (IH2 ltac:(discriminate)). lra. }
    destruct Hs' as [H1 H2]. split; [exact H1|]. apply H2.
    exact Hne. }
  assert (Hn : 0 < INR (length l)).
  { apply lt_0_INR. destruct l; [contradiction | simpl; lia]. }
  destruct Hs as [H1 H2]. split.
  - apply (Rmult_le_reg_r (INR (length l))); [exact Hn|].
    unfold Rdiv. rewrite Rmult_assoc, Rinv_l by lra. lra.
  - apply (Rmult_lt_reg_r (INR (length l))); [exact Hn|].
    unfold Rdiv. rewrite Rmult_assoc, Rinv_l by lra. lra.
Qed.

(** X25: on a batch [(B, C, X, Y, Z)] of probabilities against a one-hot
    truth (no nonlinearity, positive [smooth]) [GDiceLoss] returns
    [1 - gdc], where [gdc] is the mean over the samples of
    [-2 (I + smooth) / (U + smooth)] and lies in [-2, 0): the returned
    value is larger than 1 and at most 3. *)
Theorem GDiceLoss_above_one (self : GDiceLoss.t) (B C X Y Z : nat)
    (x y g : tensor R) :
  tensor_of [B; C; X; Y; Z] x = true -> to_onehot x y = Ok g ->
  has_shape [B; C; X; Y; Z] g = true -> unit_interval x -> binary g ->
  GDiceLoss.apply_nonlin self = None -> 0 < GDiceLoss.smooth self ->
  exists l,
    GDiceLoss.forward self x y = Ok (Scalar l) /\
    l = 1 - Rsum (map2 (fun rowx rowg =>
                          -2 * (gd_intersection rowx rowg + GDiceLoss.smooth self) /
                          (gd_union rowx rowg + GDiceLoss.smooth self))
                    (cells x) (cells g)) / INR B /\
    1 < l <= 3.
Proof.
  intros Hx Hg Hsg Hux Hbin Hnl Hs.
  eexists. split; [apply (GDiceLoss_rows self B C X Y Z x y g); assumption|].
  split; [reflexivity|].
  pose proof Hx as Hx'. apply tensor_of_inv in Hx'. destruct Hx' as [Hp Hsx].
  apply positive_cons in Hp. destruct Hp as [HB _].
  pose proof (cells_facts _ B C [X; Y; Z] x Hsx Hux) as FX.
  pose proof (cells_facts _ B C [X; Y; Z] g Hsg Hbin) as FG.
  destruct (cells_shape B C [X; Y; Z] x Hsx) as [[Lx _] _].
  destruct (cells_shape B C [X; Y; Z] g Hsg) as [[Lg _] _].
  set (D := map2 _ (cells x) (cells g)).
  assert (HD : Forall (fun d => -2 <= d < 0) D).
  { unfold D. eapply Forall_map2; [|exact FX|exact FG].
    intros rowx rowg Hrx Hrg. cbv beta.
    destruct (gd_sample_overlap [X; Y; Z] rowx rowg eq_refl Hrx Hrg) as [I1 I2].
    set (I := gd_intersection rowx rowg) in *. set (U := gd_union rowx rowg) in *.
    assert (HU : 0 < U + GDiceLoss.smooth self) by lra.
    assert (Hq : 0 < (I + GDiceLoss.smooth self) / (U + GDiceLoss.smooth self) <= 1).
    { split.
      - apply Rdiv_lt_0_compat; lra.
      - apply (Rmult_le_reg_r (U + GDiceLoss.smooth self)); [exact HU|].
        unfold Rdiv. rewrite Rmult_assoc, Rinv_l by lra. lra. }
    replace (-2 * (I + GDiceLoss.smooth self) / (U + GDiceLoss.smooth self))
      with (-2 * ((I + GDiceLoss.smooth self) / (U + GDiceLoss.smooth self)))
      by (unfold Rdiv; ring).
    lra. }
  assert (LD : length D = B) by (unfold D; rewrite length_map2; congruence).
  assert (Hne : D <> []) by (intros E; rewrite E in LD; simpl in LD; lia).
  pose proof (mean_in_interval (-2) 0 D HD Hne) as Hm. rewrite LD in Hm. lra.
Qed.

Lemma GDiceLoss_above_one_witness :
  exists l,
    GDiceLoss.forward {| GDiceLoss.apply_nonlin := None; GDiceLoss.smooth := 1 |}
        (voxel5 0.5) (voxel5 1) = Ok (Scalar l) /\
    l = 1 - Rsum (map2 (fun rowx rowg =>
                          -2 * (gd_intersection rowx rowg + 1) /
                          (gd_union rowx rowg + 1))
                    (cells (voxel5 0.5)) (cells (voxel5 1))) / INR 1 /\
    1 < l <= 3.
Proof.
  apply (GDiceLoss_above_one
           {| GDiceLoss.apply_nonlin := None; GDiceLoss.smooth := 1 |}
           1 1 1 1 1 (voxel5 0.5) (voxel5 1) (voxel5 1)).
  - reflexivity.
  - reflexivity.
  - reflexivity.
  - unfold unit_interval. simpl.
    repeat (apply Forall_cons; [lra|]). apply Forall_nil.
  - unfold binary. simpl.
    repeat (apply Forall_cons; [first [left; reflexivity | right; reflexivity]|]).
    apply Forall_nil.
  - reflexivity.
  - simpl. lra.
Defined.

(** ** Label maps without a channel axis *)

Lemma with_channel_shape {A} (B : nat) (sp : list nat) (y : tensor A) :
  has_shape (B :: sp) y = true ->
  has_shape (B :: 1%nat :: sp) (with_channel y) = true /\
  data (with_channel y) = data y.
Proof.
  intros Hy. apply has_shape_cons_inv in Hy. destruct Hy as (l & -> & Hl & Hall).
  unfold with_channel. cbn [subs]. split.
  - apply has_shape_Dim. rewrite length_map. split; [exact Hl|].
    apply Forall_map. eapply Forall_impl; [|exact Hall]. intros t Ht.
    apply has_shape_Dim. split; [reflexivity|]. constructor; [exact Ht|constructor].
  - cbn [data]. clear. induction l as [|t l IH]; [reflexivity|].
    cbn [map flat_map data]. rewrite IH, app_nil_r. reflexivity.
Qed.

(** X26: a label map [(B, *S)] that lacks the channel axis is viewed as
    [(B, 1, *S)] before it is encoded: the encoding is that of the map with
    the channel axis, a tensor of zeros and ones of the prediction's
    shape. *)
Theorem to_onehot_without_channel (B C : nat) (sp : list nat) (x y : tensor R) :
  tensor_of (B :: C :: sp) x = true -> C <> 1%nat ->
  has_shape (B :: sp) y = true -> labels_in_range C y ->
  exists g : tensor R,
    to_onehot x y = Ok g /\ to_onehot x (with_channel y) = Ok g /\
    has_shape (B :: C :: sp) g = true /\ binary g.
Proof.
  intros Hx HC Hy Hr.
  destruct (with_channel_shape B sp y Hy) as [Hy' Hd].
  assert (Hr' : labels_in_range C (with_channel y)).
  { unfold labels_in_range. rewrite Hd. exact Hr. }
  destruct (to_onehot_label_map_binary B C sp x (with_channel y) Hx HC Hy' Hr')
    as (g & Hg & Hsg & Hbin).
  exists g. split; [|split; [exact Hg|split; assumption]].
  rewrite <- Hg. pose proof Hx as Hx'. apply tensor_of_inv in Hx'.
  destruct Hx' as [Hp Hsx].
  pose proof Hp as Hp'. apply positive_cons in Hp'. destruct Hp' as [HB Hp'].
  apply positive_cons in Hp'. destruct Hp' as [_ Hps].
  assert (Hpy : positive (B :: sp) = true)
    by (apply positive_cons; split; assumption).
  assert (Hpy' : positive (B :: 1%nat :: sp) = true).
  { apply positive_cons. split; [exact HB|]. apply positive_cons. split; [lia|exact Hps]. }
  unfold to_onehot.
  rewrite (has_shape_size _ x Hp Hsx), (has_shape_size _ y Hpy Hy),
          (has_shape_size _ _ Hpy' Hy').
  cbn [length]. rewrite Nat.eqb_refl.
  destruct (Nat.eqb_spec (S (S (length sp))) (S (length sp))) as [E|_]; [lia|].
  cbn [negb]. unfold view.
  rewrite (numel_has_shape _ y Hy).
  assert (Hprod : prod (B :: 1%nat :: sp) = prod (B :: sp)).
  { cbn [prod fold_right]. lia. }
  rewrite Hprod, Nat.eqb_refl, <- Hd, (build_data _ _ Hy'). reflexivity.
Qed.

Lemma to_onehot_without_channel_witness :
  exists g : tensor R,
    to_onehot pred1 (Dim [Dim [Scalar 1; Scalar 0]]) = Ok g /\
    to_onehot pred1 (with_channel (Dim [Dim [Scalar 1; Scalar 0]])) = Ok g /\
    has_shape [1; 2; 2]%nat g = true /\ binary g.
Proof.
  apply (to_onehot_without_channel 1 2 [2%nat] pred1
           (Dim [Dim [Scalar 1; Scalar 0]])).
  - reflexivity.
  - discriminate.
  - reflexivity.
  - unfold labels_in_range. cbn -[trunc].
    repeat (apply Forall_cons; [rewrite trunc_IZR; lia|]). apply Forall_nil.
Defined.

(** ** [compute_edts_forPenalizedLoss] on a batch of one sample *)

Lemma filter_not_one (sp : list nat) :
  Forall (fun n => (1 < n)%nat) sp ->
  filter (fun n => negb (n =? 1)%nat) sp = sp.
Proof.
  induction 1 as [|n sp Hn _ IH]; [reflexivity|].
  cbn [filter]. destruct (Nat.eqb_spec n 1); [lia|]. cbn [negb].
  rewrite IH. reflexivity.
Qed.

Lemma positive_above_one (sp : list nat) :
  Forall (fun n => (1 < n)%nat) sp -> positive sp = true.
Proof.
  induction 1 as [|n sp Hn _ IH]; [reflexivity|].
  apply positive_cons. split; [lia | exact IH].
Qed.

(** X27: [np.squeeze] removes every axis of length 1, the batch axis of a
    batch of one sample included: on a mask [(1, 1, *S)] with all spatial
    lengths above 1 the squeezed array is the image itself, and the loop
    over [GT.shape[0]] runs over the slices of the first spatial axis of
    that image, as if each were a sample. *)
Theorem compute_edts_single_sample
    (distance_transform_edt : tensor bool -> result (tensor R))
    (sp : list nat) (img : tensor bool) :
  sp <> [] -> Forall (fun n => (1 < n)%nat) sp -> has_shape sp img = true ->
  np_squeeze (Dim [Dim [img]]) = Ok img /\
  compute_edts_forPenalizedLoss distance_transform_edt (Dim [Dim [img]]) =
    (res <- mapM (fun posmask =>
                    v <- edt_of_sample distance_transform_edt posmask ;;
                    np_assign_row (inner_size img) v) (subs img) ;;
     Ok (Dim res)).
Proof.
  intros Hne Hsp Hs. pose proof (positive_above_one sp Hsp) as Hp.
  assert (Hsq : np_squeeze (Dim [Dim [img]]) = Ok img).
  { unfold np_squeeze. cbn [size length]. rewrite (has_shape_size sp img Hp Hs).
    cbn [filter Nat.eqb negb]. rewrite (filter_not_one sp Hsp).
    unfold view, numel. cbn [data flat_map]. rewrite !app_nil_r.
    pose proof (numel_has_shape sp img Hs) as Hn. unfold numel in Hn.
    rewrite Hn, Nat.eqb_refl. apply build_data. exact Hs. }
  split; [exact Hsq|].
  unfold compute_edts_forPenalizedLoss. rewrite Hsq. cbn [bind].
  destruct sp as [|n sp]; [contradiction|].
  apply has_shape_cons_inv in Hs. destruct Hs as (l & -> & _ & _).
  reflexivity.
Qed.

Lemma compute_edts_single_sample_witness :
  np_squeeze (Dim [Dim [Dim [Dim [Scalar true; Scalar false];
                             Dim [Scalar false; Scalar false]]]]) =
    Ok (Dim [Dim [Scalar true; Scalar false]; Dim [Scalar false; Scalar false]]) /\
  compute_edts_forPenalizedLoss edt0
      (Dim [Dim [Dim [Dim [Scalar true; Scalar false];
                      Dim [Scalar false; Scalar false]]]]) =
    (res <- mapM (fun posmask =>
                    v <- edt_of_sample edt0 posmask ;;
                    np_assign_row
                      (inner_size (Dim [Dim [Scalar true; Scalar false];
                                        Dim [Scalar false; Scalar false]])) v)
              (subs (Dim [Dim [Scalar true; Scalar false];
                          Dim [Scalar false; Scalar false]])) ;;
     Ok (Dim res)).
Proof.
  apply (compute_edts_single_sample edt0 [2%nat; 2%nat]).
  - discriminate.
  - repeat constructor.
  - reflexivity.
Defined.

(** ** The composite losses at a sample input *)

(** the parts of the composite losses return on one voxel with two classes *)
Lemma DC_parts_example :
  exists d c c' : R,
    SoftDiceLoss.forward (soft_dice false true 1 false)
        (Dim [Dim [Scalar 0; Scalar 0]]) (Dim [Dim [Scalar 1]]) None =
      Ok (Scalar d) /\
    CrossentropyND.forward default_ce
        (Dim [Dim [Scalar 0; Scalar 0]]) (Dim [Dim [Scalar 1]]) =
      Ok (Scalar c) /\
    TopKLoss.forward (TopKLoss.init None (-100) 100)
        (Dim [Dim [Scalar 0; Scalar 0]]) (Dim [Dim [Scalar 1]]) =
      Ok (Scalar c').
Proof.
  do 3 eexists. split; [|split].
  - unfold SoftDiceLoss.forward, SoftDiceLoss.scores, soft_dice.
    cbn -[trunc ln exp IZR Rmax get_tp_fp_fn].
    unfold get_tp_fp_fn, to_onehot. cbn -[trunc ln exp IZR Rmax].
    rewrite (trunc_IZR 1). cbn -[trunc ln exp IZR Rmax]. reflexivity.
  - unfold CrossentropyND.forward, default_ce.
    cbn -[trunc ln exp IZR Rmax].
    rewrite (trunc_IZR 1). cbn -[trunc ln exp IZR Rmax]. reflexivity.
  - unfold TopKLoss.forward, TopKLoss.init, CrossentropyND.forward.
    cbn -[trunc ln exp IZR Rmax].
    rewrite (trunc_IZR 1). cbn -[trunc ln exp IZR Rmax].
    rewrite (trunc_IZR 1). cbn -[trunc ln exp IZR Rmax]. reflexivity.
Qed.

Lemma DC_losses_sum_or_raise_witness :
  let x := Dim [Dim [Scalar 0; Scalar 0]] in
  let y := Dim [Dim [Scalar 1]] in
  exists d c : R,
    SoftDiceLoss.forward (soft_dice false true 1 false) x y None = Ok (Scalar d) /\
    CrossentropyND.forward default_ce x y = Ok (Scalar c) /\
    DC_and_CE_loss.forward example_sum_loss x y = Ok (Scalar (c + d)) /\
    DC_and_topk_loss.forward example_mean_topk_all x y =
      Raise NotImplementedError /\
    DC_and_CE_loss.forward example_sum_loss x y =
      (dc_loss <- SoftDiceLoss.forward (soft_dice false true 1 false) x y None ;;
       ce_loss <- CrossentropyND.forward default_ce x y ;;
       tadd ce_loss dc_loss) /\
    raises (DC_and_topk_loss.forward example_mean_topk x y).
Proof.
  intros x y. destruct DC_parts_example as (d & c & c' & Hd & Hc & Hc').
  exists d, c. fold x y in Hd, Hc, Hc'.
  destruct (DC_losses_sum_or_raise example_sum_loss example_mean_topk_all x y)
    as (H1 & H2 & H3 & _ & _ & _).
  destruct (DC_losses_sum_or_raise example_sum_loss example_mean_topk x y)
    as (_ & _ & _ & _ & _ & H6 & _).
  destruct (H1 (Scalar d) (Scalar c) Hd Hc) as [Hsum _].
  destruct (H2 (Scalar d) (Scalar c') Hd Hc') as [_ Hraise].
  split; [exact Hd|]. split; [exact Hc|]. split; [|split; [|split]].
  - rewrite (Hsum eq_refl). apply tadd_scalars.
  - apply Hraise. discriminate.
  - apply H3. reflexivity.
  - apply H6. discriminate.
Defined.
